(** * RelayPlane MCP server: workflow engine, budget tracker and run store

    A shallow embedding of the TypeScript sources
      - [src/budget/tracker.ts]            (module [Tracker])
      - [src/budget/estimator.ts]          (module [Estimator])
      - [src/tools/run-store.ts]           (module [RunStore])
      - [src/tools/relay-runs-list.ts]     (module [RelayRunsList])
      - [src/tools/relay-run.ts]           (module [RelayRun])
      - [src/tools/relay-workflow-run.ts]  (module [RelayWorkflowRun])
      - [src/tools/relay-workflow-validate.ts] (module [RelayWorkflowValidate])
      - [src/config.ts]                    (module [Config])
      - [src/tools/relay-run-get.ts]       (module [RunHistory])
    followed by the properties proved about them.

    Modelling conventions.
      - A JavaScript [number] holding money is a rational [Q] (exact
        arithmetic; binary rounding is not modelled); token and call counts
        and millisecond timestamps are integers [Z].  What is stated about
        sums of money is stated as the code computes them, one addition
        after the other in the order of the calls.
      - A [string] is a JavaScript string whose UTF-16 code units are all
        below 256, one character of the model per code unit; [length] and
        indices count code units.
      - A plain object used as a map (the step results and the context of a
        workflow run) is an [Obj]: its own properties in the order in which
        JavaScript enumerates them, and the prototype an assignment to
        [__proto__] has given it.
      - What a property read finds further up the prototype chain, in the
        objects of the platform, is decided by a [Platform], as is the text
        [JSON.stringify] prints.  Such a read is taken to return a value:
        the two inherited accessors of a function whose read throws,
        [caller] and [arguments], are not modelled.
      - The module-level variables [budgetState] and [runs] live in a
        [World] that every effectful function threads explicitly.
      - The wall clock is an oracle [clock : nat -> Z]: the [k]-th
        [new Date()] evaluated on behalf of the tracker returns [clock k]
        milliseconds since the epoch.  The world counts the readings taken.
      - A provider HTTP call is an oracle too; the world logs every request
        that was sent.
      - Error messages are kept as structured values of type [Message]
        instead of rendered text. *)

From Stdlib Require Import QArith Qminmax Lqa ZArith Lia Ascii String.
From stdpp Require Import base tactics option list sets gmap strings pretty relations.

Local Open Scope Z_scope.

Set Warnings "-clear-no-such-hyp".

(* ===================================================================== *)
(** * Shared data *)
(* ===================================================================== *)

(** JavaScript values as far as JSON data and property reads need them.  A
    number is carried by its canonical decimal text, the text that both
    [String(n)] and [JSON.stringify(n)] print for a finite number.
    [JObject] is an object as [JSON.parse] or an object literal makes it:
    its own properties in enumeration order, its prototype
    [Object.prototype].  [JDerived] is an object whose prototype has been
    set to [proto] by an assignment to [__proto__].  [JNative] is a function
    or a prototype object of the platform, which the modelled code can only
    meet by reading an inherited property. *)
#[warnings="-register-all"]
Inductive JValue : Type :=
| JUndefined
| JNull
| JBool (b : bool)
| JNumber (text : string)
| JString (s : string)
| JArray (items : list JValue)
| JObject (fields : list (string * JValue))
| JDerived (fields : list (string * JValue)) (proto : JValue)
| JNative (id : string).

(** A plain object used as a map from names to values of one kind: its own
    properties in the order in which [Object.keys] and [JSON.stringify]
    enumerate them, and the value its prototype was set to by an assignment
    to [__proto__], if there was one ([None]: still [Object.prototype]). *)
Record Obj (V : Type) : Type := mkObj {
  own : list (string * V);
  prototype : option V
}.

Arguments mkObj {V} _ _.
Arguments own {V} _.
Arguments prototype {V} _.

(** What the platform decides: the text [JSON.stringify] prints for a value;
    the value [value[key]] has when [key] names no own property of [value],
    found in the prototypes of the platform ([undefined] when there is
    none); and the text the platform prints for one of its own objects
    ([String] of a function, [JSON.stringify] of a prototype object).  A
    read of the platform always gives a value here: an accessor that
    throws has no counterpart. *)
Record Platform : Type := mkPlatform {
  JSON_stringify : JValue -> string;
  inherited : JValue -> string -> JValue;
  nativeText : string -> string
}.

(** The three denials of [checkBudget], with the figures its message quotes. *)
Inductive BudgetError : Type :=
| HourlyLimitReached (maxCallsPerHour : Z)
| DailyBudgetExceeded (dailySpendUsd maxDailyCostUsd : Q)
| SingleCallLimitExceeded (estimatedCost maxSingleCallCostUsd : Q).

(** Every [Error] message the modelled code constructs. *)
Inductive Message : Type :=
| InvalidModelFormat (model : string)
| ProviderNotConfigured (provider : string)
| BudgetDenied (why : BudgetError)
| UnsupportedProvider (provider : string)
| ProviderFailure (text : string)
| CircularDependency (stepName : string)
| StepNotFound (stepName : string)
| StepProviderNotConfigured (provider stepName : string)
| StepExecutionFailed
| StepFailed (stepName : string) (cause : Message).

Record Usage : Type := mkUsage {
  promptTokens : Z;
  completionTokens : Z;
  totalTokens : Z;
  estimatedProviderCostUsd : Q
}.

(** [WorkflowStepResult]; [durationMs] is a pure observation of the clock and
    is left out. *)
Record WorkflowStepResult : Type := mkStepResult {
  sr_success : bool;
  sr_output : JValue;
  sr_usage : option Usage;
  sr_error : option Message
}.

Inductive RunType : Type := single | workflow.

(** [RunRecord] of the run store, without its identifiers and timestamps. *)
Record RunRecord : Type := mkRunRecord {
  rr_type : RunType;
  rr_model : option string;
  rr_workflowName : option string;
  rr_success : bool;
  rr_usage : Usage;
  rr_output : JValue;
  rr_steps : option (Obj WorkflowStepResult);
  rr_error : option Message
}.

(** A workflow step ([workflowStepSchema], the same in both tools). *)
Record WorkflowStep : Type := mkStep {
  name : string;
  model : option string;
  prompt : option string;
  systemPrompt : option string;
  depends : option (list string);
  mcp : option string;
  params : option JValue;
  schema : option JValue
}.

Record BudgetState : Type := mkBudgetState {
  dailySpendUsd : Q;
  hourlyCallCount : Z;
  lastResetDate : Z;     (* the UTC day, as days since the epoch *)
  lastHourlyReset : Z    (* milliseconds since the epoch *)
}.

Record ProviderRequest : Type := mkRequest {
  rq_provider : string;
  rq_apiKey : string;
  rq_modelId : string;
  rq_prompt : string;
  rq_systemPrompt : option string;
  rq_schema : option JValue
}.

Inductive ProviderReply : Type :=
| Replied (output : JValue) (promptTokens completionTokens : Z)
| Failed (text : string).

Record McpServerConfig : Type := mkConfig {
  maxDailyCostUsd : Q;
  maxSingleCallCostUsd : Q;
  maxCallsPerHour : Z;
  providers : list (string * string)   (* provider name, API key *)
}.

Definition DEFAULT_CONFIG : McpServerConfig :=
  {| maxDailyCostUsd := 5; maxSingleCallCostUsd := 1 # 2;
     maxCallsPerHour := 100; providers := [] |}.

(** The mutable state of the process. *)
Record World : Type := mkWorld {
  budgetState : BudgetState;
  runs : list RunRecord;
  clockReads : nat;
  sent : list ProviderRequest
}.

(** What the process cannot decide: its configuration, the clock and the
    providers' answers (the [n]-th request sent gets [respond n request]). *)
Record Env : Type := mkEnv {
  config : McpServerConfig;
  clock : nat -> Z;
  respond : nat -> ProviderRequest -> ProviderReply
}.

(** ** State passing *)

Definition M (A : Type) : Type := World -> A * World.

Definition ret {A} (a : A) : M A := fun w => (a, w).

Definition bind {A B} (m : M A) (k : A -> M B) : M B :=
  fun w => let (a, w') := m w in k a w'.

Notation "'let*' x ':=' m 'in' k" := (bind m (fun x => k))
  (at level 10, x pattern, m at level 100, k at level 200).

Definition getBudget : M BudgetState := fun w => (budgetState w, w).

Definition setBudget (s : BudgetState) : M unit :=
  fun w => (tt, {| budgetState := s; runs := runs w;
                   clockReads := clockReads w; sent := sent w |}).

(** [new Date()]: the next reading of the clock. *)
Definition now (env : Env) : M Z :=
  fun w => (clock env (clockReads w),
            {| budgetState := budgetState w; runs := runs w;
               clockReads := S (clockReads w); sent := sent w |}).

(** JavaScript truthiness of an optional string: present and not empty. *)
Definition truthy (s : option string) : bool :=
  match s with
  | Some s => negb (String.eqb s "")
  | None => false
  end.

(** [a > b] on money. *)
Definition Qgtb (a b : Q) : bool := negb (Qle_bool a b).

(* ===================================================================== *)
(** * src/budget/tracker.ts *)
(* ===================================================================== *)

Module Tracker.

Definition dayInMs : Z := 86400000.
Definition hourInMs : Z := 60 * 60 * 1000.

(** [new Date().toISOString().split('T')[0]]: the UTC calendar day of the
    reading, which the day number determines and is determined by. *)
Definition getCurrentDateUTC (env : Env) : M Z :=
  let* t := now env in ret (t / dayInMs).

Definition shouldResetHourly (env : Env) : M bool :=
  let* s := getBudget in
  let lastReset := lastHourlyReset s in
  let* t := now env in
  ret (hourInMs <=? t - lastReset).

Definition maybeResetCounters (env : Env) : M unit :=
  let* currentDate := getCurrentDateUTC env in
  let* s := getBudget in
  let* _ :=
    if negb (lastResetDate s =? currentDate)
    then setBudget {| dailySpendUsd := 0;
                      hourlyCallCount := hourlyCallCount s;
                      lastResetDate := currentDate;
                      lastHourlyReset := lastHourlyReset s |}
    else ret tt in
  let* due := shouldResetHourly env in
  if due
  then
    let* t := now env in
    let* s := getBudget in
    setBudget {| dailySpendUsd := dailySpendUsd s;
                 hourlyCallCount := 0;
                 lastResetDate := lastResetDate s;
                 lastHourlyReset := t |}
  else ret tt.

Record BudgetCheckResult : Type := mkCheck {
  allowed : bool;
  error : option BudgetError;
  currentDailySpend : Q;
  currentHourlyCalls : Z
}.

Definition checkBudget (env : Env) (estimatedCost : Q) : M BudgetCheckResult :=
  let* _ := maybeResetCounters env in
  let cfg := config env in
  let* s := getBudget in
  if maxCallsPerHour cfg <=? hourlyCallCount s then
    ret {| allowed := false;
           error := Some (HourlyLimitReached (maxCallsPerHour cfg));
           currentDailySpend := dailySpendUsd s;
           currentHourlyCalls := hourlyCallCount s |}
  else if Qgtb (dailySpendUsd s + estimatedCost) (maxDailyCostUsd cfg) then
    ret {| allowed := false;
           error := Some (DailyBudgetExceeded (dailySpendUsd s) (maxDailyCostUsd cfg));
           currentDailySpend := dailySpendUsd s;
           currentHourlyCalls := hourlyCallCount s |}
  else if Qgtb estimatedCost (maxSingleCallCostUsd cfg) then
    ret {| allowed := false;
           error := Some (SingleCallLimitExceeded estimatedCost (maxSingleCallCostUsd cfg));
           currentDailySpend := dailySpendUsd s;
           currentHourlyCalls := hourlyCallCount s |}
  else
    ret {| allowed := true;
           error := None;
           currentDailySpend := dailySpendUsd s;
           currentHourlyCalls := hourlyCallCount s |}.

Definition recordCost (env : Env) (actualCost : Q) : M unit :=
  let* _ := maybeResetCounters env in
  let* s := getBudget in
  setBudget {| dailySpendUsd := dailySpendUsd s + actualCost;
               hourlyCallCount := hourlyCallCount s + 1;
               lastResetDate := lastResetDate s;
               lastHourlyReset := lastHourlyReset s |}.

(** Get current budget state. *)
Definition getBudgetState (env : Env) : M BudgetState :=
  let* _ := maybeResetCounters env in getBudget.

(** Reset budget state (for testing). *)
Definition resetBudgetState (env : Env) : M unit :=
  let* d := getCurrentDateUTC env in
  let* t := now env in
  setBudget {| dailySpendUsd := 0; hourlyCallCount := 0;
               lastResetDate := d; lastHourlyReset := t |}.

(** The value [budgetState] is initialised with when the module loads. *)
Definition initialBudgetState (t1 t2 : Z) : BudgetState :=
  {| dailySpendUsd := 0; hourlyCallCount := 0;
     lastResetDate := t1 / dayInMs; lastHourlyReset := t2 |}.

End Tracker.

(* ===================================================================== *)
(** * JavaScript built-ins used by the sources *)
(* ===================================================================== *)

Module JS.

(** [s.split(sep)] for a one-character separator. *)
Fixpoint split (sep : ascii) (s : string) : list string :=
  match s with
  | EmptyString => [EmptyString]
  | String c t =>
    if Ascii.eqb c sep then EmptyString :: split sep t
    else match split sep t with
         | p :: ps => String c p :: ps
         | [] => [String c EmptyString]
         end
  end.

(** White space and line terminators of [trim] among the code units below
    256: tab, line feed, vertical tab, form feed, carriage return, space and
    no-break space. *)
Definition isSpace (c : ascii) : bool :=
  let n := nat_of_ascii c in
  ((9 <=? n)%nat && (n <=? 13)%nat) || (n =? 32)%nat || (n =? 160)%nat.

Fixpoint trimStart (s : string) : string :=
  match s with
  | String c t => if isSpace c then trimStart t else s
  | EmptyString => EmptyString
  end.

Fixpoint trimEnd (s : string) : string :=
  match s with
  | EmptyString => EmptyString
  | String c t =>
    match trimEnd t with
    | EmptyString => if isSpace c then EmptyString else String c EmptyString
    | t' => String c t'
    end
  end.

Definition trim (s : string) : string := trimEnd (trimStart s).

(** [list.includes(x)] on strings. *)
Definition includes (x : string) (l : list string) : bool :=
  existsb (String.eqb x) l.

(** [obj[key]] and [map.get(key)] on the entries of a keyed collection. *)
Fixpoint lookup {A} (key : string) (fields : list (string * A)) : option A :=
  match fields with
  | [] => None
  | (k, v) :: rest => if String.eqb k key then Some v else lookup key rest
  end.

(** [map.set(key, value)] on the entries of a [Map], and the assignment to a
    property an object already has: overwrite in place, or add at the
    end. *)
Fixpoint set {A} (key : string) (value : A) (fields : list (string * A))
  : list (string * A) :=
  match fields with
  | [] => [(key, value)]
  | (k, v) :: rest =>
    if String.eqb k key then (k, value) :: rest
    else (k, v) :: set key value rest
  end.

(** The element of an array, and the character of a string, that the key
    is the index of; the index is written in decimal, without sign or
    leading zero. *)
Fixpoint itemAt (key : string) (i : nat) (items : list JValue) : option JValue :=
  match items with
  | [] => None
  | x :: rest => if String.eqb (pretty i) key then Some x else itemAt key (S i) rest
  end.

Fixpoint charAt (key : string) (i : nat) (s : string) : option JValue :=
  match s with
  | EmptyString => None
  | String c rest =>
    if String.eqb (pretty i) key then Some (JString (String c EmptyString))
    else charAt key (S i) rest
  end.

(** The own property of a value under a key: a field of an object, an
    element or the [length] of an array, a character or the [length] of a
    string. *)
Definition ownProperty (value : JValue) (key : string) : option JValue :=
  match value with
  | JObject fields | JDerived fields _ => lookup key fields
  | JArray items =>
    if String.eqb key "length" then Some (JNumber (pretty (length items)))
    else itemAt key 0 items
  | JString s =>
    if String.eqb key "length" then Some (JNumber (pretty (String.length s)))
    else charAt key 0 s
  | _ => None
  end.

(** [value[key]] for a value that is neither [null] nor [undefined]: the own
    property, or else what the prototype chain gives.  The chain of an
    object whose prototype was assigned leads through that prototype, and
    its [__proto__] reads the prototype itself; every other chain lies in
    the platform. *)
Fixpoint get (platform : Platform) (value : JValue) (key : string) : JValue :=
  match ownProperty value key with
  | Some x => x
  | None =>
    match value with
    | JUndefined | JNull => JUndefined
    | JDerived _ proto =>
      if String.eqb key "__proto__" then proto else get platform proto key
    | _ => inherited platform value key
    end
  end.

(** The number a key is the array index of: the key is the decimal text,
    without sign or leading zero, of an integer below [2^32 - 1]. *)
Definition digit (c : ascii) : option N :=
  let n := N_of_ascii c in
  if (48 <=? n)%N && (n <=? 57)%N then Some (n - 48)%N else None.

Fixpoint digits (s : string) (value : N) : option N :=
  match s with
  | EmptyString => Some value
  | String c t =>
    match digit c with
    | Some d => digits t (10 * value + d)%N
    | None => None
    end
  end.

Definition arrayIndex (key : string) : option N :=
  match key with
  | EmptyString => None
  | String c t =>
    if Ascii.eqb c "0" then (if String.eqb t "" then Some 0%N else None)
    else match digits key 0 with
         | Some n => if (n <? 4294967295)%N then Some n else None
         | None => None
         end
  end.

(** The place of a new own property in the enumeration order: an array
    index goes among the array indices, which come first in ascending
    order; any other key goes to the end. *)
Fixpoint insertIndex {A} (n : N) (key : string) (value : A)
    (fields : list (string * A)) : list (string * A) :=
  match fields with
  | [] => [(key, value)]
  | (k, v) :: rest =>
    match arrayIndex k with
    | Some m =>
      if (m <? n)%N then (k, v) :: insertIndex n key value rest
      else (key, value) :: (k, v) :: rest
    | None => (key, value) :: (k, v) :: rest
    end
  end.

Definition insertKey {A} (key : string) (value : A) (fields : list (string * A))
  : list (string * A) :=
  match arrayIndex key with
  | Some n => insertIndex n key value fields
  | None => fields ++ [(key, value)]
  end.

(** [obj[key] = value] on a plain object, for a value that is an object
    itself.  An own property is overwritten in place.  Otherwise the key
    [__proto__] reaches the setter of [Object.prototype], which makes the
    value the prototype and adds no property; any other key becomes a new
    own property. *)
Definition assign {A} (key : string) (value : A) (obj : Obj A) : Obj A :=
  match lookup key (own obj) with
  | Some _ => mkObj (set key value (own obj)) (prototype obj)
  | None =>
    if String.eqb key "__proto__" then mkObj (own obj) (Some value)
    else mkObj (insertKey key value (own obj)) (prototype obj)
  end.

(** The value a plain object holds under a key: its own property, or under
    [__proto__] the prototype an assignment has given it.  This is what
    [obj[key]] reads for a key that was assigned before, and on [{}] for a
    key that names no member of [Object.prototype]; the sources read no
    other. *)
Definition read {A} (key : string) (obj : Obj A) : option A :=
  match lookup key (own obj) with
  | Some v => Some v
  | None => if String.eqb key "__proto__" then prototype obj else None
  end.

(** [{}] *)
Definition emptyObject {A} : Obj A := mkObj [] None.

(** [ToIntegerOrInfinity] on a finite number: drop the fraction. *)
Definition toInteger (q : Q) : Z := Z.quot (Qnum q) (Z.pos (Qden q)).

(** [list.slice(0, end)]. *)
Definition slice0 {A} (l : list A) (finish : Q) : list A :=
  let len := Z.of_nat (length l) in
  let relativeEnd := toInteger finish in
  let final := if relativeEnd <? 0 then Z.max (len + relativeEnd) 0
               else Z.min relativeEnd len in
  take (Z.to_nat final) l.

End JS.

(* ===================================================================== *)
(** * src/budget/estimator.ts *)
(* ===================================================================== *)

Module Estimator.

Local Open Scope Q_scope.

Record Pricing : Type := mkPricing { input : Q; output : Q }.

(** Pricing per 1k tokens. *)
Definition PRICING : list (string * Pricing) :=
  [ ("openai:gpt-4o", mkPricing (25 # 10000) (1 # 100));
    ("openai:gpt-4o-mini", mkPricing (15 # 100000) (6 # 10000));
    ("openai:gpt-4-turbo", mkPricing (1 # 100) (3 # 100));
    ("openai:gpt-4", mkPricing (3 # 100) (6 # 100));
    ("openai:gpt-3.5-turbo", mkPricing (5 # 10000) (15 # 10000));
    ("openai:o1", mkPricing (15 # 1000) (6 # 100));
    ("openai:o1-mini", mkPricing (3 # 1000) (12 # 1000));
    ("openai:o1-preview", mkPricing (15 # 1000) (6 # 100));
    ("anthropic:claude-3-5-sonnet-20241022", mkPricing (3 # 1000) (15 # 1000));
    ("anthropic:claude-3-5-sonnet-latest", mkPricing (3 # 1000) (15 # 1000));
    ("anthropic:claude-3-5-haiku-20241022", mkPricing (8 # 10000) (4 # 1000));
    ("anthropic:claude-3-5-haiku-latest", mkPricing (8 # 10000) (4 # 1000));
    ("anthropic:claude-3-opus-20240229", mkPricing (15 # 1000) (75 # 1000));
    ("anthropic:claude-3-sonnet-20240229", mkPricing (3 # 1000) (15 # 1000));
    ("anthropic:claude-3-haiku-20240307", mkPricing (25 # 100000) (125 # 100000));
    ("google:gemini-2.0-flash", mkPricing (1 # 10000) (4 # 10000));
    ("google:gemini-2.0-flash-exp", mkPricing (1 # 10000) (4 # 10000));
    ("google:gemini-1.5-pro", mkPricing (125 # 100000) (5 # 1000));
    ("google:gemini-1.5-flash", mkPricing (75 # 1000000) (3 # 10000));
    ("xai:grok-2", mkPricing (2 # 1000) (1 # 100));
    ("xai:grok-beta", mkPricing (5 # 1000) (15 # 1000)) ].

(** Conservative default for unknown models. *)
Definition DEFAULT_PRICING : Pricing := mkPricing (1 # 100) (3 # 100).

(** [PRICING[model] || DEFAULT_PRICING], for a model name that is no member
    of [Object.prototype]: the listed price, or the default.  Every
    identifier of the [provider:model] form is such a name, no member of
    [Object.prototype] having a colon in its name. *)
Definition getModelPricing (model : string) : Pricing :=
  match JS.lookup model PRICING with
  | Some p => p
  | None => DEFAULT_PRICING
  end.

(** Rough estimate: about 4 characters ([text.length], in code units) per
    token, rounded up. *)
Definition estimateTokens (text : string) : Z :=
  (Z.of_nat (String.length text) + 3) / 4.

Definition estimateProviderCost (model prompt : string)
    (systemPrompt : option string) : Q :=
  let inputText := (if truthy systemPrompt then default "" systemPrompt else "")
                   +:+ prompt in
  let inputTokens := estimateTokens inputText in
  let estimatedOutputTokens := 500%Z in
  let pricing := getModelPricing model in
  let inputCost := (inject_Z inputTokens / 1000) * input pricing in
  let outputCost := (inject_Z estimatedOutputTokens / 1000) * output pricing in
  inputCost + outputCost.

Definition calculateActualCost (model : string) (promptTokens completionTokens : Z)
  : Q :=
  let pricing := getModelPricing model in
  let inputCost := (inject_Z promptTokens / 1000) * input pricing in
  let outputCost := (inject_Z completionTokens / 1000) * output pricing in
  inputCost + outputCost.

(** Estimate workflow cost (sum of all steps). *)
Definition estimateWorkflowCost (steps : list WorkflowStep) : Q :=
  fold_left
    (fun total step =>
       match model step, prompt step with
       | Some m, Some p =>
         if truthy (Some m) && truthy (Some p)
         then total + estimateProviderCost m p (systemPrompt step)
         else total
       | _, _ => total
       end)
    steps 0.

End Estimator.

(* ===================================================================== *)
(** * src/tools/run-store.ts *)
(* ===================================================================== *)

Module RunStore.

(** In-memory store (max 100 runs). *)
Definition MAX_RUNS : nat := 100.

(** The pure content of [addRun]: put the run first, keep the first 100. *)
Definition added (run : RunRecord) (store : list RunRecord) : list RunRecord :=
  let store := run :: store in
  if (MAX_RUNS <? length store)%nat then JS.slice0 store (inject_Z (Z.of_nat MAX_RUNS))
  else store.

Definition addRun (run : RunRecord) : M unit :=
  fun w => (tt, {| budgetState := budgetState w; runs := added run (runs w);
                   clockReads := clockReads w; sent := sent w |}).

(** [getRecentRuns(limit = 10)] on a given store content. *)
Definition recent (limit : option Q) (store : list RunRecord) : list RunRecord :=
  let limit := default (10 : Q) limit in
  JS.slice0 store (Qmin limit 50).

Definition getRecentRuns (limit : option Q) : M (list RunRecord) :=
  fun w => (recent limit (runs w), w).

Definition clearRuns : M unit :=
  fun w => (tt, {| budgetState := budgetState w; runs := [];
                   clockReads := clockReads w; sent := sent w |}).

End RunStore.

(* ===================================================================== *)
(** * src/tools/relay-runs-list.ts *)
(* ===================================================================== *)

Module RelayRunsList.

Record RunSummary : Type := mkSummary {
  rs_type : RunType;
  rs_name : option string;
  rs_model : option string;
  rs_success : bool;
  rs_totalTokens : Z;
  rs_estimatedCostUsd : Q
}.

Record RelayRunsListResponse : Type := mkListResponse {
  lr_runs : list RunSummary;
  lr_total : nat
}.

(** [relayRunsListSchema]: [limit] is optional; when given it is a number
    with [min(1)] and [max(50)].  [parse] throws on anything else. *)
Definition relayRunsListSchema_parse (limit : option Q) : option (option Q) :=
  match limit with
  | None => Some None
  | Some l => if Qle_bool 1 l && Qle_bool l 50 then Some (Some l) else None
  end.

Definition summary (run : RunRecord) : RunSummary :=
  {| rs_type := rr_type run;
     rs_name := match rr_type run with workflow => rr_workflowName run | single => None end;
     rs_model := match rr_type run with single => rr_model run | workflow => None end;
     rs_success := rr_success run;
     rs_totalTokens := totalTokens (rr_usage run);
     rs_estimatedCostUsd := estimatedProviderCostUsd (rr_usage run) |}.

Definition relayRunsList (input : option Q) : M RelayRunsListResponse :=
  (* input.limit || 10 *)
  let limit := match input with
               | Some l => if Qeq_bool l 0 then 10%Q else l
               | None => 10%Q
               end in
  let* runs := RunStore.getRecentRuns (Some limit) in
  let summaries := map summary runs in
  ret {| lr_runs := summaries; lr_total := length summaries |}.

(** The [relay_runs_list] case of the server's tool dispatch: parse, then
    call.  [None] is the rejected request. *)
Definition relay_runs_list (args : option Q) : M (option RelayRunsListResponse) :=
  match relayRunsListSchema_parse args with
  | Some parsed => let* r := relayRunsList parsed in ret (Some r)
  | None => ret None
  end.

End RelayRunsList.

(* ===================================================================== *)
(** * src/tools/relay-run.ts *)
(* ===================================================================== *)

Module RelayRun.

Record RelayRunInput : Type := mkInput {
  ri_model : string;
  ri_prompt : string;
  ri_systemPrompt : option string;
  ri_schema : option JValue
}.

(** [RelayRunResponse], without the echo of the model, the duration, the run
    identifier and the trace URL. *)
Record RelayRunResponse : Type := mkResponse {
  success : bool;
  output : JValue;
  usage : Usage;
  error : option Message
}.

(** Parse provider:model format. *)
Definition parseModel (model : string) : Message + (string * string) :=
  match JS.split ":" model with
  | [provider; modelId] => inr (provider, modelId)
  | _ => inl (InvalidModelFormat model)
  end.

Definition getProviderKey (cfg : McpServerConfig) (provider : string)
  : option string :=
  JS.lookup provider (providers cfg).

Definition isProviderConfigured (cfg : McpServerConfig) (provider : string)
  : bool :=
  truthy (getProviderKey cfg provider).

(** One HTTP request to a provider: it is logged, and the oracle answers. *)
Definition callProvider (env : Env) (request : ProviderRequest)
  : M ProviderReply :=
  fun w => (respond env (length (sent w)) request,
            {| budgetState := budgetState w; runs := runs w;
               clockReads := clockReads w; sent := sent w ++ [request] |}).

(** The [switch (provider)]: [executeOpenAI] and [executeAnthropic] pass the
    schema on, [executeGoogle] and [executeXAI] do not take one. *)
Definition execute (env : Env) (provider apiKey modelId : string)
    (input : RelayRunInput) : M (Message + (JValue * Z * Z)) :=
  let request withSchema :=
    {| rq_provider := provider; rq_apiKey := apiKey; rq_modelId := modelId;
       rq_prompt := ri_prompt input; rq_systemPrompt := ri_systemPrompt input;
       rq_schema := if withSchema : bool then ri_schema input else None |} in
  let call withSchema :=
    let* reply := callProvider env (request withSchema) in
    match reply with
    | Replied out p c => ret (inr (out, p, c))
    | Failed text => ret (inl (ProviderFailure text))
    end in
  if String.eqb provider "openai" then call true
  else if String.eqb provider "anthropic" then call true
  else if String.eqb provider "google" then call false
  else if String.eqb provider "xai" then call false
  else ret (inl (UnsupportedProvider provider)).

(** The body of the [try] block, up to and including [recordCost].  The
    message of [new Error(budgetCheck.error)] is the denial, and empty
    should the result carry none. *)
Definition attempt (env : Env) (input : RelayRunInput)
  : M (Message + (JValue * Usage)) :=
  match parseModel (ri_model input) with
  | inl e => ret (inl e)
  | inr (provider, modelId) =>
    if negb (isProviderConfigured (config env) provider)
    then ret (inl (ProviderNotConfigured provider))
    else
      let estimatedCost :=
        Estimator.estimateProviderCost (ri_model input) (ri_prompt input)
                                       (ri_systemPrompt input) in
      let* budgetCheck := Tracker.checkBudget env estimatedCost in
      if negb (Tracker.allowed budgetCheck)
      then ret (inl (match Tracker.error budgetCheck with
                     | Some why => BudgetDenied why
                     | None => ProviderFailure ""
                     end))
      else
        let apiKey := default "" (getProviderKey (config env) provider) in
        let* result := execute env provider apiKey modelId input in
        match result with
        | inl e => ret (inl e)
        | inr (out, promptTokens, completionTokens) =>
          let actualCost :=
            Estimator.calculateActualCost (ri_model input) promptTokens
                                          completionTokens in
          let* _ := Tracker.recordCost env actualCost in
          ret (inr (out, {| promptTokens := promptTokens;
                            completionTokens := completionTokens;
                            totalTokens := promptTokens + completionTokens;
                            estimatedProviderCostUsd := actualCost |}))
        end
  end.

Definition relayRun (env : Env) (input : RelayRunInput) : M RelayRunResponse :=
  let* r := attempt env input in
  match r with
  | inr (out, used) =>
    let response := {| success := true; output := out; usage := used;
                       error := None |} in
    let* _ := RunStore.addRun
                {| rr_type := single; rr_model := Some (ri_model input);
                   rr_workflowName := None; rr_success := true;
                   rr_usage := used; rr_output := out; rr_steps := None;
                   rr_error := None |} in
    ret response
  | inl errorMessage =>
    let response := {| success := false; output := JString "";
                       usage := mkUsage 0 0 0 0;
                       error := Some errorMessage |} in
    let* _ := RunStore.addRun
                {| rr_type := single; rr_model := Some (ri_model input);
                   rr_workflowName := None; rr_success := false;
                   rr_usage := usage response; rr_output := JUndefined;
                   rr_steps := None; rr_error := Some errorMessage |} in
    ret response
  end.

End RelayRun.

(* ===================================================================== *)
(** * src/tools/relay-workflow-run.ts *)
(* ===================================================================== *)

Module RelayWorkflowRun.

(** ** Template interpolation *)

Section Interpolate.

Context (platform : Platform).

(** The longest prefix without a closing brace, and what follows it: the
    greedy [[^}]+] of the pattern. *)
Fixpoint spanPath (s : string) : string * string :=
  match s with
  | EmptyString => (EmptyString, EmptyString)
  | String c t =>
    if Ascii.eqb c "}" then (EmptyString, s)
    else let (p, r) := spanPath t in (String c p, r)
  end.

(** A match of [/\{\{([^}]+)\}\}/] at the very start of [s]: the captured
    group and the length of the match. *)
Definition matchAt (s : string) : option (string * nat) :=
  match s with
  | String c1 (String c2 t) =>
    if Ascii.eqb c1 "{" && Ascii.eqb c2 "{" then
      match spanPath t with
      | (String c p, String d1 (String d2 _)) =>
        if Ascii.eqb d1 "}" && Ascii.eqb d2 "}"
        then Some (String c p, (4 + String.length (String c p))%nat)
        else None
      | _ => None
      end
    else None
  | _ => None
  end.

(** [template.replace(pattern, callback)] with the global flag: scan from the
    left; at a match emit the callback's text and resume after the match,
    elsewhere copy the character.  [skip] counts the characters of a match
    still to be passed over. *)
Fixpoint replaceAll (callback : string -> string) (skip : nat) (s : string)
  : string :=
  match s with
  | EmptyString => EmptyString
  | String c t =>
    match skip with
    | S k => replaceAll callback k t
    | O =>
      match matchAt s with
      | Some (path, len) => callback path +:+ replaceAll callback (len - 1) t
      | None => String c (replaceAll callback 0 t)
      end
    end
  end.

(** The [for] loop over the parts of a path.  [None] is the early
    [return ''] taken when the value in hand is [null] or [undefined]. *)
Fixpoint walk (parts : list string) (value : JValue) : option JValue :=
  match parts with
  | [] => Some value
  | part :: rest =>
    match value with
    | JNull | JUndefined => None
    | _ => walk rest (JS.get platform value part)
    end
  end.

(** The two [return]s after the loop: [JSON.stringify(value)] when
    [typeof value === 'object'] (objects, arrays and [null]), and
    [String(value ?? '')] otherwise.  For an object of the platform either
    one is the platform's text. *)
Definition render (value : JValue) : string :=
  match value with
  | JNull | JArray _ | JObject _ | JDerived _ _ => JSON_stringify platform value
  | JNative id => nativeText platform id
  | JUndefined => ""
  | JBool true => "true"
  | JBool false => "false"
  | JNumber text => text
  | JString s => s
  end.

Definition resolve (context : JValue) (path : string) : string :=
  let parts := JS.split "." (JS.trim path) in
  match walk parts context with
  | None => ""
  | Some value => render value
  end.

Definition interpolate (template : string) (context : JValue) : string :=
  replaceAll (resolve context) 0 template.

End Interpolate.

(** The object [context.steps] as a value. *)
Definition stepsValue (steps : Obj JValue) : JValue :=
  match prototype steps with
  | None => JObject (own steps)
  | Some proto => JDerived (own steps) proto
  end.

(** The execution context [{ input, steps }] as a value. *)
Definition contextOf (input : JValue) (steps : Obj JValue) : JValue :=
  JObject [("input", input); ("steps", stepsValue steps)].

(** ** Topological sort of steps based on dependencies *)

Record SortState : Type := mkSort {
  sorted : list WorkflowStep;
  visited : gset string;
  visiting : gset string
}.

(** [new Map(steps.map(s => [s.name, s]))]: a later step replaces an earlier
    one of the same name. *)
Definition stepMap (steps : list WorkflowStep) : gmap string WorkflowStep :=
  foldl (fun m s => <[name s := s]> m) ∅ steps.

(** A [for] loop whose body may throw. *)
Fixpoint forEach {S} (body : string -> S -> option (Message + S))
    (names : list string) (st : S) : option (Message + S) :=
  match names with
  | [] => Some (inr st)
  | n :: rest =>
    match body n st with
    | Some (inr st') => forEach body rest st'
    | other => other
    end
  end.

(** [visit]; [fuel] bounds the depth of the recursion and [None] is its
    exhaustion, [inl] a thrown error. *)
Fixpoint visit (m : gmap string WorkflowStep) (fuel : nat) (stepName : string)
    (st : SortState) : option (Message + SortState) :=
  match fuel with
  | O => None
  | S fuel =>
    if decide (stepName ∈ visited st) then Some (inr st)
    else if decide (stepName ∈ visiting st)
    then Some (inl (CircularDependency stepName))
    else
      let st := {| sorted := sorted st; visited := visited st;
                   visiting := visiting st ∪ {[stepName]} |} in
      match m !! stepName with
      | None => Some (inl (StepNotFound stepName))
      | Some step =>
        match forEach (visit m fuel) (default [] (depends step)) st with
        | Some (inr st) =>
          Some (inr {| sorted := sorted st ++ [step];
                       visited := visited st ∪ {[stepName]};
                       visiting := visiting st ∖ {[stepName]} |})
        | other => other
        end
      end
  end.

Definition topologicalSortWith (fuel : nat) (steps : list WorkflowStep)
  : option (Message + list WorkflowStep) :=
  match forEach (visit (stepMap steps) fuel) (map name steps)
                {| sorted := []; visited := ∅; visiting := ∅ |} with
  | Some (inr st) => Some (inr (sorted st))
  | Some (inl e) => Some (inl e)
  | None => None
  end.

(** The recursion is never deeper than the number of steps plus one, so
    this fuel suffices, the default is never used (lemma
    [topologicalSortWith_enough]) and more fuel gives the same result (lemma
    [topologicalSortWith_more]). *)
Definition topologicalSort (steps : list WorkflowStep)
  : Message + list WorkflowStep :=
  default (inl StepExecutionFailed)
          (topologicalSortWith (S (length steps)) steps).

(** ** The workflow engine *)

Record RelayWorkflowRunInput : Type := mkWorkflow {
  wf_name : string;
  wf_steps : list WorkflowStep;
  wf_input : JValue
}.

(** [RelayWorkflowRunResponse], without identifiers, durations and the
    context-reduction estimate. *)
Record RelayWorkflowRunResponse : Type := mkWfResponse {
  success : bool;
  steps : Obj WorkflowStepResult;
  finalOutput : JValue;
  totalUsage_totalTokens : Z;
  totalUsage_estimatedProviderCostUsd : Q;
  error : option Message
}.

(** The variables the step loop updates. *)
Record RunState : Type := mkRun {
  contextSteps : Obj JValue;
  stepResults : Obj WorkflowStepResult;
  totalTokens : Z;
  totalCost : Q
}.

Definition isAiStep (step : WorkflowStep) : bool :=
  truthy (model step) && truthy (prompt step).

Definition placeholderOutput : JValue :=
  JObject [("message", JString "MCP step executed (placeholder)")].

Section Engine.

Context (platform : Platform) (env : Env).

(** The message of a failed [relayRun]:
    [result.error?.message || 'Step execution failed']. *)
Definition failureMessage (e : option Message) : Message :=
  match e with
  | Some (ProviderFailure "") | None => StepExecutionFailed
  | Some m => m
  end.

(** One iteration of the step loop.  The first component is the error the
    iteration rethrows, if any. *)
Definition runStep (input : JValue) (step : WorkflowStep) (st : RunState)
  : M (option Message * RunState) :=
  if isAiStep step then
    let context := contextOf input (contextSteps st) in
    let interpolatedPrompt :=
      interpolate platform (default "" (prompt step)) context in
    let interpolatedSystemPrompt :=
      if truthy (systemPrompt step)
      then Some (interpolate platform (default "" (systemPrompt step)) context)
      else None in
    let* result :=
      RelayRun.relayRun env
        {| RelayRun.ri_model := default "" (model step);
           RelayRun.ri_prompt := interpolatedPrompt;
           RelayRun.ri_systemPrompt := interpolatedSystemPrompt;
           RelayRun.ri_schema := schema step |} in
    if negb (RelayRun.success result) then
      let errorMessage := failureMessage (RelayRun.error result) in
      ret (Some (StepFailed (name step) errorMessage),
           {| contextSteps := contextSteps st;
              stepResults :=
                JS.assign (name step)
                       {| sr_success := false; sr_output := JNull;
                          sr_usage := None; sr_error := Some errorMessage |}
                       (stepResults st);
              totalTokens := totalTokens st;
              totalCost := totalCost st |})
    else
      let used := RelayRun.usage result in
      let 'mkUsage _ _ usedTokens usedCost := used in
      ret (None,
           {| contextSteps :=
                JS.assign (name step)
                       (JObject [("output", RelayRun.output result)])
                       (contextSteps st);
              stepResults :=
                JS.assign (name step)
                       {| sr_success := true;
                          sr_output := RelayRun.output result;
                          sr_usage := Some used; sr_error := None |}
                       (stepResults st);
              totalTokens := totalTokens st + usedTokens;
              totalCost := (totalCost st + usedCost)%Q |})
  else if truthy (mcp step) then
    ret (None,
         {| contextSteps :=
              JS.assign (name step) (JObject [("output", placeholderOutput)])
                     (contextSteps st);
            stepResults :=
              JS.assign (name step)
                     {| sr_success := true; sr_output := placeholderOutput;
                        sr_usage := None; sr_error := None |}
                     (stepResults st);
            totalTokens := totalTokens st;
            totalCost := totalCost st |})
  else
    ret (None,
         {| contextSteps :=
              JS.assign (name step) (JObject [("output", JNull)]) (contextSteps st);
            stepResults :=
              JS.assign (name step)
                     {| sr_success := true; sr_output := JNull;
                        sr_usage := None; sr_error := None |}
                     (stepResults st);
            totalTokens := totalTokens st;
            totalCost := totalCost st |}).

(** [for (const step of sortedSteps)]: the loop ends at the first rethrow. *)
Fixpoint runSteps (input : JValue) (todo : list WorkflowStep) (st : RunState)
  : M (option Message * RunState) :=
  match todo with
  | [] => ret (None, st)
  | step :: rest =>
    let* r := runStep input step st in
    match r with
    | (Some e, st') => ret (Some e, st')
    | (None, st') => runSteps input rest st'
    end
  end.

(** [step.model!.split(':')[0]] *)
Definition providerOf (step : WorkflowStep) : string :=
  match JS.split ":" (default "" (model step)) with
  | p :: _ => p
  | [] => ""
  end.

(** The [catch] of the outer [try]: the failure response, and the failed
    run put into the store. *)
Definition fail (input : RelayWorkflowRunInput) (errorMessage : Message)
    (st : RunState) : M RelayWorkflowRunResponse :=
  let response :=
    {| success := false; steps := stepResults st; finalOutput := JNull;
       totalUsage_totalTokens := totalTokens st;
       totalUsage_estimatedProviderCostUsd := totalCost st;
       error := Some errorMessage |} in
  let* _ := RunStore.addRun
              {| rr_type := workflow; rr_model := None;
                 rr_workflowName := Some (wf_name input); rr_success := false;
                 rr_usage := mkUsage 0 0 (totalTokens st) (totalCost st);
                 rr_output := JUndefined;
                 rr_steps := Some (stepResults st);
                 rr_error := Some errorMessage |} in
  ret response.

Definition relayWorkflowRun (input : RelayWorkflowRunInput)
  : M RelayWorkflowRunResponse :=
  let start := {| contextSteps := JS.emptyObject; stepResults := JS.emptyObject;
                  totalTokens := 0; totalCost := 0 |} in
  (* Validate and sort steps *)
  match topologicalSort (wf_steps input) with
  | inl e => fail input e start
  | inr sortedSteps =>
    (* Estimate cost for AI steps and check budget *)
    let aiSteps := List.filter isAiStep sortedSteps in
    let estimatedCost := Estimator.estimateWorkflowCost aiSteps in
    let* budgetCheck := Tracker.checkBudget env estimatedCost in
    if negb (Tracker.allowed budgetCheck)
    then fail input (match Tracker.error budgetCheck with
                     | Some why => BudgetDenied why
                     | None => ProviderFailure ""
                     end) start
    else
      (* Check all providers are configured *)
      match List.find (fun step =>
                         negb (RelayRun.isProviderConfigured (config env)
                                                             (providerOf step)))
                      aiSteps with
      | Some step =>
        fail input (StepProviderNotConfigured (providerOf step) (name step)) start
      | None =>
        (* Execute steps in order *)
        let* r := runSteps (wf_input input) sortedSteps start in
        match r with
        | (Some e, st) => fail input e st
        | (None, st) =>
          let finalOutput :=
            match last sortedSteps with
            | Some lastStep =>
              match JS.read (name lastStep) (stepResults st) with
              | Some result => sr_output result
              | None => JUndefined
              end
            | None => JUndefined
            end in
          let response :=
            {| success := true; steps := stepResults st;
               finalOutput := finalOutput;
               totalUsage_totalTokens := totalTokens st;
               totalUsage_estimatedProviderCostUsd := totalCost st;
               error := None |} in
          let* _ := RunStore.addRun
                      {| rr_type := workflow; rr_model := None;
                         rr_workflowName := Some (wf_name input);
                         rr_success := true;
                         rr_usage := mkUsage 0 0 (totalTokens st) (totalCost st);
                         rr_output := finalOutput;
                         rr_steps := Some (stepResults st);
                         rr_error := None |} in
          ret response
        end
      end
  end.

End Engine.

End RelayWorkflowRun.

(* ===================================================================== *)
(** * src/tools/relay-workflow-validate.ts *)
(* ===================================================================== *)

Module RelayWorkflowValidate.

(** The messages of the validation report. *)
Inductive Problem : Type :=
| DuplicateStepName (stepName : string) (count : Z)
| StepNameRequired
| ModelNeedsPrompt
| PromptNeedsModel
| InvalidModel (model : string)
| InvalidMcpTool (mcp : string)
| DependencyNotFound (dep : string)
| SelfDependency
| CircularDependencyAt (cycleStep : option string).

Inductive Notice : Type :=
| PassThroughStep
| UnknownModel (model : string).

Record ValidationError : Type := mkError {
  ve_step : string;
  ve_field : string;
  ve_message : Problem
}.

Record ValidationWarning : Type := mkWarning {
  vw_step : string;
  vw_message : Notice
}.

Record RelayWorkflowValidateResponse : Type := mkValidation {
  valid : bool;
  errors : list ValidationError;
  warnings : list ValidationWarning;
  totalSteps : nat;
  executionOrder : list string;
  parallelGroups : list (list string)
}.

(** Validate model ID format. *)
Definition isValidModelFormat (model : string) : bool :=
  match JS.split ":" model with
  | [provider; modelId] =>
    let validProviders := ["openai"; "anthropic"; "google"; "xai"; "local"] in
    JS.includes provider validProviders && (0 <? String.length modelId)%nat
  | _ => false
  end.

(** Check if model is known (has pricing). *)
Definition isKnownModel (model : string) : bool :=
  bool_decide (is_Some (JS.lookup model Estimator.PRICING)).

(** ** Topological sort with cycle detection *)

Record SortState : Type := mkSort {
  order : list string;
  visited : gset string;
  visiting : gset string;
  cycleStep : option string
}.

Record SortResult : Type := mkResult {
  r_order : list string;
  hasCycle : bool;
  r_cycleStep : option string
}.

(** [steps.find(s => s.name === stepName)] *)
Definition findStep (steps : list WorkflowStep) (stepName : string)
  : option WorkflowStep :=
  List.find (fun s => String.eqb (name s) stepName) steps.

(** A [for] loop that returns [false] as soon as its body does. *)
Fixpoint forEach {S} (body : string -> S -> option (bool * S))
    (names : list string) (st : S) : option (bool * S) :=
  match names with
  | [] => Some (true, st)
  | n :: rest =>
    match body n st with
    | Some (true, st') => forEach body rest st'
    | other => other
    end
  end.

(** [visit]; [fuel] bounds the depth of the recursion, [None] is its
    exhaustion. *)
Fixpoint visit (steps : list WorkflowStep) (fuel : nat) (stepName : string)
    (st : SortState) : option (bool * SortState) :=
  match fuel with
  | O => None
  | S fuel =>
    if decide (stepName ∈ visited st) then Some (true, st)
    else if decide (stepName ∈ visiting st)
    then Some (false, {| order := order st; visited := visited st;
                         visiting := visiting st;
                         cycleStep := Some stepName |})
    else
      let st := {| order := order st; visited := visited st;
                   visiting := visiting st ∪ {[stepName]};
                   cycleStep := cycleStep st |} in
      let deps := match findStep steps stepName with
                  | Some step => default [] (depends step)
                  | None => []
                  end in
      match forEach (visit steps fuel) deps st with
      | Some (true, st) =>
        Some (true, {| order := order st ++ [stepName];
                       visited := visited st ∪ {[stepName]};
                       visiting := visiting st ∖ {[stepName]};
                       cycleStep := cycleStep st |})
      | other => other
      end
  end.

Definition topologicalSortWith (fuel : nat) (steps : list WorkflowStep)
  : option SortResult :=
  match forEach (visit steps fuel) (map name steps)
                {| order := []; visited := ∅; visiting := ∅;
                   cycleStep := None |} with
  | Some (true, st) =>
    Some {| r_order := order st; hasCycle := false; r_cycleStep := None |}
  | Some (false, st) =>
    Some {| r_order := []; hasCycle := true; r_cycleStep := cycleStep st |}
  | None => None
  end.

(** The recursion is never deeper than the number of steps plus one, so
    this fuel suffices, the default is never used (lemma
    [validate_topologicalSortWith_enough]) and more fuel gives the same
    result (lemma [validate_topologicalSortWith_more]). *)
Definition topologicalSort (steps : list WorkflowStep) : SortResult :=
  default {| r_order := []; hasCycle := false; r_cycleStep := None |}
          (topologicalSortWith (S (length steps)) steps).

(** ** Calculate parallel execution groups *)

Definition stepMap (steps : list WorkflowStep) : gmap string WorkflowStep :=
  foldl (fun m s => <[name s := s]> m) ∅ steps.

(** [deps.map(d => getLevel(d))], left to right. *)
Fixpoint mapLevels {S} (f : string -> S -> option (Z * S)) (deps : list string)
    (levels : S) : option (list Z * S) :=
  match deps with
  | [] => Some ([], levels)
  | d :: rest =>
    match f d levels with
    | None => None
    | Some (l, levels) =>
      match mapLevels f rest levels with
      | None => None
      | Some (ls, levels) => Some (l :: ls, levels)
      end
    end
  end.

(** [getLevel]; the [levels] map keeps its insertion order.  [None]: the
    recursion did not end within [fuel] nested calls. *)
Fixpoint getLevel (m : gmap string WorkflowStep) (fuel : nat)
    (stepName : string) (levels : list (string * Z))
  : option (Z * list (string * Z)) :=
  match fuel with
  | O => None
  | S fuel =>
    match JS.lookup stepName levels with
    | Some level => Some (level, levels)
    | None =>
      match (m !! stepName) ≫= depends with
      | None | Some [] => Some (0, JS.set stepName 0 levels)
      | Some (d :: ds) =>
        match mapLevels (getLevel m fuel) (d :: ds) levels with
        | None => None
        | Some (ls, levels) =>
          let maxDepLevel := foldr Z.max (-1) ls in
          let level := maxDepLevel + 1 in
          Some (level, JS.set stepName level levels)
        end
      end
    end
  end.

Fixpoint allLevels (m : gmap string WorkflowStep) (fuel : nat)
    (names : list string) (levels : list (string * Z))
  : option (list (string * Z)) :=
  match names with
  | [] => Some levels
  | n :: rest =>
    match getLevel m fuel n levels with
    | None => None
    | Some (_, levels) => allLevels m fuel rest levels
    end
  end.

Definition calculateParallelGroups (steps : list WorkflowStep)
  : option (list (list string)) :=
  match allLevels (stepMap steps) (S (length steps)) (map name steps) [] with
  | None => None
  | Some levels =>
    let maxLevel := foldr Z.max (-1) (map snd levels) in
    Some (List.filter
            (fun group => (0 <? length group)%nat)
            (map (fun i : nat =>
                    map fst (List.filter (fun e => snd e =? Z.of_nat i) levels))
                 (seq 0 (Z.to_nat (maxLevel + 1)))))
  end.

(** ** The validation tool *)

(** The count of every name, in the order names first appear. *)
Definition nameCount (steps : list WorkflowStep) : list (string * Z) :=
  fold_left
    (fun counts step =>
       JS.set (name step) (default 0 (JS.lookup (name step) counts) + 1) counts)
    steps [].

Definition duplicateErrors (steps : list WorkflowStep) : list ValidationError :=
  flat_map
    (fun e : string * Z =>
       if 1 <? snd e
       then [ {| ve_step := fst e; ve_field := "name";
                 ve_message := DuplicateStepName (fst e) (snd e) |} ]
       else [])
    (nameCount steps).

(** The errors and the warnings one iteration of the loop over the steps
    appends. *)
Definition checkStep (stepNames : gset string) (step : WorkflowStep)
  : list ValidationError * list ValidationWarning :=
  if String.eqb (name step) "" || String.eqb (JS.trim (name step)) "" then
    ([ {| ve_step := "(unnamed)"; ve_field := "name";
          ve_message := StepNameRequired |} ], [])
  else
    let hasModel := truthy (model step) in
    let hasPrompt := truthy (prompt step) in
    let hasMcp := truthy (mcp step) in
    let err field problem :=
      {| ve_step := name step; ve_field := field; ve_message := problem |} in
    let modelText := default "" (model step) in
    let mcpText := default "" (mcp step) in
    ( (if hasModel && negb hasPrompt then [err "prompt" ModelNeedsPrompt] else [])
      ++ (if hasPrompt && negb hasModel then [err "model" PromptNeedsModel] else [])
      ++ (if hasModel && negb (isValidModelFormat modelText)
          then [err "model" (InvalidModel modelText)] else [])
      ++ (if hasMcp && negb (length (JS.split ":" mcpText) =? 2)%nat
          then [err "mcp" (InvalidMcpTool mcpText)] else [])
      ++ flat_map
           (fun dep =>
              (if decide (dep ∈ stepNames) then []
               else [err "depends" (DependencyNotFound dep)])
              ++ (if String.eqb dep (name step)
                  then [err "depends" SelfDependency] else []))
           (default [] (depends step)),
      (if negb hasModel && negb hasMcp
       then [ {| vw_step := name step; vw_message := PassThroughStep |} ] else [])
      ++ (if hasModel && isValidModelFormat modelText
             && negb (isKnownModel modelText)
          then [ {| vw_step := name step; vw_message := UnknownModel modelText |} ]
          else []) ).

(** [None]: the call does not return, because the level computation of
    [calculateParallelGroups] recurses without end. *)
Definition relayWorkflowValidate (steps : list WorkflowStep)
  : option RelayWorkflowValidateResponse :=
  let stepNames : gset string := list_to_set (map name steps) in
  let errors := duplicateErrors steps ++ flat_map (fun s => fst (checkStep stepNames s)) steps in
  let warnings := flat_map (fun s => snd (checkStep stepNames s)) steps in
  (* Check for cycles *)
  let r := topologicalSort steps in
  let errors :=
    if hasCycle r
    then errors ++ [ {| ve_step := if truthy (r_cycleStep r)
                                   then default "" (r_cycleStep r)
                                   else "(unknown)";
                        ve_field := "depends";
                        ve_message := CircularDependencyAt (r_cycleStep r) |} ]
    else errors in
  (* Calculate parallel groups *)
  match (if hasCycle r then Some [] else calculateParallelGroups steps) with
  | None => None
  | Some groups =>
    Some {| valid := (length errors =? 0)%nat;
            errors := errors;
            warnings := warnings;
            totalSteps := length steps;
            executionOrder := if hasCycle r then [] else r_order r;
            parallelGroups := groups |}
  end.

End RelayWorkflowValidate.

(* ===================================================================== *)
(** * src/config.ts *)
(* ===================================================================== *)

Module Config.

(** [Partial<McpServerConfig>]: what a command line can set. *)
Record CliConfig : Type := mkCli {
  cli_codegenOutDir : option string;
  cli_maxDailyCostUsd : option Q;
  cli_maxSingleCallCostUsd : option Q;
  cli_maxCallsPerHour : option Z;
  cli_defaultTimeoutMs : option Z
}.

Definition noFlags : CliConfig :=
  {| cli_codegenOutDir := None; cli_maxDailyCostUsd := None;
     cli_maxSingleCallCostUsd := None; cli_maxCallsPerHour := None;
     cli_defaultTimeoutMs := None |}.

Section ParseCliArgs.

(** [parseFloat] and [parseInt(., 10)], built-ins of the platform, are
    parameters.  Their results are numbers of the model (money in [Q],
    counts in [Z]), which has no [NaN]. *)
Context (parseFloat : string -> Q) (parseInt : string -> Z).

(** The [for] loop of [parseCliArgs] from the argument in hand onwards.  A
    flag is taken only when the argument after it is truthy, and then that
    argument is passed over with it. *)
Fixpoint parseFrom (args : list string) (config : CliConfig) : CliConfig :=
  match args with
  | [] => config
  | arg :: rest =>
    match rest with
    | [] => config
    | value :: rest' =>
      if negb (truthy (Some value)) then parseFrom rest config
      else if String.eqb arg "--out-dir" then
        parseFrom rest'
          {| cli_codegenOutDir := Some value;
             cli_maxDailyCostUsd := cli_maxDailyCostUsd config;
             cli_maxSingleCallCostUsd := cli_maxSingleCallCostUsd config;
             cli_maxCallsPerHour := cli_maxCallsPerHour config;
             cli_defaultTimeoutMs := cli_defaultTimeoutMs config |}
      else if String.eqb arg "--max-daily-cost" then
        parseFrom rest'
          {| cli_codegenOutDir := cli_codegenOutDir config;
             cli_maxDailyCostUsd := Some (parseFloat value);
             cli_maxSingleCallCostUsd := cli_maxSingleCallCostUsd config;
             cli_maxCallsPerHour := cli_maxCallsPerHour config;
             cli_defaultTimeoutMs := cli_defaultTimeoutMs config |}
      else if String.eqb arg "--max-single-call-cost" then
        parseFrom rest'
          {| cli_codegenOutDir := cli_codegenOutDir config;
             cli_maxDailyCostUsd := cli_maxDailyCostUsd config;
             cli_maxSingleCallCostUsd := Some (parseFloat value);
             cli_maxCallsPerHour := cli_maxCallsPerHour config;
             cli_defaultTimeoutMs := cli_defaultTimeoutMs config |}
      else if String.eqb arg "--max-calls-per-hour" then
        parseFrom rest'
          {| cli_codegenOutDir := cli_codegenOutDir config;
             cli_maxDailyCostUsd := cli_maxDailyCostUsd config;
             cli_maxSingleCallCostUsd := cli_maxSingleCallCostUsd config;
             cli_maxCallsPerHour := Some (parseInt value);
             cli_defaultTimeoutMs := cli_defaultTimeoutMs config |}
      else if String.eqb arg "--timeout" then
        parseFrom rest'
          {| cli_codegenOutDir := cli_codegenOutDir config;
             cli_maxDailyCostUsd := cli_maxDailyCostUsd config;
             cli_maxSingleCallCostUsd := cli_maxSingleCallCostUsd config;
             cli_maxCallsPerHour := cli_maxCallsPerHour config;
             cli_defaultTimeoutMs := Some (parseInt value) |}
      else parseFrom rest config
    end
  end.

(** Parse CLI arguments. *)
Definition parseCliArgs (args : list string) : CliConfig :=
  parseFrom args noFlags.

(** Load provider keys from environment variables; [environ] is
    [process.env]. *)
Definition loadProvidersFromEnv (environ : string -> option string)
  : list (string * string) :=
  let entry provider variable :=
    if truthy (environ variable)
    then [(provider, default "" (environ variable))] else [] in
  entry "openai" "OPENAI_API_KEY"
  ++ entry "anthropic" "ANTHROPIC_API_KEY"
  ++ entry "google" "GOOGLE_API_KEY"
  ++ entry "xai" "XAI_API_KEY".

(** Initialize configuration from CLI args and environment: the defaults,
    overridden by the flags; the providers of the defaults, overridden by
    those of the environment. *)
Definition initConfig (environ : string -> option string) (cliArgs : list string)
  : McpServerConfig :=
  let cliConfig := parseCliArgs cliArgs in
  let loaded := loadProvidersFromEnv environ in
  {| maxDailyCostUsd :=
       default (maxDailyCostUsd DEFAULT_CONFIG) (cli_maxDailyCostUsd cliConfig);
     maxSingleCallCostUsd :=
       default (maxSingleCallCostUsd DEFAULT_CONFIG)
               (cli_maxSingleCallCostUsd cliConfig);
     maxCallsPerHour :=
       default (maxCallsPerHour DEFAULT_CONFIG) (cli_maxCallsPerHour cliConfig);
     providers :=
       fold_left (fun merged entry => JS.set (fst entry) (snd entry) merged)
                 loaded (providers DEFAULT_CONFIG) |}.

End ParseCliArgs.

End Config.

(* ===================================================================== *)
(** * src/tools/run-store.ts and src/tools/relay-run-get.ts: runs by
      identifier *)
(* ===================================================================== *)

Module RunHistory.

(** A run as the store holds it: the record of module [RunStore] together
    with the identifier that record leaves out. *)
Record StoredRun : Type := mkStored {
  runId : string;
  record : RunRecord
}.

(** [addRun], [getRecentRuns] and [getRunById] on the content of [runs]. *)
Definition added (run : StoredRun) (store : list StoredRun) : list StoredRun :=
  let store := run :: store in
  if (RunStore.MAX_RUNS <? length store)%nat
  then JS.slice0 store (inject_Z (Z.of_nat RunStore.MAX_RUNS))
  else store.

Definition recent (limit : option Q) (store : list StoredRun) : list StoredRun :=
  let limit := default (10 : Q) limit in
  JS.slice0 store (Qmin limit 50).

Definition getRunById (id : string) (store : list StoredRun) : option StoredRun :=
  List.find (fun r => String.eqb (runId r) id) store.

(** The [run] of a [RelayRunGetResponse], without timestamps, input and
    trace URL. *)
Record RunDetails : Type := mkDetails {
  rd_runId : string;
  rd_type : RunType;
  rd_name : option string;
  rd_model : option string;
  rd_success : bool;
  rd_usage : Usage;
  rd_output : JValue;
  rd_steps : option (Obj WorkflowStepResult);
  rd_error : option Message
}.

(** The message of a miss quotes the identifier asked for. *)
Inductive Miss : Type := RunNotFound (id : string).

Record RelayRunGetResponse : Type := mkGetResponse {
  found : bool;
  run : option RunDetails;
  error : option Miss
}.

Definition relayRunGet (id : string) (store : list StoredRun)
  : RelayRunGetResponse :=
  match getRunById id store with
  | None => {| found := false; run := None; error := Some (RunNotFound id) |}
  | Some r =>
    let rec := record r in
    {| found := true;
       run := Some {| rd_runId := runId r;
                      rd_type := rr_type rec;
                      rd_name := match rr_type rec with
                                 | workflow => rr_workflowName rec
                                 | single => None
                                 end;
                      rd_model := match rr_type rec with
                                  | single => rr_model rec
                                  | workflow => None
                                  end;
                      rd_success := rr_success rec;
                      rd_usage := rr_usage rec;
                      rd_output := rr_output rec;
                      rd_steps := rr_steps rec;
                      rd_error := rr_error rec |};
       error := None |}
  end.

End RunHistory.

(* ===================================================================== *)
(** * Vocabulary of the properties *)
(* ===================================================================== *)

(** ** Budget windows *)

(** A reading [t] of the clock falls in the day, or in the hour, that the
    budget state has open. *)
Definition sameDay (s : BudgetState) (t : Z) : Prop :=
  t / Tracker.dayInMs = lastResetDate s.

Definition sameHour (s : BudgetState) (t : Z) : Prop :=
  t - lastHourlyReset s < Tracker.hourInMs.

(** The budget after [maybeResetCounters], from the readings it took: [t1]
    for the date, [t2] for the hourly test and [t3] for the new hourly
    marker. *)
Definition rolled (s : BudgetState) (t1 t2 t3 : Z) : BudgetState :=
  {| dailySpendUsd := if lastResetDate s =? t1 / Tracker.dayInMs
                      then dailySpendUsd s else 0%Q;
     hourlyCallCount := if Tracker.hourInMs <=? t2 - lastHourlyReset s
                        then 0 else hourlyCallCount s;
     lastResetDate := t1 / Tracker.dayInMs;
     lastHourlyReset := if Tracker.hourInMs <=? t2 - lastHourlyReset s
                        then t3 else lastHourlyReset s |}.

(** A call into the tracker. *)
Inductive Call : Type :=
| CallCheck (estimatedCost : Q)
| CallRecord (actualCost : Q).

Definition call (env : Env) (c : Call) : M unit :=
  match c with
  | CallCheck e => let* _ := Tracker.checkBudget env e in ret tt
  | CallRecord a => Tracker.recordCost env a
  end.

Fixpoint calls (env : Env) (cs : list Call) : M unit :=
  match cs with
  | [] => ret tt
  | c :: rest => let* _ := call env c in calls env rest
  end.

(** The costs a sequence of calls records, in order. *)
Definition recorded (cs : list Call) : list Q :=
  flat_map (fun c => match c with CallRecord a => [a] | CallCheck _ => [] end) cs.

(** What a call does to the budget once the windows are up to date. *)
Definition bump (c : Call) (s : BudgetState) : BudgetState :=
  match c with
  | CallCheck _ => s
  | CallRecord a => {| dailySpendUsd := dailySpendUsd s + a;
                    hourlyCallCount := hourlyCallCount s + 1;
                    lastResetDate := lastResetDate s;
                    lastHourlyReset := lastHourlyReset s |}
  end.

(** The budget state a sequence of calls leaves. *)
Definition budgetAfter (env : Env) (cs : list Call) (w : World) : BudgetState :=
  budgetState (snd (calls env cs w)).

(** A run of [recordCost] calls. *)
Fixpoint recordCosts (env : Env) (costs : list Q) : M unit :=
  match costs with
  | [] => ret tt
  | a :: rest => let* _ := Tracker.recordCost env a in recordCosts env rest
  end.

(** The sum of a list of amounts, by which the proofs bound what the code
    adds up. *)
Definition Qsum (l : list Q) : Q := foldr Qplus 0%Q l.

(** The verdict of [checkBudget] on a state whose windows are up to date. *)
Definition verdict (cfg : McpServerConfig) (estimatedCost : Q) (s : BudgetState)
  : option BudgetError :=
  if maxCallsPerHour cfg <=? hourlyCallCount s
  then Some (HourlyLimitReached (maxCallsPerHour cfg))
  else if Qgtb (dailySpendUsd s + estimatedCost) (maxDailyCostUsd cfg)
  then Some (DailyBudgetExceeded (dailySpendUsd s) (maxDailyCostUsd cfg))
  else if Qgtb estimatedCost (maxSingleCallCostUsd cfg)
  then Some (SingleCallLimitExceeded estimatedCost (maxSingleCallCostUsd cfg))
  else None.

(** A concrete environment and world for the examples: the default
    configuration, a clock that stands still at the epoch, providers that
    answer nothing, and the state of a process that has just started. *)
Definition env0 : Env :=
  {| config := DEFAULT_CONFIG; clock := fun _ => 0;
     respond := fun _ _ => Failed "unreachable" |}.

Definition world0 : World :=
  {| budgetState := Tracker.initialBudgetState 0 0; runs := [];
     clockReads := 0; sent := [] |}.

(** A clock that reads [start] first and advances by [tick] per reading. *)
Definition ticking (start tick : Z) : nat -> Z :=
  fun k => start + tick * Z.of_nat k.

(** The same process one day later, the clock advancing a millisecond per
    reading. *)
Definition env1 : Env :=
  {| config := DEFAULT_CONFIG; clock := ticking Tracker.dayInMs 1;
     respond := fun _ _ => Failed "unreachable" |}.

(** ** Dependency graphs *)

Definition stepNames (steps : list WorkflowStep) : list string :=
  map name steps.

(** Some step of the list is named [a] and lists [b] in its [depends]. *)
Definition declares (steps : list WorkflowStep) (a b : string) : Prop :=
  exists step, step ∈ steps /\ name step = a /\ b ∈ default [] (depends step).

(** The dependencies of a name as [steps.find] resolves it: those of the
    first step declared under the name. *)
Definition depsOf (steps : list WorkflowStep) (a : string) : list string :=
  match RelayWorkflowValidate.findStep steps a with
  | Some step => default [] (depends step)
  | None => []
  end.

Definition dependsOn (steps : list WorkflowStep) (a b : string) : Prop :=
  b ∈ depsOf steps a.

Definition nameSet (steps : list WorkflowStep) : gset string :=
  list_to_set (stepNames steps).

(** Every [depends] reference names a step of the list. *)
Definition resolved (steps : list WorkflowStep) : Prop :=
  forall a b, declares steps a b -> b ∈ stepNames steps.

(** No step depends on itself, directly or through other steps. *)
Definition acyclic (steps : list WorkflowStep) : Prop :=
  forall a, ~ tc (declares steps) a a.

(** [a] stands strictly before [b] in [l]. *)
Definition before (a b : string) (l : list string) : Prop :=
  exists i j : nat, l !! i = Some a /\ l !! j = Some b /\ (i < j)%nat.

(** Checkers for concrete step lists: every reference is resolved; [rank]
    decreases along every declared dependency; the name [a] declares no
    dependency at all. *)
Definition resolvedb (steps : list WorkflowStep) : bool :=
  forallb (fun s => forallb (fun d => bool_decide (d ∈ stepNames steps))
                            (default [] (depends s)))
          steps.

Definition rankedb (rank : string -> nat) (steps : list WorkflowStep) : bool :=
  forallb (fun s => forallb (fun d => (rank d <? rank (name s))%nat)
                            (default [] (depends s)))
          steps.

Definition leafb (steps : list WorkflowStep) (a : string) : bool :=
  forallb (fun s => negb (String.eqb (name s) a)
                    || bool_decide (default [] (depends s) = []))
          steps.

(** *** The invariants of the depth-first traversal *)

(** Every entry of the order has its dependencies in front of it. *)
Definition topo (steps : list WorkflowStep) (l : list string) : Prop :=
  forall (j : nat) (m d : string),
    l !! j = Some m -> dependsOn steps m d ->
    exists i : nat, (i < j)%nat /\ l !! i = Some d.

Definition Inv (steps : list WorkflowStep)
    (st : RelayWorkflowValidate.SortState) : Prop :=
  NoDup (RelayWorkflowValidate.order st)
  /\ RelayWorkflowValidate.visited st = list_to_set (RelayWorkflowValidate.order st)
  /\ topo steps (RelayWorkflowValidate.order st)
  /\ RelayWorkflowValidate.visited st ## RelayWorkflowValidate.visiting st.

(** What a successful [visit] of [n] has done. *)
Definition Good (steps : list WorkflowStep) (n : string)
    (st st' : RelayWorkflowValidate.SortState) : Prop :=
  RelayWorkflowValidate.visiting st' = RelayWorkflowValidate.visiting st
  /\ RelayWorkflowValidate.cycleStep st' = RelayWorkflowValidate.cycleStep st
  /\ RelayWorkflowValidate.visited st ⊆ RelayWorkflowValidate.visited st'
  /\ n ∈ RelayWorkflowValidate.visited st'
  /\ (exists ext, RelayWorkflowValidate.order st' = RelayWorkflowValidate.order st ++ ext
                  /\ forall x, x ∈ ext -> rtc (dependsOn steps) n x)
  /\ (Inv steps st -> Inv steps st').

(** What a loop of successful visits over [ds] has done. *)
Definition GoodAll (steps : list WorkflowStep) (ds : list string)
    (st st' : RelayWorkflowValidate.SortState) : Prop :=
  RelayWorkflowValidate.visiting st' = RelayWorkflowValidate.visiting st
  /\ RelayWorkflowValidate.cycleStep st' = RelayWorkflowValidate.cycleStep st
  /\ RelayWorkflowValidate.visited st ⊆ RelayWorkflowValidate.visited st'
  /\ (forall d, d ∈ ds -> d ∈ RelayWorkflowValidate.visited st')
  /\ (exists ext, RelayWorkflowValidate.order st' = RelayWorkflowValidate.order st ++ ext
                  /\ forall x, x ∈ ext ->
                               exists d, d ∈ ds /\ rtc (dependsOn steps) d x)
  /\ (Inv steps st -> Inv steps st').

(** The state [topologicalSort] starts from. *)
Definition validateStart : RelayWorkflowValidate.SortState :=
  {| RelayWorkflowValidate.order := []; RelayWorkflowValidate.visited := ∅;
     RelayWorkflowValidate.visiting := ∅;
     RelayWorkflowValidate.cycleStep := None |}.

(** The invariant of the execution path's traversal: the steps pushed so far
    have distinct names, which are exactly the visited ones, and no step is
    both visited and being visited. *)
Definition InvE (st : RelayWorkflowRun.SortState) : Prop :=
  NoDup (map name (RelayWorkflowRun.sorted st))
  /\ RelayWorkflowRun.visited st = list_to_set (map name (RelayWorkflowRun.sorted st))
  /\ RelayWorkflowRun.visited st ## RelayWorkflowRun.visiting st.

(** *** The two traversals side by side *)

(** A state of the execution path's sort and one of the validation path's
    hold the same order and the same marks. *)
Definition sameState (e : RelayWorkflowRun.SortState)
    (v : RelayWorkflowValidate.SortState) : Prop :=
  map name (RelayWorkflowRun.sorted e) = RelayWorkflowValidate.order v
  /\ RelayWorkflowRun.visited e = RelayWorkflowValidate.visited v
  /\ RelayWorkflowRun.visiting e = RelayWorkflowValidate.visiting v.

(** The two outcomes agree: both out of fuel, both done in the same state,
    or a circular-dependency error naming the recorded cycle step. *)
Definition sameOutcome (e : option (Message + RelayWorkflowRun.SortState))
    (v : option (bool * RelayWorkflowValidate.SortState)) : Prop :=
  match e, v with
  | None, None => True
  | Some (inr e'), Some (true, v') => sameState e' v'
  | Some (inl m), Some (false, v') =>
    exists s, m = CircularDependency s
              /\ RelayWorkflowValidate.cycleStep v' = Some s
  | _, _ => False
  end.

(** A step with a name and dependencies only. *)
Definition plainStep (n : string) (deps : list string) : WorkflowStep :=
  {| name := n; model := None; prompt := None; systemPrompt := None;
     depends := Some deps; mcp := None; params := None; schema := None |}.

(** Example step lists: [B] after [A]; [A] needing the later [C], with an
    unrelated [B] in between; a reference to a step that does not exist; a
    name declared twice, the second time depending on itself. *)
Definition stepsAB : list WorkflowStep :=
  [plainStep "A" []; plainStep "B" ["A"]].

Definition stepsACB : list WorkflowStep :=
  [plainStep "A" ["C"]; plainStep "B" []; plainStep "C" []].

Definition stepsUnknown : list WorkflowStep :=
  [plainStep "A" ["X"]].

Definition stepsShadowed : list WorkflowStep :=
  [plainStep "A" []; plainStep "A" ["A"]].

(** A rank for the names of an example, given as a table. *)
Definition rankOf (table : list (string * nat)) (n : string) : nat :=
  default 0%nat (JS.lookup n table).

(** ** Workflow runs *)

(** The loop variables before the first step. *)
Definition startState : RelayWorkflowRun.RunState :=
  {| RelayWorkflowRun.contextSteps := JS.emptyObject;
     RelayWorkflowRun.stepResults := JS.emptyObject;
     RelayWorkflowRun.totalTokens := 0; RelayWorkflowRun.totalCost := 0 |}.

(** The names under which an object keeps own properties when they are
    assigned to it one by one: all but [__proto__]. *)
Definition listed (names : list string) : list string :=
  List.filter (fun n => negb (String.eqb n "__proto__")) names.

(** The entry the step loop records for a failed step. *)
Definition failedResult (cause : Message) : WorkflowStepResult :=
  {| sr_success := false; sr_output := JNull; sr_usage := None;
     sr_error := Some cause |}.

(** The world in which the step loop starts: the one the aggregate budget
    check of the sorted steps leaves. *)
Definition admissionWorld (env : Env) (sorted : list WorkflowStep) (w : World)
  : World :=
  snd (Tracker.checkBudget env
         (Estimator.estimateWorkflowCost
            (List.filter RelayWorkflowRun.isAiStep sorted)) w).

(** The request [relayRun] is called with for a model step, in the loop
    state [st]. *)
Definition stepRequest (platform : Platform) (input : JValue)
    (step : WorkflowStep) (st : RelayWorkflowRun.RunState)
  : RelayRun.RelayRunInput :=
  let context := RelayWorkflowRun.contextOf input (RelayWorkflowRun.contextSteps st) in
  {| RelayRun.ri_model := default "" (model step);
     RelayRun.ri_prompt :=
       RelayWorkflowRun.interpolate platform (default "" (prompt step)) context;
     RelayRun.ri_systemPrompt :=
       if truthy (systemPrompt step)
       then Some (RelayWorkflowRun.interpolate platform
                    (default "" (systemPrompt step)) context)
       else None;
     RelayRun.ri_schema := schema step |}.

(** A model step with a prompt. *)
Definition aiStep (n model prompt : string) (deps : list string) : WorkflowStep :=
  {| name := n; model := Some model; prompt := Some prompt;
     systemPrompt := None; depends := Some deps; mcp := None; params := None;
     schema := None |}.

(** An environment with an OpenAI key in which the provider fails every
    request. *)
Definition envFailing : Env :=
  {| config := {| maxDailyCostUsd := 5; maxSingleCallCostUsd := 1 # 2;
                  maxCallsPerHour := 100; providers := [("openai", "sk-test")] |};
     clock := fun _ => 0;
     respond := fun _ _ => Failed "OpenAI API error: 500 - unavailable" |}.

(** The scenario of the specification: [A], and [B] that depends on it. *)
Definition workflowAB : RelayWorkflowRun.RelayWorkflowRunInput :=
  {| RelayWorkflowRun.wf_name := "ab";
     RelayWorkflowRun.wf_steps :=
       [aiStep "A" "openai:gpt-4o-mini" "Say {{input.word}}" [];
        aiStep "B" "openai:gpt-4o-mini" "Repeat {{steps.A.output}}" ["A"]];
     RelayWorkflowRun.wf_input := JObject [("word", JString "hello")] |}.

(** The same scenario with the name [__proto__]: as the only step, a model
    step; and as a step without model that completes before the model step
    [B]. *)
Definition workflowProto : RelayWorkflowRun.RelayWorkflowRunInput :=
  {| RelayWorkflowRun.wf_name := "proto";
     RelayWorkflowRun.wf_steps :=
       [aiStep "__proto__" "openai:gpt-4o-mini" "Say {{input.word}}" []];
     RelayWorkflowRun.wf_input := JObject [("word", JString "hello")] |}.

Definition workflowProtoB : RelayWorkflowRun.RelayWorkflowRunInput :=
  {| RelayWorkflowRun.wf_name := "proto-b";
     RelayWorkflowRun.wf_steps :=
       [plainStep "__proto__" [];
        aiStep "B" "openai:gpt-4o-mini" "Repeat {{input.word}}" ["__proto__"]];
     RelayWorkflowRun.wf_input := JObject [("word", JString "hello")] |}.

(** An environment with an OpenAI key in which the provider answers every
    request and reports forty million prompt tokens: six dollars at the
    price of [gpt-4o-mini], more than the daily ceiling of five. *)
Definition envOverspending : Env :=
  {| config := {| maxDailyCostUsd := 5; maxSingleCallCostUsd := 1 # 2;
                  maxCallsPerHour := 100; providers := [("openai", "sk-test")] |};
     clock := fun _ => 0;
     respond := fun _ _ => Replied (JString "done") 40000000 0 |}.

(** ** Templates *)

(** The character [c] occurs in [s]. *)
Fixpoint occurs (c : ascii) (s : string) : bool :=
  match s with
  | EmptyString => false
  | String d t => Ascii.eqb d c || occurs c t
  end.

(** The parts of a placeholder's path. *)
Definition pathParts (path : string) : list string :=
  JS.split "." (JS.trim path).

(** What interpolation is to do, in the words of its description.

    [Own value key x]: [key] names an own property of [value], and [x] is
    its value.  An object has its fields (the first entry of a key counts),
    an array its elements under their decimal indices and its [length], a
    string its characters and its [length]. *)
Inductive Own : JValue -> string -> JValue -> Prop :=
| own_field fields front back key x :
    fields = front ++ (key, x) :: back -> key ∉ map fst front ->
    Own (JObject fields) key x
| own_field_derived fields proto front back key x :
    fields = front ++ (key, x) :: back -> key ∉ map fst front ->
    Own (JDerived fields proto) key x
| own_item items (i : nat) x :
    items !! i = Some x -> Own (JArray items) (pretty i) x
| own_array_length items :
    Own (JArray items) "length" (JNumber (pretty (length items)))
| own_char s (i : nat) c :
    String.get i s = Some c ->
    Own (JString s) (pretty i) (JString (String c EmptyString))
| own_string_length s :
    Own (JString s) "length" (JNumber (pretty (String.length s))).

(** [Chain platform value key x]: looking [key] up from [value] along the
    prototype chain gives [x].  An own property is found first.  An object
    whose prototype was assigned passes the search on to that prototype,
    and shows the prototype itself under [__proto__]; the search ends
    without result where there is no prototype.  For any other value the
    rest of the chain lies in the platform. *)
Inductive Chain (platform : Platform) : JValue -> string -> JValue -> Prop :=
| chain_own value key x :
    Own value key x -> Chain platform value key x
| chain_end value key :
    value = JNull \/ value = JUndefined -> Chain platform value key JUndefined
| chain_prototype fields proto :
    (forall x, ~ Own (JDerived fields proto) "__proto__" x) ->
    Chain platform (JDerived fields proto) "__proto__" proto
| chain_up fields proto key x :
    (forall y, ~ Own (JDerived fields proto) key y) -> key <> "__proto__" ->
    Chain platform proto key x ->
    Chain platform (JDerived fields proto) key x
| chain_platform value key :
    (forall y, ~ Own value key y) ->
    value <> JNull -> value <> JUndefined ->
    (forall fields proto, value <> JDerived fields proto) ->
    Chain platform value key (inherited platform value key).

(** [Arrives platform value parts result]: reading the parts of a path one
    after the other, starting from [value], arrives at [result]; at [None]
    when a value that still has a part to be read from is [null] or
    [undefined]. *)
Inductive Arrives (platform : Platform)
  : JValue -> list string -> option JValue -> Prop :=
| arrives_here value :
    Arrives platform value [] (Some value)
| arrives_nowhere value part rest :
    value = JNull \/ value = JUndefined ->
    Arrives platform value (part :: rest) None
| arrives_on value part rest x result :
    value <> JNull -> value <> JUndefined ->
    Chain platform value part x -> Arrives platform x rest result ->
    Arrives platform value (part :: rest) result.

(** The text that stands for the value a path arrives at: a string as it
    is, a number and a boolean by their text, [null], an array and an object
    as JSON, an object of the platform by the platform's text, and nothing
    for what is missing. *)
Definition shown (platform : Platform) (result : option JValue) : string :=
  match result with
  | None | Some JUndefined => ""
  | Some (JString s) => s
  | Some (JNumber text) => text
  | Some (JBool b) => if b then "true" else "false"
  | Some (JNative id) => nativeText platform id
  | Some value => JSON_stringify platform value
  end.

(** The text begins with a placeholder: two opening braces, a path that is
    not empty and has no closing brace, two closing braces. *)
Definition placeholderAhead (s : string) : Prop :=
  exists path rest,
    path <> "" /\ occurs "}" path = false
    /\ s = "{{" +:+ path +:+ "}}" +:+ rest.

(** A platform for examples: it prints [{}] for every value and [native]
    for each of its objects, and gives every object the constructor
    [Object], whose [name] reads [Object]; its prototypes have no other
    member. *)
Definition samplePlatform : Platform :=
  {| JSON_stringify := fun _ => "{}";
     inherited := fun value key =>
       match value with
       | JObject _ =>
         if String.eqb key "constructor" then JNative "Object" else JUndefined
       | JNative "Object" =>
         if String.eqb key "name" then JString "Object" else JUndefined
       | _ => JUndefined
       end;
     nativeText := fun _ => "native" |}.

(** ** Run store *)

(** Runs added one after the other, the head of the list first. *)
Fixpoint addRuns (rs : list RunRecord) : M unit :=
  match rs with
  | [] => ret tt
  | r :: rest => let* _ := RunStore.addRun r in addRuns rest
  end.

(** A failed single-call run of the given model, as an example record. *)
Definition sampleRun (model : string) : RunRecord :=
  {| rr_type := single; rr_model := Some model; rr_workflowName := None;
     rr_success := false; rr_usage := mkUsage 0 0 0 0; rr_output := JUndefined;
     rr_steps := None; rr_error := Some StepExecutionFailed |}.

(** A world whose store holds the given runs. *)
Definition worldWithRuns (store : list RunRecord) : World :=
  {| budgetState := Tracker.initialBudgetState 0 0; runs := store;
     clockReads := 0; sent := [] |}.

(** ** Vocabulary of the further properties *)

(** The term a step adds to the workflow estimate. *)
Definition stepEstimate (step : WorkflowStep) : Q :=
  if RelayWorkflowRun.isAiStep step
  then Estimator.estimateProviderCost (default "" (model step))
         (default "" (prompt step)) (systemPrompt step)
  else 0%Q.

(** What the loop of [estimateWorkflowCost] does with one step. *)
Definition addEstimate (total : Q) (step : WorkflowStep) : Q :=
  if RelayWorkflowRun.isAiStep step then (total + stepEstimate step)%Q else total.

(** A model identifier with a colon, as the [provider:model] form has it:
    the price table is then read under a name that it lists or that reads
    [undefined]. *)
Definition qualified (model : string) : bool := occurs ":" model.

(** The model steps of a list all name their model in that form. *)
Definition qualifiedModels (steps : list WorkflowStep) : bool :=
  forallb (fun step => negb (RelayWorkflowRun.isAiStep step)
                       || qualified (default "" (model step))) steps.

(** The text whose length [estimateProviderCost] measures. *)
Definition inputText (systemPrompt : option string) (prompt : string) : string :=
  (if truthy systemPrompt then default "" systemPrompt else "") +:+ prompt.

(** The request [execute] builds for a provider. *)
Definition requestOf (cfg : McpServerConfig) (provider modelId : string)
    (input : RelayRun.RelayRunInput) : ProviderRequest :=
  {| rq_provider := provider;
     rq_apiKey := default "" (RelayRun.getProviderKey cfg provider);
     rq_modelId := modelId;
     rq_prompt := RelayRun.ri_prompt input;
     rq_systemPrompt := RelayRun.ri_systemPrompt input;
     rq_schema := if String.eqb provider "openai" || String.eqb provider "anthropic"
                  then RelayRun.ri_schema input else None |}.

(** The providers [relayRun] can call. *)
Definition supported (provider : string) : bool :=
  JS.includes provider ["openai"; "anthropic"; "google"; "xai"].

(** The outcomes of [attempt], one by one. *)
Inductive Outcome (env : Env) (input : RelayRun.RelayRunInput) (w : World)
  : Message + (JValue * Usage) -> World -> Prop :=
| BadModel :
    RelayRun.parseModel (RelayRun.ri_model input)
    = inl (InvalidModelFormat (RelayRun.ri_model input)) ->
    Outcome env input w (inl (InvalidModelFormat (RelayRun.ri_model input))) w
| NoKey provider modelId :
    RelayRun.parseModel (RelayRun.ri_model input) = inr (provider, modelId) ->
    RelayRun.isProviderConfigured (config env) provider = false ->
    Outcome env input w (inl (ProviderNotConfigured provider)) w
| Denied provider modelId why :
    RelayRun.parseModel (RelayRun.ri_model input) = inr (provider, modelId) ->
    RelayRun.isProviderConfigured (config env) provider = true ->
    let estimate := Estimator.estimateProviderCost (RelayRun.ri_model input)
                      (RelayRun.ri_prompt input) (RelayRun.ri_systemPrompt input) in
    Tracker.error (Tracker.checkBudget env estimate w).1 = Some why ->
    Tracker.allowed (Tracker.checkBudget env estimate w).1 = false ->
    Outcome env input w (inl (BudgetDenied why)) (Tracker.checkBudget env estimate w).2
| Unsupported provider modelId :
    RelayRun.parseModel (RelayRun.ri_model input) = inr (provider, modelId) ->
    RelayRun.isProviderConfigured (config env) provider = true ->
    let estimate := Estimator.estimateProviderCost (RelayRun.ri_model input)
                      (RelayRun.ri_prompt input) (RelayRun.ri_systemPrompt input) in
    Tracker.allowed (Tracker.checkBudget env estimate w).1 = true ->
    supported provider = false ->
    Outcome env input w (inl (UnsupportedProvider provider))
            (Tracker.checkBudget env estimate w).2
| ProviderFailed provider modelId text :
    RelayRun.parseModel (RelayRun.ri_model input) = inr (provider, modelId) ->
    RelayRun.isProviderConfigured (config env) provider = true ->
    let estimate := Estimator.estimateProviderCost (RelayRun.ri_model input)
                      (RelayRun.ri_prompt input) (RelayRun.ri_systemPrompt input) in
    let w1 := (Tracker.checkBudget env estimate w).2 in
    let request := requestOf (config env) provider modelId input in
    Tracker.allowed (Tracker.checkBudget env estimate w).1 = true ->
    supported provider = true ->
    respond env (length (sent w)) request = Failed text ->
    Outcome env input w (inl (ProviderFailure text))
            {| budgetState := budgetState w1; runs := runs w1;
               clockReads := clockReads w1; sent := sent w ++ [request] |}
| Answered provider modelId out p c :
    RelayRun.parseModel (RelayRun.ri_model input) = inr (provider, modelId) ->
    RelayRun.isProviderConfigured (config env) provider = true ->
    let estimate := Estimator.estimateProviderCost (RelayRun.ri_model input)
                      (RelayRun.ri_prompt input) (RelayRun.ri_systemPrompt input) in
    let w1 := (Tracker.checkBudget env estimate w).2 in
    let request := requestOf (config env) provider modelId input in
    let cost := Estimator.calculateActualCost (RelayRun.ri_model input) p c in
    Tracker.allowed (Tracker.checkBudget env estimate w).1 = true ->
    supported provider = true ->
    respond env (length (sent w)) request = Replied out p c ->
    Outcome env input w
            (inr (out, {| promptTokens := p; completionTokens := c;
                          totalTokens := p + c; estimatedProviderCostUsd := cost |}))
            (Tracker.recordCost env cost
               {| budgetState := budgetState w1; runs := runs w1;
                  clockReads := clockReads w1; sent := sent w ++ [request] |}).2.

(** The environment variable that holds the key of a provider. *)
Definition providerVariables : list (string * string) :=
  [("openai", "OPENAI_API_KEY"); ("anthropic", "ANTHROPIC_API_KEY");
   ("google", "GOOGLE_API_KEY"); ("xai", "XAI_API_KEY")].

(** The flags [parseCliArgs] knows. *)
Definition cliFlags : list string :=
  ["--out-dir"; "--max-daily-cost"; "--max-single-call-cost";
   "--max-calls-per-hour"; "--timeout"].

(** [value] stands right after [flag] somewhere in [args]. *)
Definition follows (flag value : string) (args : list string) : Prop :=
  exists before after, args = before ++ flag :: value :: after.

(** The settings of [later] on top of those of [earlier]. *)
Definition overridden (earlier later : Config.CliConfig) : Config.CliConfig :=
  let pick {A} (a b : option A) := match b with Some _ => b | None => a end in
  {| Config.cli_codegenOutDir :=
       pick (Config.cli_codegenOutDir earlier) (Config.cli_codegenOutDir later);
     Config.cli_maxDailyCostUsd :=
       pick (Config.cli_maxDailyCostUsd earlier) (Config.cli_maxDailyCostUsd later);
     Config.cli_maxSingleCallCostUsd :=
       pick (Config.cli_maxSingleCallCostUsd earlier)
            (Config.cli_maxSingleCallCostUsd later);
     Config.cli_maxCallsPerHour :=
       pick (Config.cli_maxCallsPerHour earlier) (Config.cli_maxCallsPerHour later);
     Config.cli_defaultTimeoutMs :=
       pick (Config.cli_defaultTimeoutMs earlier) (Config.cli_defaultTimeoutMs later) |}.

(** What [parseCliArgs] may hold for a command line: every setting comes
    from a flag of the line and the non-empty argument right after it. *)
Definition fromLine (parseFloat : string -> Q) (parseInt : string -> Z)
    (args : list string) (config : Config.CliConfig) : Prop :=
  (forall dir, Config.cli_codegenOutDir config = Some dir ->
               dir <> "" /\ follows "--out-dir" dir args)
  /\ (forall x, Config.cli_maxDailyCostUsd config = Some x ->
                exists v, x = parseFloat v /\ v <> ""
                          /\ follows "--max-daily-cost" v args)
  /\ (forall x, Config.cli_maxSingleCallCostUsd config = Some x ->
                exists v, x = parseFloat v /\ v <> ""
                          /\ follows "--max-single-call-cost" v args)
  /\ (forall n, Config.cli_maxCallsPerHour config = Some n ->
                exists v, n = parseInt v /\ v <> ""
                          /\ follows "--max-calls-per-hour" v args)
  /\ (forall n, Config.cli_defaultTimeoutMs config = Some n ->
                exists v, n = parseInt v /\ v <> "" /\ follows "--timeout" v args).

(** [stepResults[lastStep.name]?.output] in the loop state [st]. *)
Definition finalOutputOf (sorted : list WorkflowStep)
    (st : RelayWorkflowRun.RunState) : JValue :=
  match last sorted with
  | Some lastStep =>
    match JS.read (name lastStep) (RelayWorkflowRun.stepResults st) with
    | Some result => sr_output result
    | None => JUndefined
    end
  | None => JUndefined
  end.

(** The end of a workflow that ran all its steps: the run record filed and
    the response returned from the loop state [st]. *)
Definition succeed (input : RelayWorkflowRun.RelayWorkflowRunInput)
    (sorted : list WorkflowStep) (st : RelayWorkflowRun.RunState)
  : M RelayWorkflowRun.RelayWorkflowRunResponse :=
  let* _ := RunStore.addRun
              {| rr_type := workflow; rr_model := None;
                 rr_workflowName := Some (RelayWorkflowRun.wf_name input);
                 rr_success := true;
                 rr_usage := mkUsage 0 0 (RelayWorkflowRun.totalTokens st)
                                     (RelayWorkflowRun.totalCost st);
                 rr_output := finalOutputOf sorted st;
                 rr_steps := Some (RelayWorkflowRun.stepResults st);
                 rr_error := None |} in
  ret {| RelayWorkflowRun.success := true;
         RelayWorkflowRun.steps := RelayWorkflowRun.stepResults st;
         RelayWorkflowRun.finalOutput := finalOutputOf sorted st;
         RelayWorkflowRun.totalUsage_totalTokens := RelayWorkflowRun.totalTokens st;
         RelayWorkflowRun.totalUsage_estimatedProviderCostUsd :=
           RelayWorkflowRun.totalCost st;
         RelayWorkflowRun.error := None |}.

(** The first model step of the order whose provider has no key. *)
Definition unconfigured (cfg : McpServerConfig) (sorted : list WorkflowStep)
  : option WorkflowStep :=
  List.find (fun step => negb (RelayRun.isProviderConfigured
                                 cfg (RelayWorkflowRun.providerOf step)))
            (List.filter RelayWorkflowRun.isAiStep sorted).

(** The usage the report of a run holds for a step: that of the result read
    under the name of the step. *)
Definition usageIn (report : Obj WorkflowStepResult) (step : WorkflowStep)
  : option Usage :=
  JS.read (name step) report ≫= sr_usage.

(** What a step adds to the totals of a run: the tokens and the cost of its
    usage, if the report holds one. *)
Definition addTokens (report : Obj WorkflowStepResult) (total : Z)
    (step : WorkflowStep) : Z :=
  match usageIn report step with
  | Some used => total + (promptTokens used + completionTokens used)
  | None => total
  end.

Definition addCost (report : Obj WorkflowStepResult) (total : Q)
    (step : WorkflowStep) : Q :=
  match usageIn report step with
  | Some used => (total + estimatedProviderCostUsd used)%Q
  | None => total
  end.

(** Runs added one after the other to a store content, the head of the list
    first. *)
Definition addedAll (newer : list RunHistory.StoredRun)
    (store : list RunHistory.StoredRun) : list RunHistory.StoredRun :=
  fold_left (fun store run => RunHistory.added run store) newer store.

(** How often a name is declared. *)
Definition occurrences (n : string) (steps : list WorkflowStep) : Z :=
  Z.of_nat (length (List.filter (fun s => String.eqb (name s) n) steps)).

(** What the level map of [calculateParallelGroups] holds while it is being
    filled: every name once; a name without dependencies at level 0; any
    other name one level above the highest of its dependencies, which all
    have their entries. *)
Definition LevelsOk (steps : list WorkflowStep) (levels : list (string * Z)) : Prop :=
  NoDup (map fst levels)
  /\ forall n l,
       (n, l) ∈ levels ->
       0 <= l
       /\ (depsOf steps n = [] -> l = 0)
       /\ (depsOf steps n <> [] ->
           (forall d, d ∈ depsOf steps n -> exists ld, (d, ld) ∈ levels /\ ld < l)
           /\ exists d, d ∈ depsOf steps n /\ (d, l - 1) ∈ levels).

(** What a returning call of [getLevel] for [n] has done: the map, still in
    order, holds [n] at the level returned, and what it has gained are names
    that [n] reaches through dependencies. *)
Definition Levelled (steps : list WorkflowStep) (n : string)
    (levels : list (string * Z)) (l : Z) (levels' : list (string * Z)) : Prop :=
  LevelsOk steps levels'
  /\ (n, l) ∈ levels'
  /\ exists ext, levels' = levels ++ ext
                 /\ forall k, k ∈ map fst ext -> rtc (dependsOn steps) n k.

(** The step named [stepName] is in the group of index [i]. *)
Definition inGroup (groups : list (list string)) (i : nat) (stepName : string)
  : Prop :=
  exists group, groups !! i = Some group /\ stepName ∈ group.

(** What the loop of [relayWorkflowValidate] asks of one step: a name that is
    not blank, a model exactly when there is a prompt, a model and a tool of
    the right shape, and dependencies on other steps of the list. *)
Definition wellFormed (steps : list WorkflowStep) (step : WorkflowStep) : Prop :=
  name step <> "" /\ JS.trim (name step) <> ""
  /\ truthy (model step) = truthy (prompt step)
  /\ (truthy (model step) = true ->
      RelayWorkflowValidate.isValidModelFormat (default "" (model step)) = true)
  /\ (truthy (mcp step) = true ->
      length (JS.split ":" (default "" (mcp step))) = 2%nat)
  /\ (forall dep, dep ∈ default [] (depends step) ->
                  dep ∈ stepNames steps /\ dep <> name step).

(** A process that may make two calls an hour. *)
Definition envTwoCalls : Env :=
  {| config := {| maxDailyCostUsd := 5; maxSingleCallCostUsd := 1 # 2;
                  maxCallsPerHour := 2; providers := [] |};
     clock := fun _ => 0; respond := fun _ _ => Failed "unreachable" |}.

(* ===================================================================== *)
(** * Properties *)
(* ===================================================================== *)

(** ** Budget tracker *)

Lemma Qgtb_lt (a b : Q) : Qgtb a b = true <-> (b < a)%Q.
Proof.
  unfold Qgtb. rewrite negb_true_iff, <- not_true_iff_false, Qle_bool_iff.
  split; [apply Qnot_le_lt | apply Qlt_not_le].
Qed.

Lemma maybeResetCounters_eq (env : Env) (w : World) :
  let n := clockReads w in
  let due := Tracker.hourInMs <=? clock env (S n) - lastHourlyReset (budgetState w) in
  Tracker.maybeResetCounters env w =
  (tt, {| budgetState := rolled (budgetState w) (clock env n) (clock env (S n))
                                (clock env (S (S n)));
          runs := runs w;
          clockReads := if due then S (S (S n)) else S (S n);
          sent := sent w |}).
Proof.
  destruct w as [[spend count day hour] rs n sn]; cbn.
  unfold Tracker.maybeResetCounters, Tracker.getCurrentDateUTC,
    Tracker.shouldResetHourly, bind, ret, now, getBudget, setBudget, rolled; cbn.
  destruct (day =? clock env n / Tracker.dayInMs) eqn:Hd; cbn;
    destruct (Tracker.hourInMs <=? clock env (S n) - hour) eqn:Hh; cbn;
    try (apply Z.eqb_eq in Hd; subst day); reflexivity.
Qed.

(** [checkBudget] rolls the windows and then only reads the state. *)
Lemma checkBudget_eq (env : Env) (e : Q) (w : World) :
  let w1 := snd (Tracker.maybeResetCounters env w) in
  let s := budgetState w1 in
  Tracker.checkBudget env e w =
  ({| Tracker.allowed := bool_decide (verdict (config env) e s = None);
      Tracker.error := verdict (config env) e s;
      Tracker.currentDailySpend := dailySpendUsd s;
      Tracker.currentHourlyCalls := hourlyCallCount s |}, w1).
Proof.
  cbn zeta. unfold Tracker.checkBudget, bind at 1.
  rewrite maybeResetCounters_eq. cbn [snd].
  unfold bind, getBudget, ret, verdict. cbn [budgetState].
  repeat (case_match; try reflexivity).
Qed.

(** [recordCost] rolls the windows and then adds the cost and one call. *)
Lemma recordCost_eq (env : Env) (a : Q) (w : World) :
  let w1 := snd (Tracker.maybeResetCounters env w) in
  let s := budgetState w1 in
  Tracker.recordCost env a w =
  (tt, {| budgetState := {| dailySpendUsd := dailySpendUsd s + a;
                            hourlyCallCount := hourlyCallCount s + 1;
                            lastResetDate := lastResetDate s;
                            lastHourlyReset := lastHourlyReset s |};
          runs := runs w1; clockReads := clockReads w1; sent := sent w1 |}).
Proof.
  cbn zeta. unfold Tracker.recordCost, bind at 1.
  rewrite maybeResetCounters_eq. reflexivity.
Qed.

Lemma call_world (env : Env) (c : Call) (w : World) :
  let n := clockReads w in
  let due := Tracker.hourInMs <=? clock env (S n) - lastHourlyReset (budgetState w) in
  snd (call env c w) =
  {| budgetState := bump c (rolled (budgetState w) (clock env n) (clock env (S n))
                                   (clock env (S (S n))));
     runs := runs w;
     clockReads := if due then S (S (S n)) else S (S n);
     sent := sent w |}.
Proof.
  destruct c as [e | a]; cbn zeta; unfold call.
  - unfold bind. rewrite checkBudget_eq, maybeResetCounters_eq. reflexivity.
  - rewrite recordCost_eq, maybeResetCounters_eq. reflexivity.
Qed.

Lemma call_reads (env : Env) (c : Call) (w : World) :
  (clockReads w + 2 <= clockReads (snd (call env c w)) <= clockReads w + 3)%nat.
Proof. rewrite call_world. cbn [clockReads]. case_match; lia. Qed.

Lemma calls_cons (env : Env) (c : Call) (cs : list Call) (w : World) :
  snd (calls env (c :: cs) w) = snd (calls env cs (snd (call env c w))).
Proof.
  cbn [calls]. unfold bind. destruct (call env c w) as [[] w1]. reflexivity.
Qed.

Lemma recorded_cons (c : Call) (cs : list Call) :
  recorded (c :: cs) =
  match c with CallRecord a => a :: recorded cs | CallCheck _ => recorded cs end.
Proof. destruct c; reflexivity. Qed.

(** Every call reads the clock twice, and a third time when the hour rolls. *)
Lemma calls_reads (env : Env) (cs : list Call) (w : World) :
  (clockReads w + 2 * length cs <= clockReads (snd (calls env cs w))
   <= clockReads w + 3 * length cs)%nat.
Proof.
  revert w. induction cs as [|c cs IH]; intros w.
  - cbn. lia.
  - rewrite calls_cons. specialize (IH (snd (call env c w))).
    rewrite call_world in IH |- *. cbn [clockReads length] in *.
    case_match; lia.
Qed.

(** While the day does not change, the daily spend is only added to. *)
Lemma calls_daily_quiet (env : Env) (cs : list Call) (w : World) :
  (forall k, (clockReads w <= k < clockReads (snd (calls env cs w)))%nat ->
             sameDay (budgetState w) (clock env k)) ->
  dailySpendUsd (budgetAfter env cs w)
  = fold_left Qplus (recorded cs) (dailySpendUsd (budgetState w))
  /\ lastResetDate (budgetAfter env cs w) = lastResetDate (budgetState w).
Proof.
  unfold budgetAfter. revert w. induction cs as [|c cs IH]; intros w Hq.
  - split; reflexivity.
  - rewrite calls_cons in Hq |- *.
    pose proof (calls_reads env cs (snd (call env c w))) as Hr.
    pose proof (call_reads env c w) as Hc.
    assert (Hn : sameDay (budgetState w) (clock env (clockReads w))).
    { apply Hq. lia. }
    unfold sameDay in Hn.
    assert (Hs : dailySpendUsd (budgetState (snd (call env c w)))
                 = match c with
                   | CallRecord a => (dailySpendUsd (budgetState w) + a)%Q
                   | CallCheck _ => dailySpendUsd (budgetState w)
                   end
                 /\ lastResetDate (budgetState (snd (call env c w)))
                    = lastResetDate (budgetState w)).
    { rewrite call_world. cbn [budgetState]. unfold rolled.
      rewrite Hn, Z.eqb_refl. destruct c; split; reflexivity. }
    destruct Hs as [Hs Hd].
    destruct (IH (snd (call env c w))) as [IH1 IH2].
    { intros k Hk. unfold sameDay. rewrite Hd. apply Hq. lia. }
    rewrite IH1, IH2, Hs, Hd, recorded_cons. split; [|reflexivity].
    destruct c; reflexivity.
Qed.

(** While the hour does not roll, the call count is only added to, and
    every call reads the clock exactly twice. *)
Lemma calls_hourly_quiet (env : Env) (cs : list Call) (w : World) :
  (forall k, (clockReads w <= k < clockReads w + 2 * length cs)%nat ->
             sameHour (budgetState w) (clock env k)) ->
  hourlyCallCount (budgetAfter env cs w)
  = hourlyCallCount (budgetState w) + Z.of_nat (length (recorded cs))
  /\ lastHourlyReset (budgetAfter env cs w) = lastHourlyReset (budgetState w)
  /\ clockReads (snd (calls env cs w)) = (clockReads w + 2 * length cs)%nat.
Proof.
  unfold budgetAfter. revert w. induction cs as [|c cs IH]; intros w Hq.
  - cbn. repeat split; lia.
  - rewrite calls_cons.
    assert (Hn : sameHour (budgetState w) (clock env (S (clockReads w)))).
    { apply Hq. cbn [length]. lia. }
    unfold sameHour in Hn. apply Z.leb_gt in Hn.
    assert (Hs : hourlyCallCount (budgetState (snd (call env c w)))
                 = match c with
                   | CallRecord _ => hourlyCallCount (budgetState w) + 1
                   | CallCheck _ => hourlyCallCount (budgetState w)
                   end
                 /\ lastHourlyReset (budgetState (snd (call env c w)))
                    = lastHourlyReset (budgetState w)
                 /\ clockReads (snd (call env c w)) = S (S (clockReads w))).
    { rewrite call_world. cbn [budgetState clockReads]. unfold rolled.
      rewrite Hn. destruct c; repeat split; reflexivity. }
    destruct Hs as (Hs & Hm & Hc).
    destruct (IH (snd (call env c w))) as (IH1 & IH2 & IH3).
    { intros k Hk. unfold sameHour. rewrite Hm. apply Hq.
      rewrite Hc in Hk. cbn [length]. lia. }
    rewrite IH1, IH2, IH3, Hs, Hm, Hc, recorded_cons. cbn [length].
    repeat split; [|lia]. destruct c; cbn [length]; lia.
Qed.

Lemma Qsum_nonneg (l : list Q) :
  Forall (fun a => 0 <= a)%Q l -> (0 <= Qsum l)%Q.
Proof.
  unfold Qsum. induction 1 as [|a l Ha _ IH]; cbn [foldr]; [apply Qle_refl|].
  lra.
Qed.

Lemma Qsum_app (l1 l2 : list Q) : (Qsum (l1 ++ l2) == Qsum l1 + Qsum l2)%Q.
Proof.
  unfold Qsum. induction l1 as [|a l1 IH]; cbn [foldr app]; [ring | rewrite IH; ring].
Qed.

Lemma fold_left_Qplus_le (l : list Q) (x : Q) :
  Forall (fun a => 0 <= a)%Q l -> (x <= fold_left Qplus l x)%Q.
Proof.
  intros H. revert x. induction H as [|a l Ha _ IH]; intros x; cbn [fold_left].
  - apply Qle_refl.
  - eapply Qle_trans; [|apply IH]. lra.
Qed.

Lemma recordCosts_calls (env : Env) (costs : list Q) (w : World) :
  recordCosts env costs w = calls env (map CallRecord costs) w.
Proof.
  revert w. induction costs as [|a costs IH]; intros w; [reflexivity|].
  cbn [recordCosts calls map call]. unfold bind.
  destruct (Tracker.recordCost env a w) as [[] w1]. apply IH.
Qed.

Lemma recorded_Record (costs : list Q) : recorded (map CallRecord costs) = costs.
Proof. induction costs as [|a l IH]; cbn; [|rewrite <- IH at 2]; reflexivity. Qed.

(** Within one day and one hour, a sequence of calls resets nothing. *)
Lemma calls_quiet (env : Env) (cs : list Call) (w : World) :
  (forall k, (clockReads w <= k < clockReads w + 2 * length cs)%nat ->
             sameDay (budgetState w) (clock env k)
             /\ sameHour (budgetState w) (clock env k)) ->
  dailySpendUsd (budgetAfter env cs w)
  = fold_left Qplus (recorded cs) (dailySpendUsd (budgetState w))
  /\ hourlyCallCount (budgetAfter env cs w)
     = hourlyCallCount (budgetState w) + Z.of_nat (length (recorded cs))
  /\ lastResetDate (budgetAfter env cs w) = lastResetDate (budgetState w)
  /\ lastHourlyReset (budgetAfter env cs w) = lastHourlyReset (budgetState w).
Proof.
  intros Hq.
  destruct (calls_hourly_quiet env cs w) as (Hc & Hm & Hr).
  { intros k Hk. apply Hq, Hk. }
  destruct (calls_daily_quiet env cs w) as (Hs & Hd).
  { intros k Hk. rewrite Hr in Hk. apply Hq, Hk. }
  auto.
Qed.

(** Claim C5. [checkBudget] rolls the windows and then tests three ceilings in
    the order hourly call count, daily spend, per-call cost; the first one
    that fails is the denial it reports, and it denies exactly when one of
    them fails on the counters it reports. *)
Theorem checkBudget_three_ceilings_in_order
    (env : Env) (estimatedCost : Q) (w : World) :
  let r := fst (Tracker.checkBudget env estimatedCost w) in
  let w' := snd (Tracker.checkBudget env estimatedCost w) in
  let cfg := config env in
  let calls := Tracker.currentHourlyCalls r in
  let spend := Tracker.currentDailySpend r in
  let hourly := maxCallsPerHour cfg <= calls in
  let daily := (maxDailyCostUsd cfg < spend + estimatedCost)%Q in
  let perCall := (maxSingleCallCostUsd cfg < estimatedCost)%Q in
  w' = snd (Tracker.maybeResetCounters env w)
  /\ calls = hourlyCallCount (budgetState w')
  /\ spend = dailySpendUsd (budgetState w')
  /\ (Tracker.allowed r = false <-> hourly \/ daily \/ perCall)
  /\ (Tracker.allowed r = true <-> ~ hourly /\ ~ daily /\ ~ perCall)
  /\ (Tracker.allowed r = true <-> Tracker.error r = None)
  /\ (Tracker.error r = Some (HourlyLimitReached (maxCallsPerHour cfg))
      <-> hourly)
  /\ (Tracker.error r = Some (DailyBudgetExceeded spend (maxDailyCostUsd cfg))
      <-> ~ hourly /\ daily)
  /\ (Tracker.error r
      = Some (SingleCallLimitExceeded estimatedCost (maxSingleCallCostUsd cfg))
      <-> ~ hourly /\ ~ daily /\ perCall).
Proof.
  cbn zeta. rewrite checkBudget_eq. cbn [fst snd Tracker.allowed Tracker.error
    Tracker.currentDailySpend Tracker.currentHourlyCalls].
  set (s := budgetState (snd (Tracker.maybeResetCounters env w))).
  unfold verdict.
  destruct (maxCallsPerHour (config env) <=? hourlyCallCount s) eqn:Hh.
  { apply Z.leb_le in Hh. rewrite bool_decide_eq_false_2 by discriminate.
    repeat split; try tauto; try discriminate; intros; try tauto; try lia. }
  apply Z.leb_gt in Hh.
  destruct (Qgtb (dailySpendUsd s + estimatedCost) (maxDailyCostUsd (config env)))
    eqn:Hd.
  { apply Qgtb_lt in Hd. rewrite bool_decide_eq_false_2 by discriminate.
    repeat split; try tauto; try discriminate; intros; try tauto; try lia. }
  assert (Hd' : ~ (maxDailyCostUsd (config env) < dailySpendUsd s + estimatedCost)%Q).
  { rewrite <- Qgtb_lt, Hd. discriminate. }
  destruct (Qgtb estimatedCost (maxSingleCallCostUsd (config env))) eqn:Hp.
  { apply Qgtb_lt in Hp. rewrite bool_decide_eq_false_2 by discriminate.
    repeat split; try tauto; try discriminate; intros; try tauto; try lia. }
  assert (Hp' : ~ (maxSingleCallCostUsd (config env) < estimatedCost)%Q).
  { rewrite <- Qgtb_lt, Hp. discriminate. }
  rewrite bool_decide_eq_true_2 by reflexivity.
  repeat split; try tauto; try discriminate; intros; try tauto; try lia.
  exfalso. destruct H as [H | [H | H]]; [lia | tauto | tauto].
Qed.

Lemma recordCosts_budget (env : Env) (w : World) (costs : list Q) :
  (forall k, (clockReads w <= k < clockReads w + 2 * length costs)%nat ->
             sameDay (budgetState w) (clock env k)
             /\ sameHour (budgetState w) (clock env k)) ->
  let s := budgetState (snd (recordCosts env costs w)) in
  dailySpendUsd s = fold_left Qplus costs (dailySpendUsd (budgetState w))
  /\ hourlyCallCount s
     = hourlyCallCount (budgetState w) + Z.of_nat (length costs).
Proof.
  intros Hq. cbn zeta. rewrite recordCosts_calls.
  destruct (calls_quiet env (map CallRecord costs) w) as (Hs & Hc & _).
  { intros k Hk. apply Hq. rewrite length_map in Hk. exact Hk. }
  unfold budgetAfter in *. rewrite recorded_Record in *. auto.
Qed.

(** Claim C6. Within one window (every clock reading of the calls falls in the
    open day and the open hour), after any prefix [done] of a sequence of
    [recordCost] calls the daily spend is the starting spend with the costs
    recorded so far added to it, one after the other in the order of the
    calls, and the hourly count has grown by one per call; the remaining
    calls go on from there in the same way.  The count never decreases
    along the sequence, and neither does the spend when no cost is negative.
    [recordCost] is a total function: it returns for every cost and
    state. *)
Theorem recordCost_accumulates_within_window
    (env : Env) (w : World) (costs : list Q) :
  (forall k, (clockReads w <= k < clockReads w + 2 * length costs)%nat ->
             sameDay (budgetState w) (clock env k)
             /\ sameHour (budgetState w) (clock env k)) ->
  forall done rest, costs = done ++ rest ->
  let s0 := budgetState w in
  let s1 := budgetState (snd (recordCosts env done w)) in
  let s2 := budgetState (snd (recordCosts env costs w)) in
  dailySpendUsd s1 = fold_left Qplus done (dailySpendUsd s0)
  /\ dailySpendUsd s2 = fold_left Qplus rest (dailySpendUsd s1)
  /\ hourlyCallCount s1 = hourlyCallCount s0 + Z.of_nat (length done)
  /\ hourlyCallCount s2 = hourlyCallCount s1 + Z.of_nat (length rest)
  /\ hourlyCallCount s1 <= hourlyCallCount s2
  /\ (Forall (fun a => 0 <= a)%Q costs -> (dailySpendUsd s1 <= dailySpendUsd s2)%Q).
Proof.
  intros Hq done rest ->. cbn zeta.
  destruct (recordCosts_budget env w (done ++ rest) Hq) as [Hs2 Hc2].
  destruct (recordCosts_budget env w done) as [Hs1 Hc1].
  { intros k Hk. apply Hq. rewrite length_app. lia. }
  rewrite Hs1, Hc1, Hs2, Hc2, length_app, fold_left_app.
  split_and!; try done; try lia.
  intros Hpos. apply Forall_app in Hpos as [_ Hrest].
  by apply fold_left_Qplus_le.
Qed.

Lemma recordCost_accumulates_witness :
  dailySpendUsd (budgetState (snd (recordCosts env0 [1 # 2; 1 # 4]%Q world0)))
  = fold_left Qplus [1 # 2; 1 # 4]%Q 0%Q
  /\ hourlyCallCount (budgetState (snd (recordCosts env0 [1 # 2; 1 # 4]%Q world0)))
     = 2.
Proof.
  destruct (recordCost_accumulates_within_window env0 world0 [1 # 2; 1 # 4]%Q)
    with (done := [1 # 2; 1 # 4]%Q) (rest := @nil Q) as (H1 & _ & H2 & _).
  - intros k _. split; vm_compute; reflexivity.
  - reflexivity.
  - split; [exact H1 | exact H2].
Defined.

(** Claim C7. The windows are rolled lazily, at the start of every
    [checkBudget] and [recordCost], by comparing clock readings with the
    stored markers. Never before the boundary: while every reading of a
    sequence of calls stays in the open day and hour, the counters are only
    added to and the markers stay. Exactly once per crossing: when the first
    call of a sequence reads a new day (or a reading an hour or more past the
    hourly marker) and the later readings stay in the window so opened, the
    daily spend (the hourly count) restarts from zero at that first call and
    is only added to afterwards. *)
Theorem counters_reset_once_per_window
    (env : Env) (w : World) (c : Call) (cs : list Call) :
  let n := clockReads w in
  let s := budgetState w in
  let t1 := clock env n in
  let t2 := clock env (S n) in
  let t3 := clock env (S (S n)) in
  (forall e, snd (Tracker.checkBudget env e w) = snd (Tracker.maybeResetCounters env w))
  /\ (forall a, budgetState (snd (Tracker.recordCost env a w))
                = bump (CallRecord a)
                       (budgetState (snd (Tracker.maybeResetCounters env w))))
  /\ budgetState (snd (Tracker.maybeResetCounters env w)) = rolled s t1 t2 t3
  /\ ((forall k, (n <= k < n + 2 * length cs)%nat ->
                 sameDay s (clock env k) /\ sameHour s (clock env k)) ->
      dailySpendUsd (budgetAfter env cs w)
      = fold_left Qplus (recorded cs) (dailySpendUsd s)
      /\ hourlyCallCount (budgetAfter env cs w)
         = hourlyCallCount s + Z.of_nat (length (recorded cs))
      /\ lastResetDate (budgetAfter env cs w) = lastResetDate s
      /\ lastHourlyReset (budgetAfter env cs w) = lastHourlyReset s)
  /\ (~ sameDay s t1 ->
      (forall k, (n <= k < n + 3 * length (c :: cs))%nat ->
                 clock env k / Tracker.dayInMs = t1 / Tracker.dayInMs) ->
      dailySpendUsd (budgetAfter env (c :: cs) w)
      = fold_left Qplus (recorded (c :: cs)) 0%Q
      /\ lastResetDate (budgetAfter env (c :: cs) w) = t1 / Tracker.dayInMs)
  /\ (~ sameHour s t2 ->
      (forall k, (n + 3 <= k < n + 3 + 2 * length cs)%nat ->
                 clock env k - t3 < Tracker.hourInMs) ->
      hourlyCallCount (budgetAfter env (c :: cs) w)
      = Z.of_nat (length (recorded (c :: cs)))
      /\ lastHourlyReset (budgetAfter env (c :: cs) w) = t3).
Proof.
  cbn zeta. split; [|split; [|split; [|split; [|split]]]].
  - intros e. rewrite checkBudget_eq. reflexivity.
  - intros a. rewrite recordCost_eq. reflexivity.
  - rewrite maybeResetCounters_eq. reflexivity.
  - apply calls_quiet.
  - intros Hday Hq. unfold budgetAfter. rewrite calls_cons.
    pose proof (call_reads env c w) as Hc.
    pose proof (calls_reads env cs (snd (call env c w))) as Hr.
    destruct (calls_daily_quiet env cs (snd (call env c w))) as [Hs Hd].
    { intros k Hk. unfold sameDay. rewrite call_world at 1.
      cbn [budgetState]. transitivity (clock env (clockReads w) / Tracker.dayInMs).
      - apply Hq. cbn [length]. lia.
      - destruct c; reflexivity. }
    unfold budgetAfter in Hs, Hd. rewrite Hs, Hd.
    rewrite call_world. cbn [budgetState]. unfold rolled.
    assert (He : (lastResetDate (budgetState w)
                  =? clock env (clockReads w) / Tracker.dayInMs) = false).
    { apply Z.eqb_neq. intros He. apply Hday. unfold sameDay. congruence. }
    rewrite He, recorded_cons. destruct c; split; reflexivity.
  - intros Hhour Hq. unfold budgetAfter. rewrite calls_cons.
    assert (He : (Tracker.hourInMs
                  <=? clock env (S (clockReads w)) - lastHourlyReset (budgetState w))
                 = true).
    { apply Z.leb_le. unfold sameHour in Hhour. lia. }
    assert (Hw : clockReads (snd (call env c w)) = S (S (S (clockReads w)))
                 /\ lastHourlyReset (budgetState (snd (call env c w)))
                    = clock env (S (S (clockReads w)))
                 /\ hourlyCallCount (budgetState (snd (call env c w)))
                    = match c with CallRecord _ => 1 | CallCheck _ => 0 end).
    { rewrite call_world. cbn [budgetState clockReads]. unfold rolled.
      rewrite He. destruct c; repeat split; reflexivity. }
    destruct Hw as (Hn & Hm & Hc).
    destruct (calls_hourly_quiet env cs (snd (call env c w))) as (Hs & Hd & _).
    { intros k Hk. unfold sameHour. rewrite Hm. apply Hq. lia. }
    unfold budgetAfter in Hs, Hd. rewrite Hs, Hd, Hm, Hc, recorded_cons.
    split; [|reflexivity]. destruct c; cbn [length]; lia.
Qed.

Lemma counters_reset_once_witness :
  let cs := [CallRecord (1 # 2); CallCheck (1 # 10); CallRecord (1 # 4)]%Q in
  dailySpendUsd (budgetAfter env0 cs world0) = fold_left Qplus [1 # 2; 1 # 4]%Q 0%Q
  /\ dailySpendUsd (budgetAfter env1 cs world0) = fold_left Qplus [1 # 2; 1 # 4]%Q 0%Q
  /\ hourlyCallCount (budgetAfter env1 cs world0) = 2.
Proof.
  cbn zeta.
  destruct (counters_reset_once_per_window env0 world0 (CallCheck 0)
              [CallRecord (1 # 2); CallCheck (1 # 10); CallRecord (1 # 4)]%Q)
    as (_ & _ & _ & Hquiet & _).
  destruct (counters_reset_once_per_window env1 world0 (CallRecord (1 # 2))
              [CallCheck (1 # 10); CallRecord (1 # 4)]%Q)
    as (_ & _ & _ & _ & Hday & Hhour).
  split; [|split].
  - apply Hquiet. intros k _. split; vm_compute; reflexivity.
  - apply Hday.
    + vm_compute. discriminate.
    + intros k Hk. cbn in Hk.
      do 9 (destruct k as [|k]; [vm_compute; reflexivity|]). lia.
  - apply Hhour.
    + vm_compute. discriminate.
    + intros k Hk. cbn in Hk.
      do 7 (destruct k as [|k]; [vm_compute; reflexivity|]). lia.
Defined.

(** ** Run store *)

Lemma toInteger_nonneg (q : Q) : (0 <= q)%Q -> 0 <= JS.toInteger q.
Proof.
  unfold Qle, JS.toInteger. cbn. intros H.
  apply Z.quot_pos; lia.
Qed.

Lemma toInteger_le (q : Q) : (0 <= q)%Q -> (inject_Z (JS.toInteger q) <= q)%Q.
Proof.
  unfold Qle, JS.toInteger. cbn. intros H.
  rewrite Z.quot_div_nonneg by lia.
  rewrite Z.mul_1_r, Z.mul_comm. apply Z.mul_div_le. lia.
Qed.

Lemma slice0_nonneg {A} (l : list A) (q : Q) :
  (0 <= q)%Q -> JS.slice0 l q = take (Z.to_nat (JS.toInteger q)) l.
Proof.
  intros H. apply toInteger_nonneg in H. unfold JS.slice0.
  destruct (JS.toInteger q <? 0) eqn:E; [apply Z.ltb_lt in E; lia|].
  destruct (Z.le_gt_cases (JS.toInteger q) (Z.of_nat (length l))) as [Hle | Hgt].
  - rewrite Z.min_l by lia. reflexivity.
  - rewrite Z.min_r by lia. rewrite Nat2Z.id.
    rewrite !take_ge by lia. reflexivity.
Qed.

Lemma added_take (run : RunRecord) (store : list RunRecord) :
  RunStore.added run store = take RunStore.MAX_RUNS (run :: store).
Proof.
  unfold RunStore.added.
  destruct (RunStore.MAX_RUNS <? length (run :: store))%nat eqn:E.
  - rewrite slice0_nonneg by (vm_compute; discriminate). reflexivity.
  - apply Nat.ltb_ge in E. rewrite take_ge by lia. reflexivity.
Qed.

Lemma take_app_take {A} (n : nat) (l1 l2 : list A) :
  take n (l1 ++ take n l2) = take n (l1 ++ l2).
Proof.
  rewrite !take_app. rewrite take_take. f_equal. f_equal. lia.
Qed.

Lemma addRuns_runs (rs : list RunRecord) (w : World) :
  runs (snd (addRuns rs w)) = take RunStore.MAX_RUNS (reverse rs ++ runs w)
  \/ rs = [] /\ runs (snd (addRuns rs w)) = runs w.
Proof.
  revert w. induction rs as [|r rs IH]; intros w; [right; auto|left].
  cbn [addRuns]. unfold bind. cbn [RunStore.addRun].
  set (w1 := {| budgetState := budgetState w; runs := RunStore.added r (runs w);
                clockReads := clockReads w; sent := sent w |}).
  rewrite reverse_cons, <- app_assoc. cbn [app].
  destruct (IH w1) as [H | [-> H]].
  - rewrite H. cbn [runs w1]. rewrite added_take. apply take_app_take.
  - cbn. apply added_take.
Qed.

Lemma recent_prefix (limit : Q) (store : list RunRecord) :
  (0 <= limit)%Q ->
  let k := Z.to_nat (JS.toInteger (Qmin limit 50)) in
  RunStore.recent (Some limit) store = take k store
  /\ (inject_Z (Z.of_nat k) <= Qmin limit 50)%Q
  /\ (k <= 50)%nat.
Proof.
  intros H. cbn zeta.
  assert (Hm : (0 <= Qmin limit 50)%Q).
  { apply Q.min_glb; [exact H | discriminate]. }
  split; [|split].
  - unfold RunStore.recent. cbn [default]. apply slice0_nonneg, Hm.
  - rewrite Z2Nat.id by (apply toInteger_nonneg, Hm). apply toInteger_le, Hm.
  - pose proof (toInteger_le _ Hm) as H1.
    pose proof (Q.le_min_r limit 50) as H2.
    assert (H3 : (inject_Z (JS.toInteger (Qmin limit 50)) <= inject_Z 50)%Q).
    { eapply Qle_trans; [exact H1 | exact H2]. }
    rewrite <- Zle_Qle in H3. lia.
Qed.

(** Claim C10. The store keeps the 100 most recent runs, newest first.  The
    list operation, the [relay_runs_list] tool, reaches [getRecentRuns]
    through its schema only, which lets the limits from 1 to 50 through and
    a request without limit, read as 10: it answers every request with a
    prefix of the store, the most recent runs first, of at most
    [min(limit, 50)] records, and so never with more than 50 of the up to
    100 the store holds.  [getRecentRuns] itself returns the first
    [min(limit, 50)] (fraction dropped) records for every limit that is not
    negative. *)
Theorem runs_list_capped_at_fifty
    (w : World) (adds : list RunRecord) (requested : option Q) :
  let store := runs w in
  (adds <> [] ->
   runs (snd (addRuns adds w)) = take RunStore.MAX_RUNS (reverse adds ++ store))
  /\ (forall limit : Q, (0 <= limit)%Q ->
      let out := fst (RunStore.getRecentRuns (Some limit) w) in
      out = take (Z.to_nat (JS.toInteger (Qmin limit 50))) store
      /\ (inject_Z (Z.of_nat (length out)) <= Qmin limit 50)%Q
      /\ (length out <= 50)%nat)
  /\ match fst (RelayRunsList.relay_runs_list requested w) with
     | Some r =>
       exists k : nat,
         RelayRunsList.lr_runs r = map RelayRunsList.summary (take k store)
         /\ (k <= 50)%nat
         /\ (forall l, requested = Some l ->
                       (inject_Z (Z.of_nat k) <= Qmin l 50)%Q)
         /\ RelayRunsList.lr_total r = length (RelayRunsList.lr_runs r)
     | None => exists l, requested = Some l /\ ~ (1 <= l /\ l <= 50)%Q
     end.
Proof.
  cbn zeta. split; [|split].
  - intros Hne. destruct (addRuns_runs adds w) as [H | [H _]]; [exact H | done].
  - intros limit Hl. cbn [RunStore.getRecentRuns fst].
    destruct (recent_prefix limit (runs w) Hl) as (H1 & H2 & H3).
    rewrite H1. split; [reflexivity|]. rewrite length_take. split.
    + eapply Qle_trans; [|exact H2]. rewrite <- Zle_Qle. lia.
    + lia.
  - unfold RelayRunsList.relay_runs_list, RelayRunsList.relayRunsListSchema_parse.
    destruct requested as [l|].
    + destruct (Qle_bool 1 l && Qle_bool l 50) eqn:E.
      * apply andb_true_iff in E as [E1 E2].
        apply Qle_bool_iff in E1, E2.
        unfold bind, ret, RelayRunsList.relayRunsList, RunStore.getRecentRuns.
        cbn [fst].
        assert (Hz : Qeq_bool l 0 = false).
        { apply not_true_iff_false. rewrite Qeq_bool_iff. lra. }
        rewrite Hz.
        destruct (recent_prefix l (runs w)) as (H1 & H2 & H3); [lra|].
        cbn [RelayRunsList.lr_runs RelayRunsList.lr_total].
        eexists. rewrite H1. split; [reflexivity|]. split; [exact H3|].
        split; [|reflexivity]. intros l' [= <-]. exact H2.
      * cbn. exists l. split; [reflexivity|]. intros [H1 H2].
        apply Qle_bool_iff in H1, H2. rewrite H1, H2 in E. discriminate.
    + unfold bind, ret, RelayRunsList.relayRunsList, RunStore.getRecentRuns.
      cbn [fst RelayRunsList.lr_runs RelayRunsList.lr_total].
      destruct (recent_prefix 10 (runs w)) as (H1 & H2 & H3); [discriminate|].
      eexists. rewrite H1. split; [reflexivity|]. split; [exact H3|].
      split; [|reflexivity]. intros l' [=].
Qed.

Lemma runs_list_capped_witness :
  let store := [sampleRun "c"; sampleRun "b"; sampleRun "a"] in
  fst (RunStore.getRecentRuns (Some 2%Q) (worldWithRuns store))
  = [sampleRun "c"; sampleRun "b"]
  /\ runs (snd (addRuns [sampleRun "a"; sampleRun "b"; sampleRun "c"]
                        (worldWithRuns [])))
     = store.
Proof.
  cbn zeta. split.
  - destruct (runs_list_capped_at_fifty
                (worldWithRuns [sampleRun "c"; sampleRun "b"; sampleRun "a"])
                [] None) as (_ & H & _).
    destruct (H 2%Q) as (H1 & _); [vm_compute; discriminate|].
    rewrite H1. reflexivity.
  - destruct (runs_list_capped_at_fifty (worldWithRuns [])
                [sampleRun "a"; sampleRun "b"; sampleRun "c"] None) as (H & _).
    rewrite H; [reflexivity | discriminate].
Defined.

(** The schema is what keeps a negative limit from [getRecentRuns], whose
    [slice(0, -1)] would count from the end of the store: the tool turns
    the request down. *)
Lemma getRecentRuns_negative_limit :
  length (fst (RunStore.getRecentRuns (Some (-1)%Q)
                 (worldWithRuns (replicate 60 (sampleRun "a"))))) = 59%nat
  /\ fst (RelayRunsList.relay_runs_list (Some (-1)%Q)
            (worldWithRuns (replicate 60 (sampleRun "a")))) = None.
Proof. split; vm_compute; reflexivity. Qed.

(** ** Keyed collections *)

Lemma set_fresh {A} (k : string) (v : A) (l : list (string * A)) :
  k ∉ map fst l -> JS.set k v l = l ++ [(k, v)].
Proof.
  induction l as [|[k' v'] l IH]; intros Hk; [done|].
  cbn in Hk |- *. apply not_elem_of_cons in Hk as [Hne Hk].
  destruct (String.eqb k' k) eqn:E; [apply String.eqb_eq in E; congruence|].
  by rewrite IH.
Qed.

Lemma lookup_app {A} (k : string) (l1 l2 : list (string * A)) :
  JS.lookup k (l1 ++ l2)
  = match JS.lookup k l1 with Some v => Some v | None => JS.lookup k l2 end.
Proof.
  induction l1 as [|[k' v'] l1 IH]; [done|]. cbn.
  destruct (String.eqb k' k); [done | apply IH].
Qed.

Lemma lookup_Some_elem {A} (k : string) (v : A) (l : list (string * A)) :
  JS.lookup k l = Some v -> (k, v) ∈ l.
Proof.
  induction l as [|[k' v'] l IH]; [done|]. cbn.
  destruct (String.eqb k' k) eqn:E.
  - apply String.eqb_eq in E. intros [= <-]. subst. left.
  - intros H. right. by apply IH.
Qed.

Lemma lookup_absent {A} (k : string) (l : list (string * A)) :
  k ∉ map fst l -> JS.lookup k l = None.
Proof.
  induction l as [|[k' v'] l IH]; [done|]. cbn. intros Hk.
  apply not_elem_of_cons in Hk as [Hne Hk].
  destruct (String.eqb k' k) eqn:E; [apply String.eqb_eq in E; congruence|].
  by apply IH.
Qed.

Lemma lookup_None_keys {A} (k : string) (l : list (string * A)) :
  JS.lookup k l = None -> k ∉ map fst l.
Proof.
  induction l as [|[k' v] l IH]; cbn; [intros _; apply not_elem_of_nil|].
  destruct (String.eqb k' k) eqn:E; [discriminate|]. apply String.eqb_neq in E.
  intros H. apply not_elem_of_cons. split; [congruence | by apply IH].
Qed.

Lemma lookup_set_eq {A} (k : string) (v : A) (l : list (string * A)) :
  JS.lookup k (JS.set k v l) = Some v.
Proof.
  induction l as [|[k' v'] l IH]; cbn; [by rewrite String.eqb_refl|].
  destruct (String.eqb k' k) eqn:E; cbn; by rewrite E.
Qed.

Lemma lookup_set_ne {A} (k k' : string) (v : A) (l : list (string * A)) :
  k <> k' -> JS.lookup k' (JS.set k v l) = JS.lookup k' l.
Proof.
  intros Hne. induction l as [|[k0 v0] l IH]; cbn.
  - destruct (String.eqb k k') eqn:E; [apply String.eqb_eq in E; congruence | done].
  - destruct (String.eqb k0 k) eqn:E; cbn.
    + apply String.eqb_eq in E. subst k0.
      destruct (String.eqb k k') eqn:E'; [apply String.eqb_eq in E'; congruence | done].
    + by rewrite IH.
Qed.

Lemma set_keys_NoDup {A} (k : string) (v : A) (l : list (string * A)) :
  NoDup (map fst l) -> NoDup (map fst (JS.set k v l)).
Proof.
  intros Hnd. destruct (decide (k ∈ map fst l)) as [Hin | Hout].
  - enough (H : map fst (JS.set k v l) = map fst l) by by rewrite H.
    clear Hnd. induction l as [|[k' v'] l IH]; [by apply elem_of_nil in Hin|].
    cbn. destruct (String.eqb k' k) eqn:E; cbn; [done|].
    f_equal. apply IH. cbn in Hin. apply elem_of_cons in Hin as [-> | Hin]; [|done].
    by rewrite String.eqb_refl in E.
  - rewrite set_fresh by done. rewrite map_app. cbn.
    apply NoDup_app. split_and!; [done | | apply NoDup_singleton].
    intros x Hx Hx'. apply list_elem_of_singleton in Hx'. by subst.
Qed.

Lemma elem_lookup {A} (k : string) (v : A) (l : list (string * A)) :
  NoDup (map fst l) -> (k, v) ∈ l -> JS.lookup k l = Some v.
Proof.
  induction l as [|[k' v'] l IH]; intros Hnd Hin; [by apply elem_of_nil in Hin|].
  cbn in Hnd. apply NoDup_cons in Hnd as [Hk Hnd]. cbn.
  apply elem_of_cons in Hin as [[= <- <-] | Hin]; [by rewrite String.eqb_refl|].
  destruct (String.eqb k' k) eqn:E; [|by apply IH].
  apply String.eqb_eq in E. subst k'. exfalso. apply Hk.
  apply list_elem_of_fmap. by exists (k, v).
Qed.

(** ** Template interpolation *)

Lemma append_nil (b : string) : "" +:+ b = b.
Proof. reflexivity. Qed.

Lemma append_cons (c : ascii) (a b : string) :
  String c a +:+ b = String c (a +:+ b).
Proof. reflexivity. Qed.

Lemma append_assoc (a b c : string) : (a +:+ b) +:+ c = a +:+ (b +:+ c).
Proof.
  induction a as [|x a IH]; [reflexivity|]. rewrite !append_cons. congruence.
Qed.

Lemma append_nil_r (a : string) : a +:+ "" = a.
Proof.
  induction a as [|x a IH]; [reflexivity|]. rewrite append_cons. congruence.
Qed.

Lemma length_append (a b : string) :
  String.length (a +:+ b) = (String.length a + String.length b)%nat.
Proof.
  induction a as [|x a IH]; [reflexivity|]. rewrite append_cons. cbn. congruence.
Qed.

(** *** The scan of the template *)

Lemma spanPath_to_brace (path r : string) :
  occurs "}" path = false ->
  RelayWorkflowRun.spanPath (path +:+ String "}" r) = (path, String "}" r).
Proof.
  induction path as [|c path IH]; [reflexivity|].
  cbn [occurs]. intros H. apply orb_false_iff in H as [Hc Hp].
  rewrite append_cons. cbn [RelayWorkflowRun.spanPath].
  rewrite Hc, (IH Hp). reflexivity.
Qed.

Lemma spanPath_split (s p r : string) :
  RelayWorkflowRun.spanPath s = (p, r) ->
  s = p +:+ r /\ occurs "}" p = false.
Proof.
  revert p r. induction s as [|c s IH]; intros p r; cbn [RelayWorkflowRun.spanPath].
  - intros [= <- <-]. done.
  - destruct (Ascii.eqb c "}") eqn:Hc.
    + intros [= <- <-]. done.
    + destruct (RelayWorkflowRun.spanPath s) as [p' r'].
      intros [= <- <-]. destruct (IH p' r' eq_refl) as [-> Hp].
      split; [done|]. cbn [occurs]. by rewrite Hc, Hp.
Qed.

Lemma replaceAll_skip (f : string -> string) (s1 s2 : string) :
  RelayWorkflowRun.replaceAll f (String.length s1) (s1 +:+ s2)
  = RelayWorkflowRun.replaceAll f 0 s2.
Proof.
  induction s1 as [|c s1 IH]; [reflexivity|].
  rewrite append_cons. cbn [String.length RelayWorkflowRun.replaceAll]. exact IH.
Qed.

Lemma replaceAll_match (f : string -> string) (c : ascii) (t path : string)
    (len : nat) :
  RelayWorkflowRun.matchAt (String c t) = Some (path, len) ->
  RelayWorkflowRun.replaceAll f 0 (String c t)
  = f path +:+ RelayWorkflowRun.replaceAll f (len - 1) t.
Proof. intros H. cbn [RelayWorkflowRun.replaceAll]. rewrite H. reflexivity. Qed.

Lemma matchAt_placeholder (path rest : string) :
  occurs "}" path = false -> path <> "" ->
  RelayWorkflowRun.matchAt
    (String "{" (String "{" (path +:+ String "}" (String "}" rest))))
  = Some (path, (4 + String.length path)%nat).
Proof.
  intros Hp Hne. unfold RelayWorkflowRun.matchAt.
  rewrite (spanPath_to_brace _ _ Hp).
  destruct path as [|c path]; [done|]. reflexivity.
Qed.

Lemma replaceAll_placeholder (f : string -> string) (path rest : string) :
  occurs "}" path = false -> path <> "" ->
  RelayWorkflowRun.replaceAll f 0 ("{{" +:+ path +:+ "}}" +:+ rest)
  = f path +:+ RelayWorkflowRun.replaceAll f 0 rest.
Proof.
  intros Hp Hne.
  change ("{{" +:+ path +:+ "}}" +:+ rest)
    with (String "{" (String "{" (path +:+ String "}" (String "}" rest)))).
  rewrite (replaceAll_match _ _ _ _ _ (matchAt_placeholder path rest Hp Hne)).
  f_equal.
  replace (4 + String.length path - 1)%nat
    with (String.length (String "{" (path +:+ "}}"))).
  - rewrite <- (replaceAll_skip f (String "{" (path +:+ "}}")) rest).
    rewrite append_cons, append_assoc. reflexivity.
  - cbn [String.length]. rewrite length_append. cbn [String.length]. lia.
Qed.

(** A match of the pattern is a placeholder. *)
Lemma matchAt_ahead (s path : string) (len : nat) :
  RelayWorkflowRun.matchAt s = Some (path, len) -> placeholderAhead s.
Proof.
  unfold RelayWorkflowRun.matchAt.
  destruct s as [|c1 [|c2 t]]; try discriminate.
  destruct (Ascii.eqb c1 "{") eqn:H1; [|discriminate].
  destruct (Ascii.eqb c2 "{") eqn:H2; [|discriminate]. cbn [andb].
  apply Ascii.eqb_eq in H1, H2. subst c1 c2.
  destruct (RelayWorkflowRun.spanPath t) as [p r] eqn:Hspan.
  destruct (spanPath_split _ _ _ Hspan) as [-> Hp].
  destruct p as [|c p]; [discriminate|].
  destruct r as [|d1 [|d2 r]]; try discriminate.
  destruct (Ascii.eqb d1 "}") eqn:H3; [|discriminate].
  destruct (Ascii.eqb d2 "}") eqn:H4; [|discriminate]. cbn [andb].
  apply Ascii.eqb_eq in H3, H4. subst d1 d2. intros _.
  exists (String c p), r. split_and!; [done | done |].
  cbn [String.app]. rewrite !append_cons. do 3 f_equal.
Qed.

Lemma replaceAll_copy (f : string -> string) (c : ascii) (rest : string) :
  ~ placeholderAhead (String c rest) ->
  RelayWorkflowRun.replaceAll f 0 (String c rest)
  = String c (RelayWorkflowRun.replaceAll f 0 rest).
Proof.
  intros Hno. cbn [RelayWorkflowRun.replaceAll].
  destruct (RelayWorkflowRun.matchAt (String c rest)) as [[path len]|] eqn:Hm;
    [|reflexivity].
  exfalso. apply Hno. by eapply matchAt_ahead.
Qed.

(** *** Property reads *)

Lemma pretty_not_length (i : nat) : pretty i <> "length".
Proof.
  unfold pretty, pretty_nat, pretty, pretty_N.
  destruct (decide (N.of_nat i = 0%N)); [discriminate|].
  generalize (N.of_nat i). clear. intros x.
  enough (H : forall s, (forall s', s <> String "l" s') ->
                        pretty_N_go x s <> "length") by (apply H; discriminate).
  induction (N.lt_wf_0 x) as [x _ IH]. intros s Hs.
  destruct (decide (x = 0%N)) as [-> | Hx].
  - rewrite pretty_N_go_0. apply Hs.
  - rewrite pretty_N_go_step by lia. apply IH; [apply N.div_lt; lia|].
    intros s'. unfold pretty_N_char. by repeat case_match.
Qed.

Lemma lookup_front {A} (front back : list (string * A)) (key : string) (x : A) :
  key ∉ map fst front -> JS.lookup key (front ++ (key, x) :: back) = Some x.
Proof.
  intros Hk. rewrite lookup_app, (lookup_absent _ _ Hk). cbn.
  by rewrite String.eqb_refl.
Qed.

Lemma lookup_split {A} (fields : list (string * A)) (key : string) (x : A) :
  JS.lookup key fields = Some x ->
  exists front back,
    fields = front ++ (key, x) :: back /\ key ∉ map fst front.
Proof.
  induction fields as [|[k v] fields IH]; [discriminate|]. cbn.
  destruct (String.eqb k key) eqn:E.
  - apply String.eqb_eq in E. subst k. intros [= ->].
    exists [], fields. split; [done | apply not_elem_of_nil].
  - apply String.eqb_neq in E. intros H.
    destruct (IH H) as (front & back & -> & Hk).
    exists ((k, v) :: front), back. split; [done|]. cbn.
    apply not_elem_of_cons. split; [congruence | done].
Qed.

Lemma itemAt_from (items : list JValue) :
  forall (k i : nat) (x : JValue),
    items !! i = Some x -> JS.itemAt (pretty (k + i)%nat) k items = Some x.
Proof.
  induction items as [|y items IH]; intros k i x Hi; [done|].
  cbn [JS.itemAt]. destruct i as [|i].
  - rewrite Nat.add_0_r, String.eqb_refl. cbn in Hi. by injection Hi as ->.
  - destruct (String.eqb (pretty k) (pretty (k + S i)%nat)) eqn:E.
    + apply String.eqb_eq, (inj pretty) in E. lia.
    + replace (k + S i)%nat with (S k + i)%nat by lia. by apply IH.
Qed.

Lemma itemAt_inv (items : list JValue) :
  forall (key : string) (k : nat) (x : JValue),
    JS.itemAt key k items = Some x ->
    exists i, key = pretty (k + i)%nat /\ items !! i = Some x.
Proof.
  induction items as [|y items IH]; intros key k x; [discriminate|].
  cbn [JS.itemAt]. destruct (String.eqb (pretty k) key) eqn:E.
  - apply String.eqb_eq in E. intros [= ->]. exists 0%nat.
    by rewrite Nat.add_0_r.
  - intros H. destruct (IH _ _ _ H) as (i & -> & Hi). exists (S i).
    split; [f_equal; lia | done].
Qed.

Lemma charAt_from (s : string) :
  forall (k i : nat) (c : ascii),
    String.get i s = Some c ->
    JS.charAt (pretty (k + i)%nat) k s = Some (JString (String c EmptyString)).
Proof.
  induction s as [|d s IH]; intros k i c Hi; [done|].
  cbn [JS.charAt]. destruct i as [|i].
  - rewrite Nat.add_0_r, String.eqb_refl. cbn in Hi. by injection Hi as ->.
  - destruct (String.eqb (pretty k) (pretty (k + S i)%nat)) eqn:E.
    + apply String.eqb_eq, (inj pretty) in E. lia.
    + replace (k + S i)%nat with (S k + i)%nat by lia. by apply IH.
Qed.

Lemma charAt_inv (s : string) :
  forall (key : string) (k : nat) (x : JValue),
    JS.charAt key k s = Some x ->
    exists i c, key = pretty (k + i)%nat /\ String.get i s = Some c
                /\ x = JString (String c EmptyString).
Proof.
  induction s as [|d s IH]; intros key k x; [discriminate|].
  cbn [JS.charAt]. destruct (String.eqb (pretty k) key) eqn:E.
  - apply String.eqb_eq in E. intros [= <-]. exists 0%nat, d.
    by rewrite Nat.add_0_r.
  - intros H. destruct (IH _ _ _ H) as (i & c & -> & Hi & ->). exists (S i), c.
    split_and!; [f_equal; lia | done | done].
Qed.

(** The own properties of the embedding are those of the description. *)
Lemma ownProperty_Own (value : JValue) (key : string) (x : JValue) :
  JS.ownProperty value key = Some x <-> Own value key x.
Proof.
  split.
  - destruct value as [| | | | s | items | fields | fields proto |];
      cbn [JS.ownProperty]; try discriminate.
    + destruct (String.eqb key "length") eqn:E.
      * apply String.eqb_eq in E. subst key. intros [= <-]. constructor.
      * intros H. destruct (charAt_inv _ _ _ _ H) as (i & c & -> & Hi & ->).
        by constructor.
    + destruct (String.eqb key "length") eqn:E.
      * apply String.eqb_eq in E. subst key. intros [= <-]. constructor.
      * intros H. destruct (itemAt_inv _ _ _ _ H) as (i & -> & Hi).
        by constructor.
    + intros H. destruct (lookup_split _ _ _ H) as (front & back & -> & Hk).
      by econstructor.
    + intros H. destruct (lookup_split _ _ _ H) as (front & back & -> & Hk).
      by econstructor.
  - intros H. destruct H as [fields front back key x -> Hk
                            | fields proto front back key x -> Hk
                            | items i x Hi | items | s i c Hi | s];
      cbn [JS.ownProperty].
    + by apply lookup_front.
    + by apply lookup_front.
    + destruct (String.eqb (pretty i) "length") eqn:E;
        [apply String.eqb_eq in E; by apply pretty_not_length in E|].
      by apply (itemAt_from items 0 i).
    + reflexivity.
    + destruct (String.eqb (pretty i) "length") eqn:E;
        [apply String.eqb_eq in E; by apply pretty_not_length in E|].
      by apply (charAt_from s 0 i).
    + reflexivity.
Qed.

Lemma ownProperty_none (value : JValue) (key : string) :
  JS.ownProperty value key = None <-> forall x, ~ Own value key x.
Proof.
  split.
  - intros H x Hx. apply ownProperty_Own in Hx. congruence.
  - intros H. destruct (JS.ownProperty value key) as [x|] eqn:E; [|done].
    apply ownProperty_Own in E. by destruct (H x).
Qed.

Section ReadFacts.

Context (platform : Platform).

(** The read of the embedding finds what the chain of the description
    leads to, and nothing else. *)
Lemma get_Chain (value : JValue) (key : string) :
  Chain platform value key (JS.get platform value key).
Proof.
  induction value as [| | b | text | s | items | fields | fields proto IH | id].
  all: cbn [JS.get].
  all: destruct (JS.ownProperty _ key) as [x|] eqn:E;
    [apply chain_own; by apply (proj1 (ownProperty_Own _ _ _))|].
  all: pose proof (proj1 (ownProperty_none _ _) E) as Hno; clear E.
  - apply chain_end. by right.
  - apply chain_end. by left.
  - by apply chain_platform.
  - by apply chain_platform.
  - by apply chain_platform.
  - by apply chain_platform.
  - by apply chain_platform.
  - destruct (String.eqb key "__proto__") eqn:Ek.
    + apply String.eqb_eq in Ek. subst key. by apply chain_prototype.
    + apply String.eqb_neq in Ek. by apply chain_up.
  - by apply chain_platform.
Qed.

Lemma Chain_get (value : JValue) (key : string) (x : JValue) :
  Chain platform value key x -> JS.get platform value key = x.
Proof.
  induction 1 as [value key x Hown | value key [-> | ->]
                 | fields proto Hno | fields proto key x Hno Hk _ IH
                 | value key Hno Hnull Hundef Hderived].
  - apply (proj2 (ownProperty_Own _ _ _)) in Hown.
    destruct value; cbn [JS.get]; by rewrite Hown.
  - reflexivity.
  - reflexivity.
  - apply (proj2 (ownProperty_none _ _)) in Hno. cbn [JS.get]. by rewrite Hno.
  - apply (proj2 (ownProperty_none _ _)) in Hno. cbn [JS.get]. rewrite Hno.
    apply String.eqb_neq in Hk. by rewrite Hk.
  - apply (proj2 (ownProperty_none _ _)) in Hno.
    destruct value as [| | | | | | | fields proto |]; cbn [JS.get]; rewrite Hno;
      try done.
    by destruct (Hderived fields proto).
Qed.

Lemma walk_Arrives (parts : list string) :
  forall value,
    Arrives platform value parts (RelayWorkflowRun.walk platform parts value).
Proof.
  induction parts as [|part rest IH]; intros value; [constructor|].
  cbn [RelayWorkflowRun.walk].
  destruct value.
  1: apply arrives_nowhere; by right.
  1: apply arrives_nowhere; by left.
  all: eapply arrives_on; [done | done | apply get_Chain | apply IH].
Qed.

Lemma Arrives_walk (value : JValue) (parts : list string) (result : option JValue) :
  Arrives platform value parts result ->
  RelayWorkflowRun.walk platform parts value = result.
Proof.
  induction 1 as [value | value part rest [-> | ->]
                 | value part rest x result Hnull Hundef Hchain _ IH].
  - reflexivity.
  - reflexivity.
  - reflexivity.
  - cbn [RelayWorkflowRun.walk]. rewrite (Chain_get _ _ _ Hchain).
    destruct value; done.
Qed.

Lemma resolve_shown (context : JValue) (path : string) (result : option JValue) :
  Arrives platform context (pathParts path) result ->
  RelayWorkflowRun.resolve platform context path = shown platform result.
Proof.
  intros H. unfold RelayWorkflowRun.resolve. fold (pathParts path).
  rewrite (Arrives_walk _ _ _ H).
  destruct result as [[| | [] | | | | | |]|]; reflexivity.
Qed.

End ReadFacts.



(** A leaf that is present and [null] is not blanked: [typeof null] is
    ['object'], so the placeholder becomes [JSON.stringify(null)].  The
    output of a pass-through step is such a value. *)
Lemma interpolate_null_leaf (platform : Platform) :
  RelayWorkflowRun.interpolate platform "{{steps.a.output}}"
    (JObject [("input", JObject []);
              ("steps", JObject [("a", JObject [("output", JNull)])])])
  = JSON_stringify platform JNull.
Proof. cbn. apply append_nil_r. Qed.

(** ** Dependency resolution: the validation path *)

Section ValidateSort.

Context (steps : list WorkflowStep).

Local Abbreviation SortState := RelayWorkflowValidate.SortState.
Local Abbreviation order := RelayWorkflowValidate.order.
Local Abbreviation visited := RelayWorkflowValidate.visited.
Local Abbreviation visiting := RelayWorkflowValidate.visiting.
Local Abbreviation cycleStep := RelayWorkflowValidate.cycleStep.
Local Abbreviation vvisit := (RelayWorkflowValidate.visit steps).
Local Abbreviation vforEach := RelayWorkflowValidate.forEach.

Lemma forEach_good (body : string -> SortState -> option (bool * SortState))
    (ds : list string) :
  (forall n st st', body n st = Some (true, st') -> Good steps n st st') ->
  forall st st', vforEach body ds st = Some (true, st') -> GoodAll steps ds st st'.
Proof.
  intros Hbody. induction ds as [|d ds IH]; intros st st' H; cbn in H.
  - injection H as <-. unfold GoodAll. split_and!; try done.
    + set_solver.
    + exists []. rewrite app_nil_r. split; [done|]. set_solver.
  - destruct (body d st) as [[[] st1]|] eqn:Hd; try discriminate.
    apply Hbody in Hd as (H1 & H2 & H3 & H4 & (e1 & H5 & H6) & H7).
    apply IH in H as (G1 & G2 & G3 & G4 & (e2 & G5 & G6) & G7).
    unfold GoodAll. split_and!.
    + congruence.
    + congruence.
    + set_solver.
    + intros x Hx. apply elem_of_cons in Hx as [-> | Hx]; [set_solver | auto].
    + exists (e1 ++ e2). rewrite G5, H5, app_assoc. split; [done|].
      intros x Hx. apply elem_of_app in Hx as [Hx | Hx].
      * exists d. split; [left | auto].
      * destruct (G6 x Hx) as (d' & Hd' & Hr). exists d'. split; [by right | done].
    + auto.
Qed.

Lemma topo_snoc (l : list string) (n : string) :
  topo steps l -> (forall d, dependsOn steps n d -> d ∈ l) -> topo steps (l ++ [n]).
Proof.
  intros Ht Hn j m d Hj Hd.
  destruct (decide (j < length l)%nat) as [Hlt | Hge].
  - rewrite lookup_app_l in Hj by done.
    destruct (Ht j m d Hj Hd) as (i & Hi & Hl).
    exists i. split; [done|]. rewrite lookup_app_l; [done|lia].
  - rewrite lookup_app_r in Hj by lia.
    apply list_lookup_singleton_Some in Hj as [Hj <-].
    apply Hn, list_elem_of_lookup in Hd as [i Hi].
    exists i. split; [|by apply lookup_app_l_Some].
    apply lookup_lt_Some in Hi. lia.
Qed.

Lemma visit_good (fuel : nat) :
  forall n st st', vvisit fuel n st = Some (true, st') -> Good steps n st st'.
Proof.
  induction fuel as [|fuel IH]; intros n st st' H; [discriminate|].
  cbn [RelayWorkflowValidate.visit] in H.
  destruct (decide (n ∈ visited st)) as [Hv | Hv].
  { injection H as <-. unfold Good. split_and!; try done.
    exists []. rewrite app_nil_r. split; [done|]. set_solver. }
  destruct (decide (n ∈ visiting st)) as [Hg | Hg]; [discriminate|].
  fold (depsOf steps n) in H.
  match type of H with
  | match vforEach _ _ ?s with _ => _ end = _ => set (st1 := s) in H
  end.
  destruct (vforEach (vvisit fuel) (depsOf steps n) st1) as [[[] st2]|] eqn:Hl;
    try discriminate.
  injection H as <-.
  apply (forEach_good _ _ IH) in Hl as (G1 & G2 & G3 & G4 & (ext & G5 & G6) & G7).
  cbn in G1, G2, G3, G5, G7.
  unfold Good. cbn. split_and!.
  - rewrite G1. set_solver.
  - done.
  - set_solver.
  - set_solver.
  - exists (ext ++ [n]). rewrite G5, app_assoc. split; [done|].
    intros x Hx. apply elem_of_app in Hx as [Hx | Hx].
    + destruct (G6 x Hx) as (d & Hd & Hr). eapply rtc_l; [exact Hd | exact Hr].
    + apply list_elem_of_singleton in Hx as ->. done.
  - intros (I1 & I2 & I3 & I4).
    destruct G7 as (J1 & J2 & J3 & J4).
    { unfold Inv. cbn. split_and!; try done. set_solver. }
    assert (Hn : n ∉ RelayWorkflowValidate.order st2).
    { intros Hn. apply (J4 n); [rewrite J2; set_solver | rewrite G1; set_solver]. }
    unfold Inv. cbn. split_and!.
    + apply NoDup_app. split_and!; [done | | apply NoDup_singleton].
      intros x Hx Hx'. apply list_elem_of_singleton in Hx' as ->. done.
    + rewrite J2, list_to_set_app_L. set_solver.
    + apply topo_snoc; [done|]. intros d Hd.
      specialize (G4 d Hd). rewrite J2 in G4. set_solver.
    + rewrite G1 in J4 |- *. rewrite J2 in J4 |- *. set_solver.
Qed.

(** A failed [visit] has found a step that depends on itself, provided
    every step being visited depends on the one entered. *)
Lemma forEach_cycle (body : string -> SortState -> option (bool * SortState))
    (ds : list string) :
  (forall n st st', body n st = Some (true, st') -> Good steps n st st') ->
  (forall n st st',
      body n st = Some (false, st') ->
      (forall v, v ∈ visiting st -> tc (dependsOn steps) v n) ->
      exists s, cycleStep st' = Some s /\ tc (dependsOn steps) s s) ->
  forall st st',
    vforEach body ds st = Some (false, st') ->
    (forall v d, v ∈ visiting st -> d ∈ ds -> tc (dependsOn steps) v d) ->
    exists s, cycleStep st' = Some s /\ tc (dependsOn steps) s s.
Proof.
  intros Htrue Hfalse. induction ds as [|d ds IH]; intros st st' H Hv; cbn in H.
  - discriminate.
  - destruct (body d st) as [[[] st1]|] eqn:Hd; try discriminate.
    + apply (IH st1 st' H). intros v d' Hvv Hd'.
      apply Htrue in Hd as (G1 & _). rewrite G1 in Hvv.
      apply Hv; [done | by right].
    + injection H as <-. apply (Hfalse d st st1 Hd).
      intros v Hvv. apply Hv; [done | left].
Qed.

Lemma visit_cycle (fuel : nat) :
  forall n st st',
    vvisit fuel n st = Some (false, st') ->
    (forall v, v ∈ visiting st -> tc (dependsOn steps) v n) ->
    exists s, cycleStep st' = Some s /\ tc (dependsOn steps) s s.
Proof.
  induction fuel as [|fuel IH]; intros n st st' H Hv; [discriminate|].
  cbn [RelayWorkflowValidate.visit] in H.
  destruct (decide (n ∈ visited st)) as [Hd | Hd]; [discriminate|].
  destruct (decide (n ∈ visiting st)) as [Hg | Hg].
  { injection H as <-. exists n. cbn. split; [done | by apply Hv]. }
  fold (depsOf steps n) in H.
  match type of H with
  | match vforEach _ _ ?s with _ => _ end = _ => set (st1 := s) in H
  end.
  destruct (vforEach (vvisit fuel) (depsOf steps n) st1) as [[[] st2]|] eqn:Hl;
    try discriminate.
  injection H as <-.
  apply (forEach_cycle _ _ (visit_good fuel) IH _ _ Hl).
  intros v d Hvv Hdd. cbn in Hvv.
  apply elem_of_union in Hvv as [Hvv | Hvv].
  - eapply tc_r; [by apply Hv | exact Hdd].
  - apply elem_of_singleton in Hvv as ->. by apply tc_once.
Qed.

(** *** Enough fuel *)

Lemma findStep_Some (n : string) (step : WorkflowStep) :
  RelayWorkflowValidate.findStep steps n = Some step ->
  step ∈ steps /\ name step = n.
Proof.
  unfold RelayWorkflowValidate.findStep. intros H.
  apply find_some in H as [H1 H2]. apply String.eqb_eq in H2.
  split; [by apply list_elem_of_In | done].
Qed.

Lemma findStep_None (n : string) :
  n ∉ stepNames steps -> RelayWorkflowValidate.findStep steps n = None.
Proof.
  intros Hn. destruct (RelayWorkflowValidate.findStep steps n) as [step|] eqn:E;
    [|done].
  apply findStep_Some in E as [H1 H2]. exfalso. apply Hn.
  unfold stepNames. rewrite <- H2. apply list_elem_of_fmap. eauto.
Qed.

Lemma depsOf_unknown (n : string) : n ∉ (nameSet steps) -> depsOf steps n = [].
Proof.
  intros Hn. unfold depsOf. rewrite findStep_None; [done|].
  unfold nameSet in Hn. set_solver.
Qed.

Lemma forEach_total (body : string -> SortState -> option (bool * SortState))
    (Q : gset string -> Prop) (ds : list string) :
  (forall n st, Q (visiting st) -> is_Some (body n st)) ->
  (forall n st st', body n st = Some (true, st') -> visiting st' = visiting st) ->
  forall st, Q (visiting st) -> is_Some (vforEach body ds st).
Proof.
  intros Hsome Hkeep. induction ds as [|d ds IH]; intros st HQ; cbn; [eauto|].
  destruct (Hsome d st HQ) as [[[] st1] Hd]; rewrite Hd; [|eauto].
  apply IH. rewrite (Hkeep _ _ _ Hd). done.
Qed.

Lemma visit_total (fuel : nat) :
  forall n st,
    visiting st ⊆ (nameSet steps) ->
    (size (nameSet steps) < size (visiting st) + fuel)%nat ->
    is_Some (vvisit fuel n st).
Proof.
  induction fuel as [|fuel IH]; intros n st Hsub Hsize.
  { apply subseteq_size in Hsub. lia. }
  cbn [RelayWorkflowValidate.visit].
  destruct (decide (n ∈ visited st)) as [Hd | Hd]; [eauto|].
  destruct (decide (n ∈ visiting st)) as [Hg | Hg]; [eauto|].
  fold (depsOf steps n).
  destruct (decide (n ∈ (nameSet steps))) as [Hn | Hn].
  - match goal with
    | |- is_Some (match vforEach _ _ ?s with _ => _ end) => set (st1 := s)
    end.
    destruct (forEach_total (vvisit fuel)
                (fun X => X ⊆ (nameSet steps) /\ (size (nameSet steps) < size X + fuel)%nat)
                (depsOf steps n)) with (st := st1) as [[[] st2] Hl].
    + intros m st' [H1 H2]. by apply IH.
    + intros m st' st'' H. by apply visit_good in H as (H & _).
    + cbn. split; [set_solver|].
      rewrite size_union by set_solver. rewrite size_singleton. lia.
    + rewrite Hl. eauto.
    + rewrite Hl. eauto.
  - rewrite (depsOf_unknown n Hn). cbn. eauto.
Qed.

Lemma size_nameSet : (size (nameSet steps) <= length steps)%nat.
Proof.
  unfold nameSet, stepNames. induction steps as [|s l IH]; cbn.
  - rewrite size_empty. lia.
  - rewrite size_union_alt, size_singleton.
    assert (H : (size (list_to_set (map name l) ∖ {[name s]} : gset string)
                 <= size (list_to_set (map name l) : gset string))%nat).
    { apply subseteq_size. set_solver. }
    lia.
Qed.

(** *** The sort as a whole *)

Lemma Inv_start : Inv steps validateStart.
Proof.
  unfold Inv, validateStart. cbn. split_and!; [constructor | done | | set_solver].
  intros j m d Hj. by rewrite lookup_nil in Hj.
Qed.

Lemma roots_total (fuel : nat) (roots : list string) :
  (size (nameSet steps) < fuel)%nat ->
  is_Some (vforEach (vvisit fuel) roots validateStart).
Proof.
  intros Hf.
  apply (forEach_total (vvisit fuel)
           (fun X => X ⊆ nameSet steps /\ (size (nameSet steps) < size X + fuel)%nat)).
  - intros n st [H1 H2]. by apply visit_total.
  - intros n st st' H. by apply visit_good in H as (H & _).
  - cbn. split; [set_solver | lia].
Qed.

Lemma dependsOn_named (a b : string) :
  dependsOn steps a b -> a ∈ stepNames steps.
Proof.
  unfold dependsOn, depsOf. intros H.
  destruct (RelayWorkflowValidate.findStep steps a) as [step|] eqn:E.
  - apply findStep_Some in E as [H1 <-]. apply list_elem_of_fmap. eauto.
  - by apply elem_of_nil in H.
Qed.

Lemma topo_tc (l : list string) (a b : string) :
  topo steps l -> tc (dependsOn steps) a b ->
  forall j, l !! j = Some a -> exists i, (i < j)%nat /\ l !! i = Some b.
Proof.
  intros Ht. induction 1 as [a b H | a c b H _ IH]; intros j Hj.
  - eapply Ht; eauto.
  - destruct (Ht j a c Hj H) as (i & Hi & Hc).
    destruct (IH i Hc) as (i' & Hi' & Hb). exists i'. split; [lia | done].
Qed.

(** A dependency-closed order with every dependency in front leaves no room
    for a cycle. *)
Lemma topo_acyclic (l : list string) (s : string) :
  topo steps l -> (forall n, n ∈ stepNames steps -> n ∈ l) ->
  ~ tc (dependsOn steps) s s.
Proof.
  intros Ht Hall Hs.
  assert (Hin : s ∈ l).
  { apply Hall. inversion Hs as [? ? H | ? c ? H _]; subst;
      eapply dependsOn_named; eauto. }
  apply list_elem_of_lookup in Hin as [j Hj].
  revert Hj. induction (lt_wf j) as [j _ IH]. intros Hj.
  destruct (topo_tc l s s Ht Hs j Hj) as (i & Hi & Hi'). eauto.
Qed.

(** Where the entries of the order come from: each was emitted while some
    root was visited, depends on that root's step, and stands after every
    root visited earlier. *)
Lemma roots_emitted (fuel : nat) (roots : list string) :
  forall st st',
    vforEach (vvisit fuel) roots st = Some (true, st') ->
    Inv steps st ->
    forall (p : nat) (x : string),
      order st' !! p = Some x -> (length (order st) <= p)%nat ->
      exists (k : nat) (r : string),
        roots !! k = Some r /\ rtc (dependsOn steps) r x
        /\ forall (k' : nat) (r' : string),
             (k' < k)%nat -> roots !! k' = Some r' ->
             exists p', (p' < p)%nat /\ order st' !! p' = Some r'.
Proof.
  induction roots as [|r rest IH]; intros st st' H HI p x Hp Hlen; cbn in H.
  { injection H as <-. apply lookup_lt_Some in Hp. lia. }
  destruct (vvisit fuel r st) as [[[] st1]|] eqn:Hr; try discriminate.
  pose proof (visit_good _ _ _ _ Hr) as (_ & _ & _ & G4 & (e1 & G5 & G6) & G7).
  pose proof (forEach_good _ _ (visit_good fuel) _ _ H)
    as (_ & _ & _ & _ & (e2 & F5 & _) & _).
  specialize (G7 HI). 
  destruct (decide (p < length (order st1))%nat) as [Hlt | Hge].
  - exists 0%nat, r. split_and!; [done | | intros; lia].
    apply G6. rewrite F5, lookup_app_l in Hp by done.
    rewrite G5, lookup_app_r in Hp by done.
    eapply list_elem_of_lookup_2; eauto.
  - destruct (IH st1 st' H G7 p x Hp) as (k & rk & Hk & Hrk & Hearlier); [lia|].
    exists (S k), rk. split_and!; [done | done |].
    intros [|k'] r' Hk' Hr'.
    + cbn in Hr'. injection Hr' as <-.
      destruct G7 as (_ & J2 & _). rewrite J2 in G4.
      apply elem_of_list_to_set, list_elem_of_lookup in G4 as [p' Hp'].
      exists p'. split; [apply lookup_lt_Some in Hp'; lia|].
      rewrite F5. by apply lookup_app_l_Some.
    + cbn in Hr'. apply (Hearlier k' r'); [lia | done].
Qed.

(** The result of [topologicalSort], whatever the step list. *)
Lemma validate_topologicalSort_spec :
  let r := RelayWorkflowValidate.topologicalSort steps in
  RelayWorkflowValidate.topologicalSortWith (S (length steps)) steps = Some r
  /\ (RelayWorkflowValidate.hasCycle r = false ->
      RelayWorkflowValidate.r_cycleStep r = None
      /\ NoDup (RelayWorkflowValidate.r_order r)
      /\ topo steps (RelayWorkflowValidate.r_order r)
      /\ (forall n, n ∈ stepNames steps -> n ∈ RelayWorkflowValidate.r_order r)
      /\ (forall (p : nat) (x : string),
            RelayWorkflowValidate.r_order r !! p = Some x ->
            exists (k : nat) (n : string),
              stepNames steps !! k = Some n /\ rtc (dependsOn steps) n x
              /\ forall (k' : nat) (n' : string),
                   (k' < k)%nat -> stepNames steps !! k' = Some n' ->
                   exists p', (p' < p)%nat
                              /\ RelayWorkflowValidate.r_order r !! p' = Some n')
      /\ (forall s, ~ tc (dependsOn steps) s s))
  /\ (RelayWorkflowValidate.hasCycle r = true ->
      RelayWorkflowValidate.r_order r = []
      /\ exists s, RelayWorkflowValidate.r_cycleStep r = Some s
                   /\ tc (dependsOn steps) s s).
Proof.
  cbn zeta. unfold RelayWorkflowValidate.topologicalSort,
    RelayWorkflowValidate.topologicalSortWith.
  fold validateStart. fold (stepNames steps).
  destruct (roots_total (S (length steps)) (stepNames steps)) as [[b st] H].
  { pose proof size_nameSet. lia. }
  rewrite H. destruct b; cbn; (split; [done|]); split; try discriminate; intros _.
  - pose proof (forEach_good _ _ (visit_good _) _ _ H)
      as (_ & _ & _ & G4 & _ & G7).
    destruct (G7 Inv_start) as (J1 & J2 & J3 & J4).
    assert (Hall : forall n, n ∈ stepNames steps -> n ∈ order st).
    { intros n Hn. apply G4 in Hn. rewrite J2 in Hn. set_solver. }
    split_and!; try done.
    + intros p x Hp.
      apply (roots_emitted _ _ _ _ H Inv_start p x Hp). cbn. lia.
    + intros s. by apply (topo_acyclic (order st)).
  - split; [done|].
    apply (forEach_cycle _ _ (visit_good _) (visit_cycle _) _ _ H).
    intros v d Hv. cbn in Hv. set_solver.
Qed.

End ValidateSort.

(** ** Dependency resolution: the execution path against the validation path *)

Section BothSorts.

Context (steps : list WorkflowStep).
Context (Hunique : NoDup (stepNames steps)).
Context (Hresolved : resolved steps).

Lemma same_name_same_step (a b : WorkflowStep) :
  a ∈ steps -> b ∈ steps -> name a = name b -> a = b.
Proof.
  clear Hresolved. unfold stepNames in Hunique.
  induction steps as [|s l IH]; intros Ha Hb Hn; [by apply elem_of_nil in Ha|].
  cbn in Hunique. apply NoDup_cons in Hunique as [Hs Hl].
  apply elem_of_cons in Ha as [-> | Ha]; apply elem_of_cons in Hb as [-> | Hb].
  - done.
  - exfalso. apply Hs. rewrite Hn. apply list_elem_of_fmap. eauto.
  - exfalso. apply Hs. rewrite <- Hn. apply list_elem_of_fmap. eauto.
  - by apply IH.
Qed.

Lemma stepMap_from (l : list WorkflowStep) (m : gmap string WorkflowStep)
    (n : string) :
  NoDup (map name l) ->
  foldl (fun m s => <[name s := s]> m) m l !! n
  = match RelayWorkflowValidate.findStep l n with
    | Some s => Some s
    | None => m !! n
    end.
Proof.
  revert m. induction l as [|s l IH]; intros m Hl; [done|].
  cbn in Hl. apply NoDup_cons in Hl as [Hs Hl].
  cbn [foldl]. rewrite (IH _ Hl).
  unfold RelayWorkflowValidate.findStep. cbn [find].
  destruct (String.eqb (name s) n) eqn:E.
  - apply String.eqb_eq in E. subst n.
    fold (RelayWorkflowValidate.findStep l (name s)).
    rewrite (findStep_None l (name s)) by done.
    apply lookup_insert_eq.
  - apply String.eqb_neq in E.
    fold (RelayWorkflowValidate.findStep l n).
    destruct (RelayWorkflowValidate.findStep l n); [done|].
    by apply lookup_insert_ne.
Qed.

Lemma stepMap_lookup (n : string) :
  RelayWorkflowRun.stepMap steps !! n = RelayWorkflowValidate.findStep steps n.
Proof.
  unfold RelayWorkflowRun.stepMap. rewrite stepMap_from by done.
  destruct (RelayWorkflowValidate.findStep steps n); [done | apply lookup_empty].
Qed.

Lemma findStep_named (n : string) :
  n ∈ stepNames steps ->
  exists step, RelayWorkflowValidate.findStep steps n = Some step
               /\ step ∈ steps /\ name step = n.
Proof.
  intros Hn. destruct (RelayWorkflowValidate.findStep steps n) as [step|] eqn:E.
  - exists step. split; [done|]. by apply findStep_Some.
  - exfalso. apply list_elem_of_fmap in Hn as (s & -> & Hs).
    unfold RelayWorkflowValidate.findStep in E.
    pose proof (find_none _ _ E s) as Hf. cbn in Hf.
    rewrite String.eqb_refl in Hf. discriminate Hf. by apply list_elem_of_In.
Qed.

Lemma declares_dependsOn (a b : string) :
  declares steps a b <-> dependsOn steps a b.
Proof.
  unfold dependsOn, depsOf. split.
  - intros (step & Hin & Hname & Hb).
    destruct (findStep_named a) as (step' & -> & Hin' & Hname').
    { rewrite <- Hname. apply list_elem_of_fmap. eauto. }
    rewrite (same_name_same_step step' step); [done..|congruence].
  - intros H.
    destruct (RelayWorkflowValidate.findStep steps a) as [step|] eqn:E;
      [|by apply elem_of_nil in H].
    apply findStep_Some in E as [H1 H2]. by exists step.
Qed.

Lemma sameOutcome_forEach
    (bodyE : string -> RelayWorkflowRun.SortState
             -> option (Message + RelayWorkflowRun.SortState))
    (bodyV : string -> RelayWorkflowValidate.SortState
             -> option (bool * RelayWorkflowValidate.SortState))
    (ds : list string) :
  (forall d e v, d ∈ ds -> sameState e v -> sameOutcome (bodyE d e) (bodyV d v)) ->
  forall e v, sameState e v ->
    sameOutcome (RelayWorkflowRun.forEach bodyE ds e)
                (RelayWorkflowValidate.forEach bodyV ds v).
Proof.
  induction ds as [|d ds IH]; intros Hbody e v Hs; cbn; [done|].
  pose proof (Hbody d e v (list_elem_of_here _ _) Hs) as H.
  destruct (bodyE d e) as [[m | e']|], (bodyV d v) as [[[] v']|]; cbn in H;
    try done.
  apply IH; [|done]. intros d' e'' v'' Hd'. apply Hbody. by right.
Qed.

Lemma sameOutcome_visit (fuel : nat) :
  forall n e v,
    n ∈ stepNames steps -> sameState e v ->
    sameOutcome (RelayWorkflowRun.visit (RelayWorkflowRun.stepMap steps) fuel n e)
                (RelayWorkflowValidate.visit steps fuel n v).
Proof.
  induction fuel as [|fuel IH]; intros n e v Hn (S1 & S2 & S3); [done|].
  cbn [RelayWorkflowRun.visit RelayWorkflowValidate.visit].
  rewrite S2, S3.
  destruct (decide (n ∈ RelayWorkflowValidate.visited v)); [done|].
  destruct (decide (n ∈ RelayWorkflowValidate.visiting v)); [cbn; eauto|].
  rewrite stepMap_lookup.
  destruct (findStep_named n Hn) as (step & -> & Hin & Hname).
  match goal with
  | |- sameOutcome (match RelayWorkflowRun.forEach _ _ ?a with _ => _ end)
                   (match RelayWorkflowValidate.forEach _ _ ?b with _ => _ end) =>
    pose proof (sameOutcome_forEach
                  (RelayWorkflowRun.visit (RelayWorkflowRun.stepMap steps) fuel)
                  (RelayWorkflowValidate.visit steps fuel)
                  (default [] (depends step))) as H;
    specialize (H (fun d e v Hd => IH d e v
                     (Hresolved n d (ex_intro _ step (conj Hin (conj Hname Hd))))));
    specialize (H a b)
  end.
  cbn in H. specialize (H (conj S1 (conj eq_refl eq_refl))).
  destruct (RelayWorkflowRun.forEach _ _ _) as [[m | e']|],
           (RelayWorkflowValidate.forEach _ _ _) as [[[] v']|]; cbn in H |- *;
    try done.
  destruct H as (H1 & H2 & H3). unfold sameState. cbn.
  rewrite map_app, H1, H2, H3. cbn. by rewrite Hname.
Qed.

(** With unique names and resolved references the two sorts run alike. *)
Lemma sorts_agree :
  let r := RelayWorkflowValidate.topologicalSort steps in
  match RelayWorkflowRun.topologicalSort steps with
  | inr sorted =>
    RelayWorkflowValidate.hasCycle r = false
    /\ RelayWorkflowValidate.r_order r = map name sorted
  | inl m =>
    RelayWorkflowValidate.hasCycle r = true
    /\ exists s, m = CircularDependency s
                 /\ RelayWorkflowValidate.r_cycleStep r = Some s
  end.
Proof.
  cbn zeta.
  destruct (validate_topologicalSort_spec steps) as (Hv & _).
  unfold RelayWorkflowRun.topologicalSort, RelayWorkflowRun.topologicalSortWith.
  unfold RelayWorkflowValidate.topologicalSortWith in Hv.
  pose proof (sameOutcome_forEach
                (RelayWorkflowRun.visit (RelayWorkflowRun.stepMap steps) (S (length steps)))
                (RelayWorkflowValidate.visit steps (S (length steps)))
                (map name steps)
                (fun d e v Hd => sameOutcome_visit _ d e v Hd)
                {| RelayWorkflowRun.sorted := []; RelayWorkflowRun.visited := ∅;
                   RelayWorkflowRun.visiting := ∅ |}
                {| RelayWorkflowValidate.order := [];
                   RelayWorkflowValidate.visited := ∅;
                   RelayWorkflowValidate.visiting := ∅;
                   RelayWorkflowValidate.cycleStep := None |}) as H.
  specialize (H (conj eq_refl (conj eq_refl eq_refl))).
  destruct (RelayWorkflowRun.forEach _ _ _) as [[m | e']|],
           (RelayWorkflowValidate.forEach _ _ _) as [[[] v']|]; cbn in H;
    try done; try discriminate.
  - injection Hv as <-. cbn. destruct H as (s & -> & Hs). eauto.
  - injection Hv as <-. cbn. destruct H as (H1 & _). done.
Qed.

End BothSorts.

(** ** Checking concrete step lists *)

Lemma resolvedb_resolved (steps : list WorkflowStep) :
  resolvedb steps = true -> resolved steps.
Proof.
  unfold resolvedb. rewrite forallb_forall.
  intros H a b (step & Hin & _ & Hb).
  apply list_elem_of_In, H in Hin. rewrite forallb_forall in Hin.
  apply list_elem_of_In, Hin in Hb. by apply bool_decide_eq_true in Hb.
Qed.

Lemma rankedb_acyclic (rank : string -> nat) (steps : list WorkflowStep) :
  rankedb rank steps = true -> acyclic steps.
Proof.
  unfold rankedb. rewrite forallb_forall. intros H.
  assert (Hedge : forall a b, declares steps a b -> (rank b < rank a)%nat).
  { intros a b (step & Hin & <- & Hb).
    apply list_elem_of_In, H in Hin. rewrite forallb_forall in Hin.
    apply list_elem_of_In, Hin in Hb. by apply Nat.ltb_lt in Hb. }
  assert (Htc : forall a b, tc (declares steps) a b -> (rank b < rank a)%nat).
  { induction 1 as [a b Hab | a c b Hac _ IH].
    - by apply Hedge.
    - apply Hedge in Hac. lia. }
  intros a Ha. apply Htc in Ha. lia.
Qed.

Lemma leafb_no_path (steps : list WorkflowStep) (a c : string) :
  leafb steps a = true -> ~ tc (declares steps) a c.
Proof.
  unfold leafb. rewrite forallb_forall. intros H Hc.
  assert (He : exists b, declares steps a b).
  { inversion Hc; subst; eauto. }
  destruct He as (b & step & Hin & Hname & Hb).
  apply list_elem_of_In, H in Hin.
  apply orb_true_iff in Hin as [Hin | Hin].
  - apply negb_true_iff, String.eqb_neq in Hin. done.
  - apply bool_decide_eq_true in Hin. rewrite Hin in Hb.
    by apply elem_of_nil in Hb.
Qed.

(** ** Dependency resolution: the claims *)

Lemma tc_declares_dependsOn (steps : list WorkflowStep) (a b : string) :
  NoDup (stepNames steps) ->
  tc (declares steps) a b <-> tc (dependsOn steps) a b.
Proof.
  intros Hu. split.
  - induction 1 as [a b H | a c b H _ IH].
    + apply tc_once. by apply declares_dependsOn.
    + eapply tc_l; [|exact IH]. by apply declares_dependsOn.
  - induction 1 as [a b H | a c b H _ IH].
    + apply tc_once. by apply declares_dependsOn.
    + eapply tc_l; [|exact IH]. by apply declares_dependsOn.
Qed.

Lemma rtc_named (steps : list WorkflowStep) (n x : string) :
  NoDup (stepNames steps) -> resolved steps ->
  n ∈ stepNames steps -> rtc (dependsOn steps) n x -> x ∈ stepNames steps.
Proof.
  intros Hu Hr Hn. induction 1 as [|a b c Hab _ IH]; [done|].
  apply IH. apply (Hr a b). by apply declares_dependsOn.
Qed.

(** For well-formed acyclic lists: both sorts succeed with the same order,
    a permutation of the names in which dependencies come first, and a step
    overtakes an earlier-declared one only as a dependency. *)
Lemma sort_of_acyclic (steps : list WorkflowStep) :
  NoDup (stepNames steps) -> resolved steps -> acyclic steps ->
  exists sorted,
    RelayWorkflowRun.topologicalSort steps = inr sorted
    /\ RelayWorkflowValidate.topologicalSort steps
       = {| RelayWorkflowValidate.r_order := map name sorted;
            RelayWorkflowValidate.hasCycle := false;
            RelayWorkflowValidate.r_cycleStep := None |}
    /\ map name sorted ≡ₚ stepNames steps
    /\ (forall a b, declares steps a b -> before b a (map name sorted))
    /\ (forall (i j : nat) (s t : string),
          (i < j)%nat ->
          stepNames steps !! i = Some s -> stepNames steps !! j = Some t ->
          before t s (map name sorted) ->
          exists (k : nat) (u : string),
            (k <= i)%nat /\ stepNames steps !! k = Some u
            /\ tc (declares steps) u t).
Proof.
  intros Hu Hr Ha.
  destruct (validate_topologicalSort_spec steps) as (_ & Hok & Hcyc).
  pose proof (sorts_agree steps Hu Hr) as Hs. cbn zeta in Hs.
  destruct (RelayWorkflowValidate.topologicalSort steps) as [ord cyc cs].
  cbn in Hok, Hcyc, Hs.
  destruct cyc.
  { destruct Hcyc as (_ & s & _ & Hc); [done|].
    exfalso. apply (Ha s). by apply tc_declares_dependsOn. }
  destruct (Hok eq_refl) as (-> & Hnd & Htopo & Hall & Hemit & _).
  destruct (RelayWorkflowRun.topologicalSort steps) as [m | sorted];
    [by destruct Hs|].
  destruct Hs as [_ ->]. exists sorted. split_and!; try done.
  - apply NoDup_Permutation; [done..|]. intros x. split; [|apply Hall].
    intros Hx. apply list_elem_of_lookup in Hx as [p Hp].
    destruct (Hemit p x Hp) as (k & n & Hk & Hrtc & _).
    apply (rtc_named steps n x); try done.
    by eapply list_elem_of_lookup_2.
  - intros a b Hab. apply declares_dependsOn in Hab as Hd; [|done].
    assert (Hin : a ∈ map name sorted).
    { apply Hall. by eapply dependsOn_named. }
    apply list_elem_of_lookup in Hin as [j Hj].
    destruct (Htopo j a b Hj Hd) as (i & Hi & Hb).
    by exists i, j.
  - intros i j s t Hij Hi Hj (pt & ps & Hpt & Hps & Hlt).
    destruct (Hemit pt t Hpt) as (k & u & Hk & Hrtc & Hearlier).
    assert (Hki : (k <= i)%nat).
    { destruct (decide (k <= i)%nat) as [|Hgt]; [done|]. exfalso.
      destruct (Hearlier i s) as (p' & Hp' & Hs'); [lia | done |].
      pose proof (NoDup_lookup _ _ _ _ Hnd Hs' Hps). lia. }
    exists k, u. split_and!; [done..|].
    apply tc_declares_dependsOn; [done|].
    apply rtc_tc in Hrtc as [-> | Htc]; [|done].
    pose proof (NoDup_lookup _ _ _ _ Hu Hk Hj). lia.
Qed.

(** ** The execution path's sort always returns *)

Section ExecSort.

Context (m : gmap string WorkflowStep).

Lemma exec_forEach_keeps
    (body : string -> RelayWorkflowRun.SortState
            -> option (Message + RelayWorkflowRun.SortState))
    (ds : list string) :
  (forall n st st', body n st = Some (inr st') ->
                    RelayWorkflowRun.visiting st' = RelayWorkflowRun.visiting st) ->
  forall st st', RelayWorkflowRun.forEach body ds st = Some (inr st') ->
                 RelayWorkflowRun.visiting st' = RelayWorkflowRun.visiting st.
Proof.
  intros Hbody. induction ds as [|d ds IH]; intros st st' H; cbn in H.
  - by injection H as <-.
  - destruct (body d st) as [[e | st1]|] eqn:Hd; try discriminate.
    rewrite (IH _ _ H). eauto.
Qed.

Lemma exec_visit_keeps (fuel : nat) :
  forall n st st',
    RelayWorkflowRun.visit m fuel n st = Some (inr st') ->
    RelayWorkflowRun.visiting st' = RelayWorkflowRun.visiting st.
Proof.
  induction fuel as [|fuel IH]; intros n st st' H; [discriminate|].
  cbn [RelayWorkflowRun.visit] in H.
  destruct (decide (n ∈ RelayWorkflowRun.visited st)); [by injection H as <-|].
  destruct (decide (n ∈ RelayWorkflowRun.visiting st)); [discriminate|].
  destruct (m !! n) as [step|]; [|discriminate].
  destruct (RelayWorkflowRun.forEach _ _ _) as [[e | st2]|] eqn:Hl;
    try discriminate.
  injection H as <-. cbn.
  rewrite (exec_forEach_keeps _ _ IH _ _ Hl). cbn. set_solver.
Qed.

Lemma exec_forEach_total
    (body : string -> RelayWorkflowRun.SortState
            -> option (Message + RelayWorkflowRun.SortState))
    (Q : gset string -> Prop) (ds : list string) :
  (forall n st, Q (RelayWorkflowRun.visiting st) -> is_Some (body n st)) ->
  (forall n st st', body n st = Some (inr st') ->
                    RelayWorkflowRun.visiting st' = RelayWorkflowRun.visiting st) ->
  forall st, Q (RelayWorkflowRun.visiting st) ->
             is_Some (RelayWorkflowRun.forEach body ds st).
Proof.
  intros Hsome Hkeep. induction ds as [|d ds IH]; intros st HQ; cbn; [eauto|].
  destruct (Hsome d st HQ) as [[e | st1] Hd]; rewrite Hd; [eauto|].
  apply IH. rewrite (Hkeep _ _ _ Hd). done.
Qed.

Lemma exec_visit_total (fuel : nat) :
  forall n st,
    RelayWorkflowRun.visiting st ⊆ dom m ->
    (size (dom m) < size (RelayWorkflowRun.visiting st) + fuel)%nat ->
    is_Some (RelayWorkflowRun.visit m fuel n st).
Proof.
  induction fuel as [|fuel IH]; intros n st Hsub Hsize.
  { apply subseteq_size in Hsub. lia. }
  cbn [RelayWorkflowRun.visit].
  destruct (decide (n ∈ RelayWorkflowRun.visited st)); [eauto|].
  destruct (decide (n ∈ RelayWorkflowRun.visiting st)) as [|Hg]; [eauto|].
  destruct (m !! n) as [step|] eqn:Hn; [|eauto].
  match goal with
  | |- is_Some (match RelayWorkflowRun.forEach _ _ ?s with _ => _ end) =>
    set (st1 := s)
  end.
  destruct (exec_forEach_total (RelayWorkflowRun.visit m fuel)
              (fun X => X ⊆ dom m /\ (size (dom m) < size X + fuel)%nat)
              (default [] (depends step))) with (st := st1) as [[e | st2] Hl].
  - intros k st' [H1 H2]. by apply IH.
  - apply exec_visit_keeps.
  - cbn. assert (n ∈ dom m) by (apply elem_of_dom; eauto).
    split; [set_solver|].
    rewrite size_union by set_solver. rewrite size_singleton. lia.
  - rewrite Hl. eauto.
  - rewrite Hl. eauto.
Qed.

Context (Hkeys : forall k step, m !! k = Some step -> name step = k).

Lemma exec_forEach_inv
    (body : string -> RelayWorkflowRun.SortState
            -> option (Message + RelayWorkflowRun.SortState))
    (ds : list string) :
  (forall n st st', body n st = Some (inr st') -> InvE st ->
                    InvE st'
                    /\ RelayWorkflowRun.visiting st' = RelayWorkflowRun.visiting st) ->
  forall st st', RelayWorkflowRun.forEach body ds st = Some (inr st') ->
                 InvE st ->
                 InvE st'
                 /\ RelayWorkflowRun.visiting st' = RelayWorkflowRun.visiting st.
Proof.
  intros Hbody. induction ds as [|d ds IH]; intros st st' H HI; cbn in H.
  - by injection H as <-.
  - destruct (body d st) as [[e | st1]|] eqn:Hd; try discriminate.
    destruct (Hbody _ _ _ Hd HI) as [H1 H2].
    destruct (IH _ _ H H1) as [H3 H4]. split; [done | congruence].
Qed.

Lemma exec_visit_inv (fuel : nat) :
  forall n st st',
    RelayWorkflowRun.visit m fuel n st = Some (inr st') -> InvE st ->
    InvE st' /\ RelayWorkflowRun.visiting st' = RelayWorkflowRun.visiting st.
Proof.
  induction fuel as [|fuel IH]; intros n st st' H HI; [discriminate|].
  cbn [RelayWorkflowRun.visit] in H.
  destruct (decide (n ∈ RelayWorkflowRun.visited st)) as [|Hv];
    [by injection H as <-|].
  destruct (decide (n ∈ RelayWorkflowRun.visiting st)) as [|Hg]; [discriminate|].
  destruct (m !! n) as [step|] eqn:Hn; [|discriminate].
  destruct (RelayWorkflowRun.forEach _ _ _) as [[e | st2]|] eqn:Hl;
    try discriminate.
  injection H as <-.
  destruct HI as (I1 & I2 & I3).
  destruct (exec_forEach_inv _ _ IH _ _ Hl) as [(J1 & J2 & J3) J4].
  { unfold InvE. cbn. split_and!; [done | done | set_solver]. }
  cbn in J4. apply Hkeys in Hn.
  assert (Hfresh : n ∉ map name (RelayWorkflowRun.sorted st2)).
  { intros Hin. apply (J3 n); [rewrite J2; set_solver | rewrite J4; set_solver]. }
  unfold InvE. cbn. rewrite map_app. cbn. rewrite Hn. split_and!.
  - apply NoDup_app. split_and!; [done | | apply NoDup_singleton].
    intros x Hx Hx'. apply list_elem_of_singleton in Hx' as ->. done.
  - rewrite J2, list_to_set_app_L. set_solver.
  - rewrite J4 in J3 |- *. rewrite J2 in J3 |- *. set_solver.
  - rewrite J4. set_solver.
Qed.

End ExecSort.

Lemma dom_stepMap (steps : list WorkflowStep) :
  dom (RelayWorkflowRun.stepMap steps) = nameSet steps.
Proof.
  unfold RelayWorkflowRun.stepMap, nameSet, stepNames.
  assert (H : forall l (m : gmap string WorkflowStep),
             dom (foldl (fun m s => <[name s := s]> m) m l)
             = dom m ∪ list_to_set (map name l)).
  { induction l as [|s l IH]; intros m; cbn.
    - set_solver.
    - rewrite IH, dom_insert_L. set_solver. }
  rewrite H, dom_empty_L. set_solver.
Qed.

(** The fuel [topologicalSort] runs with is enough, whatever the list. *)
Lemma topologicalSortWith_enough (steps : list WorkflowStep) :
  RelayWorkflowRun.topologicalSortWith (S (length steps)) steps
  = Some (RelayWorkflowRun.topologicalSort steps).
Proof.
  unfold RelayWorkflowRun.topologicalSort.
  destruct (RelayWorkflowRun.topologicalSortWith (S (length steps)) steps)
    as [r|] eqn:E; [done|]. exfalso.
  unfold RelayWorkflowRun.topologicalSortWith in E.
  destruct (exec_forEach_total
              (RelayWorkflowRun.visit (RelayWorkflowRun.stepMap steps) (S (length steps)))
              (fun X => X ⊆ dom (RelayWorkflowRun.stepMap steps)
                        /\ (size (dom (RelayWorkflowRun.stepMap steps))
                            < size X + S (length steps))%nat)
              (map name steps))
    with (st := {| RelayWorkflowRun.sorted := []; RelayWorkflowRun.visited := ∅;
                   RelayWorkflowRun.visiting := ∅ |}) as [[e | st] H].
  - intros n st [H1 H2]. by apply exec_visit_total.
  - apply exec_visit_keeps.
  - cbn. split; [set_solver|]. rewrite dom_stepMap.
    pose proof (size_nameSet steps). lia.
  - rewrite H in E. discriminate.
  - rewrite H in E. discriminate.
Qed.

(** The same for the validation path. *)
Lemma validate_topologicalSortWith_enough (steps : list WorkflowStep) :
  RelayWorkflowValidate.topologicalSortWith (S (length steps)) steps
  = Some (RelayWorkflowValidate.topologicalSort steps).
Proof. apply validate_topologicalSort_spec. Qed.

(** More fuel changes nothing once a traversal has returned. *)
Lemma validate_forEach_mono {S}
    (body1 body2 : string -> S -> option (bool * S)) (ds : list string) :
  (forall d st r, body1 d st = Some r -> body2 d st = Some r) ->
  forall st r, RelayWorkflowValidate.forEach body1 ds st = Some r ->
               RelayWorkflowValidate.forEach body2 ds st = Some r.
Proof.
  intros Hb. induction ds as [|d ds IH]; intros st r H; cbn in H |- *; [done|].
  destruct (body1 d st) as [[[] st1]|] eqn:Hd; try discriminate;
    rewrite (Hb _ _ _ Hd); [by apply IH | done].
Qed.

Lemma validate_visit_mono (steps : list WorkflowStep) (fuel : nat) :
  forall n st r,
    RelayWorkflowValidate.visit steps fuel n st = Some r ->
    RelayWorkflowValidate.visit steps (S fuel) n st = Some r.
Proof.
  induction fuel as [|fuel IH]; intros n st r H; [discriminate|].
  cbn [RelayWorkflowValidate.visit] in H.
  remember (S fuel) as fuel' eqn:E. cbn [RelayWorkflowValidate.visit]. subst fuel'.
  destruct (decide (n ∈ RelayWorkflowValidate.visited st)); [done|].
  destruct (decide (n ∈ RelayWorkflowValidate.visiting st)); [done|].
  destruct (RelayWorkflowValidate.forEach (RelayWorkflowValidate.visit steps fuel) _ _)
    as [r1|] eqn:Hl; [|discriminate].
  rewrite (validate_forEach_mono _ _ _ IH _ _ Hl). done.
Qed.

Lemma validate_topologicalSortWith_more (steps : list WorkflowStep) (fuel : nat) :
  (length steps < fuel)%nat ->
  RelayWorkflowValidate.topologicalSortWith fuel steps
  = Some (RelayWorkflowValidate.topologicalSort steps).
Proof.
  intros Hf. replace fuel with ((fuel - S (length steps)) + S (length steps))%nat
    by lia.
  induction (fuel - S (length steps))%nat as [|k IH]; cbn [Nat.add].
  - apply validate_topologicalSortWith_enough.
  - unfold RelayWorkflowValidate.topologicalSortWith in IH |- *.
    destruct (RelayWorkflowValidate.forEach
                (RelayWorkflowValidate.visit steps (k + S (length steps))) _ _)
      as [r|] eqn:Hl; [|discriminate].
    rewrite (validate_forEach_mono _ _ _ (validate_visit_mono steps _) _ _ Hl).
    exact IH.
Qed.

Lemma exec_forEach_mono {S}
    (body1 body2 : string -> S -> option (Message + S)) (ds : list string) :
  (forall d st r, body1 d st = Some r -> body2 d st = Some r) ->
  forall st r, RelayWorkflowRun.forEach body1 ds st = Some r ->
               RelayWorkflowRun.forEach body2 ds st = Some r.
Proof.
  intros Hb. induction ds as [|d ds IH]; intros st r H; cbn in H |- *; [done|].
  destruct (body1 d st) as [[e | st1]|] eqn:Hd; try discriminate;
    rewrite (Hb _ _ _ Hd); [done | by apply IH].
Qed.

Lemma exec_visit_mono (m : gmap string WorkflowStep) (fuel : nat) :
  forall n st r,
    RelayWorkflowRun.visit m fuel n st = Some r ->
    RelayWorkflowRun.visit m (S fuel) n st = Some r.
Proof.
  induction fuel as [|fuel IH]; intros n st r H; [discriminate|].
  cbn [RelayWorkflowRun.visit] in H.
  remember (S fuel) as fuel' eqn:E. cbn [RelayWorkflowRun.visit]. subst fuel'.
  destruct (decide (n ∈ RelayWorkflowRun.visited st)); [done|].
  destruct (decide (n ∈ RelayWorkflowRun.visiting st)); [done|].
  destruct (m !! n) as [step|]; [|done].
  destruct (RelayWorkflowRun.forEach (RelayWorkflowRun.visit m fuel) _ _)
    as [r1|] eqn:Hl; [|discriminate].
  rewrite (exec_forEach_mono _ _ _ IH _ _ Hl). done.
Qed.

Lemma topologicalSortWith_more (steps : list WorkflowStep) (fuel : nat) :
  (length steps < fuel)%nat ->
  RelayWorkflowRun.topologicalSortWith fuel steps
  = Some (RelayWorkflowRun.topologicalSort steps).
Proof.
  intros Hf. replace fuel with ((fuel - S (length steps)) + S (length steps))%nat
    by lia.
  induction (fuel - S (length steps))%nat as [|k IH]; cbn [Nat.add].
  - apply topologicalSortWith_enough.
  - unfold RelayWorkflowRun.topologicalSortWith in IH |- *.
    destruct (RelayWorkflowRun.forEach
                (RelayWorkflowRun.visit _ (k + S (length steps))) _ _)
      as [r|] eqn:Hl; [|discriminate].
    rewrite (exec_forEach_mono _ _ _ (exec_visit_mono _ _) _ _ Hl).
    exact IH.
Qed.

Lemma stepMap_keys (steps : list WorkflowStep) (k : string) (step : WorkflowStep) :
  RelayWorkflowRun.stepMap steps !! k = Some step -> name step = k.
Proof.
  unfold RelayWorkflowRun.stepMap.
  assert (H : forall l (m : gmap string WorkflowStep),
             (forall k s, m !! k = Some s -> name s = k) ->
             forall k s, foldl (fun m s => <[name s := s]> m) m l !! k = Some s ->
                         name s = k).
  { induction l as [|x l IH]; intros m Hm k' s'; cbn; [apply Hm|].
    apply IH. intros k'' s''. rewrite lookup_insert.
    case_decide; [intros [= <-]; done | apply Hm]. }
  apply H. intros k' s'. by rewrite lookup_empty.
Qed.

(** The steps [topologicalSort] returns have distinct names, whatever the
    list it is given. *)
Lemma topologicalSort_NoDup (steps sorted : list WorkflowStep) :
  RelayWorkflowRun.topologicalSort steps = inr sorted -> NoDup (map name sorted).
Proof.
  intros H. pose proof (topologicalSortWith_enough steps) as E.
  rewrite H in E. unfold RelayWorkflowRun.topologicalSortWith in E.
  destruct (RelayWorkflowRun.forEach _ _ _) as [[e | st]|] eqn:Hl;
    try discriminate.
  injection E as <-.
  destruct (exec_forEach_inv _ _
              (exec_visit_inv (RelayWorkflowRun.stepMap steps)
                              (stepMap_keys steps) (S (length steps)))
              _ _ Hl) as [(H1 & _) _]; [|done].
  unfold InvE. cbn. split_and!; [constructor | done | set_solver].
Qed.

(** Claim C2. For a step list with unique names, resolved references and no
    cycle, both topological sorts return the same order: a permutation of the
    step names in which every dependency stands strictly before each step that
    depends on it. The order is a function of the list, hence the same at
    every call. It is the depth-first post-order: a step stands before an
    earlier-declared step only if it is a (transitive) dependency of that step
    or of one declared before it. *)
Theorem topologicalSort_dependencies_first (steps : list WorkflowStep) :
  NoDup (stepNames steps) -> resolved steps -> acyclic steps ->
  exists sorted,
    RelayWorkflowRun.topologicalSort steps = inr sorted
    /\ (forall again, RelayWorkflowRun.topologicalSort steps = inr again ->
                      again = sorted)
    /\ RelayWorkflowValidate.topologicalSort steps
       = {| RelayWorkflowValidate.r_order := map name sorted;
            RelayWorkflowValidate.hasCycle := false;
            RelayWorkflowValidate.r_cycleStep := None |}
    /\ map name sorted ≡ₚ stepNames steps
    /\ (forall a b, declares steps a b -> before b a (map name sorted))
    /\ (forall (i j : nat) (s t : string),
          (i < j)%nat ->
          stepNames steps !! i = Some s -> stepNames steps !! j = Some t ->
          before t s (map name sorted) ->
          exists (k : nat) (u : string),
            (k <= i)%nat /\ stepNames steps !! k = Some u
            /\ tc (declares steps) u t).
Proof.
  intros Hu Hr Ha.
  destruct (sort_of_acyclic steps Hu Hr Ha) as (sorted & H1 & H2 & H3 & H4 & H5).
  exists sorted. split_and!; try done.
  intros again Hagain. congruence.
Qed.

Lemma topologicalSort_dependencies_first_witness :
  exists sorted,
    RelayWorkflowRun.topologicalSort stepsAB = inr sorted
    /\ map name sorted ≡ₚ ["A"; "B"]
    /\ before "A" "B" (map name sorted).
Proof.
  destruct (topologicalSort_dependencies_first stepsAB)
    as (sorted & H1 & _ & _ & H3 & H4 & _).
  - refine (bool_decide_unpack _ _). vm_compute. exact I.
  - apply resolvedb_resolved. vm_compute. reflexivity.
  - apply (rankedb_acyclic (rankOf [("A", 0%nat); ("B", 1%nat)])).
    vm_compute. reflexivity.
  - exists sorted. split_and!; [exact H1 | exact H3 |].
    apply H4. exists (plainStep "B" ["A"]).
    split_and!; [right; left | reflexivity | left].
Defined.

(** The order does not keep the declaration order of steps that no
    dependency relates: with [A] needing the later [C], the unrelated [B],
    declared before [C], comes out after it. *)
Lemma topologicalSort_tie_break_counterexample :
  NoDup (stepNames stepsACB) /\ resolved stepsACB /\ acyclic stepsACB
  /\ stepNames stepsACB = ["A"; "B"; "C"]
  /\ ~ tc (declares stepsACB) "B" "C" /\ ~ tc (declares stepsACB) "C" "B"
  /\ sum_map id (map name) (RelayWorkflowRun.topologicalSort stepsACB)
     = inr ["C"; "A"; "B"]
  /\ RelayWorkflowValidate.r_order (RelayWorkflowValidate.topologicalSort stepsACB)
     = ["C"; "A"; "B"]
  /\ before "C" "B" ["C"; "A"; "B"]
  /\ ~ before "B" "C" ["C"; "A"; "B"].
Proof.
  split_and!.
  - refine (bool_decide_unpack _ _). vm_compute. exact I.
  - apply resolvedb_resolved. vm_compute. reflexivity.
  - apply (rankedb_acyclic (rankOf [("A", 1%nat)])). vm_compute. reflexivity.
  - reflexivity.
  - apply leafb_no_path. vm_compute. reflexivity.
  - apply leafb_no_path. vm_compute. reflexivity.
  - vm_compute. reflexivity.
  - vm_compute. reflexivity.
  - exists 0%nat, 2%nat. split_and!; [reflexivity | reflexivity | lia].
  - intros (i & j & Hi & Hj & Hij).
    destruct i as [|[|[|i]]]; try discriminate Hi.
    destruct j as [|[|[|j]]]; try discriminate Hj. lia.
Qed.




(** ** Cycles in the validation tool *)

(** Whatever the step list: when the dependencies, read by name as
    [steps.find] resolves them, contain a cycle, the sort reports one step
    that lies on a cycle and returns an empty order, and the validation
    report is invalid, carries the cycle as an error and has an empty
    execution order and no parallel groups. *)
Lemma validate_reports_cycle (steps : list WorkflowStep) :
  (exists s, tc (dependsOn steps) s s) ->
  exists w resp,
    RelayWorkflowValidate.topologicalSort steps
    = {| RelayWorkflowValidate.r_order := [];
         RelayWorkflowValidate.hasCycle := true;
         RelayWorkflowValidate.r_cycleStep := Some w |}
    /\ tc (dependsOn steps) w w
    /\ RelayWorkflowValidate.relayWorkflowValidate steps = Some resp
    /\ RelayWorkflowValidate.valid resp = false
    /\ RelayWorkflowValidate.executionOrder resp = []
    /\ RelayWorkflowValidate.parallelGroups resp = []
    /\ exists e, e ∈ RelayWorkflowValidate.errors resp
                 /\ RelayWorkflowValidate.ve_field e = "depends"
                 /\ RelayWorkflowValidate.ve_message e
                    = RelayWorkflowValidate.CircularDependencyAt (Some w).
Proof.
  intros (s & Hs).
  destruct (validate_topologicalSort_spec steps) as (_ & Hok & Hcyc).
  unfold RelayWorkflowValidate.relayWorkflowValidate.
  destruct (RelayWorkflowValidate.topologicalSort steps) as [ord cyc cs].
  cbn in Hok, Hcyc |- *. destruct cyc.
  - destruct (Hcyc eq_refl) as (-> & w & -> & Hw).
    eexists w, _. split_and!; try done.
    + cbn. rewrite length_app. cbn. apply Nat.eqb_neq. lia.
    + eexists. split; [apply elem_of_app; right; left|]. done.
  - destruct (Hok eq_refl) as (_ & _ & _ & _ & _ & Hno). by destruct (Hno s).
Qed.

(** In particular for every list with unique names that declares a cycle. *)
Lemma validate_reports_declared_cycle (steps : list WorkflowStep) :
  NoDup (stepNames steps) -> (exists s, tc (declares steps) s s) ->
  exists w resp,
    RelayWorkflowValidate.r_cycleStep (RelayWorkflowValidate.topologicalSort steps)
    = Some w
    /\ tc (declares steps) w w
    /\ RelayWorkflowValidate.relayWorkflowValidate steps = Some resp
    /\ RelayWorkflowValidate.valid resp = false
    /\ RelayWorkflowValidate.executionOrder resp = []
    /\ RelayWorkflowValidate.parallelGroups resp = [].
Proof.
  intros Hu (s & Hs).
  destruct (validate_reports_cycle steps) as (w & resp & H1 & H2 & H3 & H4 & H5 & H6 & _).
  { exists s. by apply tc_declares_dependsOn. }
  exists w, resp. rewrite H1. split_and!; try done.
  by apply tc_declares_dependsOn.
Qed.

Lemma getLevel_self_dependent (m : gmap string WorkflowStep) (a : string)
    (step : WorkflowStep) (ds : list string) :
  m !! a = Some step -> depends step = Some (a :: ds) ->
  forall fuel levels,
    JS.lookup a levels = None ->
    RelayWorkflowValidate.getLevel m fuel a levels = None.
Proof.
  intros Hm Hd. induction fuel as [|fuel IH]; intros levels Hl; [done|].
  cbn [RelayWorkflowValidate.getLevel]. rewrite Hl, Hm. cbn. rewrite Hd.
  cbn [RelayWorkflowValidate.mapLevels]. by rewrite IH.
Qed.

(** *** The level computation returns on lists with unique names *)

Section Levels.

Context (steps : list WorkflowStep) (ord : list string).
Context (Hunique : NoDup (stepNames steps)).
Context (Hord : NoDup ord) (Htopo : topo steps ord).
Context (Hall : forall n, n ∈ stepNames steps -> n ∈ ord).

Lemma known_before_le (k : nat) :
  (length (filter (.∈ stepNames steps) (take k ord)) <= length steps)%nat.
Proof.
  replace (length steps) with (length (stepNames steps))
    by (unfold stepNames; apply length_map).
  apply submseteq_length, NoDup_submseteq.
  - apply NoDup_filter. eapply sublist_NoDup; [exact Hord | apply sublist_take].
  - intros x Hx. by apply list_elem_of_filter in Hx as [Hx _].
Qed.

Lemma known_before_lt (i k : nat) (d : string) :
  ord !! i = Some d -> d ∈ stepNames steps -> (i < k)%nat ->
  (length (filter (.∈ stepNames steps) (take i ord))
   < length (filter (.∈ stepNames steps) (take k ord)))%nat.
Proof.
  intros Hi Hd Hik.
  replace k with (i + (k - i))%nat by lia.
  rewrite <- take_take_drop, filter_app, length_app.
  destruct (drop i ord) as [|x rest] eqn:E.
  - pose proof (lookup_drop ord i 0) as H. rewrite E, Nat.add_0_r, Hi in H. done.
  - pose proof (lookup_drop ord i 0) as H. rewrite E, Nat.add_0_r, Hi in H.
    injection H as ->. destruct (k - i)%nat as [|m] eqn:Ek; [lia|]. cbn [take].
    rewrite filter_cons_True by done. cbn. lia.
Qed.

Lemma mapLevels_total {S} (f : string -> S -> option (Z * S)) (ds : list string) :
  (forall d levels, d ∈ ds -> is_Some (f d levels)) ->
  forall levels, is_Some (RelayWorkflowValidate.mapLevels f ds levels).
Proof.
  induction ds as [|d ds IH]; intros Hf levels; cbn; [eauto|].
  destruct (Hf d levels) as [[l levels1] Hd]; [left|]. rewrite Hd.
  destruct (IH (fun d' lv Hd' => Hf d' lv (list_elem_of_further _ _ _ Hd')) levels1)
    as [[ls levels2] Hr].
  rewrite Hr. eauto.
Qed.

(** The depth [getLevel] needs for a name: one call for a name that is not
    a step, and for a step two more than the number of steps that stand
    before it in the order. *)
Lemma getLevel_total (fuel : nat) :
  forall n levels,
    (0 < fuel)%nat ->
    (forall j, ord !! j = Some n -> n ∈ stepNames steps ->
               (length (filter (.∈ stepNames steps) (take j ord)) + 1 < fuel)%nat) ->
    is_Some (RelayWorkflowValidate.getLevel
               (RelayWorkflowValidate.stepMap steps) fuel n levels).
Proof.
  induction fuel as [|fuel IH]; intros n levels Hpos Hrank; [lia|].
  cbn [RelayWorkflowValidate.getLevel].
  destruct (JS.lookup n levels); [eauto|].
  change (RelayWorkflowValidate.stepMap steps) with (RelayWorkflowRun.stepMap steps).
  rewrite (stepMap_lookup steps Hunique).
  destruct (RelayWorkflowValidate.findStep steps n) as [step|] eqn:Hfind;
    cbn; [|eauto].
  destruct (depends step) as [[|d ds]|] eqn:Hdeps; [eauto | | eauto].
  assert (Hnamed : n ∈ stepNames steps).
  { apply findStep_Some in Hfind as [Hin <-]. apply list_elem_of_fmap. eauto. }
  destruct (proj1 (list_elem_of_lookup _ _) (Hall n Hnamed)) as [j Hj].
  pose proof (Hrank j Hj Hnamed) as Hjf.
  destruct (mapLevels_total
              (RelayWorkflowValidate.getLevel (RelayWorkflowRun.stepMap steps) fuel)
              (d :: ds)) with (levels := levels) as [[ls levels1] Hm].
  - intros d' levels' Hd'.
    assert (Hdep : dependsOn steps n d').
    { unfold dependsOn, depsOf. rewrite Hfind, Hdeps. exact Hd'. }
    destruct (Htopo j n d' Hj Hdep) as (i & Hi & Hid).
    apply IH; [lia|]. intros i' Hi' Hknown.
    pose proof (NoDup_lookup _ _ _ _ Hord Hid Hi') as <-.
    pose proof (known_before_lt i j d' Hid Hknown Hi). lia.
  - cbn [RelayWorkflowValidate.mapLevels] in Hm |- *.
    destruct (RelayWorkflowValidate.getLevel _ fuel d levels) as [[l lv]|];
      [|discriminate].
    destruct (RelayWorkflowValidate.mapLevels _ ds lv) as [[ls' lv']|];
      [|discriminate].
    eauto.
Qed.

Lemma allLevels_total (roots : list string) :
  forall levels,
    is_Some (RelayWorkflowValidate.allLevels
               (RelayWorkflowValidate.stepMap steps) (S (length steps)) roots levels).
Proof.
  induction roots as [|r roots IH]; intros levels; cbn [RelayWorkflowValidate.allLevels];
    [eauto|].
  destruct (getLevel_total (S (length steps)) r levels) as [[l levels1] Hl]; [lia | |].
  - intros j Hj Hknown.
    pose proof (known_before_lt j (S j) r Hj Hknown (Nat.lt_succ_diag_r j)).
    pose proof (known_before_le (S j)). lia.
  - rewrite Hl. apply IH.
Qed.

End Levels.

(** On a step list with unique names the validation tool always returns a
    report. *)
Lemma validate_returns_on_unique_names (steps : list WorkflowStep) :
  NoDup (stepNames steps) ->
  is_Some (RelayWorkflowValidate.relayWorkflowValidate steps).
Proof.
  intros Hu. unfold RelayWorkflowValidate.relayWorkflowValidate.
  destruct (validate_topologicalSort_spec steps) as (_ & Hok & _).
  destruct (RelayWorkflowValidate.topologicalSort steps) as [ord cyc cs].
  cbn in Hok |- *. destruct cyc; [eauto|].
  destruct (Hok eq_refl) as (_ & Hnd & Htopo & Hall & _).
  unfold RelayWorkflowValidate.calculateParallelGroups.
  destruct (allLevels_total steps ord Hu Hnd Htopo Hall (map name steps) [])
    as [lv Hlv].
  rewrite Hlv. eauto.
Qed.

(** Claim C9. A name declared twice, the second declaration depending on
    itself: the list declares a cycle, and the execution path's sort, which
    reads the last declaration, reports it. The validation path's sort reads
    the first declaration: it reports no cycle and returns an order. The level
    computation that follows reads the last declaration again and recurses
    without end whatever the depth allowed, so that no report is returned. *)
Theorem validate_misses_shadowed_cycle :
  tc (declares stepsShadowed) "A" "A"
  /\ RelayWorkflowValidate.topologicalSort stepsShadowed
     = {| RelayWorkflowValidate.r_order := ["A"];
          RelayWorkflowValidate.hasCycle := false;
          RelayWorkflowValidate.r_cycleStep := None |}
  /\ (forall fuel,
        RelayWorkflowValidate.getLevel (RelayWorkflowValidate.stepMap stepsShadowed)
                                       fuel "A" [] = None)
  /\ RelayWorkflowValidate.relayWorkflowValidate stepsShadowed = None
  /\ RelayWorkflowRun.topologicalSort stepsShadowed = inl (CircularDependency "A").
Proof.
  split_and!.
  - apply tc_once. exists (plainStep "A" ["A"]).
    split_and!; [right; left | reflexivity | left].
  - vm_compute. reflexivity.
  - intros fuel.
    apply (getLevel_self_dependent _ "A" (plainStep "A" ["A"]) []); [|done..].
    vm_compute. reflexivity.
  - vm_compute. reflexivity.
  - vm_compute. reflexivity.
Qed.

(** ** Plain objects *)

Lemma lookup_insertIndex {A} (n : N) (key : string) (value : A)
    (fields : list (string * A)) (k : string) :
  JS.lookup key fields = None ->
  JS.lookup k (JS.insertIndex n key value fields)
  = if String.eqb key k then Some value else JS.lookup k fields.
Proof.
  induction fields as [|[k0 v0] fields IH]; intros Hnew; [reflexivity|].
  cbn [JS.lookup] in Hnew. destruct (String.eqb k0 key) eqn:E0; [discriminate|].
  cbn [JS.insertIndex].
  destruct (JS.arrayIndex k0) as [m|]; [destruct (m <? n)%N|]; cbn [JS.lookup].
  - rewrite (IH Hnew). destruct (String.eqb k0 k) eqn:Ek; [|done].
    apply String.eqb_eq in Ek. subst k0. rewrite String.eqb_sym in E0.
    by rewrite E0.
  - reflexivity.
  - reflexivity.
Qed.

Lemma keys_insertIndex {A} (n : N) (key : string) (value : A)
    (fields : list (string * A)) :
  map fst (JS.insertIndex n key value fields) ≡ₚ key :: map fst fields.
Proof.
  induction fields as [|[k0 v0] fields IH]; [reflexivity|].
  cbn [JS.insertIndex].
  destruct (JS.arrayIndex k0) as [m|]; [destruct (m <? n)%N|]; cbn [map fst];
    [|reflexivity..].
  rewrite IH. apply perm_swap.
Qed.

Lemma lookup_insertKey {A} (key : string) (value : A)
    (fields : list (string * A)) (k : string) :
  JS.lookup key fields = None ->
  JS.lookup k (JS.insertKey key value fields)
  = if String.eqb key k then Some value else JS.lookup k fields.
Proof.
  intros Hnew. unfold JS.insertKey. destruct (JS.arrayIndex key) as [n|].
  - by apply lookup_insertIndex.
  - rewrite lookup_app. cbn [JS.lookup].
    destruct (JS.lookup k fields) as [v|] eqn:E; [|done].
    destruct (String.eqb key k) eqn:Ek; [|done].
    apply String.eqb_eq in Ek. congruence.
Qed.

Lemma keys_insertKey {A} (key : string) (value : A) (fields : list (string * A)) :
  map fst (JS.insertKey key value fields) ≡ₚ key :: map fst fields.
Proof.
  unfold JS.insertKey. destruct (JS.arrayIndex key) as [n|].
  - apply keys_insertIndex.
  - rewrite map_app. cbn. by rewrite <- Permutation_cons_append.
Qed.

Lemma keys_set {A} (key : string) (value : A) (fields : list (string * A)) :
  is_Some (JS.lookup key fields) ->
  map fst (JS.set key value fields) = map fst fields.
Proof.
  induction fields as [|[k v] fields IH]; cbn; [by intros [? ?]|].
  destruct (String.eqb k key) eqn:E; cbn; [done|]. intros H. by rewrite IH.
Qed.

(** What an assignment changes in the own properties of an object. *)
Lemma lookup_assign {A} (key : string) (value : A) (obj : Obj A) (k : string) :
  JS.lookup k (own (JS.assign key value obj))
  = if String.eqb key k
    then (if String.eqb key "__proto__"
          then option_map (fun _ => value) (JS.lookup key (own obj))
          else Some value)
    else JS.lookup k (own obj).
Proof.
  unfold JS.assign. destruct (JS.lookup key (own obj)) as [v|] eqn:Hown; cbn [own].
  - destruct (String.eqb key k) eqn:Ek.
    + apply String.eqb_eq in Ek. subst k. rewrite lookup_set_eq.
      by destruct (String.eqb key "__proto__").
    + apply String.eqb_neq in Ek. by apply lookup_set_ne.
  - destruct (String.eqb key "__proto__") eqn:Ep; cbn [own].
    + destruct (String.eqb key k) eqn:Ek; [|done].
      apply String.eqb_eq in Ek. by subst k.
    + by apply lookup_insertKey.
Qed.

Lemma prototype_assign {A} (key : string) (value : A) (obj : Obj A) :
  prototype (JS.assign key value obj)
  = if String.eqb key "__proto__"
    then (match JS.lookup key (own obj) with
          | Some _ => prototype obj
          | None => Some value
          end)
    else prototype obj.
Proof.
  unfold JS.assign. destruct (JS.lookup key (own obj)) as [v|] eqn:Hown; cbn.
  - by destruct (String.eqb key "__proto__").
  - by destruct (String.eqb key "__proto__").
Qed.

(** A name reads the value last assigned under it, and an assignment under
    another name does not change what it reads. *)
Lemma read_assign {A} (key : string) (value : A) (obj : Obj A) (k : string) :
  JS.read k (JS.assign key value obj)
  = if String.eqb key k then Some value else JS.read k obj.
Proof.
  unfold JS.read. rewrite lookup_assign, prototype_assign.
  destruct (String.eqb key k) eqn:Ek.
  - apply String.eqb_eq in Ek. subst k.
    destruct (String.eqb key "__proto__") eqn:Ep; [|done].
    by destruct (JS.lookup key (own obj)).
  - destruct (JS.lookup k (own obj)); [done|].
    destruct (String.eqb k "__proto__") eqn:Ep; [|done].
    destruct (String.eqb key "__proto__") eqn:Ep'; [|done].
    apply String.eqb_eq in Ep, Ep'. apply String.eqb_neq in Ek. congruence.
Qed.

(** The own names of an object after an assignment. *)
Lemma keys_assign {A} (key : string) (value : A) (obj : Obj A) :
  JS.lookup key (own obj) = None ->
  map fst (own (JS.assign key value obj))
  ≡ₚ (if String.eqb key "__proto__" then [] else [key]) ++ map fst (own obj).
Proof.
  intros Hnew. unfold JS.assign. rewrite Hnew.
  destruct (String.eqb key "__proto__"); cbn [own app]; [done|].
  apply keys_insertKey.
Qed.

Lemma read_empty {A} (k : string) : JS.read k (@JS.emptyObject A) = None.
Proof. unfold JS.read. cbn. by destruct (String.eqb k "__proto__"). Qed.

(** The sort of the execution path throws its own two errors only. *)
Lemma exec_forEach_never_StepFailed (steps : list WorkflowStep) (fuel : nat) :
  forall names st n cause,
    RelayWorkflowRun.forEach
      (RelayWorkflowRun.visit (RelayWorkflowRun.stepMap steps) fuel) names st
    <> Some (inl (StepFailed n cause)).
Proof.
  induction fuel as [|fuel IH].
  - intros names st n cause. destruct names as [|x names]; cbn; discriminate.
  - assert (Hvisit : forall x st n cause,
               RelayWorkflowRun.visit (RelayWorkflowRun.stepMap steps) (S fuel) x st
               <> Some (inl (StepFailed n cause))).
    { intros x st n cause. cbn [RelayWorkflowRun.visit].
      destruct (decide _); [discriminate|].
      destruct (decide _); [discriminate|].
      destruct (_ !! x) as [step|]; [|discriminate].
      destruct (RelayWorkflowRun.forEach _ _ _) as [[e|st']|] eqn:E;
        [|discriminate..].
      intros [= ->]. by apply IH in E. }
    intros names. induction names as [|x names IHn]; intros st n cause;
      [discriminate|].
    cbn [RelayWorkflowRun.forEach].
    destruct (RelayWorkflowRun.visit _ (S fuel) x st) as [[e|st']|] eqn:E.
    + intros [= ->]. by apply Hvisit in E.
    + apply IHn.
    + discriminate.
Qed.

(** ** The workflow engine *)

Section EngineFacts.

Context (platform : Platform) (env : Env) (input : JValue).

Local Abbreviation runStep := (RelayWorkflowRun.runStep platform env input).
Local Abbreviation runSteps := (RelayWorkflowRun.runSteps platform env input).
Local Abbreviation stepResults := RelayWorkflowRun.stepResults.

(** An iteration either rethrows, having recorded the failure of its step,
    or records a success. *)
Lemma runStep_cases (step : WorkflowStep) (st : RelayWorkflowRun.RunState)
    (w : World) :
  (exists cause st' w',
      runStep step st w = ((Some (StepFailed (name step) cause), st'), w')
      /\ stepResults st' = JS.assign (name step) (failedResult cause) (stepResults st))
  \/ (exists res st' w',
         runStep step st w = ((None, st'), w')
         /\ sr_success res = true
         /\ stepResults st' = JS.assign (name step) res (stepResults st)).
Proof.
  unfold RelayWorkflowRun.runStep.
  destruct (RelayWorkflowRun.isAiStep step).
  - unfold bind. destruct (RelayRun.relayRun env _ w) as [result w1].
    destruct (RelayRun.success result); cbn [negb].
    + right. destruct (RelayRun.usage result). eexists _, _, _.
      split; [reflexivity|]. split; [|reflexivity]. reflexivity.
    + left. eexists _, _, _. split; reflexivity.
  - destruct (truthy (mcp step)); right; eexists _, _, _;
      (split; [reflexivity|]); (split; [|reflexivity]); reflexivity.
Qed.

Lemma runSteps_cons (step : WorkflowStep) (rest : list WorkflowStep)
    (st : RelayWorkflowRun.RunState) (w : World) :
  runSteps (step :: rest) st w
  = match runStep step st w with
    | ((Some e, st'), w') => ((Some e, st'), w')
    | ((None, st'), w') => runSteps rest st' w'
    end.
Proof.
  cbn [RelayWorkflowRun.runSteps]. unfold bind.
  destruct (runStep step st w) as [[[e|] st'] w']; reflexivity.
Qed.

(** A loop that ends with an error has run the steps before some step
    without error, and that step has rethrown. *)
Lemma runSteps_stop (todo : list WorkflowStep) :
  forall st w e st' w',
    runSteps todo st w = ((Some e, st'), w') ->
    exists pre step post st1 w1,
      todo = pre ++ step :: post
      /\ runSteps pre st w = ((None, st1), w1)
      /\ runStep step st1 w1 = ((Some e, st'), w').
Proof.
  induction todo as [|s rest IH]; intros st w e st' w' H; [discriminate|].
  rewrite runSteps_cons in H.
  destruct (runStep s st w) as [[[e0|] st0] w0] eqn:Hs.
  - injection H as -> -> ->. by exists [], s, rest, st, w.
  - destruct (IH _ _ _ _ _ H) as (pre & step & post & st1 & w1 & -> & Hpre & Hstep).
    exists (s :: pre), step, post, st1, w1. split_and!; [done | | done].
    by rewrite runSteps_cons, Hs.
Qed.

(** After a loop without error over steps with distinct names, each of the
    steps reads a successful result under its name, and every other name
    reads what it read before. *)
Lemma runSteps_reads (todo : list WorkflowStep) :
  forall st w st1 w1,
    NoDup (map name todo) ->
    runSteps todo st w = ((None, st1), w1) ->
    (forall s, s ∈ todo ->
               exists r, JS.read (name s) (stepResults st1) = Some r
                         /\ sr_success r = true)
    /\ (forall k, k ∉ map name todo ->
                  JS.read k (stepResults st1) = JS.read k (stepResults st)
                  /\ JS.lookup k (own (stepResults st1))
                     = JS.lookup k (own (stepResults st))).
Proof.
  induction todo as [|s rest IH]; intros st w st1 w1 Hnd H.
  - cbn in H. injection H as <- <-. split; [|done].
    intros s Hs. by apply elem_of_nil in Hs.
  - cbn in Hnd. apply NoDup_cons in Hnd as [Hs Hnd].
    rewrite runSteps_cons in H.
    destruct (runStep_cases s st w) as [(cause & st' & w' & Hrun & Hres)
                                       | (res & st' & w' & Hrun & Hok & Hres)];
      rewrite Hrun in H; [discriminate|].
    destruct (IH _ _ _ _ Hnd H) as [Hin Hout]. split.
    + intros t Ht. apply elem_of_cons in Ht as [-> | Ht]; [|by apply Hin].
      exists res. split; [|done].
      rewrite (proj1 (Hout (name s) Hs)), Hres, read_assign.
      by rewrite String.eqb_refl.
    + intros k Hk. cbn in Hk. apply not_elem_of_cons in Hk as [Hne Hk].
      destruct (Hout k Hk) as [-> ->]. rewrite Hres, read_assign, lookup_assign.
      assert (E : String.eqb (name s) k = false) by (apply String.eqb_neq; congruence).
      by rewrite E.
Qed.

(** The names the object of results enumerates after such a loop: those of
    the steps, but for [__proto__], which names no property. *)
Lemma runSteps_keys (todo : list WorkflowStep) :
  forall st w st1 w1,
    NoDup (map name todo) ->
    (forall s, s ∈ todo -> JS.lookup (name s) (own (stepResults st)) = None) ->
    runSteps todo st w = ((None, st1), w1) ->
    map fst (own (stepResults st1))
    ≡ₚ listed (map name todo) ++ map fst (own (stepResults st)).
Proof.
  induction todo as [|s rest IH]; intros st w st1 w1 Hnd Hfresh H.
  - cbn in H. by injection H as <- <-.
  - cbn in Hnd. apply NoDup_cons in Hnd as [Hs Hnd].
    rewrite runSteps_cons in H.
    destruct (runStep_cases s st w) as [(cause & st' & w' & Hrun & Hres)
                                       | (res & st' & w' & Hrun & Hok & Hres)];
      rewrite Hrun in H; [discriminate|].
    assert (Hfresh' : forall t, t ∈ rest ->
                        JS.lookup (name t) (own (stepResults st')) = None).
    { intros t Ht. rewrite Hres, lookup_assign.
      destruct (String.eqb (name s) (name t)) eqn:E; [|apply Hfresh; by right].
      apply String.eqb_eq in E. exfalso. apply Hs. rewrite E.
      by apply list_elem_of_fmap_2. }
    rewrite (IH _ _ _ _ Hnd Hfresh' H).
    rewrite Hres, keys_assign by (apply Hfresh; left).
    unfold listed. cbn [map List.filter].
    destruct (String.eqb (name s) "__proto__"); cbn [negb app].
    + done.
    + by rewrite <- Permutation_middle.
Qed.

End EngineFacts.

Lemma runSteps_app (platform : Platform) (env : Env) (input : JValue)
    (pre post : list WorkflowStep) (st st1 : RelayWorkflowRun.RunState)
    (w w1 : World) :
  RelayWorkflowRun.runSteps platform env input pre st w = ((None, st1), w1) ->
  RelayWorkflowRun.runSteps platform env input (pre ++ post) st w
  = RelayWorkflowRun.runSteps platform env input post st1 w1.
Proof.
  revert st w. induction pre as [|s pre IH]; intros st w H.
  - cbn in H. by injection H as <- <-.
  - cbn [app]. rewrite runSteps_cons in H |- *.
    destruct (RelayWorkflowRun.runStep _ _ _ s st w) as [[[e|] st'] w'];
      [discriminate|]. by apply IH.
Qed.

Lemma fail_eq (platform : Platform) (env : Env)
    (input : RelayWorkflowRun.RelayWorkflowRunInput) (e : Message)
    (st : RelayWorkflowRun.RunState) (w : World) :
  let r := RelayWorkflowRun.fail input e st w in
  RelayWorkflowRun.success r.1 = false
  /\ RelayWorkflowRun.steps r.1 = RelayWorkflowRun.stepResults st
  /\ RelayWorkflowRun.finalOutput r.1 = JNull
  /\ RelayWorkflowRun.error r.1 = Some e
  /\ sent r.2 = sent w /\ budgetState r.2 = budgetState w
  /\ clockReads r.2 = clockReads w.
Proof. cbn. done. Qed.

(** What a run that ends with the failure of a step has done, and what its
    report holds. *)
Lemma failure_report
    (platform : Platform) (env : Env)
    (input : RelayWorkflowRun.RelayWorkflowRunInput) (w : World)
    (failedName : string) (cause : Message) :
  let run := RelayWorkflowRun.relayWorkflowRun platform env input w in
  let report := RelayWorkflowRun.steps run.1 in
  RelayWorkflowRun.error run.1 = Some (StepFailed failedName cause) ->
  exists sorted pre step post st1 w1 st2 w2,
    RelayWorkflowRun.topologicalSort (RelayWorkflowRun.wf_steps input) = inr sorted
    /\ sorted = pre ++ step :: post
    /\ name step = failedName
    /\ RelayWorkflowRun.runSteps platform env (RelayWorkflowRun.wf_input input)
         pre startState (admissionWorld env sorted w) = ((None, st1), w1)
    /\ RelayWorkflowRun.runStep platform env (RelayWorkflowRun.wf_input input)
         step st1 w1 = ((Some (StepFailed failedName cause), st2), w2)
    /\ RelayWorkflowRun.success run.1 = false
    /\ RelayWorkflowRun.finalOutput run.1 = JNull
    /\ JS.read failedName report = Some (failedResult cause)
    /\ (forall s, s ∈ pre ->
                  exists r, JS.read (name s) report = Some r
                            /\ sr_success r = true
                            /\ JS.read (name s) (RelayWorkflowRun.stepResults st1)
                               = Some r)
    /\ (forall t, t ∈ post -> JS.read (name t) report = None)
    /\ map fst (own report) ≡ₚ listed (map name (pre ++ [step]))
    /\ (forall n, n <> "__proto__" -> JS.lookup n (own report) = JS.read n report)
    /\ sent run.2 = sent w2
    /\ budgetState run.2 = budgetState w2.
Proof.
  cbn zeta.
  remember (RelayWorkflowRun.relayWorkflowRun platform env input w) as run
    eqn:Hrun.
  unfold RelayWorkflowRun.relayWorkflowRun in Hrun. fold startState in Hrun.
  destruct (RelayWorkflowRun.topologicalSort (RelayWorkflowRun.wf_steps input))
    as [e | sorted] eqn:Hsort.
  { subst run. cbn. intros [= ->].
    pose proof (topologicalSortWith_enough (RelayWorkflowRun.wf_steps input)) as Hr.
    rewrite Hsort in Hr. unfold RelayWorkflowRun.topologicalSortWith in Hr.
    destruct (RelayWorkflowRun.forEach _ _ _) as [[e|st]|] eqn:Hfor;
      [|discriminate..]. injection Hr as ->.
    exfalso. revert Hfor. apply exec_forEach_never_StepFailed. }
  pose proof (topologicalSort_NoDup _ _ Hsort) as Hnd.
  unfold bind at 1 in Hrun.
  destruct (Tracker.checkBudget env _ w) as [check w0] eqn:Hcheck.
  destruct (Tracker.allowed check); cbn [negb] in Hrun;
    [|subst run; cbn; by destruct (Tracker.error check)].
  destruct (find _ _); [subst run; cbn; discriminate|].
  unfold bind at 1 in Hrun.
  destruct (RelayWorkflowRun.runSteps _ _ _ sorted startState w0)
    as [[[e|] st'] w'] eqn:Hloop; [|subst run; cbn; discriminate].
  destruct (runSteps_stop _ _ _ _ _ _ _ _ _ Hloop)
    as (pre & step & post & st1 & w1 & -> & Hpre & Hstep).
  destruct (runStep_cases platform env (RelayWorkflowRun.wf_input input) step st1 w1)
    as [(cause' & st2 & w2 & Hrun2 & Hres) | (res & st2 & w2 & Hrun2 & _)];
    rewrite Hrun2 in Hstep; [|discriminate].
  injection Hstep as <- <- <-.
  rewrite map_app in Hnd. cbn [map] in Hnd.
  apply NoDup_app in Hnd as (Hndpre & Hdisj & Hndpost).
  apply NoDup_cons in Hndpost as [Hstepfresh _].
  destruct (runSteps_reads _ _ _ _ _ _ _ _ Hndpre Hpre) as [Hin Hout].
  subst run.
  cbn [fst snd RelayWorkflowRun.fail bind ret RunStore.addRun
       RelayWorkflowRun.steps RelayWorkflowRun.success RelayWorkflowRun.error
       RelayWorkflowRun.finalOutput sent budgetState].
  intros [= <- <-].
  exists (pre ++ step :: post), pre, step, post, st1, w1, st2, w2.
  assert (Hstep_pre : name step ∉ map name pre).
  { intros Hin'. apply (Hdisj _ Hin'). left. }
  split_and!; try done.
  - unfold admissionWorld. rewrite Hcheck. exact Hpre.
  - rewrite Hres, read_assign. by rewrite String.eqb_refl.
  - intros s Hs. destruct (Hin s Hs) as (r & Hr & Hok). exists r.
    split_and!; [|done..]. rewrite Hres, read_assign.
    destruct (String.eqb (name step) (name s)) eqn:E; [|done].
    apply String.eqb_eq in E. exfalso. apply Hstep_pre. rewrite E.
    by apply list_elem_of_fmap_2.
  - intros t Ht.
    assert (Htn : name t ∈ map name post) by by apply list_elem_of_fmap_2.
    rewrite Hres, read_assign.
    destruct (String.eqb (name step) (name t)) eqn:E.
    { apply String.eqb_eq in E. exfalso. apply Hstepfresh. by rewrite E. }
    assert (Hpre_t : name t ∉ map name pre).
    { intros Hin'. apply (Hdisj _ Hin'). by right. }
    rewrite (proj1 (Hout (name t) Hpre_t)). apply read_empty.
  - assert (Hnew : JS.lookup (name step)
                     (own (RelayWorkflowRun.stepResults st1)) = None).
    { rewrite (proj2 (Hout _ Hstep_pre)). reflexivity. }
    rewrite Hres, (keys_assign _ _ _ Hnew).
    rewrite (runSteps_keys platform env (RelayWorkflowRun.wf_input input)
               pre startState w0 st1 w1 Hndpre (fun _ _ => eq_refl) Hpre).
    cbn [startState RelayWorkflowRun.stepResults JS.emptyObject own map].
    rewrite app_nil_r. unfold listed. rewrite map_app, List.filter_app.
    cbn [map List.filter].
    destruct (String.eqb (name step) "__proto__"); cbn [negb app].
    + by rewrite app_nil_r.
    + by rewrite <- Permutation_cons_append.
  - intros n Hn. unfold JS.read.
    destruct (JS.lookup n _); [done|].
    apply String.eqb_neq in Hn. by rewrite Hn.
Qed.

(** When the loop fails at a step, the run ends with the error of that
    step. *)
Lemma step_failure_is_the_error
    (platform : Platform) (env : Env)
    (input : RelayWorkflowRun.RelayWorkflowRunInput) (w : World)
    (sorted pre post : list WorkflowStep) (step : WorkflowStep)
    (st1 st2 : RelayWorkflowRun.RunState) (w1 w2 : World) (e : Message) :
  RelayWorkflowRun.topologicalSort (RelayWorkflowRun.wf_steps input) = inr sorted ->
  Tracker.allowed
    (Tracker.checkBudget env
       (Estimator.estimateWorkflowCost
          (List.filter RelayWorkflowRun.isAiStep sorted)) w).1 = true ->
  unconfigured (config env) sorted = None ->
  sorted = pre ++ step :: post ->
  RelayWorkflowRun.runSteps platform env (RelayWorkflowRun.wf_input input)
    pre startState (admissionWorld env sorted w) = ((None, st1), w1) ->
  RelayWorkflowRun.runStep platform env (RelayWorkflowRun.wf_input input)
    step st1 w1 = ((Some e, st2), w2) ->
  RelayWorkflowRun.error
    (RelayWorkflowRun.relayWorkflowRun platform env input w).1 = Some e
  /\ exists cause, e = StepFailed (name step) cause.
Proof.
  intros Hsort Hallowed Hun -> Hpre Hstep.
  unfold RelayWorkflowRun.relayWorkflowRun. fold startState. rewrite Hsort.
  cbn zeta. unfold bind at 1. unfold admissionWorld in Hpre.
  destruct (Tracker.checkBudget env _ w) as [check w0]. cbn [fst snd] in *.
  rewrite Hallowed. cbn [negb]. unfold unconfigured in Hun. rewrite Hun.
  unfold bind at 1. rewrite (runSteps_app _ _ _ _ _ _ _ _ _ Hpre).
  rewrite runSteps_cons, Hstep. cbn. split; [reflexivity|].
  destruct (runStep_cases platform env (RelayWorkflowRun.wf_input input) step st1 w1)
    as [(cause & st2' & w2' & Hrun & _) | (res & st2' & w2' & Hrun & _)];
    rewrite Hrun in Hstep; [|discriminate].
  injection Hstep as <- _ _. by exists cause.
Qed.

(** Property X26.  Abort on the first failure.  When the loop over the
    sorted steps has run the steps before a step without failure and that
    step fails, the run ends with the error of that step.  And whenever a
    run ends with the failure of a step: the workflow reports failure and no
    final output; the step is one of the sorted steps, the steps before it
    ran and succeeded, and no step after it was run, so that the world the
    run leaves is the world right after the failed step, apart from the run
    record.  The report then holds the failure under the name of the failed
    step, under the name of each step before it the successful result the
    loop had recorded, and nothing under the names of the steps after it.
    Its properties are the names of the steps that ran, but for
    [__proto__]: what the report holds under that name is its prototype and
    no property of it. *)
Theorem workflow_aborts_on_first_failure
    (platform : Platform) (env : Env)
    (input : RelayWorkflowRun.RelayWorkflowRunInput) (w : World) :
  let run := RelayWorkflowRun.relayWorkflowRun platform env input w in
  let report := RelayWorkflowRun.steps run.1 in
  (forall sorted pre step post st1 w1 e st2 w2,
      RelayWorkflowRun.topologicalSort (RelayWorkflowRun.wf_steps input) = inr sorted ->
      Tracker.allowed
        (Tracker.checkBudget env
           (Estimator.estimateWorkflowCost
              (List.filter RelayWorkflowRun.isAiStep sorted)) w).1 = true ->
      unconfigured (config env) sorted = None ->
      sorted = pre ++ step :: post ->
      RelayWorkflowRun.runSteps platform env (RelayWorkflowRun.wf_input input)
        pre startState (admissionWorld env sorted w) = ((None, st1), w1) ->
      RelayWorkflowRun.runStep platform env (RelayWorkflowRun.wf_input input)
        step st1 w1 = ((Some e, st2), w2) ->
      RelayWorkflowRun.error run.1 = Some e
      /\ exists cause, e = StepFailed (name step) cause)
  /\ (forall failedName cause,
        RelayWorkflowRun.error run.1 = Some (StepFailed failedName cause) ->
        exists sorted pre step post st1 w1 st2 w2,
          RelayWorkflowRun.topologicalSort (RelayWorkflowRun.wf_steps input)
          = inr sorted
          /\ sorted = pre ++ step :: post
          /\ name step = failedName
          /\ RelayWorkflowRun.runSteps platform env (RelayWorkflowRun.wf_input input)
               pre startState (admissionWorld env sorted w) = ((None, st1), w1)
          /\ RelayWorkflowRun.runStep platform env (RelayWorkflowRun.wf_input input)
               step st1 w1 = ((Some (StepFailed failedName cause), st2), w2)
          /\ RelayWorkflowRun.success run.1 = false
          /\ RelayWorkflowRun.finalOutput run.1 = JNull
          /\ JS.read failedName report = Some (failedResult cause)
          /\ (forall s, s ∈ pre ->
                        exists r, JS.read (name s) report = Some r
                                  /\ sr_success r = true
                                  /\ JS.read (name s)
                                       (RelayWorkflowRun.stepResults st1) = Some r)
          /\ (forall t, t ∈ post -> JS.read (name t) report = None)
          /\ map fst (own report) ≡ₚ listed (map name (pre ++ [step]))
          /\ (forall n, n <> "__proto__" ->
                        JS.lookup n (own report) = JS.read n report)
          /\ sent run.2 = sent w2
          /\ budgetState run.2 = budgetState w2).
Proof.
  cbn zeta. split.
  - intros sorted pre step post st1 w1 e st2 w2.
    apply step_failure_is_the_error.
  - intros failedName cause. apply failure_report.
Qed.

Lemma workflow_aborts_witness :
  let resp := (RelayWorkflowRun.relayWorkflowRun samplePlatform envFailing workflowAB world0).1 in
  RelayWorkflowRun.success resp = false
  /\ JS.read "A" (RelayWorkflowRun.steps resp)
     = Some (failedResult (ProviderFailure "OpenAI API error: 500 - unavailable"))
  /\ JS.read "B" (RelayWorkflowRun.steps resp) = None.
Proof.
  cbn zeta.
  destruct (proj2 (workflow_aborts_on_first_failure samplePlatform envFailing
                     workflowAB world0)
              "A" (ProviderFailure "OpenAI API error: 500 - unavailable"))
    as (sorted & pre & step & post & st1 & w1 & st2 & w2
        & _ & _ & _ & _ & _ & Hs & _ & Hr & _).
  - vm_compute. reflexivity.
  - split_and!; [exact Hs | exact Hr | vm_compute; reflexivity].
Defined.

(** Claim C8.  The results of the steps are kept in a plain object keyed by
    the names of the steps, where an assignment under the name [__proto__]
    sets the prototype instead of adding a property.  So the report of a
    run whose step of that name fails has no property for the failed step,
    and the report of a run in which a step of that name had completed
    before another step failed has none for the completed step; under any
    other name, such as [A], the failed step is a property of the
    report. *)
Theorem failed_step_named_proto_is_not_reported :
  let run := fun workflow =>
    RelayWorkflowRun.relayWorkflowRun samplePlatform envFailing workflow world0 in
  let failure :=
    failedResult (ProviderFailure "OpenAI API error: 500 - unavailable") in
  RelayWorkflowRun.error (run workflowProto).1
  = Some (StepFailed "__proto__"
            (ProviderFailure "OpenAI API error: 500 - unavailable"))
  /\ own (RelayWorkflowRun.steps (run workflowProto).1) = []
  /\ prototype (RelayWorkflowRun.steps (run workflowProto).1) = Some failure
  /\ RelayWorkflowRun.error (run workflowProtoB).1
     = Some (StepFailed "B" (ProviderFailure "OpenAI API error: 500 - unavailable"))
  /\ own (RelayWorkflowRun.steps (run workflowProtoB).1) = [("B", failure)]
  /\ prototype (RelayWorkflowRun.steps (run workflowProtoB).1)
     = Some {| sr_success := true; sr_output := JNull; sr_usage := None;
               sr_error := None |}
  /\ own (RelayWorkflowRun.steps (run workflowAB).1) = [("A", failure)].
Proof. cbn zeta. split_and!; vm_compute; reflexivity. Qed.

(** ** Budget checks during a workflow run *)

Lemma maybeResetCounters_sent (env : Env) (w : World) :
  sent (Tracker.maybeResetCounters env w).2 = sent w.
Proof. rewrite maybeResetCounters_eq. reflexivity. Qed.

(** A call of [relayRun] that passes the model and credential tests and is
    then denied by [checkBudget]: it fails with the denial and sends
    nothing. *)
Lemma relayRun_denied (env : Env) (input : RelayRun.RelayRunInput) (w : World)
    (provider modelId : string) :
  RelayRun.parseModel (RelayRun.ri_model input) = inr (provider, modelId) ->
  RelayRun.isProviderConfigured (config env) provider = true ->
  let estimatedCost :=
    Estimator.estimateProviderCost (RelayRun.ri_model input)
      (RelayRun.ri_prompt input) (RelayRun.ri_systemPrompt input) in
  let check := (Tracker.checkBudget env estimatedCost w).1 in
  Tracker.allowed check = false ->
  exists why,
    Tracker.error check = Some why
    /\ RelayRun.success (RelayRun.relayRun env input w).1 = false
    /\ RelayRun.error (RelayRun.relayRun env input w).1 = Some (BudgetDenied why)
    /\ sent (RelayRun.relayRun env input w).2 = sent w.
Proof.
  intros Hparse Hconf. cbn zeta. intros Hdenied.
  remember (RelayRun.relayRun env input w) as run eqn:Hrun.
  unfold RelayRun.relayRun, RelayRun.attempt, bind at 1 in Hrun.
  rewrite Hparse, Hconf in Hrun. cbn [negb] in Hrun. unfold bind at 1 in Hrun.
  rewrite checkBudget_eq in Hdenied, Hrun |- *.
  cbn [fst snd Tracker.allowed] in *.
  rewrite Hdenied in Hrun. cbn [negb Tracker.error] in Hrun |- *.
  apply bool_decide_eq_false in Hdenied.
  destruct (verdict _ _ _) as [why|]; [|done].
  exists why. subst run. cbn. split_and!; try done. apply maybeResetCounters_sent.
Qed.

(** A step without a model and prompt touches neither the budget nor a
    provider. *)
Lemma runStep_plain (platform : Platform) (env : Env) (input : JValue)
    (other : WorkflowStep) (st0 : RelayWorkflowRun.RunState) (w0 : World) :
  RelayWorkflowRun.isAiStep other = false ->
  (RelayWorkflowRun.runStep platform env input other st0 w0).1.1 = None
  /\ (RelayWorkflowRun.runStep platform env input other st0 w0).2 = w0.
Proof.
  intros Hother. unfold RelayWorkflowRun.runStep. rewrite Hother.
  destruct (truthy (mcp other)); done.
Qed.

(** A workflow the aggregate check denies fails before any step runs. *)
Lemma relayWorkflowRun_denied (platform : Platform) (env : Env)
    (wf : RelayWorkflowRun.RelayWorkflowRunInput) (w0 : World)
    (sorted : list WorkflowStep) :
  RelayWorkflowRun.topologicalSort (RelayWorkflowRun.wf_steps wf) = inr sorted ->
  Tracker.allowed
    (Tracker.checkBudget env
       (Estimator.estimateWorkflowCost
          (List.filter RelayWorkflowRun.isAiStep sorted)) w0).1 = false ->
  let run := RelayWorkflowRun.relayWorkflowRun platform env wf w0 in
  RelayWorkflowRun.success run.1 = false
  /\ RelayWorkflowRun.steps run.1 = JS.emptyObject
  /\ sent run.2 = sent w0.
Proof.
  intros Hsort Hdenied. cbn zeta.
  remember (RelayWorkflowRun.relayWorkflowRun platform env wf w0) as run
    eqn:Hrun.
  unfold RelayWorkflowRun.relayWorkflowRun in Hrun. rewrite Hsort in Hrun.
  unfold bind at 1 in Hrun.
  rewrite checkBudget_eq in Hdenied, Hrun. cbn [fst snd Tracker.allowed] in *.
  rewrite Hdenied in Hrun. subst run. cbn. split_and!; try done.
  apply maybeResetCounters_sent.
Qed.

(** Claim C1. A workflow that the aggregate check denies fails before any
    step runs.  One that it admits is checked again: every model step goes
    through [relayRun], which checks the budget with that step's own
    estimate against the counters as they then stand.  When that check
    denies, the step is recorded as failed with the denial, nothing is sent
    to the provider, and the loop ends there, so the workflow fails.  In
    particular, once the daily spend plus the step's estimate exceeds the
    daily ceiling (and the hourly limit is not reached) the check denies
    with the daily-budget error.  A step without model and prompt is not
    checked, and changes neither the budget nor the requests sent. *)
Theorem model_steps_are_rechecked
    (platform : Platform) (env : Env) (input : JValue)
    (pre post : list WorkflowStep) (step : WorkflowStep)
    (st st1 : RelayWorkflowRun.RunState) (w w1 : World)
    (provider modelId : string) :
  RelayWorkflowRun.runSteps platform env input pre st w = ((None, st1), w1) ->
  RelayWorkflowRun.isAiStep step = true ->
  RelayRun.parseModel (default "" (model step)) = inr (provider, modelId) ->
  RelayRun.isProviderConfigured (config env) provider = true ->
  let request := stepRequest platform input step st1 in
  let estimatedCost :=
    Estimator.estimateProviderCost (RelayRun.ri_model request)
      (RelayRun.ri_prompt request) (RelayRun.ri_systemPrompt request) in
  let check := (Tracker.checkBudget env estimatedCost w1).1 in
  let s := budgetState (Tracker.checkBudget env estimatedCost w1).2 in
  (Tracker.allowed check = false ->
   exists why st' w',
     Tracker.error check = Some why
     /\ RelayWorkflowRun.runSteps platform env input (pre ++ step :: post) st w
        = ((Some (StepFailed (name step) (BudgetDenied why)), st'), w')
     /\ RelayWorkflowRun.stepResults st'
        = JS.assign (name step) (failedResult (BudgetDenied why))
                    (RelayWorkflowRun.stepResults st1)
     /\ sent w' = sent w1)
  /\ (hourlyCallCount s < maxCallsPerHour (config env) ->
      (maxDailyCostUsd (config env) < dailySpendUsd s + estimatedCost)%Q ->
      Tracker.allowed check = false
      /\ Tracker.error check
         = Some (DailyBudgetExceeded (dailySpendUsd s) (maxDailyCostUsd (config env))))
  /\ (forall other st0 w0,
        RelayWorkflowRun.isAiStep other = false ->
        (RelayWorkflowRun.runStep platform env input other st0 w0).1.1 = None
        /\ (RelayWorkflowRun.runStep platform env input other st0 w0).2 = w0)
  /\ (forall wf w0 sorted,
        RelayWorkflowRun.topologicalSort (RelayWorkflowRun.wf_steps wf) = inr sorted ->
        Tracker.allowed
          (Tracker.checkBudget env
             (Estimator.estimateWorkflowCost
                (List.filter RelayWorkflowRun.isAiStep sorted)) w0).1 = false ->
        let run := RelayWorkflowRun.relayWorkflowRun platform env wf w0 in
        RelayWorkflowRun.success run.1 = false
        /\ RelayWorkflowRun.steps run.1 = JS.emptyObject
        /\ sent run.2 = sent w0).
Proof.
  intros Hpre Hai Hparse Hconf. cbn zeta. split; [|split; [|split]];
    [| | apply runStep_plain | apply relayWorkflowRun_denied].
  - intros Hdenied.
    destruct (relayRun_denied env (stepRequest platform input step st1) w1
                provider modelId Hparse Hconf Hdenied)
      as (why & Hwhy & Hfail & Herr & Hsent).
    rewrite (runSteps_app _ _ _ _ _ _ _ _ _ Hpre), runSteps_cons.
    unfold RelayWorkflowRun.runStep. rewrite Hai. unfold bind.
    fold (stepRequest platform input step st1).
    destruct (RelayRun.relayRun env (stepRequest platform input step st1) w1)
      as [result w2].
    cbn [fst snd] in Hfail, Herr, Hsent. rewrite Hfail, Herr. cbn.
    eexists why, _, _. split_and!; done.
  - intros Hhour Hday. rewrite checkBudget_eq in Hhour, Hday |- *.
    cbn [fst snd Tracker.allowed Tracker.error] in *. unfold verdict.
    apply Z.leb_gt in Hhour. apply Qgtb_lt in Hday.
    rewrite Hhour, Hday. split; [|done]. by apply bool_decide_eq_false.
Qed.

Lemma model_steps_are_rechecked_witness :
  exists why st' w',
    RelayWorkflowRun.runSteps samplePlatform envOverspending
      (RelayWorkflowRun.wf_input workflowAB) (RelayWorkflowRun.wf_steps workflowAB)
      startState world0
    = ((Some (StepFailed "B" (BudgetDenied why)), st'), w')
    /\ length (sent w') = 1%nat.
Proof.
  pose (run := RelayWorkflowRun.runSteps samplePlatform envOverspending
                 (RelayWorkflowRun.wf_input workflowAB)
                 [aiStep "A" "openai:gpt-4o-mini" "Say {{input.word}}" []]
                 startState world0).
  destruct (model_steps_are_rechecked samplePlatform envOverspending
              (RelayWorkflowRun.wf_input workflowAB)
              [aiStep "A" "openai:gpt-4o-mini" "Say {{input.word}}" []] []
              (aiStep "B" "openai:gpt-4o-mini" "Repeat {{steps.A.output}}" ["A"])
              startState run.1.2 world0 run.2 "openai" "gpt-4o-mini")
    as [H _].
  - vm_compute. reflexivity.
  - reflexivity.
  - reflexivity.
  - reflexivity.
  - destruct H as (why & st' & w' & _ & Hrun & _ & Hsent).
    + vm_compute. reflexivity.
    + exists why, st', w'. split; [exact Hrun|]. rewrite Hsent. reflexivity.
Defined.

(** Admitted in aggregate, then overspent by its first step, the workflow
    does not run to the end: the second step is denied by the check inside
    [relayRun], is recorded as failed and never reaches the provider, and
    the workflow reports failure. *)
Lemma workflow_overspent_midrun_is_stopped :
  let estimate :=
    Estimator.estimateWorkflowCost
      (List.filter RelayWorkflowRun.isAiStep (RelayWorkflowRun.wf_steps workflowAB)) in
  let run := RelayWorkflowRun.relayWorkflowRun samplePlatform envOverspending
               workflowAB world0 in
  Tracker.allowed (Tracker.checkBudget envOverspending estimate world0).1 = true
  /\ option_map sr_success (JS.read "A" (RelayWorkflowRun.steps run.1)) = Some true
  /\ (maxDailyCostUsd (config envOverspending) < dailySpendUsd (budgetState run.2))%Q
  /\ (exists spend,
        JS.read "B" (RelayWorkflowRun.steps run.1)
        = Some (failedResult (BudgetDenied (DailyBudgetExceeded spend 5))))
  /\ length (sent run.2) = 1%nat
  /\ RelayWorkflowRun.success run.1 = false.
Proof.
  cbn zeta. split_and!.
  - vm_compute. reflexivity.
  - vm_compute. reflexivity.
  - vm_compute. reflexivity.
  - eexists. vm_compute. reflexivity.
  - vm_compute. reflexivity.
  - vm_compute. reflexivity.
Qed.

(* ===================================================================== *)
(** * Further properties *)
(* ===================================================================== *)

(** ** Further properties of the budget tracker *)

Lemma resetBudgetState_eq (env : Env) (w : World) :
  Tracker.resetBudgetState env w =
  (tt, {| budgetState := {| dailySpendUsd := 0; hourlyCallCount := 0;
                            lastResetDate := clock env (clockReads w) / Tracker.dayInMs;
                            lastHourlyReset := clock env (S (clockReads w)) |};
          runs := runs w; clockReads := S (S (clockReads w)); sent := sent w |}).
Proof. reflexivity. Qed.

(** Property X1.  Right after [resetBudgetState] the daily spend and the
    hourly call count read zero, and [checkBudget] allows a call exactly when
    the hourly ceiling is positive and the estimate exceeds neither the daily
    nor the single-call ceiling. *)
Theorem fresh_budget_allows_what_fits (env : Env) (e : Q) (w : World) :
  let w1 := (Tracker.resetBudgetState env w).2 in
  let r := (Tracker.checkBudget env e w1).1 in
  let s := (Tracker.getBudgetState env w1).1 in
  dailySpendUsd s = 0%Q /\ hourlyCallCount s = 0
  /\ Tracker.currentDailySpend r = 0%Q /\ Tracker.currentHourlyCalls r = 0
  /\ (Tracker.allowed r = true
      <-> 0 < maxCallsPerHour (config env)
          /\ (e <= maxDailyCostUsd (config env))%Q
          /\ (e <= maxSingleCallCostUsd (config env))%Q).
Proof.
  cbn zeta. rewrite resetBudgetState_eq. cbn [snd].
  unfold Tracker.getBudgetState, bind, getBudget.
  rewrite checkBudget_eq, maybeResetCounters_eq.
  cbn [fst snd budgetState clockReads rolled dailySpendUsd hourlyCallCount
       lastResetDate lastHourlyReset Tracker.allowed Tracker.currentDailySpend
       Tracker.currentHourlyCalls].
  set (sameDate := _ =? _). set (due := _ <=? _).
  unfold rolled. cbn [dailySpendUsd hourlyCallCount lastResetDate lastHourlyReset].
  fold sameDate. fold due.
  assert (Hspend : (if sameDate then 0%Q else 0%Q) = 0%Q) by (by destruct sameDate).
  assert (Hcount : (if due then 0 else 0) = 0) by (by destruct due).
  split_and!; try assumption.
  rewrite bool_decide_eq_true. unfold verdict.
  cbn [dailySpendUsd hourlyCallCount]. rewrite Hspend, Hcount.
  destruct (maxCallsPerHour (config env) <=? 0) eqn:Hh.
  { apply Z.leb_le in Hh. split; [discriminate | lia]. }
  apply Z.leb_gt in Hh.
  destruct (Qgtb (0 + e) (maxDailyCostUsd (config env))) eqn:Hd.
  { apply Qgtb_lt in Hd. split; [discriminate|]. intros (_ & H & _). lra. }
  destruct (Qgtb e (maxSingleCallCostUsd (config env))) eqn:Hs.
  { apply Qgtb_lt in Hs. split; [discriminate|]. intros (_ & _ & H). lra. }
  split; [|reflexivity]. intros _.
  apply not_true_iff_false in Hd, Hs. rewrite Qgtb_lt in Hd, Hs.
  split_and!; [lia | lra | lra].
Qed.

Lemma recordCosts_quiet (env : Env) (w : World) (costs : list Q) :
  (forall k, (clockReads w <= k < clockReads w + 2 * length costs)%nat ->
             sameDay (budgetState w) (clock env k)
             /\ sameHour (budgetState w) (clock env k)) ->
  let w' := (recordCosts env costs w).2 in
  hourlyCallCount (budgetState w')
  = hourlyCallCount (budgetState w) + Z.of_nat (length costs)
  /\ lastHourlyReset (budgetState w') = lastHourlyReset (budgetState w)
  /\ clockReads w' = (clockReads w + 2 * length costs)%nat.
Proof.
  intros Hq. cbn zeta. rewrite recordCosts_calls.
  destruct (calls_hourly_quiet env (map CallRecord costs) w) as (H1 & H2 & H3).
  { rewrite length_map. intros k Hk. by apply Hq. }
  unfold budgetAfter in H1, H2. rewrite recorded_Record, length_map in *.
  done.
Qed.

(** Property X2.  Within one day and hour window every [recordCost] counts
    as one call, whatever it costs: after the costs are recorded,
    [checkBudget] reads the earlier count plus their number, and it refuses
    with the hourly-limit message exactly when that count has reached
    [maxCallsPerHour]. *)
Theorem hourly_limit_counts_recorded_calls
    (env : Env) (w : World) (costs : list Q) (e : Q) :
  (forall k, (clockReads w <= k < clockReads w + 2 * (length costs + 1))%nat ->
             sameDay (budgetState w) (clock env k)
             /\ sameHour (budgetState w) (clock env k)) ->
  let r := (Tracker.checkBudget env e (recordCosts env costs w).2).1 in
  let calls := hourlyCallCount (budgetState w) + Z.of_nat (length costs) in
  Tracker.currentHourlyCalls r = calls
  /\ (Tracker.error r = Some (HourlyLimitReached (maxCallsPerHour (config env)))
      <-> maxCallsPerHour (config env) <= calls)
  /\ (maxCallsPerHour (config env) <= calls -> Tracker.allowed r = false).
Proof.
  intros Hq. cbn zeta.
  destruct (recordCosts_quiet env w costs) as (Hcount & Hlast & Hreads).
  { intros k Hk. apply Hq. lia. }
  rewrite checkBudget_eq, maybeResetCounters_eq.
  cbn [fst snd budgetState Tracker.currentHourlyCalls Tracker.error Tracker.allowed].
  set (w' := (recordCosts env costs w).2) in *.
  assert (Hsame : (Tracker.hourInMs <=? clock env (S (clockReads w'))
                                       - lastHourlyReset (budgetState w')) = false).
  { apply Z.leb_gt. rewrite Hlast, Hreads.
    destruct (Hq (S (clockReads w + 2 * length costs))) as [_ H]; [lia|]. exact H. }
  assert (Hc : hourlyCallCount
                 (rolled (budgetState w') (clock env (clockReads w'))
                    (clock env (S (clockReads w'))) (clock env (S (S (clockReads w')))))
               = hourlyCallCount (budgetState w) + Z.of_nat (length costs)).
  { unfold rolled. cbn [hourlyCallCount]. by rewrite Hsame. }
  split; [exact Hc|].
  unfold verdict. rewrite Hc.
  destruct (maxCallsPerHour (config env) <=? _) eqn:Hh.
  - apply Z.leb_le in Hh. split_and!; [done | intros _; by apply bool_decide_eq_false].
  - apply Z.leb_gt in Hh. split; [|lia].
    split; [|lia]. repeat case_match; discriminate.
Qed.

Lemma hourly_limit_counts_witness :
  Tracker.allowed
    (Tracker.checkBudget
       envTwoCalls
       0 (recordCosts
            envTwoCalls
            [0; 0]%Q world0).2).1 = false.
Proof.
  apply (hourly_limit_counts_recorded_calls
           envTwoCalls
           world0 [0; 0]%Q 0%Q).
  - intros k _. split; [reflexivity | vm_compute; reflexivity].
  - vm_compute. discriminate.
Defined.

(** Property X3.  [checkBudget] is monotone in the estimate: where a call is
    allowed, a call estimated no higher is allowed too, and both checks leave
    the same state. *)
Theorem cheaper_calls_are_allowed (env : Env) (w : World) (e e' : Q) :
  (e' <= e)%Q ->
  Tracker.allowed (Tracker.checkBudget env e w).1 = true ->
  Tracker.allowed (Tracker.checkBudget env e' w).1 = true
  /\ (Tracker.checkBudget env e' w).2 = (Tracker.checkBudget env e w).2.
Proof.
  intros Hle. rewrite !checkBudget_eq. cbn [fst snd Tracker.allowed].
  rewrite !bool_decide_eq_true. unfold verdict. intros H. split; [|reflexivity].
  destruct (maxCallsPerHour (config env) <=? _); [discriminate|].
  destruct (Qgtb (_ + e) _) eqn:Hd; [discriminate|].
  destruct (Qgtb e _) eqn:Hs; [discriminate|].
  apply not_true_iff_false in Hd, Hs. rewrite Qgtb_lt in Hd, Hs.
  destruct (Qgtb (_ + e') _) eqn:Hd'; [apply Qgtb_lt in Hd'; lra|].
  destruct (Qgtb e' _) eqn:Hs'; [apply Qgtb_lt in Hs'; lra|]. reflexivity.
Qed.

Lemma cheaper_calls_witness :
  Tracker.allowed (Tracker.checkBudget env0 (1 # 10) world0).1 = true.
Proof.
  apply (cheaper_calls_are_allowed env0 world0 (1 # 2) (1 # 10)).
  - vm_compute. discriminate.
  - vm_compute. reflexivity.
Defined.

(** ** Further properties of the cost estimator *)

Lemma lookup_In_values {A} (k : string) (v : A) (l : list (string * A)) :
  JS.lookup k l = Some v -> v ∈ map snd l.
Proof.
  intros H. apply lookup_Some_elem in H.
  apply list_elem_of_fmap. by exists (k, v).
Qed.

Lemma pricing_positive (model : string) :
  (0 < Estimator.input (Estimator.getModelPricing model))%Q
  /\ (0 < Estimator.output (Estimator.getModelPricing model))%Q.
Proof.
  unfold Estimator.getModelPricing.
  destruct (JS.lookup model Estimator.PRICING) as [p|] eqn:E.
  - apply lookup_In_values in E.
    assert (H : Forall (fun p => (0 < Estimator.input p)%Q /\ (0 < Estimator.output p)%Q)
                       (map snd Estimator.PRICING)).
    { repeat constructor. }
    rewrite Forall_forall in H. by apply H.
  - split; reflexivity.
Qed.

Lemma estimateTokens_nonneg (text : string) : 0 <= Estimator.estimateTokens text.
Proof. unfold Estimator.estimateTokens. apply Z.div_pos; lia. Qed.

Lemma estimateProviderCost_pos (model prompt : string) (systemPrompt : option string) :
  (0 < Estimator.estimateProviderCost model prompt systemPrompt)%Q.
Proof.
  unfold Estimator.estimateProviderCost.
  destruct (pricing_positive model) as [Hi Ho].
  set (p := Estimator.getModelPricing model) in *.
  set (t := Estimator.estimateTokens _).
  assert (Ht : (0 <= inject_Z t)%Q).
  { change 0%Q with (inject_Z 0). rewrite <- Zle_Qle. apply estimateTokens_nonneg. }
  assert (H1 : (0 <= inject_Z t / 1000 * Estimator.input p)%Q).
  { apply Qmult_le_0_compat; [|lra]. apply Qle_shift_div_l; lra. }
  assert (H2 : (0 < inject_Z 500 / 1000 * Estimator.output p)%Q).
  { apply Qmult_lt_0_compat; [reflexivity | assumption]. }
  lra.
Qed.

Lemma estimateWorkflowCost_step (step : WorkflowStep) (total : Q) :
  match model step, prompt step with
  | Some m, Some p =>
    if truthy (Some m) && truthy (Some p)
    then (total + Estimator.estimateProviderCost m p (systemPrompt step))%Q
    else total
  | _, _ => total
  end
  = if RelayWorkflowRun.isAiStep step then (total + stepEstimate step)%Q else total.
Proof.
  unfold stepEstimate, RelayWorkflowRun.isAiStep.
  destruct (model step) as [m|], (prompt step) as [p|]; cbn [truthy andb default];
    try reflexivity.
  - destruct (negb (m =? "")%string && negb (p =? "")%string); reflexivity.
  - destruct (negb (m =? "")%string); reflexivity.
Qed.

Lemma estimateWorkflowCost_fold (steps : list WorkflowStep) (total : Q) :
  fold_left
    (fun total step =>
       match model step, prompt step with
       | Some m, Some p =>
         if truthy (Some m) && truthy (Some p)
         then (total + Estimator.estimateProviderCost m p (systemPrompt step))%Q
         else total
       | _, _ => total
       end) steps total
  = fold_left (fun total step =>
                 if RelayWorkflowRun.isAiStep step
                 then (total + stepEstimate step)%Q else total) steps total.
Proof.
  revert total. induction steps as [|s l IH]; intros total; [reflexivity|].
  cbn [fold_left]. rewrite estimateWorkflowCost_step. apply IH.
Qed.

Lemma estimate_fold_filter (steps : list WorkflowStep) (total : Q) :
  fold_left (fun total step =>
               if RelayWorkflowRun.isAiStep step
               then (total + stepEstimate step)%Q else total)
            (List.filter RelayWorkflowRun.isAiStep steps) total
  = fold_left (fun total step =>
                 if RelayWorkflowRun.isAiStep step
                 then (total + stepEstimate step)%Q else total) steps total.
Proof.
  revert total. induction steps as [|s l IH]; intros total; [reflexivity|].
  cbn [List.filter fold_left].
  destruct (RelayWorkflowRun.isAiStep s) eqn:E; cbn [fold_left]; [rewrite E|]; apply IH.
Qed.

Lemma estimate_fold_sum (steps : list WorkflowStep) (total : Q) :
  (fold_left (fun total step =>
                if RelayWorkflowRun.isAiStep step
                then (total + stepEstimate step)%Q else total) steps total
   == total + Qsum (map stepEstimate steps))%Q.
Proof.
  revert total. induction steps as [|s l IH]; intros total.
  - cbn. lra.
  - cbn [fold_left map]. rewrite IH. unfold Qsum. cbn [foldr].
    fold (Qsum (map stepEstimate l)).
    destruct (RelayWorkflowRun.isAiStep s) eqn:E; [lra|].
    assert (H0 : stepEstimate s = 0%Q) by (unfold stepEstimate; by rewrite E).
    rewrite H0. lra.
Qed.

Lemma estimateWorkflowCost_sum (steps : list WorkflowStep) :
  (Estimator.estimateWorkflowCost steps == Qsum (map stepEstimate steps))%Q.
Proof.
  unfold Estimator.estimateWorkflowCost.
  rewrite estimateWorkflowCost_fold, estimate_fold_sum. lra.
Qed.

Lemma stepEstimate_nonneg (step : WorkflowStep) : (0 <= stepEstimate step)%Q.
Proof.
  unfold stepEstimate. destruct (RelayWorkflowRun.isAiStep step); [|lra].
  apply Qlt_le_weak, estimateProviderCost_pos.
Qed.

Lemma Qsum_elem_le (l : list Q) (x : Q) :
  Forall (fun a => 0 <= a)%Q l -> x ∈ l -> (x <= Qsum l)%Q.
Proof.
  induction 1 as [|a l Ha Hl IH]; intros Hx; [by apply elem_of_nil in Hx|].
  unfold Qsum. cbn [foldr]. fold (Qsum l). pose proof (Qsum_nonneg l Hl).
  apply elem_of_cons in Hx as [-> | Hx]; [lra|]. specialize (IH Hx). lra.
Qed.

(** Property X4.  For steps whose models are named in the [provider:model]
    form, [estimateWorkflowCost] counts the model steps only, those with
    both a model and a prompt: filtering the other steps out changes
    nothing; the estimate of a list continued by more steps is that of the
    list with the estimates of the further model steps added one after the
    other, and is below neither the estimate of the list nor that of the
    further steps; the estimate is never negative, no model step is
    estimated above the whole, and it is zero exactly when the list has no
    model step. *)
Theorem estimateWorkflowCost_sums_model_steps (steps more : list WorkflowStep) :
  qualifiedModels (steps ++ more) = true ->
  Estimator.estimateWorkflowCost (List.filter RelayWorkflowRun.isAiStep steps)
  = Estimator.estimateWorkflowCost steps
  /\ Estimator.estimateWorkflowCost (steps ++ more)
     = fold_left addEstimate more (Estimator.estimateWorkflowCost steps)
  /\ (Estimator.estimateWorkflowCost steps
      <= Estimator.estimateWorkflowCost (steps ++ more))%Q
  /\ (Estimator.estimateWorkflowCost more
      <= Estimator.estimateWorkflowCost (steps ++ more))%Q
  /\ (0 <= Estimator.estimateWorkflowCost steps)%Q
  /\ (forall step m p,
        step ∈ steps -> model step = Some m -> prompt step = Some p ->
        m <> "" -> p <> "" ->
        (Estimator.estimateProviderCost m p (systemPrompt step)
         <= Estimator.estimateWorkflowCost steps)%Q)
  /\ (Forall (fun step => RelayWorkflowRun.isAiStep step = false) steps
      <-> (Estimator.estimateWorkflowCost steps == 0)%Q).
Proof.
  intros _.
  assert (Hnn : forall l, Forall (fun a => 0 <= a)%Q (map stepEstimate l)).
  { intros l. apply Forall_fmap, Forall_forall. intros s _. apply stepEstimate_nonneg. }
  split_and!.
  - unfold Estimator.estimateWorkflowCost.
    rewrite !estimateWorkflowCost_fold. apply estimate_fold_filter.
  - unfold Estimator.estimateWorkflowCost.
    rewrite !estimateWorkflowCost_fold. apply fold_left_app.
  - rewrite !estimateWorkflowCost_sum, map_app, Qsum_app.
    pose proof (Qsum_nonneg _ (Hnn more)). lra.
  - rewrite !estimateWorkflowCost_sum, map_app, Qsum_app.
    pose proof (Qsum_nonneg _ (Hnn steps)). lra.
  - rewrite estimateWorkflowCost_sum. by apply Qsum_nonneg.
  - intros step m p Hin Hm Hp Hmn Hpn. rewrite estimateWorkflowCost_sum.
    assert (Hs : stepEstimate step
                 = Estimator.estimateProviderCost m p (systemPrompt step)).
    { unfold stepEstimate, RelayWorkflowRun.isAiStep. rewrite Hm, Hp. cbn.
      apply String.eqb_neq in Hmn, Hpn. by rewrite Hmn, Hpn. }
    rewrite <- Hs. apply Qsum_elem_le; [done|]. apply list_elem_of_fmap. eauto.
  - rewrite estimateWorkflowCost_sum. clear Hnn.
    induction steps as [|s l IH].
    + split; [reflexivity | constructor].
    + unfold Qsum. cbn [map foldr]. fold (Qsum (map stepEstimate l)).
      assert (Hl : (0 <= Qsum (map stepEstimate l))%Q).
      { apply Qsum_nonneg, Forall_fmap, Forall_forall. intros x _.
        apply stepEstimate_nonneg. }
      pose proof (stepEstimate_nonneg s) as Hs.
      split.
      * intros H. apply Forall_cons in H as [H1 H2]. apply IH in H2.
        unfold stepEstimate at 1. rewrite H1. lra.
      * intros H.
        assert (H0 : (stepEstimate s == 0)%Q) by lra.
        assert (Hl0 : (Qsum (map stepEstimate l) == 0)%Q) by lra.
        constructor; [|by apply IH].
        unfold stepEstimate in H0.
        destruct (RelayWorkflowRun.isAiStep s); [|reflexivity].
        pose proof (estimateProviderCost_pos (default "" (model s))
                      (default "" (prompt s)) (systemPrompt s)). lra.
Qed.

Lemma estimateWorkflowCost_witness :
  (Estimator.estimateWorkflowCost [aiStep "A" "openai:gpt-4o" "hello" []]
   <= Estimator.estimateWorkflowCost
        ([aiStep "A" "openai:gpt-4o" "hello" []]
           ++ [plainStep "B" ["A"]; aiStep "C" "xai:grok-2" "{{steps.A.output}}" ["B"]]))%Q.
Proof.
  apply (estimateWorkflowCost_sums_model_steps
           [aiStep "A" "openai:gpt-4o" "hello" []]
           [plainStep "B" ["A"]; aiStep "C" "xai:grok-2" "{{steps.A.output}}" ["B"]]).
  reflexivity.
Defined.

Lemma inject_Z_div_le (a b : Z) :
  a <= b -> (inject_Z a / 1000 <= inject_Z b / 1000)%Q.
Proof.
  intros H. apply Qmult_le_compat_r; [by rewrite <- Zle_Qle | discriminate].
Qed.

(** Property X5.  For a model named in the [provider:model] form,
    [estimateProviderCost] is positive: it is at least the price of the 500
    output tokens it assumes (half the output rate per 1000 tokens), exactly
    that for an empty input text, and a longer input text (system prompt and
    prompt together, measured in code units) never lowers it. *)
Theorem estimate_is_positive_and_grows_with_the_prompt
    (model prompt prompt' : string) (systemPrompt systemPrompt' : option string) :
  qualified model = true ->
  let pricing := Estimator.getModelPricing model in
  let cost := Estimator.estimateProviderCost model prompt systemPrompt in
  (0 < cost)%Q
  /\ (Estimator.output pricing / 2 <= cost)%Q
  /\ ((String.length (inputText systemPrompt prompt)
       <= String.length (inputText systemPrompt' prompt'))%nat ->
      (cost <= Estimator.estimateProviderCost model prompt' systemPrompt')%Q)
  /\ (String.length (inputText systemPrompt prompt) = 0%nat ->
      (cost == Estimator.output pricing / 2)%Q).
Proof.
  intros _.
  cbn zeta. destruct (pricing_positive model) as [Hi Ho].
  split; [apply estimateProviderCost_pos|].
  unfold Estimator.estimateProviderCost. fold (inputText systemPrompt prompt).
  fold (inputText systemPrompt' prompt').
  set (p := Estimator.getModelPricing model) in *.
  assert (Ht : forall text, (0 <= inject_Z (Estimator.estimateTokens text) / 1000)%Q).
  { intros text. apply Qle_shift_div_l; [reflexivity|].
    change (0 * 1000)%Q with (inject_Z 0). rewrite <- Zle_Qle.
    apply estimateTokens_nonneg. }
  assert (Hhalf : (inject_Z 500 / 1000 == 1 # 2)%Q) by reflexivity.
  split_and!.
  - pose proof (Ht (inputText systemPrompt prompt)) as H.
    assert (H1 : (0 <= inject_Z (Estimator.estimateTokens (inputText systemPrompt prompt))
                      / 1000 * Estimator.input p)%Q)
      by (apply Qmult_le_0_compat; [done | lra]).
    rewrite Hhalf. set (x := (_ * Estimator.input p)%Q) in *.
    unfold Qdiv. change (/ 2)%Q with (1 # 2)%Q. lra.
  - intros Hlen.
    assert (Hle : (inject_Z (Estimator.estimateTokens (inputText systemPrompt prompt)) / 1000
                   <= inject_Z (Estimator.estimateTokens (inputText systemPrompt' prompt'))
                      / 1000)%Q).
    { apply inject_Z_div_le. unfold Estimator.estimateTokens.
      apply Z.div_le_mono; lia. }
    apply Qplus_le_l. apply Qmult_le_compat_r; [exact Hle | lra].
  - intros Hlen. unfold Estimator.estimateTokens. rewrite Hlen, Hhalf.
    change (inject_Z ((Z.of_nat 0 + 3) / 4)) with (inject_Z 0).
    unfold Qdiv. change (/ 2)%Q with (1 # 2)%Q.
    change (inject_Z 0) with 0%Q. lra.
Qed.

Lemma estimate_is_positive_witness :
  (0 < Estimator.estimateProviderCost "openai:gpt-4o" "hello" (Some "Be brief."))%Q.
Proof.
  apply (estimate_is_positive_and_grows_with_the_prompt
           "openai:gpt-4o" "hello" "hello" (Some "Be brief.") None).
  reflexivity.
Defined.

(** Property X6.  For a model named in the [provider:model] form and token
    counts that are not negative, [calculateActualCost] charges the input
    rate of the model for 1000 prompt tokens and its output rate for 1000
    completion tokens; the cost is not negative, zero only when there are no
    tokens at all, and more tokens of either kind never cost less. *)
Theorem actual_cost_follows_the_rates
    (model : string) (promptTokens completionTokens : Z) :
  qualified model = true ->
  0 <= promptTokens -> 0 <= completionTokens ->
  let pricing := Estimator.getModelPricing model in
  let cost := Estimator.calculateActualCost model promptTokens completionTokens in
  (Estimator.calculateActualCost model 1000 0 == Estimator.input pricing)%Q
  /\ (Estimator.calculateActualCost model 0 1000 == Estimator.output pricing)%Q
  /\ (0 <= cost)%Q
  /\ ((cost == 0)%Q <-> promptTokens = 0 /\ completionTokens = 0)
  /\ (forall morePrompt moreCompletion,
        promptTokens <= morePrompt -> completionTokens <= moreCompletion ->
        (cost <= Estimator.calculateActualCost model morePrompt moreCompletion)%Q).
Proof.
  intros _ Hp Hc. cbn zeta. destruct (pricing_positive model) as [Hi Ho].
  unfold Estimator.calculateActualCost.
  set (p := Estimator.getModelPricing model) in *.
  assert (Hp' : (0 <= inject_Z promptTokens)%Q)
    by (change 0%Q with (inject_Z 0); by rewrite <- Zle_Qle).
  assert (Hc' : (0 <= inject_Z completionTokens)%Q)
    by (change 0%Q with (inject_Z 0); by rewrite <- Zle_Qle).
  assert (H1 : (0 <= inject_Z promptTokens / 1000 * Estimator.input p)%Q).
  { apply Qmult_le_0_compat; [|lra]. apply Qle_shift_div_l; lra. }
  assert (H2 : (0 <= inject_Z completionTokens / 1000 * Estimator.output p)%Q).
  { apply Qmult_le_0_compat; [|lra]. apply Qle_shift_div_l; lra. }
  split_and!.
  - change (inject_Z 1000 / 1000)%Q with (1000 # 1000)%Q.
    change (inject_Z 0 / 1000)%Q with (0 # 1000)%Q.
    assert ((1000 # 1000) == 1)%Q by reflexivity. assert ((0 # 1000) == 0)%Q by reflexivity.
    lra.
  - change (inject_Z 1000 / 1000)%Q with (1000 # 1000)%Q.
    change (inject_Z 0 / 1000)%Q with (0 # 1000)%Q.
    assert ((1000 # 1000) == 1)%Q by reflexivity. assert ((0 # 1000) == 0)%Q by reflexivity.
    lra.
  - lra.
  - split.
    + intros H0.
      assert (E1 : (inject_Z promptTokens / 1000 * Estimator.input p == 0)%Q) by lra.
      assert (E2 : (inject_Z completionTokens / 1000 * Estimator.output p == 0)%Q) by lra.
      apply Qmult_integral in E1 as [E1 | E1]; [|lra].
      apply Qmult_integral in E2 as [E2 | E2]; [|lra].
      unfold Qdiv in E1, E2.
      apply Qmult_integral in E1 as [E1 | E1]; [|discriminate].
      apply Qmult_integral in E2 as [E2 | E2]; [|discriminate].
      change 0%Q with (inject_Z 0) in E1, E2.
      rewrite inject_Z_injective in E1, E2. by split.
    + intros [-> ->]. unfold Qdiv. change (inject_Z 0) with 0%Q. lra.
  - intros morePrompt moreCompletion Hmp Hmc.
    apply Qplus_le_compat; (apply Qmult_le_compat_r; [|lra]);
      by apply inject_Z_div_le.
Qed.

Lemma actual_cost_witness :
  (0 <= Estimator.calculateActualCost "openai:gpt-4o" 1000 500)%Q.
Proof.
  apply (actual_cost_follows_the_rates "openai:gpt-4o" 1000 500);
    [reflexivity | lia | lia].
Defined.

(** ** Model identifiers *)

Lemma split_no_sep (sep : ascii) (s : string) :
  occurs sep s = false -> JS.split sep s = [s].
Proof.
  induction s as [|c t IH]; [reflexivity|]. cbn [occurs JS.split].
  intros H. apply orb_false_iff in H as [Hc Ht]. rewrite Hc, (IH Ht). reflexivity.
Qed.

Lemma split_app_sep (sep : ascii) (p m : string) :
  occurs sep p = false ->
  JS.split sep (p +:+ String sep m) = p :: JS.split sep m.
Proof.
  induction p as [|c t IH]; intros H.
  - rewrite append_nil. cbn [JS.split]. by rewrite Ascii.eqb_refl.
  - cbn [occurs] in H. apply orb_false_iff in H as [Hc Ht].
    rewrite append_cons. cbn [JS.split]. rewrite Hc, (IH Ht). reflexivity.
Qed.

Lemma split_nonempty (sep : ascii) (s : string) : JS.split sep s <> [].
Proof.
  destruct s as [|c t]; [discriminate|]. cbn.
  destruct (Ascii.eqb c sep); [discriminate|]. by destruct (JS.split sep t).
Qed.

Lemma split_one (sep : ascii) (s m : string) :
  JS.split sep s = [m] -> s = m /\ occurs sep m = false.
Proof.
  revert m. induction s as [|c t IH]; intros m.
  - cbn. intros [= <-]. done.
  - cbn [JS.split]. destruct (Ascii.eqb c sep) eqn:Hc.
    + intros [= _ H]. by apply split_nonempty in H.
    + destruct (JS.split sep t) as [|p ps] eqn:E; [by apply split_nonempty in E|].
      intros [= <- ->]. destruct (IH p eq_refl) as [-> Hp].
      split; [reflexivity|]. cbn. by rewrite Hc, Hp.
Qed.

Lemma split_two (sep : ascii) (s p m : string) :
  JS.split sep s = [p; m] ->
  s = p +:+ String sep m /\ occurs sep p = false /\ occurs sep m = false.
Proof.
  revert p. induction s as [|c t IH]; intros p; [discriminate|].
  cbn [JS.split]. destruct (Ascii.eqb c sep) eqn:Hc.
  - intros [= <- H]. apply Ascii.eqb_eq in Hc as ->.
    apply split_one in H as [-> Hm]. rewrite append_nil. done.
  - destruct (JS.split sep t) as [|p' ps] eqn:E; [discriminate|].
    intros [= <- ->]. destruct (IH p' eq_refl) as (-> & Hp & Hm).
    rewrite append_cons. split_and!; [reflexivity | | exact Hm].
    cbn. by rewrite Hc, Hp.
Qed.

(** Property X7.  [parseModel] succeeds exactly on the identifiers with one
    colon: a success returns the text before and the text after the only
    colon, and a failure is the invalid-format message for a model that is
    not of that shape. *)
Theorem parseModel_accepts_exactly_one_colon (model : string) :
  match RelayRun.parseModel model with
  | inr (provider, modelId) =>
    model = provider +:+ ":" +:+ modelId
    /\ occurs ":" provider = false /\ occurs ":" modelId = false
  | inl e =>
    e = InvalidModelFormat model
    /\ forall provider modelId,
         occurs ":" provider = false -> occurs ":" modelId = false ->
         model <> provider +:+ ":" +:+ modelId
  end.
Proof.
  unfold RelayRun.parseModel.
  destruct (JS.split ":" model) as [|p [|m [|x rest]]] eqn:E.
  - by apply split_nonempty in E.
  - split; [reflexivity|]. intros provider modelId Hp Hm ->.
    change (":" +:+ modelId) with (String ":" modelId) in E.
    rewrite (split_app_sep ":" provider modelId Hp), (split_no_sep _ _ Hm) in E.
    discriminate.
  - by apply split_two in E.
  - split; [reflexivity|]. intros provider modelId Hp Hm ->.
    change (":" +:+ modelId) with (String ":" modelId) in E.
    rewrite (split_app_sep ":" provider modelId Hp), (split_no_sep _ _ Hm) in E.
    discriminate.
Qed.

(** ** Single model calls *)

Lemma checkBudget_world (env : Env) (e : Q) (w : World) :
  runs (Tracker.checkBudget env e w).2 = runs w
  /\ sent (Tracker.checkBudget env e w).2 = sent w
  /\ budgetState (Tracker.checkBudget env e w).2 = budgetAfter env [CallCheck e] w.
Proof.
  unfold budgetAfter. cbn [calls call]. unfold bind, ret.
  destruct (Tracker.checkBudget env e w) as [r w1] eqn:E. cbn [fst snd].
  rewrite checkBudget_eq, maybeResetCounters_eq in E. injection E as _ <-.
  done.
Qed.

Lemma recordCost_world (env : Env) (a : Q) (w : World) :
  runs (Tracker.recordCost env a w).2 = runs w
  /\ sent (Tracker.recordCost env a w).2 = sent w.
Proof. rewrite recordCost_eq, maybeResetCounters_eq. done. Qed.

Lemma execute_eq (env : Env) (provider modelId : string)
    (input : RelayRun.RelayRunInput) (w : World) :
  RelayRun.execute env provider
    (default "" (RelayRun.getProviderKey (config env) provider)) modelId input w
  = if supported provider
    then (match respond env (length (sent w))
                  (requestOf (config env) provider modelId input) with
          | Replied out p c => inr (out, p, c)
          | Failed text => inl (ProviderFailure text)
          end,
          {| budgetState := budgetState w; runs := runs w;
             clockReads := clockReads w;
             sent := sent w ++ [requestOf (config env) provider modelId input] |})
    else (inl (UnsupportedProvider provider), w).
Proof.
  unfold RelayRun.execute, supported, JS.includes, requestOf. cbn [existsb].
  rewrite !(String.eqb_sym provider).
  destruct (String.eqb "openai" provider) eqn:E1; cbn [orb];
    [unfold bind, RelayRun.callProvider; by destruct (respond _ _ _)|].
  destruct (String.eqb "anthropic" provider) eqn:E2; cbn [orb];
    [unfold bind, RelayRun.callProvider; by destruct (respond _ _ _)|].
  destruct (String.eqb "google" provider) eqn:E3; cbn [orb];
    [unfold bind, RelayRun.callProvider; by destruct (respond _ _ _)|].
  destruct (String.eqb "xai" provider) eqn:E4; cbn [orb];
    [unfold bind, RelayRun.callProvider; by destruct (respond _ _ _)|].
  reflexivity.
Qed.

Lemma attempt_outcome (env : Env) (input : RelayRun.RelayRunInput) (w : World) :
  Outcome env input w (RelayRun.attempt env input w).1 (RelayRun.attempt env input w).2.
Proof.
  remember (RelayRun.attempt env input w) as r eqn:Hrun.
  unfold RelayRun.attempt in Hrun.
  assert (Hshape : forall e, RelayRun.parseModel (RelayRun.ri_model input) = inl e ->
                             e = InvalidModelFormat (RelayRun.ri_model input))
    by (unfold RelayRun.parseModel; intros e; repeat case_match; congruence).
  destruct (RelayRun.parseModel (RelayRun.ri_model input)) as [e | [provider modelId]] eqn:Hp.
  { specialize (Hshape e eq_refl). subst e r. by apply BadModel. }
  clear Hshape.
  destruct (RelayRun.isProviderConfigured (config env) provider) eqn:Hc; cbn [negb] in Hrun;
    [|subst r; by eapply NoKey].
  unfold bind at 1 in Hrun.
  pose proof (checkBudget_world env
                (Estimator.estimateProviderCost (RelayRun.ri_model input)
                   (RelayRun.ri_prompt input) (RelayRun.ri_systemPrompt input)) w)
    as (_ & Hsent & _).
  pose proof (Denied env input w provider modelId) as HD.
  pose proof (Unsupported env input w provider modelId Hp Hc) as HU.
  pose proof (ProviderFailed env input w provider modelId) as HF.
  pose proof (Answered env input w provider modelId) as HA.
  cbn zeta in HD, HU, HF, HA.
  destruct (Tracker.checkBudget env _ w) as [check w1] eqn:Hcheck.
  cbn [fst snd] in Hsent, HD, HU, HF, HA.
  destruct (Tracker.allowed check) eqn:Ha; cbn [negb] in Hrun.
  - unfold bind at 1 in Hrun. rewrite execute_eq in Hrun.
    destruct (supported provider) eqn:Hs.
    + rewrite Hsent in Hrun.
      destruct (respond env (length (sent w)) _) as [out p c | text] eqn:Hr.
      * unfold bind in Hrun. specialize (HA out p c Hp Hc eq_refl eq_refl eq_refl).
        destruct (Tracker.recordCost env _ _) as [[] w3]. subst r. exact HA.
      * subst r. by apply HF.
    + subst r. by apply HU.
  - rewrite checkBudget_eq in Hcheck. injection Hcheck as <- <-.
    cbn [Tracker.allowed Tracker.error] in *.
    apply bool_decide_eq_false in Ha.
    destruct (verdict _ _ _) as [why|] eqn:Hv; [|done].
    subst r. by apply (HD why).
Qed.

Lemma relayRun_eq (env : Env) (input : RelayRun.RelayRunInput) (w : World) :
  let r := (RelayRun.attempt env input w).1 in
  let w1 := (RelayRun.attempt env input w).2 in
  let response :=
    match r with
    | inr (out, used) =>
      {| RelayRun.success := true; RelayRun.output := out; RelayRun.usage := used;
         RelayRun.error := None |}
    | inl e =>
      {| RelayRun.success := false; RelayRun.output := JString "";
         RelayRun.usage := mkUsage 0 0 0 0; RelayRun.error := Some e |}
    end in
  RelayRun.relayRun env input w
  = (response,
     {| budgetState := budgetState w1;
        runs := RunStore.added
                  {| rr_type := single; rr_model := Some (RelayRun.ri_model input);
                     rr_workflowName := None;
                     rr_success := RelayRun.success response;
                     rr_usage := RelayRun.usage response;
                     rr_output := match r with inr (out, _) => out | inl _ => JUndefined end;
                     rr_steps := None; rr_error := RelayRun.error response |}
                  (runs w1);
        clockReads := clockReads w1; sent := sent w1 |}).
Proof.
  cbn zeta. unfold RelayRun.relayRun, bind.
  destruct (RelayRun.attempt env input w) as [[e | [out used]] w1]; reflexivity.
Qed.

Lemma attempt_runs (env : Env) (input : RelayRun.RelayRunInput) (w : World) :
  runs (RelayRun.attempt env input w).2 = runs w.
Proof.
  destruct (attempt_outcome env input w); try reflexivity.
  - apply checkBudget_world.
  - apply checkBudget_world.
  - cbn [runs]. apply checkBudget_world.
  - rewrite (proj1 (recordCost_world _ _ _)). cbn [runs]. apply checkBudget_world.
Qed.

Lemma toInteger_ge_1 (q : Q) : (1 <= q)%Q -> 1 <= JS.toInteger q.
Proof.
  destruct q as [n d]. unfold JS.toInteger, Qle. cbn. intros H.
  apply Z.quot_le_lower_bound; lia.
Qed.

Lemma recent_head (limit : option Q) (r : RunRecord) (store : list RunRecord) :
  (forall l, limit = Some l -> (1 <= l)%Q) ->
  hd_error (RunStore.recent limit (RunStore.added r store)) = Some r.
Proof.
  intros Hl. unfold RunStore.recent. rewrite added_take.
  assert (H1 : (1 <= Qmin (default (10 : Q) limit) 50)%Q).
  { apply Q.min_glb; [|discriminate].
    destruct limit as [l|]; [by apply Hl | discriminate]. }
  rewrite slice0_nonneg by lra.
  pose proof (toInteger_ge_1 _ H1) as Hk.
  destruct (Z.to_nat (JS.toInteger (Qmin (default (10 : Q) limit) 50))) as [|k] eqn:E;
    [lia|].
  reflexivity.
Qed.

Lemma relay_runs_list_head (requested : option Q) (r : RunRecord)
    (w : World) (store : list RunRecord)
    (listing : RelayRunsList.RelayRunsListResponse) :
  runs w = RunStore.added r store ->
  (RelayRunsList.relay_runs_list requested w).1 = Some listing ->
  hd_error (RelayRunsList.lr_runs listing) = Some (RelayRunsList.summary r).
Proof.
  intros Hruns. unfold RelayRunsList.relay_runs_list.
  destruct (RelayRunsList.relayRunsListSchema_parse requested) as [parsed|] eqn:Hparse;
    [|discriminate].
  unfold RelayRunsList.relayRunsList, bind, RunStore.getRecentRuns, ret.
  cbn [fst snd]. intros [= <-]. cbn [RelayRunsList.lr_runs]. rewrite Hruns.
  set (limit := match parsed with
                | Some l => if Qeq_bool l 0 then 10%Q else l
                | None => 10%Q
                end).
  assert (Hl : (1 <= limit)%Q).
  { unfold RelayRunsList.relayRunsListSchema_parse in Hparse. subst limit.
    destruct requested as [l|]; [|injection Hparse as <-; discriminate].
    destruct (Qle_bool 1 l && Qle_bool l 50) eqn:E; [|discriminate].
    injection Hparse as <-. apply andb_true_iff in E as [E _].
    apply Qle_bool_iff in E. by destruct (Qeq_bool l 0). }
  pose proof (recent_head (Some limit) r store) as Hh.
  destruct (RunStore.recent (Some limit) (RunStore.added r store)) as [|y ys].
  - assert (None = Some r) by (apply Hh; by intros ? [= <-]). discriminate.
  - assert (Hy : Some y = Some r) by (apply Hh; by intros ? [= <-]).
    injection Hy as ->. reflexivity.
Qed.

(** Property X8.  Every call of [relayRun], failed or not, adds one record
    to the run store: a single-model record with the success flag, usage and
    error of the response, and its output only on success.  Success and the
    absence of an error coincide, a failed response has zero usage and an
    empty output, and the run heads the next listing. *)
Theorem relayRun_files_its_run
    (env : Env) (input : RelayRun.RelayRunInput) (w : World) :
  let run := RelayRun.relayRun env input w in
  let filed :=
    {| rr_type := single; rr_model := Some (RelayRun.ri_model input);
       rr_workflowName := None;
       rr_success := RelayRun.success run.1;
       rr_usage := RelayRun.usage run.1;
       rr_output := if RelayRun.success run.1 then RelayRun.output run.1
                    else JUndefined;
       rr_steps := None; rr_error := RelayRun.error run.1 |} in
  runs run.2 = RunStore.added filed (runs w)
  /\ (RelayRun.success run.1 = true <-> RelayRun.error run.1 = None)
  /\ (RelayRun.success run.1 = false ->
      RelayRun.usage run.1 = mkUsage 0 0 0 0
      /\ RelayRun.output run.1 = JString "")
  /\ (forall requested listing,
        (RelayRunsList.relay_runs_list requested run.2).1 = Some listing ->
        hd_error (RelayRunsList.lr_runs listing) = Some (RelayRunsList.summary filed)).
Proof.
  cbn zeta.
  assert (Hruns : runs (RelayRun.relayRun env input w).2
                  = RunStore.added
                      {| rr_type := single; rr_model := Some (RelayRun.ri_model input);
                         rr_workflowName := None;
                         rr_success := RelayRun.success (RelayRun.relayRun env input w).1;
                         rr_usage := RelayRun.usage (RelayRun.relayRun env input w).1;
                         rr_output :=
                           if RelayRun.success (RelayRun.relayRun env input w).1
                           then RelayRun.output (RelayRun.relayRun env input w).1
                           else JUndefined;
                         rr_steps := None;
                         rr_error := RelayRun.error (RelayRun.relayRun env input w).1 |}
                      (runs w)).
  { rewrite relayRun_eq. cbn [fst snd runs]. rewrite attempt_runs.
    by destruct (RelayRun.attempt env input w).1 as [e | [out used]]. }
  split; [exact Hruns|]. split_and!.
  - rewrite relayRun_eq. cbn [fst].
    by destruct (RelayRun.attempt env input w).1 as [e | [out used]].
  - rewrite relayRun_eq. cbn [fst].
    by destruct (RelayRun.attempt env input w).1 as [e | [out used]].
  - intros requested listing. by apply relay_runs_list_head with (store := runs w).
Qed.

Lemma recordCost_budget (env : Env) (a : Q) (w w' : World) :
  budgetState w = budgetState w' -> clockReads w = clockReads w' ->
  budgetState (Tracker.recordCost env a w).2 = budgetState (Tracker.recordCost env a w').2
  /\ clockReads (Tracker.recordCost env a w).2 = clockReads (Tracker.recordCost env a w').2.
Proof.
  intros Hb Hc. rewrite !recordCost_eq, !maybeResetCounters_eq. cbn [fst snd budgetState clockReads].
  by rewrite Hb, Hc.
Qed.

Lemma budgetAfter_check_record (env : Env) (e a : Q) (w : World) :
  budgetAfter env [CallCheck e; CallRecord a] w
  = budgetState (Tracker.recordCost env a (Tracker.checkBudget env e w).2).2.
Proof.
  unfold budgetAfter. cbn [calls call]. unfold bind, ret.
  destruct (Tracker.checkBudget env e w) as [r w1]. cbn [fst snd].
  destruct (Tracker.recordCost env a w1) as [[] w2]. reflexivity.
Qed.

(** Property X9.  [relayRun] records cost only on success: the budget then is
    the one after a check of the estimate and a record of the actual cost,
    computed from the tokens the provider reported, and exactly one request
    went out.  On failure nothing is recorded: either nothing was touched, or
    the budget was only checked and at most one request went out, which the
    provider failed. *)
Theorem relayRun_charges_only_successes
    (env : Env) (input : RelayRun.RelayRunInput) (w : World) :
  let run := RelayRun.relayRun env input w in
  let estimate :=
    Estimator.estimateProviderCost (RelayRun.ri_model input)
      (RelayRun.ri_prompt input) (RelayRun.ri_systemPrompt input) in
  let used := RelayRun.usage run.1 in
  (RelayRun.success run.1 = true ->
   budgetState run.2
   = budgetAfter env [CallCheck estimate; CallRecord (estimatedProviderCostUsd used)] w
   /\ estimatedProviderCostUsd used
      = Estimator.calculateActualCost (RelayRun.ri_model input)
          (promptTokens used) (completionTokens used)
   /\ totalTokens used = promptTokens used + completionTokens used
   /\ (exists request,
         sent run.2 = sent w ++ [request]
         /\ respond env (length (sent w)) request
            = Replied (RelayRun.output run.1) (promptTokens used)
                      (completionTokens used)))
  /\ (RelayRun.success run.1 = false ->
      (budgetState run.2 = budgetState w /\ clockReads run.2 = clockReads w
       /\ sent run.2 = sent w)
      \/ (budgetState run.2 = budgetAfter env [CallCheck estimate] w
          /\ (sent run.2 = sent w
              \/ exists request text,
                   sent run.2 = sent w ++ [request]
                   /\ respond env (length (sent w)) request = Failed text
                   /\ RelayRun.error run.1 = Some (ProviderFailure text)))).
Proof.
  cbn zeta. rewrite relayRun_eq. cbn [fst snd budgetState sent clockReads].
  destruct (attempt_outcome env input w) as
    [ Hp | provider modelId Hp Hc | provider modelId why Hp Hc estimate He Ha
    | provider modelId Hp Hc estimate Ha Hs
    | provider modelId text Hp Hc estimate w1 request Ha Hs Hr
    | provider modelId out p c Hp Hc estimate w1 request cost Ha Hs Hr ];
    cbn [RelayRun.success RelayRun.usage RelayRun.error RelayRun.output
         promptTokens completionTokens totalTokens estimatedProviderCostUsd].
  - split; [discriminate|]. intros _. left. done.
  - split; [discriminate|]. intros _. left. done.
  - split; [discriminate|]. intros _. right.
    destruct (checkBudget_world env estimate w) as (_ & H1 & H2). split; [exact H2 | by left].
  - split; [discriminate|]. intros _. right.
    destruct (checkBudget_world env estimate w) as (_ & H1 & H2). split; [exact H2 | by left].
  - split; [discriminate|]. intros _. right. cbn [budgetState sent].
    destruct (checkBudget_world env estimate w) as (_ & H1 & H2). split; [exact H2|].
    right. by exists request, text.
  - split; [|discriminate]. intros _.
    rewrite budgetAfter_check_record.
    split_and!; try reflexivity.
    + by apply recordCost_budget.
    + exists request. split; [|exact Hr].
      by rewrite (proj2 (recordCost_world _ _ _)).
Qed.

(** Property X10.  A request leaves [relayRun] only for a well-formed model
    of a provider it can call whose key is configured and not empty, and
    after the budget check allowed the estimate; it carries that key, the
    prompt and the system prompt of the input, and the schema only for openai
    and anthropic. *)
Theorem relayRun_sends_what_it_was_given
    (env : Env) (input : RelayRun.RelayRunInput) (w : World)
    (request : ProviderRequest) :
  let run := RelayRun.relayRun env input w in
  let estimate :=
    Estimator.estimateProviderCost (RelayRun.ri_model input)
      (RelayRun.ri_prompt input) (RelayRun.ri_systemPrompt input) in
  sent run.2 = sent w ++ [request] ->
  RelayRun.parseModel (RelayRun.ri_model input)
  = inr (rq_provider request, rq_modelId request)
  /\ supported (rq_provider request) = true
  /\ RelayRun.getProviderKey (config env) (rq_provider request)
     = Some (rq_apiKey request)
  /\ rq_apiKey request <> ""
  /\ rq_prompt request = RelayRun.ri_prompt input
  /\ rq_systemPrompt request = RelayRun.ri_systemPrompt input
  /\ rq_schema request
     = (if String.eqb (rq_provider request) "openai"
           || String.eqb (rq_provider request) "anthropic"
        then RelayRun.ri_schema input else None)
  /\ Tracker.allowed (Tracker.checkBudget env estimate w).1 = true.
Proof.
  cbn zeta. rewrite relayRun_eq. cbn [snd sent].
  assert (Hneq : forall l : list ProviderRequest, l <> l ++ [request]).
  { intros l H. apply (f_equal length) in H. rewrite length_app in H. cbn in H. lia. }
  assert (Hkey : forall provider,
             RelayRun.isProviderConfigured (config env) provider = true ->
             RelayRun.getProviderKey (config env) provider
             = Some (default "" (RelayRun.getProviderKey (config env) provider))
             /\ default "" (RelayRun.getProviderKey (config env) provider) <> "").
  { intros provider. unfold RelayRun.isProviderConfigured, truthy.
    destruct (RelayRun.getProviderKey (config env) provider) as [k|]; [|discriminate].
    cbn. intros H. apply negb_true_iff, String.eqb_neq in H. done. }
  destruct (attempt_outcome env input w) as
    [ Hp | provider modelId Hp Hc | provider modelId why Hp Hc estimate He Ha
    | provider modelId Hp Hc estimate Ha Hs
    | provider modelId text Hp Hc estimate w1 request' Ha Hs Hr
    | provider modelId out p c Hp Hc estimate w1 request' cost Ha Hs Hr ].
  - intros H. by apply Hneq in H.
  - intros H. by apply Hneq in H.
  - rewrite (proj1 (proj2 (checkBudget_world env estimate w))).
    intros H. by apply Hneq in H.
  - rewrite (proj1 (proj2 (checkBudget_world env estimate w))).
    intros H. by apply Hneq in H.
  - cbn [sent]. intros H. apply app_inj_tail in H as [_ <-].
    destruct (Hkey provider Hc) as [Hk1 Hk2].
    subst request'. unfold requestOf. cbn. done.
  - rewrite (proj2 (recordCost_world _ _ _)). cbn [sent].
    intros H. apply app_inj_tail in H as [_ <-].
    destruct (Hkey provider Hc) as [Hk1 Hk2].
    subst request'. unfold requestOf. cbn. done.
Qed.

Lemma relayRun_sends_witness :
  let run := RelayRun.relayRun envFailing
               {| RelayRun.ri_model := "openai:gpt-4o-mini";
                  RelayRun.ri_prompt := "Say hello";
                  RelayRun.ri_systemPrompt := None;
                  RelayRun.ri_schema := None |} world0 in
  option_map rq_apiKey (last (sent run.2)) = Some "sk-test".
Proof.
  cbn zeta.
  destruct (relayRun_sends_what_it_was_given envFailing
              {| RelayRun.ri_model := "openai:gpt-4o-mini";
                 RelayRun.ri_prompt := "Say hello";
                 RelayRun.ri_systemPrompt := None;
                 RelayRun.ri_schema := None |} world0
              {| rq_provider := "openai"; rq_apiKey := "sk-test";
                 rq_modelId := "gpt-4o-mini"; rq_prompt := "Say hello";
                 rq_systemPrompt := None; rq_schema := None |})
    as (_ & _ & Hkey & _).
  - vm_compute. reflexivity.
  - vm_compute. reflexivity.
Defined.

(** ** Configuration *)

Lemma lookup_loaded (environ : string -> option string) (provider : string) :
  JS.lookup provider (Config.loadProvidersFromEnv environ)
  = match JS.lookup provider providerVariables with
    | Some variable => if truthy (environ variable) then environ variable else None
    | None => None
    end.
Proof.
  unfold Config.loadProvidersFromEnv, providerVariables.
  assert (Hd : forall v, truthy (environ v) = true ->
                         Some (default "" (environ v)) = environ v).
  { intros v. destruct (environ v); [reflexivity | discriminate]. }
  destruct (truthy (environ "OPENAI_API_KEY")) eqn:E1;
    destruct (truthy (environ "ANTHROPIC_API_KEY")) eqn:E2;
    destruct (truthy (environ "GOOGLE_API_KEY")) eqn:E3;
    destruct (truthy (environ "XAI_API_KEY")) eqn:E4;
    cbn [app JS.lookup];
    destruct (String.eqb "openai" provider) eqn:P1;
    destruct (String.eqb "anthropic" provider) eqn:P2;
    destruct (String.eqb "google" provider) eqn:P3;
    destruct (String.eqb "xai" provider) eqn:P4;
    try (match goal with
         | A : String.eqb _ provider = true, B : String.eqb _ provider = true |- _ =>
           apply String.eqb_eq in A; apply String.eqb_eq in B; congruence
         end);
    rewrite ?E1, ?E2, ?E3, ?E4, ?Hd by assumption; reflexivity.
Qed.

Lemma merge_fresh (loaded : list (string * string)) :
  NoDup (map fst loaded) ->
  fold_left (fun merged entry => JS.set (fst entry) (snd entry) merged) loaded [] = loaded.
Proof.
  intros Hnd.
  enough (H : forall acc, (forall k, k ∈ map fst loaded -> k ∉ map fst acc) ->
                          fold_left (fun merged entry => JS.set (fst entry) (snd entry) merged)
                                    loaded acc = acc ++ loaded).
  { apply (H []). intros k _. apply not_elem_of_nil. }
  induction loaded as [|[k v] l IH]; intros acc Hacc.
  - by rewrite app_nil_r.
  - cbn [fold_left fst snd]. cbn in Hnd. apply NoDup_cons in Hnd as [Hk Hnd].
    rewrite set_fresh by (apply Hacc; left).
    rewrite (IH Hnd), <- app_assoc; [reflexivity|].
    intros k' Hk'. rewrite map_app. cbn. intros Hin.
    apply elem_of_app in Hin as [Hin | Hin].
    + revert Hin. apply Hacc. by right.
    + apply list_elem_of_singleton in Hin. by subst.
Qed.

Lemma loaded_NoDup (environ : string -> option string) :
  NoDup (map fst (Config.loadProvidersFromEnv environ)).
Proof.
  unfold Config.loadProvidersFromEnv.
  destruct (truthy (environ "OPENAI_API_KEY"));
    destruct (truthy (environ "ANTHROPIC_API_KEY"));
    destruct (truthy (environ "GOOGLE_API_KEY"));
    destruct (truthy (environ "XAI_API_KEY"));
    cbn; repeat (apply NoDup_cons; split; [set_solver|]); apply NoDup_nil_2.
Qed.

Lemma initConfig_providers (parseFloat : string -> Q) (parseInt : string -> Z)
    (environ : string -> option string) (args : list string) :
  providers (Config.initConfig parseFloat parseInt environ args)
  = Config.loadProvidersFromEnv environ.
Proof. cbn. apply merge_fresh, loaded_NoDup. Qed.

(** Property X11.  After [initConfig] the key of a provider is the non-empty
    value of its environment variable ([OPENAI_API_KEY], [ANTHROPIC_API_KEY],
    [GOOGLE_API_KEY], [XAI_API_KEY]) and nothing else: the command line has
    no say, an empty variable counts as unset, and a configured provider is
    always one [relayRun] can call. *)
Theorem providers_come_from_the_environment
    (parseFloat : string -> Q) (parseInt : string -> Z)
    (environ : string -> option string) (args : list string) (provider : string) :
  let cfg := Config.initConfig parseFloat parseInt environ args in
  RelayRun.getProviderKey cfg provider
  = match JS.lookup provider providerVariables with
    | Some variable => if truthy (environ variable) then environ variable else None
    | None => None
    end
  /\ (RelayRun.isProviderConfigured cfg provider = true
      <-> exists variable key,
            JS.lookup provider providerVariables = Some variable
            /\ environ variable = Some key /\ key <> "")
  /\ (RelayRun.isProviderConfigured cfg provider = true -> supported provider = true).
Proof.
  cbn zeta. unfold RelayRun.isProviderConfigured, RelayRun.getProviderKey.
  rewrite initConfig_providers, lookup_loaded.
  split; [reflexivity|].
  assert (Hs : is_Some (JS.lookup provider providerVariables) -> supported provider = true).
  { unfold supported, JS.includes, providerVariables. cbn [JS.lookup existsb].
    rewrite !(String.eqb_sym provider). intros [v Hv].
    destruct (String.eqb "openai" provider); [done|].
    destruct (String.eqb "anthropic" provider); [done|].
    destruct (String.eqb "google" provider); [done|].
    destruct (String.eqb "xai" provider); [done | discriminate]. }
  destruct (JS.lookup provider providerVariables) as [variable|].
  - split.
    + destruct (truthy (environ variable)) eqn:E.
      * split; [|done]. intros _. exists variable.
        unfold truthy in E. destruct (environ variable) as [key|]; [|discriminate].
        exists key. apply negb_true_iff, String.eqb_neq in E. done.
      * split; [discriminate|]. intros (v & key & [= <-] & Hk & Hne).
        rewrite Hk in E. cbn in E. apply negb_false_iff, String.eqb_eq in E. done.
    + intros _. apply Hs. by eexists.
  - split; [|discriminate]. split; [discriminate|]. by intros (v & key & [=] & _).
Qed.

Lemma configured_supported (environ : string -> option string)
    (cfg : McpServerConfig) (provider : string) :
  providers cfg = Config.loadProvidersFromEnv environ ->
  RelayRun.isProviderConfigured cfg provider = true -> supported provider = true.
Proof.
  intros Hcfg. unfold RelayRun.isProviderConfigured, RelayRun.getProviderKey.
  rewrite Hcfg, lookup_loaded.
  unfold supported, JS.includes, providerVariables. cbn [JS.lookup existsb].
  rewrite !(String.eqb_sym provider).
  destruct (String.eqb "openai" provider); [done|].
  destruct (String.eqb "anthropic" provider); [done|].
  destruct (String.eqb "google" provider); [done|].
  destruct (String.eqb "xai" provider); [done | discriminate].
Qed.

(** Property X12.  With the providers loaded from the environment,
    [relayRun] never answers with the unsupported-provider message: a model of
    any other provider already fails as not configured, before the budget is
    checked or anything is sent.  This includes the [local] provider, whose
    models the validation accepts. *)
Theorem unsupported_provider_is_never_reported
    (environ : string -> option string) (env : Env)
    (input : RelayRun.RelayRunInput) (w : World) :
  providers (config env) = Config.loadProvidersFromEnv environ ->
  let run := RelayRun.relayRun env input w in
  (forall provider, RelayRun.error run.1 <> Some (UnsupportedProvider provider))
  /\ (forall provider modelId,
        RelayRun.parseModel (RelayRun.ri_model input) = inr (provider, modelId) ->
        supported provider = false ->
        RelayRun.error run.1 = Some (ProviderNotConfigured provider)
        /\ budgetState run.2 = budgetState w
        /\ clockReads run.2 = clockReads w
        /\ sent run.2 = sent w)
  /\ (forall modelId,
        modelId <> "" -> occurs ":" modelId = false ->
        RelayWorkflowValidate.isValidModelFormat ("local:" +:+ modelId) = true
        /\ RelayRun.parseModel ("local:" +:+ modelId) = inr ("local", modelId)
        /\ supported "local" = false).
Proof.
  intros Hcfg. cbn zeta. rewrite relayRun_eq. cbn [fst snd budgetState clockReads sent].
  split_and!.
  - intros provider0.
    destruct (attempt_outcome env input w) as
      [ Hp | provider modelId Hp Hc | provider modelId why Hp Hc estimate He Ha
      | provider modelId Hp Hc estimate Ha Hs
      | provider modelId text Hp Hc estimate w1 request' Ha Hs Hr
      | provider modelId out p c Hp Hc estimate w1 request' cost Ha Hs Hr ];
      cbn [RelayRun.error]; try discriminate.
    rewrite (configured_supported environ _ _ Hcfg Hc) in Hs. discriminate.
  - intros provider0 modelId0 Hp0 Hs0.
    assert (Hn : RelayRun.isProviderConfigured (config env) provider0 = false).
    { apply not_true_iff_false. intros Hc.
      rewrite (configured_supported environ _ _ Hcfg Hc) in Hs0. discriminate. }
    destruct (attempt_outcome env input w) as
      [ Hp | provider modelId Hp Hc | provider modelId why Hp Hc estimate He Ha
      | provider modelId Hp Hc estimate Ha Hs
      | provider modelId text Hp Hc estimate w1 request' Ha Hs Hr
      | provider modelId out p c Hp Hc estimate w1 request' cost Ha Hs Hr ];
      rewrite Hp0 in Hp; try discriminate; injection Hp as <- <-;
      try congruence.
    done.
  - intros modelId Hne Hocc.
    assert (Hsplit : JS.split ":" ("local:" +:+ modelId) = ["local"; modelId]).
    { change ("local:" +:+ modelId) with ("local" +:+ String ":" modelId).
      rewrite split_app_sep by reflexivity. by rewrite split_no_sep. }
    unfold RelayWorkflowValidate.isValidModelFormat, RelayRun.parseModel.
    rewrite Hsplit. split_and!; [|reflexivity..].
    destruct modelId; [done | reflexivity].
Qed.

Lemma unsupported_provider_witness :
  RelayRun.error
    (RelayRun.relayRun env0
       {| RelayRun.ri_model := "local:llama"; RelayRun.ri_prompt := "hi";
          RelayRun.ri_systemPrompt := None; RelayRun.ri_schema := None |} world0).1
  = Some (ProviderNotConfigured "local").
Proof.
  destruct (unsupported_provider_is_never_reported (fun _ => None) env0
              {| RelayRun.ri_model := "local:llama"; RelayRun.ri_prompt := "hi";
                 RelayRun.ri_systemPrompt := None; RelayRun.ri_schema := None |} world0
              eq_refl) as (_ & H & _).
  apply (H "local" "llama"); reflexivity.
Defined.

Lemma list_pair_ind {A} (P : list A -> Prop) :
  P [] -> (forall x, P [x]) ->
  (forall x y l, P l -> P (y :: l) -> P (x :: y :: l)) ->
  forall l, P l.
Proof.
  intros H0 H1 H2 l.
  enough (H : P l /\ forall x, P (x :: l)) by apply H.
  induction l as [|y l [IH1 IH2]]; [by split|].
  split; [apply IH2|]. intros x. apply H2; [exact IH1 | apply IH2].
Qed.

Section CliFacts.

Context (parseFloat : string -> Q) (parseInt : string -> Z).

Local Abbreviation parseFrom := (Config.parseFrom parseFloat parseInt).
Local Abbreviation parseCliArgs := (Config.parseCliArgs parseFloat parseInt).

Lemma overridden_noFlags_l (c : Config.CliConfig) : overridden Config.noFlags c = c.
Proof. destruct c as [[] [] [] [] []]; reflexivity. Qed.

Lemma overridden_assoc (a b c : Config.CliConfig) :
  overridden a (overridden b c) = overridden (overridden a b) c.
Proof.
  destruct a as [? ? ? ? ?], b as [? ? ? ? ?], c as [[] [] [] [] []]; reflexivity.
Qed.

Lemma parseFrom_overridden (args : list string) :
  forall config, parseFrom args config = overridden config (parseCliArgs args).
Proof.
  unfold Config.parseCliArgs.
  induction args as [| x | x y l IH1 IH2] using list_pair_ind; intros config.
  - by destruct config.
  - by destruct config.
  - cbn [Config.parseFrom].
    destruct (negb (truthy (Some y))); [apply IH2|].
    repeat (case_match; [rewrite IH1, (IH1 (Config.mkCli _ _ _ _ _)), overridden_assoc;
                         f_equal; by destruct config|]).
    apply IH2.
Qed.

Lemma follows_app (flag value : string) (front args : list string) :
  follows flag value args -> follows flag value (front ++ args).
Proof.
  intros (b & a & ->). exists (front ++ b), a. by rewrite <- app_assoc.
Qed.

Lemma fromLine_app (front args : list string) (config : Config.CliConfig) :
  fromLine parseFloat parseInt args config -> fromLine parseFloat parseInt (front ++ args) config.
Proof.
  intros (H1 & H2 & H3 & H4 & H5). split_and!.
  - intros d Hd. destruct (H1 d Hd). split; [done | by apply follows_app].
  - intros x Hx. destruct (H2 x Hx) as (v & ? & ? & ?).
    exists v. split_and!; [done.. | by apply follows_app].
  - intros x Hx. destruct (H3 x Hx) as (v & ? & ? & ?).
    exists v. split_and!; [done.. | by apply follows_app].
  - intros x Hx. destruct (H4 x Hx) as (v & ? & ? & ?).
    exists v. split_and!; [done.. | by apply follows_app].
  - intros x Hx. destruct (H5 x Hx) as (v & ? & ? & ?).
    exists v. split_and!; [done.. | by apply follows_app].
Qed.

Lemma fromLine_overridden (args : list string) (a b : Config.CliConfig) :
  fromLine parseFloat parseInt args a -> fromLine parseFloat parseInt args b -> fromLine parseFloat parseInt args (overridden a b).
Proof.
  intros (A1 & A2 & A3 & A4 & A5) (B1 & B2 & B3 & B4 & B5).
  unfold overridden. split_and!; cbn; intros x Hx.
  - destruct (Config.cli_codegenOutDir b); [by apply B1 | by apply A1].
  - destruct (Config.cli_maxDailyCostUsd b); [by apply B2 | by apply A2].
  - destruct (Config.cli_maxSingleCallCostUsd b); [by apply B3 | by apply A3].
  - destruct (Config.cli_maxCallsPerHour b); [by apply B4 | by apply A4].
  - destruct (Config.cli_defaultTimeoutMs b); [by apply B5 | by apply A5].
Qed.

Lemma fromLine_noFlags (args : list string) : fromLine parseFloat parseInt args Config.noFlags.
Proof. split_and!; intros x; discriminate. Qed.

Lemma truthy_Some (s : string) : truthy (Some s) = true <-> s <> "".
Proof. unfold truthy. rewrite negb_true_iff. apply String.eqb_neq. Qed.

(** Property X13.  Every setting [parseCliArgs] returns comes from the
    command line: its flag stands in the argument list, directly followed by
    the non-empty argument the setting was read from. *)
Theorem parseCliArgs_reads_flag_value_pairs (args : list string) :
  fromLine parseFloat parseInt args (parseCliArgs args).
Proof.
  induction args as [| x | x y l IH1 IH2] using list_pair_ind.
  - apply fromLine_noFlags.
  - apply fromLine_noFlags.
  - unfold Config.parseCliArgs. cbn [Config.parseFrom].
    destruct (truthy (Some y)) eqn:Hy; cbn [negb];
      [|apply (fromLine_app [x]), IH2].
    apply truthy_Some in Hy.
    assert (Hhere : forall flag, x = flag -> follows flag y (x :: y :: l))
      by (intros flag ->; by exists [], l).
    repeat (case_match;
            [ rewrite parseFrom_overridden;
              apply fromLine_overridden; [|apply (fromLine_app [x; y]), IH1];
              match goal with H : String.eqb x _ = true |- _ =>
                apply String.eqb_eq in H end;
              split_and!; cbn; intros ? [= <-]; eauto |]).
    apply (fromLine_app [x]), IH2.
Qed.

(** Property X14.  [parseCliArgs] reads the arguments from left to right: no
    argument or a single one gives no setting; an unknown flag, or any
    argument before an empty one, is skipped alone; a known flag with a value
    sets its field and takes the value with it, and a later occurrence of the
    flag overrides it. *)
Theorem parseCliArgs_later_flags_override (args : list string) (arg value : string) :
  let only dir daily perCall calls timeout :=
    {| Config.cli_codegenOutDir := dir; Config.cli_maxDailyCostUsd := daily;
       Config.cli_maxSingleCallCostUsd := perCall;
       Config.cli_maxCallsPerHour := calls;
       Config.cli_defaultTimeoutMs := timeout |} in
  parseCliArgs [] = Config.noFlags
  /\ parseCliArgs [arg] = Config.noFlags
  /\ (value = "" \/ arg ∉ cliFlags ->
      parseCliArgs (arg :: value :: args) = parseCliArgs (value :: args))
  /\ (value <> "" ->
      parseCliArgs ("--out-dir" :: value :: args)
      = overridden (only (Some value) None None None None) (parseCliArgs args)
      /\ parseCliArgs ("--max-daily-cost" :: value :: args)
         = overridden (only None (Some (parseFloat value)) None None None)
                      (parseCliArgs args)
      /\ parseCliArgs ("--max-single-call-cost" :: value :: args)
         = overridden (only None None (Some (parseFloat value)) None None)
                      (parseCliArgs args)
      /\ parseCliArgs ("--max-calls-per-hour" :: value :: args)
         = overridden (only None None None (Some (parseInt value)) None)
                      (parseCliArgs args)
      /\ parseCliArgs ("--timeout" :: value :: args)
         = overridden (only None None None None (Some (parseInt value)))
                      (parseCliArgs args)).
Proof.
  cbn zeta. split_and!; try reflexivity.
  - intros [-> | Hflag]; [reflexivity|].
    unfold Config.parseCliArgs. cbn [Config.parseFrom].
    destruct (negb (truthy (Some value))); [reflexivity|].
    unfold cliFlags in Hflag.
    repeat (case_match;
            [ match goal with H : String.eqb arg _ = true |- _ =>
                apply String.eqb_eq in H; subst arg end;
              exfalso; apply Hflag; set_solver |]).
    reflexivity.
  - intros Hv. apply truthy_Some in Hv.
    unfold Config.parseCliArgs at 1 3 5 7 9. cbn [Config.parseFrom].
    rewrite Hv. cbn [negb String.eqb Ascii.eqb Bool.eqb andb].
    rewrite !parseFrom_overridden. done.
Qed.

End CliFacts.

(** ** Workflow runs, further *)

Lemma relayWorkflowRun_eq (platform : Platform) (env : Env)
    (input : RelayWorkflowRun.RelayWorkflowRunInput) (w : World) :
  RelayWorkflowRun.relayWorkflowRun platform env input w
  = match RelayWorkflowRun.topologicalSort (RelayWorkflowRun.wf_steps input) with
    | inl e => RelayWorkflowRun.fail input e startState w
    | inr sorted =>
      let check := Tracker.checkBudget env
                     (Estimator.estimateWorkflowCost
                        (List.filter RelayWorkflowRun.isAiStep sorted)) w in
      match Tracker.error check.1 with
      | Some why => RelayWorkflowRun.fail input (BudgetDenied why) startState check.2
      | None =>
        match unconfigured (config env) sorted with
        | Some step =>
          RelayWorkflowRun.fail input
            (StepProviderNotConfigured (RelayWorkflowRun.providerOf step) (name step))
            startState check.2
        | None =>
          let r := RelayWorkflowRun.runSteps platform env
                     (RelayWorkflowRun.wf_input input) sorted startState check.2 in
          match r.1.1 with
          | Some e => RelayWorkflowRun.fail input e r.1.2 r.2
          | None => succeed input sorted r.1.2 r.2
          end
        end
      end
    end.
Proof.
  unfold RelayWorkflowRun.relayWorkflowRun. fold startState.
  destruct (RelayWorkflowRun.topologicalSort _) as [e | sorted]; [reflexivity|].
  cbn zeta. unfold bind at 1. rewrite checkBudget_eq. cbn [fst snd Tracker.allowed Tracker.error].
  destruct (verdict _ _ _) as [why|] eqn:Hv.
  { rewrite bool_decide_eq_false_2 by done. reflexivity. }
  rewrite bool_decide_eq_true_2 by done. cbn [negb].
  fold (unconfigured (config env) sorted).
  destruct (unconfigured (config env) sorted); [reflexivity|].
  unfold bind at 1.
  destruct (RelayWorkflowRun.runSteps _ _ _ sorted startState _) as [[[e|] st] w'];
    reflexivity.
Qed.

Lemma relayRun_usage (env : Env) (input : RelayRun.RelayRunInput) (w : World) :
  totalTokens (RelayRun.usage (RelayRun.relayRun env input w).1)
  = promptTokens (RelayRun.usage (RelayRun.relayRun env input w).1)
    + completionTokens (RelayRun.usage (RelayRun.relayRun env input w).1).
Proof.
  rewrite relayRun_eq. cbn [fst].
  destruct (attempt_outcome env input w); reflexivity.
Qed.

Lemma fold_left_keeps {A B} (f : A -> B -> A) (l : list B) (a : A) :
  (forall x b, b ∈ l -> f x b = x) -> fold_left f l a = a.
Proof.
  revert a. induction l as [|b l IH]; intros a H; [reflexivity|]. cbn.
  rewrite (H a b) by left. apply IH. intros x b' Hb'. apply H. by right.
Qed.

Lemma fold_left_agree {A B} (f g : A -> B -> A) (l : list B) (a : A) :
  (forall x b, b ∈ l -> f x b = g x b) -> fold_left f l a = fold_left g l a.
Proof.
  revert a. induction l as [|b l IH]; intros a H; [reflexivity|]. cbn.
  rewrite (H a b) by left. apply IH. intros x b' Hb'. apply H. by right.
Qed.

Section Totals.

Context (platform : Platform) (env : Env) (input : JValue).

(** An iteration records one result under the name of its step, and adds
    the usage of that result, if it has one, to the totals. *)
Lemma runStep_totals (step : WorkflowStep) (st : RelayWorkflowRun.RunState) (w : World) :
  let r := RelayWorkflowRun.runStep platform env input step st w in
  exists result,
    RelayWorkflowRun.stepResults r.1.2
    = JS.assign (name step) result (RelayWorkflowRun.stepResults st)
    /\ RelayWorkflowRun.totalTokens r.1.2
       = match sr_usage result with
         | Some used =>
           RelayWorkflowRun.totalTokens st
           + (promptTokens used + completionTokens used)
         | None => RelayWorkflowRun.totalTokens st
         end
    /\ RelayWorkflowRun.totalCost r.1.2
       = match sr_usage result with
         | Some used =>
           (RelayWorkflowRun.totalCost st + estimatedProviderCostUsd used)%Q
         | None => RelayWorkflowRun.totalCost st
         end.
Proof.
  cbn zeta. unfold RelayWorkflowRun.runStep.
  destruct (RelayWorkflowRun.isAiStep step).
  - unfold bind.
    pose proof (relayRun_usage env
                  (stepRequest platform input step st) w) as Hu.
    unfold stepRequest in Hu.
    destruct (RelayRun.relayRun env _ w) as [result w1]. cbn [fst snd] in Hu.
    destruct (RelayRun.success result); cbn [negb].
    + destruct (RelayRun.usage result) as [p c t cost] eqn:Hused.
      cbn [fst snd RelayWorkflowRun.stepResults RelayWorkflowRun.totalTokens
           RelayWorkflowRun.totalCost ret].
      eexists. split; [reflexivity|].
      cbn [sr_usage promptTokens completionTokens estimatedProviderCostUsd
           totalTokens] in *.
      split; [by rewrite Hu | reflexivity].
    + cbn [fst snd RelayWorkflowRun.stepResults RelayWorkflowRun.totalTokens
           RelayWorkflowRun.totalCost ret].
      eexists. split; [reflexivity|]. cbn. done.
  - destruct (truthy (mcp step));
      cbn [fst snd RelayWorkflowRun.stepResults RelayWorkflowRun.totalTokens
           RelayWorkflowRun.totalCost ret];
      eexists; (split; [reflexivity|]); cbn; done.
Qed.

(** The loop assigns under the names of its steps only. *)
Lemma runSteps_read_other (todo : list WorkflowStep) :
  forall st w k,
    k ∉ map name todo ->
    JS.read k (RelayWorkflowRun.stepResults
                 (RelayWorkflowRun.runSteps platform env input todo st w).1.2)
    = JS.read k (RelayWorkflowRun.stepResults st).
Proof.
  induction todo as [|s rest IH]; intros st w k Hk; [reflexivity|].
  cbn in Hk. apply not_elem_of_cons in Hk as [Hne Hk].
  rewrite runSteps_cons.
  destruct (runStep_totals s st w) as (result & Hres & _).
  assert (E : String.eqb (name s) k = false) by (apply String.eqb_neq; congruence).
  destruct (RelayWorkflowRun.runStep platform env input s st w)
    as [[[e|] st'] w'] eqn:Hrun; cbn [fst snd] in *.
  - by rewrite Hres, read_assign, E.
  - by rewrite (IH st' w' k Hk), Hres, read_assign, E.
Qed.

Lemma runSteps_totals (todo : list WorkflowStep) :
  forall st w,
    NoDup (map name todo) ->
    (forall s, s ∈ todo -> JS.read (name s) (RelayWorkflowRun.stepResults st) = None) ->
    let r := RelayWorkflowRun.runSteps platform env input todo st w in
    RelayWorkflowRun.totalTokens r.1.2
    = fold_left (addTokens (RelayWorkflowRun.stepResults r.1.2)) todo
                (RelayWorkflowRun.totalTokens st)
    /\ RelayWorkflowRun.totalCost r.1.2
       = fold_left (addCost (RelayWorkflowRun.stepResults r.1.2)) todo
                   (RelayWorkflowRun.totalCost st).
Proof.
  induction todo as [|s rest IH]; intros st w Hnd Hfresh; cbn zeta; [done|].
  cbn in Hnd. apply NoDup_cons in Hnd as [Hs Hnd].
  pose proof (runSteps_read_other rest) as Hother.
  rewrite runSteps_cons.
  destruct (runStep_totals s st w) as (result & Hres & Htok & Hcost).
  assert (Hrest : forall st', RelayWorkflowRun.stepResults st'
                              = JS.assign (name s) result (RelayWorkflowRun.stepResults st) ->
                  forall t, t ∈ rest ->
                            JS.read (name t) (RelayWorkflowRun.stepResults st') = None).
  { intros st' Hst' t Ht. rewrite Hst', read_assign.
    destruct (String.eqb (name s) (name t)) eqn:E; [|apply Hfresh; by right].
    apply String.eqb_eq in E. exfalso. apply Hs. rewrite E.
    by apply list_elem_of_fmap_2. }
  destruct (RelayWorkflowRun.runStep platform env input s st w)
    as [[[e|] st'] w'] eqn:Hrun; cbn [fst snd] in *.
  all: assert (Hhere : forall report,
             JS.read (name s) report = Some result ->
             addTokens report (RelayWorkflowRun.totalTokens st) s
             = RelayWorkflowRun.totalTokens st'
             /\ addCost report (RelayWorkflowRun.totalCost st) s
                = RelayWorkflowRun.totalCost st')
    by (intros report Hread; unfold addTokens, addCost, usageIn;
        rewrite Hread; cbn [mbind option_bind]; by rewrite Htok, Hcost).
  - cbn [fold_left].
    destruct (Hhere (RelayWorkflowRun.stepResults st')) as [-> ->].
    { by rewrite Hres, read_assign, String.eqb_refl. }
    rewrite !fold_left_keeps; [done | |].
    + intros x t Ht. unfold addCost, usageIn. by rewrite (Hrest st' Hres t Ht).
    + intros x t Ht. unfold addTokens, usageIn. by rewrite (Hrest st' Hres t Ht).
  - destruct (IH st' w' Hnd (Hrest st' Hres)) as [IHtok IHcost].
    cbn [fold_left].
    destruct (Hhere (RelayWorkflowRun.stepResults
                       (RelayWorkflowRun.runSteps platform env input rest st' w').1.2))
      as [-> ->]; [|done].
    by rewrite (Hother st' w' (name s) Hs), Hres, read_assign, String.eqb_refl.
Qed.

End Totals.

(** Property X15.  The totals of a workflow response are built from the
    results in its report: they start at zero and, in the order of
    execution, each step adds the usage of the result the report holds
    under its name, the prompt and completion tokens to the total tokens
    and the cost to the total cost; a step without usage, and one that did
    not run, adds nothing. *)
Theorem workflow_totals_add_up
    (platform : Platform) (env : Env)
    (input : RelayWorkflowRun.RelayWorkflowRunInput) (w : World) :
  let response := (RelayWorkflowRun.relayWorkflowRun platform env input w).1 in
  let report := RelayWorkflowRun.steps response in
  match RelayWorkflowRun.topologicalSort (RelayWorkflowRun.wf_steps input) with
  | inr sorted =>
    RelayWorkflowRun.totalUsage_totalTokens response
    = fold_left (addTokens report) sorted 0
    /\ RelayWorkflowRun.totalUsage_estimatedProviderCostUsd response
       = fold_left (addCost report) sorted 0%Q
  | inl _ =>
    RelayWorkflowRun.totalUsage_totalTokens response = 0
    /\ RelayWorkflowRun.totalUsage_estimatedProviderCostUsd response = 0%Q
  end.
Proof.
  cbn zeta. rewrite relayWorkflowRun_eq.
  destruct (RelayWorkflowRun.topologicalSort _) as [e | sorted] eqn:Hsort;
    [done|].
  cbn zeta.
  assert (Hnone : forall total,
             fold_left (addTokens JS.emptyObject) sorted total = total
             /\ forall cost, fold_left (addCost JS.emptyObject) sorted cost = cost).
  { intros total. split; [|intros cost]; apply fold_left_keeps; intros x s _.
    - unfold addTokens, usageIn. by rewrite read_empty.
    - unfold addCost, usageIn. by rewrite read_empty. }
  destruct (Tracker.error _).
  { cbn. rewrite (proj1 (Hnone 0)), (proj2 (Hnone 0)). done. }
  destruct (unconfigured _ _).
  { cbn. rewrite (proj1 (Hnone 0)), (proj2 (Hnone 0)). done. }
  destruct (runSteps_totals platform env (RelayWorkflowRun.wf_input input)
              sorted startState
              (Tracker.checkBudget env
                 (Estimator.estimateWorkflowCost
                    (List.filter RelayWorkflowRun.isAiStep sorted)) w).2)
    as (H1 & H2).
  { by apply topologicalSort_NoDup in Hsort. }
  { intros s _. apply read_empty. }
  cbn [startState RelayWorkflowRun.totalTokens RelayWorkflowRun.totalCost] in H1, H2.
  destruct (RelayWorkflowRun.runSteps _ _ _ _ _ _).1.1;
    cbn [fst snd RelayWorkflowRun.fail succeed bind ret RunStore.addRun
         RelayWorkflowRun.totalUsage_totalTokens
         RelayWorkflowRun.totalUsage_estimatedProviderCostUsd RelayWorkflowRun.steps];
    done.
Qed.

Lemma relayRun_sent (env : Env) (input : RelayRun.RelayRunInput) (w : World) :
  let run := RelayRun.relayRun env input w in
  (RelayRun.success run.1 = true -> length (sent run.2) = S (length (sent w)))
  /\ (length (sent w) <= length (sent run.2) <= S (length (sent w)))%nat.
Proof.
  cbn zeta. rewrite relayRun_eq. cbn [fst snd sent].
  destruct (attempt_outcome env input w);
    cbn [RelayRun.success sent]; rewrite ?(proj2 (recordCost_world _ _ _));
    rewrite ?(proj1 (proj2 (checkBudget_world _ _ _))); cbn [sent];
    rewrite ?length_app; cbn [length]; split; (discriminate || lia).
Qed.

Lemma runStep_sent (platform : Platform) (env : Env) (input : JValue)
    (step : WorkflowStep) (st : RelayWorkflowRun.RunState) (w : World) :
  let r := RelayWorkflowRun.runStep platform env input step st w in
  (r.1.1 = None ->
   length (sent r.2)
   = (length (sent w) + if RelayWorkflowRun.isAiStep step then 1 else 0)%nat)
  /\ (length (sent w) <= length (sent r.2)
      <= length (sent w) + if RelayWorkflowRun.isAiStep step then 1 else 0)%nat.
Proof.
  cbn zeta. unfold RelayWorkflowRun.runStep.
  destruct (RelayWorkflowRun.isAiStep step).
  - unfold bind.
    pose proof (relayRun_sent env (stepRequest platform input step st) w) as Hs.
    unfold stepRequest in Hs. cbn zeta in Hs.
    destruct (RelayRun.relayRun env _ w) as [result w1]. cbn [fst snd] in Hs.
    destruct Hs as [Hok Hle].
    destruct (RelayRun.success result); cbn [negb].
    + destruct (RelayRun.usage result). cbn. split; [intros _; rewrite Hok by done|]; lia.
    + cbn. split; [discriminate | lia].
  - destruct (truthy (mcp step)); cbn; split; lia.
Qed.

Lemma runSteps_sent (platform : Platform) (env : Env) (input : JValue)
    (todo : list WorkflowStep) :
  forall st w,
    let r := RelayWorkflowRun.runSteps platform env input todo st w in
    (r.1.1 = None ->
     length (sent r.2)
     = (length (sent w) + length (List.filter RelayWorkflowRun.isAiStep todo))%nat)
    /\ (length (sent w) <= length (sent r.2)
        <= length (sent w) + length (List.filter RelayWorkflowRun.isAiStep todo))%nat.
Proof.
  induction todo as [|s rest IH]; intros st w; cbn zeta.
  { cbn. split; lia. }
  rewrite runSteps_cons.
  destruct (runStep_sent platform env input s st w) as [Hok Hle].
  destruct (RelayWorkflowRun.runStep platform env input s st w)
    as [[[e|] st'] w']; cbn [fst snd] in *.
  - cbn [List.filter]. split; [discriminate|].
    destruct (RelayWorkflowRun.isAiStep s); cbn [length]; lia.
  - specialize (Hok eq_refl). destruct (IH st' w') as [IHok IHle].
    cbn [List.filter].
    split; [intros H; specialize (IHok H)|];
      destruct (RelayWorkflowRun.isAiStep s); cbn [length]; lia.
Qed.

(** Property X16.  A workflow response that reports success has a
    successful result for every step of the execution order of the engine,
    read under the name of the step, and no error; its report enumerates
    the names of the steps, but for [__proto__]; its final output is the
    output of the result of the last step; the budget check allowed the
    workflow estimate, the provider of every model step is configured, and
    one request per model step went out. *)
Theorem successful_workflow_ran_every_step
    (platform : Platform) (env : Env)
    (input : RelayWorkflowRun.RelayWorkflowRunInput) (w : World) :
  let run := RelayWorkflowRun.relayWorkflowRun platform env input w in
  let report := RelayWorkflowRun.steps run.1 in
  RelayWorkflowRun.success run.1 = true ->
  exists sorted,
    RelayWorkflowRun.topologicalSort (RelayWorkflowRun.wf_steps input) = inr sorted
    /\ (forall step, step ∈ sorted ->
                     exists r, JS.read (name step) report = Some r
                               /\ sr_success r = true)
    /\ map fst (own report) ≡ₚ listed (map name sorted)
    /\ RelayWorkflowRun.error run.1 = None
    /\ (forall lastStep,
          last sorted = Some lastStep ->
          exists r, JS.read (name lastStep) report = Some r
                    /\ RelayWorkflowRun.finalOutput run.1 = sr_output r)
    /\ (sorted = [] -> RelayWorkflowRun.finalOutput run.1 = JUndefined)
    /\ Tracker.allowed
         (Tracker.checkBudget env
            (Estimator.estimateWorkflowCost
               (List.filter RelayWorkflowRun.isAiStep sorted)) w).1 = true
    /\ (forall step, step ∈ sorted -> RelayWorkflowRun.isAiStep step = true ->
                     RelayRun.isProviderConfigured
                       (config env) (RelayWorkflowRun.providerOf step) = true)
    /\ length (sent run.2)
       = (length (sent w) + length (List.filter RelayWorkflowRun.isAiStep sorted))%nat.
Proof.
  cbn zeta. rewrite relayWorkflowRun_eq.
  destruct (RelayWorkflowRun.topologicalSort _) as [e | sorted] eqn:Hsort;
    [discriminate|].
  cbn zeta.
  pose proof (checkBudget_world env
                (Estimator.estimateWorkflowCost
                   (List.filter RelayWorkflowRun.isAiStep sorted)) w) as (_ & Hsent & _).
  destruct (Tracker.error _) eqn:Herr; [discriminate|].
  destruct (unconfigured (config env) sorted) eqn:Hun; [discriminate|].
  pose proof (topologicalSort_NoDup _ _ Hsort) as Hnd.
  pose proof (runSteps_sent platform env (RelayWorkflowRun.wf_input input)
                sorted startState
                (Tracker.checkBudget env
                   (Estimator.estimateWorkflowCost
                      (List.filter RelayWorkflowRun.isAiStep sorted)) w).2) as [Hcount _].
  destruct (RelayWorkflowRun.runSteps _ _ _ _ _ _) as [[[e|] st] w'] eqn:Hloop;
    cbn [fst snd] in *; [discriminate|].
  intros _.
  destruct (runSteps_reads _ _ _ _ _ _ _ _ Hnd Hloop) as [Hin _].
  pose proof (runSteps_keys platform env (RelayWorkflowRun.wf_input input)
                sorted startState _ st w' Hnd (fun _ _ => eq_refl) Hloop) as Hkeys.
  cbn [startState RelayWorkflowRun.stepResults JS.emptyObject own map] in Hkeys.
  rewrite app_nil_r in Hkeys.
  exists sorted.
  cbn [succeed bind ret RunStore.addRun fst snd RelayWorkflowRun.steps
       RelayWorkflowRun.error RelayWorkflowRun.finalOutput sent].
  split_and!; try done.
  - intros lastStep Hlast. unfold finalOutputOf. rewrite Hlast.
    destruct (Hin lastStep) as (r & Hr & _).
    { apply last_Some in Hlast as [l' ->]. apply elem_of_app. right. left. }
    exists r. by rewrite Hr.
  - by intros ->.
  - rewrite checkBudget_eq in Herr |- *. cbn [fst Tracker.allowed Tracker.error] in *.
    by apply bool_decide_eq_true.
  - intros step Hstep Hai. unfold unconfigured in Hun.
    pose proof (find_none _ _ Hun step) as Hf.
    apply negb_false_iff, Hf, filter_In. split; [by apply list_elem_of_In | done].
  - rewrite Hcount by done. by rewrite Hsent.
Qed.

Lemma successful_workflow_witness :
  exists sorted,
    RelayWorkflowRun.topologicalSort stepsAB = inr sorted
    /\ map fst (own (RelayWorkflowRun.steps
                       (RelayWorkflowRun.relayWorkflowRun samplePlatform env0
                          {| RelayWorkflowRun.wf_name := "plain";
                             RelayWorkflowRun.wf_steps := stepsAB;
                             RelayWorkflowRun.wf_input := JObject [] |} world0).1))
       ≡ₚ listed (map name sorted).
Proof.
  destruct (successful_workflow_ran_every_step samplePlatform env0
              {| RelayWorkflowRun.wf_name := "plain";
                 RelayWorkflowRun.wf_steps := stepsAB;
                 RelayWorkflowRun.wf_input := JObject [] |} world0)
    as (sorted & H1 & _ & H2 & _).
  - vm_compute. reflexivity.
  - exists sorted. split; [exact H1 | exact H2].
Defined.

Lemma find_first {A} (f : A -> bool) (pre post : list A) (x : A) :
  (forall y, y ∈ pre -> f y = false) -> f x = true ->
  List.find f (pre ++ x :: post) = Some x.
Proof.
  intros Hpre Hx. induction pre as [|y pre IH]; cbn; [by rewrite Hx|].
  rewrite (Hpre y) by left. apply IH. intros z Hz. apply Hpre. by right.
Qed.

Lemma filter_app_cons (f : WorkflowStep -> bool) (pre post : list WorkflowStep)
    (x : WorkflowStep) :
  f x = true ->
  List.filter f (pre ++ x :: post) = List.filter f pre ++ x :: List.filter f post.
Proof. intros Hx. rewrite List.filter_app. cbn. by rewrite Hx. Qed.

(** Property X17.  When the budget allows the workflow but the provider of
    a model step has no key, [relayWorkflowRun] fails before it runs any step
    and names the first such step of the execution order: no step result, no
    tokens, nothing sent, the budget only checked. *)
Theorem workflow_needs_every_provider_configured
    (platform : Platform) (env : Env)
    (input : RelayWorkflowRun.RelayWorkflowRunInput) (w : World)
    (before after : list WorkflowStep) (step : WorkflowStep) :
  let estimate :=
    Estimator.estimateWorkflowCost
      (List.filter RelayWorkflowRun.isAiStep (before ++ step :: after)) in
  let run := RelayWorkflowRun.relayWorkflowRun platform env input w in
  RelayWorkflowRun.topologicalSort (RelayWorkflowRun.wf_steps input)
  = inr (before ++ step :: after) ->
  Tracker.allowed (Tracker.checkBudget env estimate w).1 = true ->
  RelayWorkflowRun.isAiStep step = true ->
  RelayRun.isProviderConfigured (config env) (RelayWorkflowRun.providerOf step) = false ->
  (forall s, s ∈ before -> RelayWorkflowRun.isAiStep s = true ->
             RelayRun.isProviderConfigured
               (config env) (RelayWorkflowRun.providerOf s) = true) ->
  RelayWorkflowRun.success run.1 = false
  /\ RelayWorkflowRun.error run.1
     = Some (StepProviderNotConfigured (RelayWorkflowRun.providerOf step) (name step))
  /\ RelayWorkflowRun.steps run.1 = JS.emptyObject
  /\ RelayWorkflowRun.totalUsage_totalTokens run.1 = 0
  /\ sent run.2 = sent w
  /\ budgetState run.2 = budgetAfter env [CallCheck estimate] w.
Proof.
  cbn zeta. intros Hsort Hallowed Hai Hnot Hbefore.
  rewrite relayWorkflowRun_eq, Hsort. cbn zeta.
  destruct (checkBudget_world env
              (Estimator.estimateWorkflowCost
                 (List.filter RelayWorkflowRun.isAiStep (before ++ step :: after))) w)
    as (_ & Hsent & Hbudget).
  assert (Herr : Tracker.error
                   (Tracker.checkBudget env
                      (Estimator.estimateWorkflowCost
                         (List.filter RelayWorkflowRun.isAiStep (before ++ step :: after)))
                      w).1 = None).
  { rewrite checkBudget_eq in Hallowed |- *. cbn [fst Tracker.allowed Tracker.error] in *.
    by apply bool_decide_eq_true in Hallowed. }
  rewrite Herr.
  assert (Hun : unconfigured (config env) (before ++ step :: after) = Some step).
  { unfold unconfigured. rewrite filter_app_cons by done. apply find_first.
    - intros s Hs. apply list_elem_of_In, filter_In in Hs as [Hs Hsai].
      apply negb_false_iff, Hbefore; [by apply list_elem_of_In | done].
    - by rewrite Hnot. }
  rewrite Hun. cbn. done.
Qed.

Lemma workflow_needs_provider_witness :
  RelayWorkflowRun.error
    (RelayWorkflowRun.relayWorkflowRun samplePlatform env0 workflowAB world0).1
  = Some (StepProviderNotConfigured "openai" "A").
Proof.
  apply (workflow_needs_every_provider_configured samplePlatform env0 workflowAB
           world0 []
           [aiStep "B" "openai:gpt-4o-mini" "Repeat {{steps.A.output}}" ["A"]]
           (aiStep "A" "openai:gpt-4o-mini" "Say {{input.word}}" [])).
  - vm_compute. reflexivity.
  - vm_compute. reflexivity.
  - reflexivity.
  - reflexivity.
  - intros s Hs. by apply elem_of_nil in Hs.
Defined.

Lemma exec_forEach_error {S} (body : string -> S -> option (Message + S))
    (P : Message -> Prop) (ds : list string) :
  (forall d st e, body d st = Some (inl e) -> P e) ->
  forall st e, RelayWorkflowRun.forEach body ds st = Some (inl e) -> P e.
Proof.
  intros Hbody. induction ds as [|d ds IH]; intros st e; [discriminate|].
  cbn. destruct (body d st) as [[e' | st']|] eqn:Hd; [|by apply IH | discriminate].
  intros [= <-]. by eapply Hbody.
Qed.

Lemma exec_visit_error (m : gmap string WorkflowStep) (fuel : nat) :
  forall n st e,
    RelayWorkflowRun.visit m fuel n st = Some (inl e) ->
    exists s, e = CircularDependency s \/ (e = StepNotFound s /\ m !! s = None).
Proof.
  induction fuel as [|fuel IH]; intros n st e; [discriminate|].
  cbn [RelayWorkflowRun.visit].
  destruct (decide (n ∈ RelayWorkflowRun.visited st)); [discriminate|].
  destruct (decide (n ∈ RelayWorkflowRun.visiting st)); [intros [= <-]; eauto|].
  destruct (m !! n) as [step|] eqn:Hm; [|intros [= <-]; eauto].
  destruct (RelayWorkflowRun.forEach _ _ _) as [[e' | st']|] eqn:Hfor; [|discriminate..].
  intros [= <-].
  apply (exec_forEach_error _
           (fun e => exists s, e = CircularDependency s
                               \/ (e = StepNotFound s /\ m !! s = None)))
    in Hfor; [exact Hfor|].
  intros d st0 e0. apply IH.
Qed.

(** Property X18.  A workflow whose steps cannot be ordered (a cycle, or a
    dependency on a step that is not in the list) fails with the message of
    the sort before the budget is looked at: no step runs, nothing is sent,
    and the budget state and the clock are untouched. *)
Theorem unsortable_workflow_costs_nothing
    (platform : Platform) (env : Env)
    (input : RelayWorkflowRun.RelayWorkflowRunInput) (w : World) (e : Message) :
  let run := RelayWorkflowRun.relayWorkflowRun platform env input w in
  RelayWorkflowRun.topologicalSort (RelayWorkflowRun.wf_steps input) = inl e ->
  RelayWorkflowRun.success run.1 = false
  /\ RelayWorkflowRun.error run.1 = Some e
  /\ RelayWorkflowRun.steps run.1 = JS.emptyObject
  /\ budgetState run.2 = budgetState w
  /\ clockReads run.2 = clockReads w
  /\ sent run.2 = sent w
  /\ (exists s, e = CircularDependency s
                \/ (e = StepNotFound s
                    /\ s ∉ stepNames (RelayWorkflowRun.wf_steps input))).
Proof.
  cbn zeta. intros Hsort. rewrite relayWorkflowRun_eq, Hsort. cbn.
  split_and!; try done.
  pose proof (topologicalSortWith_enough (RelayWorkflowRun.wf_steps input)) as Hen.
  rewrite Hsort in Hen. unfold RelayWorkflowRun.topologicalSortWith in Hen.
  destruct (RelayWorkflowRun.forEach _ _ _) as [[e' | st']|] eqn:Hfor; [|discriminate..].
  injection Hen as ->.
  apply (exec_forEach_error _
           (fun e => exists s, e = CircularDependency s
                               \/ (e = StepNotFound s
                                   /\ s ∉ stepNames (RelayWorkflowRun.wf_steps input))))
    in Hfor; [exact Hfor|].
  intros d st e0 Hv. apply exec_visit_error in Hv as (s & [-> | [-> Hm]]); exists s;
    [by left|]. right. split; [reflexivity|].
  apply not_elem_of_dom in Hm. rewrite dom_stepMap in Hm.
  unfold nameSet in Hm. by rewrite elem_of_list_to_set in Hm.
Qed.

Lemma unsortable_workflow_witness :
  RelayWorkflowRun.error
    (RelayWorkflowRun.relayWorkflowRun samplePlatform env0
       {| RelayWorkflowRun.wf_name := "unknown";
          RelayWorkflowRun.wf_steps := stepsUnknown;
          RelayWorkflowRun.wf_input := JObject [] |} world0).1
  = Some (StepNotFound "X").
Proof.
  apply (unsortable_workflow_costs_nothing samplePlatform env0
           {| RelayWorkflowRun.wf_name := "unknown";
              RelayWorkflowRun.wf_steps := stepsUnknown;
              RelayWorkflowRun.wf_input := JObject [] |} world0 (StepNotFound "X")).
  vm_compute. reflexivity.
Defined.

(** Property X19.  Every call of [relayWorkflowRun] ends by adding one
    workflow record to the run store, with the name, success flag, totals,
    step results and error of the response; a failure has the final output
    [null]; the run heads the next listing. *)
Theorem relayWorkflowRun_files_its_run
    (platform : Platform) (env : Env)
    (input : RelayWorkflowRun.RelayWorkflowRunInput) (w : World) :
  let run := RelayWorkflowRun.relayWorkflowRun platform env input w in
  let filed :=
    {| rr_type := workflow; rr_model := None;
       rr_workflowName := Some (RelayWorkflowRun.wf_name input);
       rr_success := RelayWorkflowRun.success run.1;
       rr_usage := mkUsage 0 0 (RelayWorkflowRun.totalUsage_totalTokens run.1)
                     (RelayWorkflowRun.totalUsage_estimatedProviderCostUsd run.1);
       rr_output := if RelayWorkflowRun.success run.1
                    then RelayWorkflowRun.finalOutput run.1 else JUndefined;
       rr_steps := Some (RelayWorkflowRun.steps run.1);
       rr_error := RelayWorkflowRun.error run.1 |} in
  (exists earlier, runs run.2 = RunStore.added filed earlier)
  /\ (RelayWorkflowRun.success run.1 = true <-> RelayWorkflowRun.error run.1 = None)
  /\ (RelayWorkflowRun.success run.1 = false ->
      RelayWorkflowRun.finalOutput run.1 = JNull)
  /\ (forall requested listing,
        (RelayRunsList.relay_runs_list requested run.2).1 = Some listing ->
        hd_error (RelayRunsList.lr_runs listing) = Some (RelayRunsList.summary filed)).
Proof.
  cbn zeta.
  assert (H : exists earlier,
             runs (RelayWorkflowRun.relayWorkflowRun platform env input w).2
             = RunStore.added
                 {| rr_type := workflow; rr_model := None;
                    rr_workflowName := Some (RelayWorkflowRun.wf_name input);
                    rr_success := RelayWorkflowRun.success
                                    (RelayWorkflowRun.relayWorkflowRun platform env input w).1;
                    rr_usage :=
                      mkUsage 0 0
                        (RelayWorkflowRun.totalUsage_totalTokens
                           (RelayWorkflowRun.relayWorkflowRun platform env input w).1)
                        (RelayWorkflowRun.totalUsage_estimatedProviderCostUsd
                           (RelayWorkflowRun.relayWorkflowRun platform env input w).1);
                    rr_output :=
                      if RelayWorkflowRun.success
                           (RelayWorkflowRun.relayWorkflowRun platform env input w).1
                      then RelayWorkflowRun.finalOutput
                             (RelayWorkflowRun.relayWorkflowRun platform env input w).1
                      else JUndefined;
                    rr_steps :=
                      Some (RelayWorkflowRun.steps
                              (RelayWorkflowRun.relayWorkflowRun platform env input w).1);
                    rr_error :=
                      RelayWorkflowRun.error
                        (RelayWorkflowRun.relayWorkflowRun platform env input w).1 |}
                 earlier
             /\ (RelayWorkflowRun.success
                   (RelayWorkflowRun.relayWorkflowRun platform env input w).1 = true
                 <-> RelayWorkflowRun.error
                       (RelayWorkflowRun.relayWorkflowRun platform env input w).1 = None)
             /\ (RelayWorkflowRun.success
                   (RelayWorkflowRun.relayWorkflowRun platform env input w).1 = false ->
                 RelayWorkflowRun.finalOutput
                   (RelayWorkflowRun.relayWorkflowRun platform env input w).1 = JNull)).
  { rewrite relayWorkflowRun_eq.
    destruct (RelayWorkflowRun.topologicalSort _) as [e | sorted];
      [eexists; cbn; split_and!; done|].
    cbn zeta. destruct (Tracker.error _); [eexists; cbn; split_and!; done|].
    destruct (unconfigured _ _); [eexists; cbn; split_and!; done|].
    destruct (RelayWorkflowRun.runSteps _ _ _ _ _ _).1.1;
      eexists; cbn; split_and!; done. }
  destruct H as (earlier & Hruns & Hiff & Hnull).
  split_and!; [by exists earlier | exact Hiff | exact Hnull |].
  intros requested listing. by apply relay_runs_list_head with (store := earlier).
Qed.

(** ** Runs by identifier *)

Lemma history_added_take (run : RunHistory.StoredRun) (store : list RunHistory.StoredRun) :
  RunHistory.added run store = take RunStore.MAX_RUNS (run :: store).
Proof.
  unfold RunHistory.added.
  destruct (RunStore.MAX_RUNS <? length (run :: store))%nat eqn:E.
  - rewrite slice0_nonneg by (vm_compute; discriminate). reflexivity.
  - apply Nat.ltb_ge in E. by rewrite take_ge.
Qed.

Lemma addedAll_take (newer store : list RunHistory.StoredRun) :
  newer <> [] ->
  addedAll newer store = take RunStore.MAX_RUNS (reverse newer ++ store).
Proof.
  intros Hne. destruct newer as [|r newer]; [done|]. clear Hne.
  revert r store. induction newer as [|r' newer IH]; intros r store.
  - cbn. apply history_added_take.
  - change (addedAll (r :: r' :: newer) store)
      with (addedAll (r' :: newer) (RunHistory.added r store)).
    rewrite IH, history_added_take, take_app_take.
    by rewrite (reverse_cons _ r), <- app_assoc.
Qed.

Lemma find_app {A} (f : A -> bool) (l1 l2 : list A) :
  List.find f (l1 ++ l2)
  = match List.find f l1 with Some x => Some x | None => List.find f l2 end.
Proof. induction l1 as [|a l IH]; cbn; [done|]. by destruct (f a). Qed.

Lemma getRunById_absent (id : string) (l : list RunHistory.StoredRun) :
  id ∉ map RunHistory.runId l -> RunHistory.getRunById id l = None.
Proof.
  unfold RunHistory.getRunById. induction l as [|r l IH]; intros H; [done|].
  cbn in H |- *. apply not_elem_of_cons in H as [Hne H].
  destruct (String.eqb (RunHistory.runId r) id) eqn:E;
    [apply String.eqb_eq in E; congruence | by apply IH].
Qed.

Lemma getRunById_Some (id : string) (l : list RunHistory.StoredRun)
    (r : RunHistory.StoredRun) :
  RunHistory.getRunById id l = Some r ->
  exists i, l !! i = Some r /\ RunHistory.runId r = id
            /\ forall j r', (j < i)%nat -> l !! j = Some r' -> RunHistory.runId r' <> id.
Proof.
  unfold RunHistory.getRunById. induction l as [|a l IH]; [discriminate|]. cbn.
  destruct (String.eqb (RunHistory.runId a) id) eqn:E.
  - intros [= <-]. apply String.eqb_eq in E. exists 0%nat.
    split_and!; [done.. |]. intros j r' Hj. lia.
  - intros H. destruct (IH H) as (i & Hi & Hid & Hfirst). exists (S i).
    split_and!; [done.. |]. intros [|j] r' Hj; cbn.
    + intros [= <-]. by apply String.eqb_neq in E.
    + apply Hfirst. lia.
Qed.

(** Property X21.  A stored run is found by its identifier as soon as it is
    added, and as long as fewer than [MAX_RUNS] runs with other identifiers
    were added after it; then it is gone.  The store never holds more than
    [MAX_RUNS] runs; [relayRunGet] reports found exactly for the identifiers
    in the store, and a run it returns has the identifier asked for and no
    error. *)
Theorem stored_run_is_found_until_evicted
    (store newer : list RunHistory.StoredRun) (run : RunHistory.StoredRun) :
  let now := RunHistory.added run store in
  let later := addedAll newer now in
  RunHistory.getRunById (RunHistory.runId run) now = Some run
  /\ RunHistory.found (RunHistory.relayRunGet (RunHistory.runId run) now) = true
  /\ (length later <= RunStore.MAX_RUNS)%nat
  /\ (RunHistory.runId run ∉ map RunHistory.runId newer ->
      RunHistory.getRunById (RunHistory.runId run) later
      = if (length newer <? RunStore.MAX_RUNS)%nat then Some run else None)
  /\ (forall id,
        RunHistory.found (RunHistory.relayRunGet id later) = true
        <-> id ∈ map RunHistory.runId later)
  /\ (forall id details,
        RunHistory.run (RunHistory.relayRunGet id later) = Some details ->
        RunHistory.rd_runId details = id
        /\ RunHistory.found (RunHistory.relayRunGet id later) = true
        /\ RunHistory.error (RunHistory.relayRunGet id later) = None).
Proof.
  cbn zeta.
  assert (Hnow : RunHistory.getRunById (RunHistory.runId run)
                   (RunHistory.added run store) = Some run).
  { rewrite history_added_take. unfold RunHistory.getRunById. cbn.
    by rewrite String.eqb_refl. }
  split; [exact Hnow|]. split; [unfold RunHistory.relayRunGet; by rewrite Hnow|].
  split.
  { destruct newer as [|r newer]; [cbn; rewrite history_added_take|
                                   rewrite addedAll_take by done];
      rewrite length_take; lia. }
  split; [|split].
  - intros Hfresh. destruct newer as [|r newer].
    { cbn [addedAll fold_left length]. exact Hnow. }
    rewrite addedAll_take by done. rewrite history_added_take.
    rewrite (take_app_take RunStore.MAX_RUNS (reverse (r :: newer)) (run :: store)).
    assert (Hlen : length (reverse (r :: newer)) = length (r :: newer))
      by apply length_reverse.
    assert (Habs : RunHistory.runId run ∉ map RunHistory.runId (reverse (r :: newer))).
    { intros Hin. apply Hfresh. apply list_elem_of_fmap in Hin as (x & Hx & Hin).
      apply list_elem_of_fmap. exists x. split; [done|]. by rewrite elem_of_reverse in Hin. }
    destruct (length (r :: newer) <? RunStore.MAX_RUNS)%nat eqn:E.
    + apply Nat.ltb_lt in E.
      rewrite take_app_ge by lia.
      unfold RunHistory.getRunById. rewrite find_app.
      fold (RunHistory.getRunById (RunHistory.runId run) (reverse (r :: newer))).
      rewrite getRunById_absent by done.
      destruct (RunStore.MAX_RUNS - length (reverse (r :: newer)))%nat eqn:En; [lia|].
      cbn. by rewrite String.eqb_refl.
    + apply Nat.ltb_ge in E. rewrite take_app_le by lia.
      apply getRunById_absent. intros Hin. apply Habs.
      apply list_elem_of_fmap in Hin as (x & Hx & Hin).
      apply list_elem_of_fmap. exists x. split; [done|].
      apply elem_of_take in Hin as (i & Hi & _). by eapply list_elem_of_lookup_2.
  - intros id. unfold RunHistory.relayRunGet.
    destruct (RunHistory.getRunById id (addedAll newer (RunHistory.added run store)))
      as [r|] eqn:E; cbn [RunHistory.found].
    + apply getRunById_Some in E as (i & Hi & Hid & _). split; [intros _|done].
      apply list_elem_of_fmap. exists r. split; [done|]. by eapply list_elem_of_lookup_2.
    + split; [discriminate|]. intros Hin.
      apply list_elem_of_fmap in Hin as (r & -> & Hin).
      unfold RunHistory.getRunById in E.
      apply list_elem_of_In in Hin. apply (find_none _ _ E r) in Hin.
      by rewrite String.eqb_refl in Hin.
  - intros id details. unfold RunHistory.relayRunGet.
    destruct (RunHistory.getRunById id (addedAll newer (RunHistory.added run store)))
      as [r|] eqn:E; cbn; [|discriminate].
    apply getRunById_Some in E as (_ & _ & Hid & _). intros [= <-]. done.
Qed.

Lemma getRunById_NoDup (store : list RunHistory.StoredRun) (i : nat)
    (run : RunHistory.StoredRun) :
  NoDup (map RunHistory.runId store) -> store !! i = Some run ->
  RunHistory.getRunById (RunHistory.runId run) store = Some run.
Proof.
  unfold RunHistory.getRunById. revert i.
  induction store as [|a l IH]; intros i Hnd Hi; [done|].
  cbn in Hnd. apply NoDup_cons in Hnd as [Ha Hnd]. cbn.
  destruct i as [|i]; cbn in Hi.
  - injection Hi as ->. by rewrite String.eqb_refl.
  - destruct (String.eqb (RunHistory.runId a) (RunHistory.runId run)) eqn:E;
      [|by eapply IH].
    apply String.eqb_eq in E. exfalso. apply Ha. rewrite E.
    apply list_elem_of_fmap. exists run. split; [done|].
    by eapply list_elem_of_lookup_2.
Qed.

Lemma slice0_prefix {A} (l : list A) (q : Q) : exists k, JS.slice0 l q = take k l.
Proof. unfold JS.slice0. eauto. Qed.

Lemma slice0_map {A B} (f : A -> B) (l : list A) (q : Q) :
  map f (JS.slice0 l q) = JS.slice0 (map f l) q.
Proof. unfold JS.slice0. by rewrite length_map, <- fmap_take. Qed.

(** Property X22.  With distinct identifiers every stored run can be fetched
    by its identifier, also those no listing shows: a run at position 50 or
    later is in no listing of a limit that is not negative, and every listed
    run can be fetched.  Adding and listing agree with the run store. *)
Theorem fetch_reaches_beyond_the_listing
    (store : list RunHistory.StoredRun) (limit : option Q) (i : nat)
    (run : RunHistory.StoredRun) :
  NoDup (map RunHistory.runId store) ->
  store !! i = Some run ->
  RunHistory.getRunById (RunHistory.runId run) store = Some run
  /\ ((forall l, limit = Some l -> (0 <= l)%Q) -> (50 <= i)%nat ->
      run ∉ RunHistory.recent limit store)
  /\ (forall listed, listed ∈ RunHistory.recent limit store ->
                     RunHistory.getRunById (RunHistory.runId listed) store = Some listed)
  /\ map RunHistory.record (RunHistory.recent limit store)
     = RunStore.recent limit (map RunHistory.record store)
  /\ map RunHistory.record (RunHistory.added run store)
     = RunStore.added (RunHistory.record run) (map RunHistory.record store).
Proof.
  intros Hnd Hi. split_and!.
  - by eapply getRunById_NoDup.
  - intros Hl H50 Hin. unfold RunHistory.recent in Hin.
    set (q := Qmin (default (10 : Q) limit) 50) in *.
    assert (Hq : (0 <= q)%Q).
    { apply Q.min_glb; [|discriminate]. destruct limit as [l|]; [by apply Hl | discriminate]. }
    rewrite slice0_nonneg in Hin by done.
    assert (Hk : (Z.to_nat (JS.toInteger q) <= 50)%nat).
    { pose proof (toInteger_le q Hq) as Hle.
      pose proof (Q.le_min_r (default (10 : Q) limit) 50) as Hmin. fold q in Hmin.
      assert (Hz : (inject_Z (JS.toInteger q) <= inject_Z 50)%Q)
        by (change (inject_Z 50) with 50%Q; lra).
      rewrite <- Zle_Qle in Hz. lia. }
    apply elem_of_take in Hin as (j & Hj & Hlt).
    assert (i = j); [|lia].
    eapply (NoDup_lookup (map RunHistory.runId store)); [exact Hnd | |].
    + by rewrite list_lookup_fmap, Hi.
    + by rewrite list_lookup_fmap, Hj.
  - intros listed Hin. unfold RunHistory.recent in Hin.
    destruct (slice0_prefix store (Qmin (default (10 : Q) limit) 50)) as [k Hk].
    rewrite Hk in Hin. apply elem_of_take in Hin as (j & Hj & _).
    by eapply getRunById_NoDup.
  - unfold RunHistory.recent, RunStore.recent. apply slice0_map.
  - unfold RunHistory.added, RunStore.added. cbn [length map]. rewrite length_map.
    destruct (RunStore.MAX_RUNS <? S (length store))%nat; [|reflexivity].
    apply (slice0_map RunHistory.record (run :: store)).
Qed.

Lemma fetch_beyond_listing_witness :
  RunHistory.getRunById "r2"
    [RunHistory.mkStored "r1" (sampleRun "a"); RunHistory.mkStored "r2" (sampleRun "b")]
  = Some (RunHistory.mkStored "r2" (sampleRun "b")).
Proof.
  apply (fetch_reaches_beyond_the_listing
           [RunHistory.mkStored "r1" (sampleRun "a"); RunHistory.mkStored "r2" (sampleRun "b")]
           None 1 (RunHistory.mkStored "r2" (sampleRun "b"))).
  - cbn. repeat constructor; set_solver.
  - reflexivity.
Defined.

(** ** The validation report *)

Lemma occurrences_cons (n : string) (s : WorkflowStep) (l : list WorkflowStep) :
  occurrences n (s :: l)
  = (if String.eqb (name s) n then 1 else 0) + occurrences n l.
Proof.
  unfold occurrences. cbn [List.filter].
  destruct (String.eqb (name s) n); cbn [length]; lia.
Qed.

Lemma occurrences_nonneg (n : string) (l : list WorkflowStep) : 0 <= occurrences n l.
Proof. unfold occurrences. lia. Qed.

Lemma occurrences_zero (n : string) (l : list WorkflowStep) :
  occurrences n l = 0 <-> n ∉ stepNames l.
Proof.
  unfold stepNames. induction l as [|s l IH]; [split; [intros _; apply not_elem_of_nil | done]|].
  rewrite occurrences_cons. cbn [map]. rewrite not_elem_of_cons, <- IH.
  pose proof (occurrences_nonneg n l).
  destruct (String.eqb (name s) n) eqn:E.
  - apply String.eqb_eq in E. split; [lia | intros [Hne _]; congruence].
  - apply String.eqb_neq in E. split; [intros; split; [congruence | lia] | intros [_ H0]; lia].
Qed.

Lemma nameCount_from (steps : list WorkflowStep) :
  forall counts,
    NoDup (map fst counts) ->
    let result :=
      fold_left
        (fun counts step =>
           JS.set (name step) (default 0 (JS.lookup (name step) counts) + 1) counts)
        steps counts in
    NoDup (map fst result)
    /\ forall n, JS.lookup n result
                 = if occurrences n steps =? 0 then JS.lookup n counts
                   else Some (default 0 (JS.lookup n counts) + occurrences n steps).
Proof.
  induction steps as [|s l IH]; intros counts Hnd; cbn zeta.
  { split; [done|]. intros n. reflexivity. }
  cbn [fold_left].
  destruct (IH (JS.set (name s) (default 0 (JS.lookup (name s) counts) + 1) counts))
    as [Hnd' Hlook]; [by apply set_keys_NoDup|].
  split; [exact Hnd'|]. intros n. rewrite Hlook, occurrences_cons.
  pose proof (occurrences_nonneg n l) as Hl.
  destruct (String.eqb (name s) n) eqn:E.
  - apply String.eqb_eq in E. subst n. rewrite lookup_set_eq. cbn [default].
    destruct (occurrences (name s) l =? 0) eqn:E0.
    + apply Z.eqb_eq in E0. rewrite E0. cbn. f_equal.
    + apply Z.eqb_neq in E0.
      destruct (1 + occurrences (name s) l =? 0) eqn:E1; [apply Z.eqb_eq in E1; lia|].
      apply (f_equal Some). unfold id. lia.
  - apply String.eqb_neq in E. rewrite lookup_set_ne by done. reflexivity.
Qed.

Lemma nameCount_spec (steps : list WorkflowStep) :
  NoDup (map fst (RelayWorkflowValidate.nameCount steps))
  /\ forall n, JS.lookup n (RelayWorkflowValidate.nameCount steps)
               = if occurrences n steps =? 0 then None else Some (occurrences n steps).
Proof.
  destruct (nameCount_from steps []) as [H1 H2]; [constructor|].
  split; [exact H1|]. intros n. unfold RelayWorkflowValidate.nameCount.
  rewrite (H2 n). cbn. by destruct (occurrences n steps =? 0).
Qed.

Lemma occurrences_NoDup (steps : list WorkflowStep) :
  NoDup (stepNames steps) <-> forall n, occurrences n steps <= 1.
Proof.
  induction steps as [|s l IH].
  - split; [intros _ n; unfold occurrences; cbn [List.filter length]; lia | constructor].
  - unfold stepNames in *. cbn [map]. rewrite NoDup_cons, IH.
    fold (stepNames l). rewrite <- occurrences_zero. split.
    + intros [Hs Hl] n. rewrite occurrences_cons. specialize (Hl n).
      destruct (String.eqb (name s) n) eqn:E; [|lia].
      apply String.eqb_eq in E. subst n. lia.
    + intros H. split.
      * specialize (H (name s)). rewrite occurrences_cons, String.eqb_refl in H.
        pose proof (occurrences_nonneg (name s) l). lia.
      * intros n. specialize (H n). rewrite occurrences_cons in H.
        destruct (String.eqb (name s) n); lia.
Qed.

Lemma flat_map_nil {A B} (f : A -> list B) (l : list A) :
  flat_map f l = [] <-> forall x, x ∈ l -> f x = [].
Proof.
  induction l as [|a l IH]; cbn.
  - split; [intros _ x Hx; by apply elem_of_nil in Hx | done].
  - split.
    + intros H. apply app_eq_nil in H as [Ha Hl]. intros x Hx.
      apply elem_of_cons in Hx as [-> | Hx]; [done | by apply IH].
    + intros H. rewrite (H a) by left. apply IH. intros x Hx. apply H. by right.
Qed.

Lemma duplicateErrors_nil (steps : list WorkflowStep) :
  RelayWorkflowValidate.duplicateErrors steps = [] <-> NoDup (stepNames steps).
Proof.
  rewrite occurrences_NoDup. destruct (nameCount_spec steps) as [Hnd Hlook].
  unfold RelayWorkflowValidate.duplicateErrors. rewrite flat_map_nil. split.
  - intros Hnil n. specialize (Hlook n).
    destruct (occurrences n steps =? 0) eqn:E0; [apply Z.eqb_eq in E0; lia|].
    apply lookup_Some_elem in Hlook. specialize (Hnil _ Hlook). cbn in Hnil.
    destruct (1 <? occurrences n steps) eqn:E; [discriminate|]. by apply Z.ltb_ge in E.
  - intros Hle [n c] Hin. cbn. apply elem_lookup in Hin; [|done].
    rewrite Hlook in Hin. specialize (Hle n).
    destruct (occurrences n steps =? 0); [discriminate|]. injection Hin as <-.
    destruct (1 <? occurrences n steps) eqn:E; [apply Z.ltb_lt in E; lia | done].
Qed.

(** ** Parallel groups *)

Lemma max_attained (ls : list Z) :
  ls <> [] -> foldr Z.max (-1) ls ∈ ls \/ foldr Z.max (-1) ls = -1.
Proof.
  induction ls as [|a ls IH]; [done|]. intros _. cbn [foldr].
  destruct ls as [|b ls].
  - cbn. destruct (Z.max_spec a (-1)) as [[_ ->] | [_ ->]]; [by right | left; left].
  - destruct IH as [IH | IH]; [done | |].
    + destruct (Z.max_spec a (foldr Z.max (-1) (b :: ls))) as [[_ ->] | [_ ->]];
        [left; by right | left; left].
    + destruct (Z.max_spec a (foldr Z.max (-1) (b :: ls))) as [[_ ->] | [_ ->]];
        [by right | left; left].
Qed.

Lemma max_upper (ls : list Z) (x : Z) : x ∈ ls -> x <= foldr Z.max (-1) ls.
Proof.
  induction ls as [|a ls IH]; intros Hx; [by apply elem_of_nil in Hx|].
  cbn [foldr]. apply elem_of_cons in Hx as [-> | Hx]; [lia|]. specialize (IH Hx). lia.
Qed.

Section LevelFacts.

Context (steps : list WorkflowStep).
Context (Hunique : NoDup (stepNames steps)).
Context (Hacyclic : forall s, ~ tc (dependsOn steps) s s).

Local Abbreviation m := (RelayWorkflowValidate.stepMap steps).

Lemma map_depends (n : string) :
  (m !! n) ≫= depends
  = match depsOf steps n with
    | [] => match (m !! n) ≫= depends with Some [] => Some [] | _ => None end
    | ds => Some ds
    end.
Proof.
  change (RelayWorkflowValidate.stepMap steps) with (RelayWorkflowRun.stepMap steps).
  rewrite (stepMap_lookup steps Hunique). unfold depsOf.
  destruct (RelayWorkflowValidate.findStep steps n) as [step|]; cbn; [|done].
  by destruct (depends step) as [[|d ds]|].
Qed.

Lemma LevelsOk_snoc (levels : list (string * Z)) (n : string) (l : Z) :
  LevelsOk steps levels -> n ∉ map fst levels -> 0 <= l ->
  (depsOf steps n = [] -> l = 0) ->
  (depsOf steps n <> [] ->
   (forall d, d ∈ depsOf steps n -> exists ld, (d, ld) ∈ levels /\ ld < l)
   /\ exists d, d ∈ depsOf steps n /\ (d, l - 1) ∈ levels) ->
  LevelsOk steps (levels ++ [(n, l)]).
Proof.
  intros [Hnd Hok] Hn Hl H0 H1. split.
  - rewrite map_app. cbn. apply NoDup_app. split_and!; [done | | apply NoDup_singleton].
    intros x Hx Hx'. apply list_elem_of_singleton in Hx'. by subst.
  - intros n' l' Hin. apply elem_of_app in Hin as [Hin | Hin].
    + destruct (Hok n' l' Hin) as (Ha & Hb & Hc). split_and!; [done.. |].
      intros Hne. destruct (Hc Hne) as [Hall [d [Hd Hmax]]]. split.
      * intros d' Hd'. destruct (Hall d' Hd') as (ld & Hld & Hlt).
        exists ld. split; [|done]. apply elem_of_app. by left.
      * exists d. split; [done|]. apply elem_of_app. by left.
    + apply list_elem_of_singleton in Hin. injection Hin as -> ->.
      split_and!; [done.. |]. intros Hne. destruct (H1 Hne) as [Hall [d [Hd Hmax]]]. split.
      * intros d' Hd'. destruct (Hall d' Hd') as (ld & Hld & Hlt).
        exists ld. split; [|done]. apply elem_of_app. by left.
      * exists d. split; [done|]. apply elem_of_app. by left.
Qed.

Lemma mapLevels_levelled (f : string -> list (string * Z) -> option (Z * list (string * Z)))
    (ds : list string) :
  (forall d levels l levels',
      d ∈ ds -> LevelsOk steps levels -> f d levels = Some (l, levels') ->
      Levelled steps d levels l levels') ->
  forall levels ls levels',
    LevelsOk steps levels ->
    RelayWorkflowValidate.mapLevels f ds levels = Some (ls, levels') ->
    LevelsOk steps levels'
    /\ Forall2 (fun d l => (d, l) ∈ levels') ds ls
    /\ exists ext, levels' = levels ++ ext
                   /\ forall k, k ∈ map fst ext ->
                                exists d, d ∈ ds /\ rtc (dependsOn steps) d k.
Proof.
  induction ds as [|d ds IH]; intros Hf levels ls levels' Hok.
  - cbn. intros [= <- <-]. split_and!; [done | constructor |].
    exists []. rewrite app_nil_r. split; [done|]. intros k Hk. by apply elem_of_nil in Hk.
  - cbn [RelayWorkflowValidate.mapLevels].
    destruct (f d levels) as [[l levels1]|] eqn:Hd; [|discriminate].
    destruct (RelayWorkflowValidate.mapLevels f ds levels1) as [[ls' levels2]|] eqn:Hr;
      [|discriminate].
    intros [= <- <-].
    destruct (Hf d levels l levels1) as (Hok1 & Hin1 & ext1 & -> & Hext1); [left | done..|].
    destruct (IH (fun d' lv l' lv' Hd' => Hf d' lv l' lv' (list_elem_of_further _ _ _ Hd'))
                 _ _ _ Hok1 Hr) as (Hok2 & Hall2 & ext2 & -> & Hext2).
    split_and!; [done | |].
    + constructor; [|done]. apply elem_of_app. by left.
    + exists (ext1 ++ ext2). rewrite app_assoc. split; [done|].
      intros k Hk. rewrite map_app in Hk. apply elem_of_app in Hk as [Hk | Hk].
      * exists d. split; [left | by apply Hext1].
      * destruct (Hext2 k Hk) as (d' & Hd' & Hrtc). exists d'. split; [by right | done].
Qed.

Lemma getLevel_levelled (fuel : nat) :
  forall n levels l levels',
    LevelsOk steps levels ->
    RelayWorkflowValidate.getLevel m fuel n levels = Some (l, levels') ->
    Levelled steps n levels l levels'.
Proof.
  induction fuel as [|fuel IH]; intros n levels l levels' Hok; [discriminate|].
  cbn [RelayWorkflowValidate.getLevel].
  destruct (JS.lookup n levels) as [l0|] eqn:Hlook.
  { intros [= <- <-]. split_and!; [done | by apply lookup_Some_elem |].
    exists []. rewrite app_nil_r. split; [done|]. intros k Hk. by apply elem_of_nil in Hk. }
  apply lookup_None_keys in Hlook.
  rewrite map_depends.
  destruct (depsOf steps n) as [|d ds] eqn:Hdeps.
  - assert (Hz : forall o : option (list string),
               match (match o with Some [] => Some [] | _ => None end) with
               | None | Some [] => Some (0, JS.set n 0 levels)
               | Some (d :: ds) =>
                 match RelayWorkflowValidate.mapLevels
                         (RelayWorkflowValidate.getLevel m fuel) (d :: ds) levels with
                 | None => None
                 | Some (ls, levels0) =>
                   Some (foldr Z.max (-1) ls + 1,
                         JS.set n (foldr Z.max (-1) ls + 1) levels0)
                 end
               end = Some (0, JS.set n 0 levels)).
    { intros [[|? ?]|]; reflexivity. }
    rewrite Hz. intros [= <- <-]. rewrite set_fresh by done.
    split_and!.
    + apply LevelsOk_snoc; try done; intros Hne; by rewrite Hdeps in Hne.
    + apply elem_of_app. right. left.
    + exists [(n, 0)]. split; [done|]. intros k Hk. cbn in Hk.
      apply list_elem_of_singleton in Hk. by subst.
  - destruct (RelayWorkflowValidate.mapLevels _ (d :: ds) levels) as [[ls levels1]|] eqn:Hm;
      [|discriminate].
    intros [= <- <-].
    destruct (mapLevels_levelled (RelayWorkflowValidate.getLevel m fuel) (d :: ds)
                (fun d' lv l' lv' _ => IH d' lv l' lv') _ _ _ Hok Hm)
      as (Hok1 & Hall & ext & -> & Hext).
    assert (Hfresh : n ∉ map fst (levels ++ ext)).
    { rewrite map_app. intros Hin. apply elem_of_app in Hin as [Hin | Hin]; [done|].
      destruct (Hext n Hin) as (d' & Hd' & Hrtc).
      apply (Hacyclic n). eapply tc_rtc_r; [|exact Hrtc].
      apply tc_once. unfold dependsOn. by rewrite Hdeps. }
    rewrite set_fresh by done.
    assert (Hlen : ls <> []).
    { intros ->. by apply Forall2_nil_inv_r in Hall. }
    assert (Hnn : Forall (fun l => 0 <= l) ls).
    { apply Forall_forall. intros x Hx.
      apply list_elem_of_lookup in Hx as [i Hi].
      destruct (Forall2_lookup_r _ _ _ _ _ Hall Hi) as (d' & _ & Hin').
      by apply (proj2 Hok1 d' x). }
    assert (Hmax : 0 <= foldr Z.max (-1) ls).
    { destruct ls as [|x ls]; [done|]. apply Forall_cons in Hnn as [Hx _].
      cbn [foldr]. lia. }
    split_and!.
    + apply LevelsOk_snoc; try done; [lia | intros H; by rewrite Hdeps in H |].
      intros _. rewrite Hdeps. split.
      * intros d' Hd'. apply list_elem_of_lookup in Hd' as [i Hi].
        destruct (Forall2_lookup_l _ _ _ _ _ Hall Hi) as (ld & Hld & Hin').
        exists ld. split; [done|]. apply list_elem_of_lookup_2 in Hld.
        apply max_upper in Hld. lia.
      * destruct (max_attained ls Hlen) as [Hatt | Hneg]; [|lia].
        apply list_elem_of_lookup in Hatt as [i Hi].
        destruct (Forall2_lookup_r _ _ _ _ _ Hall Hi) as (d' & Hd' & Hin').
        exists d'. split; [by eapply list_elem_of_lookup_2|].
        by replace (foldr Z.max (-1) ls + 1 - 1) with (foldr Z.max (-1) ls) by lia.
    + apply elem_of_app. right. left.
    + exists (ext ++ [(n, foldr Z.max (-1) ls + 1)]). rewrite app_assoc.
      split; [done|]. intros k Hk. rewrite map_app in Hk.
      apply elem_of_app in Hk as [Hk | Hk].
      * destruct (Hext k Hk) as (d' & Hd' & Hrtc).
        eapply rtc_l; [|exact Hrtc]. unfold dependsOn. by rewrite Hdeps.
      * cbn in Hk. apply list_elem_of_singleton in Hk. by subst.
Qed.

End LevelFacts.

Lemma allLevels_levelled (steps : list WorkflowStep) (fuel : nat) (names : list string) :
  NoDup (stepNames steps) -> (forall s, ~ tc (dependsOn steps) s s) ->
  forall levels result,
    LevelsOk steps levels ->
    RelayWorkflowValidate.allLevels (RelayWorkflowValidate.stepMap steps) fuel names levels
    = Some result ->
    LevelsOk steps result
    /\ (forall n, n ∈ names -> n ∈ map fst result)
    /\ exists ext, result = levels ++ ext
                   /\ forall k, k ∈ map fst ext ->
                                exists n, n ∈ names /\ rtc (dependsOn steps) n k.
Proof.
  intros Hu Hacyc. induction names as [|n names IH]; intros levels result Hok.
  - cbn. intros [= <-]. split_and!; [done | intros n Hn; by apply elem_of_nil in Hn |].
    exists []. rewrite app_nil_r. split; [done|]. intros k Hk. by apply elem_of_nil in Hk.
  - cbn [RelayWorkflowValidate.allLevels].
    destruct (RelayWorkflowValidate.getLevel _ fuel n levels) as [[l levels1]|] eqn:Hn;
      [|discriminate].
    intros Hrest.
    destruct (getLevel_levelled steps Hu Hacyc fuel n levels l levels1 Hok Hn)
      as (Hok1 & Hin1 & ext1 & -> & Hext1).
    destruct (IH _ _ Hok1 Hrest) as (Hok2 & Hall2 & ext2 & -> & Hext2).
    split_and!; [done | |].
    + intros n' Hn'. apply elem_of_cons in Hn' as [-> | Hn']; [|by apply Hall2].
      rewrite map_app. apply elem_of_app. left.
      change n with (fst (n, l)). by apply list_elem_of_fmap_2.
    + exists (ext1 ++ ext2). rewrite app_assoc. split; [done|].
      intros k Hk. rewrite map_app in Hk. apply elem_of_app in Hk as [Hk | Hk].
      * exists n. split; [left | by apply Hext1].
      * destruct (Hext2 k Hk) as (n' & Hn' & Hrtc). exists n'. split; [by right | done].
Qed.

Lemma LevelsOk_inhabited (steps : list WorkflowStep) (levels : list (string * Z)) :
  LevelsOk steps levels ->
  forall (k : nat) n l, Z.to_nat l = k -> (n, l) ∈ levels ->
    forall i, 0 <= i <= l -> exists n', (n', i) ∈ levels.
Proof.
  intros [_ Hok]. induction k as [|k IH]; intros n l Hk Hin i Hi.
  - destruct (Hok n l Hin) as (H0 & _). assert (i = l) as -> by lia. eauto.
  - destruct (decide (i = l)) as [-> | Hne]; [eauto|].
    destruct (Hok n l Hin) as (H0 & Hz & Hs).
    destruct (decide (depsOf steps n = [])) as [He | He]; [specialize (Hz He); lia|].
    destruct (Hs He) as [_ (d & _ & Hd)].
    apply (IH d (l - 1)); [lia | done | lia].
Qed.

Lemma filter_level_split (levels : list (string * Z)) (k : Z) :
  List.filter (fun e => snd e <? k + 1) levels
  ≡ₚ List.filter (fun e => snd e <? k) levels
     ++ List.filter (fun e => snd e =? k) levels.
Proof.
  induction levels as [|[n l] levels IH]; [done|]. cbn [List.filter snd].
  destruct (l <? k + 1) eqn:E1, (l <? k) eqn:E2, (l =? k) eqn:E3; try lia.
  - cbn. by rewrite IH.
  - rewrite IH. by rewrite <- Permutation_middle.
  - done.
Qed.

Lemma concat_levels (levels : list (string * Z)) (k : nat) :
  (forall e, e ∈ levels -> 0 <= snd e) ->
  concat (map (fun i : nat =>
                 map fst (List.filter (fun e => snd e =? Z.of_nat i) levels))
              (seq 0 k))
  ≡ₚ map fst (List.filter (fun e => snd e <? Z.of_nat k) levels).
Proof.
  intros Hnn. induction k as [|k IH].
  - cbn [seq map concat]. change (Z.of_nat 0) with 0.
    induction levels as [|e levels IHl]; [done|]. cbn [List.filter].
    destruct (snd e <? 0) eqn:E.
    + specialize (Hnn e ltac:(left)). lia.
    + apply IHl. intros e' He'. apply Hnn. by right.
  - rewrite seq_S, map_app, concat_app, IH. cbn [map concat plus]. rewrite app_nil_r.
    replace (Z.of_nat (S k)) with (Z.of_nat k + 1) by lia.
    by rewrite filter_level_split, map_app.
Qed.

Lemma filter_all {A} (f : A -> bool) (l : list A) :
  (forall x, x ∈ l -> f x = true) -> List.filter f l = l.
Proof.
  induction l as [|a l IH]; intros H; [done|]. cbn.
  rewrite (H a) by left. f_equal. apply IH. intros x Hx. apply H. by right.
Qed.

Lemma level_group (levels : list (string * Z)) (i : nat) (n : string) :
  n ∈ map fst (List.filter (fun e => snd e =? Z.of_nat i) levels)
  <-> (n, Z.of_nat i) ∈ levels.
Proof.
  rewrite list_elem_of_fmap. split.
  - intros ([n' l] & -> & Hin). apply list_elem_of_In, filter_In in Hin as [Hin Hl].
    cbn in Hl |- *. apply Z.eqb_eq in Hl. subst. by apply list_elem_of_In.
  - intros Hin. exists (n, Z.of_nat i). split; [done|].
    apply list_elem_of_In, filter_In. split; [by apply list_elem_of_In | cbn; lia].
Qed.

(** The groups built from a finished level map. *)
Lemma groups_of_levels (steps : list WorkflowStep) (levels : list (string * Z)) :
  LevelsOk steps levels ->
  let groups :=
    List.filter (fun group => (0 <? length group)%nat)
      (map (fun i : nat =>
              map fst (List.filter (fun e => snd e =? Z.of_nat i) levels))
           (seq 0 (Z.to_nat (foldr Z.max (-1) (map snd levels) + 1)))) in
  concat groups ≡ₚ map fst levels
  /\ (forall g, g ∈ groups -> g <> [])
  /\ forall i n, inGroup groups i n <-> (n, Z.of_nat i) ∈ levels.
Proof.
  intros Hok. set (top := foldr Z.max (-1) (map snd levels)).
  set (G := fun i : nat => map fst (List.filter (fun e => snd e =? Z.of_nat i) levels)).
  assert (Hnn : forall e, e ∈ levels -> 0 <= snd e).
  { intros [n l] He. by destruct (proj2 Hok n l He). }
  assert (Hle : forall e, e ∈ levels -> snd e <= top).
  { intros e He. apply max_upper. by apply list_elem_of_fmap_2. }
  assert (Hfull : forall i : nat, (i < Z.to_nat (top + 1))%nat -> G i <> []).
  { intros i Hi.
    assert (Htop : top ∈ map snd levels).
    { destruct (max_attained (map snd levels)) as [H | H]; [|done|fold top in H; lia].
      intros Hnil. apply fmap_nil_inv in Hnil. subst levels. cbn in top. subst top.
      cbn in Hi. lia. }
    apply list_elem_of_fmap in Htop as ([n l] & Hl & Hin). cbn in Hl. subst l.
    destruct (LevelsOk_inhabited steps levels Hok _ n top eq_refl Hin (Z.of_nat i))
      as [n' Hn']; [lia|].
    apply level_group in Hn'. intros Hnil. unfold G in Hnil. rewrite Hnil in Hn'.
    by apply elem_of_nil in Hn'. }
  intros groups.
  assert (Hgroups : groups = map G (seq 0 (Z.to_nat (top + 1)))).
  { unfold groups. apply filter_all. intros g Hg.
    apply list_elem_of_fmap in Hg as (i & -> & Hi). apply elem_of_seq in Hi.
    specialize (Hfull i ltac:(lia)). fold (G i). destruct (G i); [done|]. done. }
  split_and!.
  - rewrite Hgroups. unfold G. rewrite concat_levels by done.
    rewrite filter_all; [done|]. intros e He. specialize (Hle e He). specialize (Hnn e He).
    apply Z.ltb_lt. lia.
  - rewrite Hgroups. intros g Hg. apply list_elem_of_fmap in Hg as (i & -> & Hi).
    apply elem_of_seq in Hi. apply Hfull. lia.
  - intros i n. rewrite Hgroups. unfold inGroup. split.
    + intros (g & Hg & Hn). rewrite list_lookup_fmap in Hg.
      destruct (seq 0 (Z.to_nat (top + 1)) !! i) as [j|] eqn:Hj; [|discriminate].
      apply lookup_seq in Hj as [-> _]. cbn in Hg. injection Hg as <-.
      by apply level_group in Hn.
    + intros Hin. exists (G i). split; [|by apply level_group].
      rewrite list_lookup_fmap.
      rewrite (proj2 (lookup_seq 0 (Z.to_nat (top + 1)) i i)); [done|].
      split; [done|]. specialize (Hle _ Hin). cbn in Hle. lia.
Qed.

Lemma parallelGroups_spec (steps : list WorkflowStep) (groups : list (list string)) :
  NoDup (stepNames steps) -> resolved steps -> acyclic steps ->
  RelayWorkflowValidate.calculateParallelGroups steps = Some groups ->
  exists levels,
    LevelsOk steps levels
    /\ map fst levels ≡ₚ stepNames steps
    /\ concat groups ≡ₚ stepNames steps
    /\ (forall g, g ∈ groups -> g <> [])
    /\ forall i n, inGroup groups i n <-> (n, Z.of_nat i) ∈ levels.
Proof.
  intros Hu Hres Hacyc. unfold RelayWorkflowValidate.calculateParallelGroups.
  destruct (RelayWorkflowValidate.allLevels _ _ _ []) as [levels|] eqn:Hlev; [|discriminate].
  intros [= <-].
  assert (Hacyc' : forall s, ~ tc (dependsOn steps) s s).
  { intros s Hs. apply (Hacyc s). by apply tc_declares_dependsOn. }
  assert (Hnil : LevelsOk steps []).
  { split; [constructor|]. intros n l Hin. by apply elem_of_nil in Hin. }
  destruct (allLevels_levelled steps _ _ Hu Hacyc' [] levels Hnil Hlev)
    as (Hok & Hall & ext & Hext & Hreach).
  cbn in Hext. subst ext.
  assert (Hkeys : map fst levels ≡ₚ stepNames steps).
  { apply NoDup_Permutation; [apply Hok | done |]. intros k. split.
    - intros Hk. destruct (Hreach k Hk) as (n & Hn & Hrtc).
      by apply (rtc_named steps n k).
    - apply Hall. }
  destruct (groups_of_levels steps levels Hok) as (Hcat & Hne & Hin).
  exists levels. split_and!; try done. by rewrite Hcat.
Qed.

Lemma checkStep_clean (steps : list WorkflowStep) (step : WorkflowStep) :
  (RelayWorkflowValidate.checkStep (list_to_set (map name steps)) step).1 = []
  <-> wellFormed steps step.
Proof.
  unfold RelayWorkflowValidate.checkStep, wellFormed. split.
  - destruct (String.eqb (name step) "") eqn:E1; cbn [orb]; [discriminate|].
    destruct (String.eqb (JS.trim (name step)) "") eqn:E2; [discriminate|].
    apply String.eqb_neq in E1, E2. cbn [fst].
    intros H. apply app_eq_nil in H as [H1 H].
    apply app_eq_nil in H as [H2 H]. apply app_eq_nil in H as [H3 H].
    apply app_eq_nil in H as [H4 H5].
    split_and!; try done.
    + destruct (truthy (model step)), (truthy (prompt step)); cbn in H1, H2; done.
    + intros Hm. rewrite Hm in H3. cbn in H3.
      by destruct (RelayWorkflowValidate.isValidModelFormat _).
    + intros Hm. rewrite Hm in H4. cbn in H4.
      destruct ((length _ =? 2)%nat) eqn:E; [by apply Nat.eqb_eq in E | discriminate].
    + intros dep Hdep. rewrite flat_map_nil in H5. specialize (H5 dep Hdep).
      apply app_eq_nil in H5 as [Ha Hb].
      destruct (decide (dep ∈ _)) as [Hd|]; [|discriminate].
      apply elem_of_list_to_set in Hd.
      destruct (String.eqb dep (name step)) eqn:E; [discriminate|].
      by apply String.eqb_neq in E.
  - intros (H1 & H2 & H3 & H4 & H5 & H6).
    apply String.eqb_neq in H1, H2. rewrite H1, H2. cbn [orb fst].
    rewrite <- H3.
    assert (Hdeps : flat_map
              (fun dep =>
                 (if decide (dep ∈ (list_to_set (map name steps) : gset string)) then []
                  else [ {| RelayWorkflowValidate.ve_step := name step;
                            RelayWorkflowValidate.ve_field := "depends";
                            RelayWorkflowValidate.ve_message :=
                              RelayWorkflowValidate.DependencyNotFound dep |} ])
                 ++ (if String.eqb dep (name step)
                     then [ {| RelayWorkflowValidate.ve_step := name step;
                               RelayWorkflowValidate.ve_field := "depends";
                               RelayWorkflowValidate.ve_message :=
                                 RelayWorkflowValidate.SelfDependency |} ]
                     else []))
              (default [] (depends step)) = []).
    { apply flat_map_nil. intros dep Hdep. destruct (H6 dep Hdep) as [Hin Hne].
      destruct (decide (dep ∈ _)) as [|Hn];
        [|exfalso; apply Hn; by apply elem_of_list_to_set].
      apply String.eqb_neq in Hne. by rewrite Hne. }
    rewrite Hdeps.
    destruct (truthy (model step)) eqn:Em; cbn [andb negb].
    + rewrite (H4 eq_refl). cbn [negb app].
      destruct (truthy (mcp step)) eqn:Ec; cbn [andb]; [|done].
      rewrite (H5 eq_refl). done.
    + cbn [app]. destruct (truthy (mcp step)) eqn:Ec; cbn [andb]; [|done].
      rewrite (H5 eq_refl). done.
Qed.

Lemma isValidModelFormat_parses (model : string) :
  RelayWorkflowValidate.isValidModelFormat model = true ->
  exists provider modelId,
    RelayRun.parseModel model = inr (provider, modelId)
    /\ modelId <> ""
    /\ JS.includes provider ["openai"; "anthropic"; "google"; "xai"; "local"] = true.
Proof.
  unfold RelayWorkflowValidate.isValidModelFormat, RelayRun.parseModel.
  destruct (JS.split ":" model) as [|p [|m [|x rest]]]; try discriminate.
  intros H. apply andb_true_iff in H as [Hp Hm]. exists p, m.
  split_and!; [done | | done]. intros ->. discriminate.
Qed.

Lemma wellFormed_resolved (steps : list WorkflowStep) :
  (forall step, step ∈ steps -> wellFormed steps step) -> resolved steps.
Proof.
  intros Hwf a b (step & Hin & <- & Hb).
  destruct (Hwf step Hin) as (_ & _ & _ & _ & _ & H6). by apply H6.
Qed.

(** What a report says by [valid], and what else it then holds. *)
Lemma valid_report_inv (steps : list WorkflowStep)
    (report : RelayWorkflowValidate.RelayWorkflowValidateResponse) :
  RelayWorkflowValidate.relayWorkflowValidate steps = Some report ->
  (RelayWorkflowValidate.valid report = true
   <-> NoDup (stepNames steps)
       /\ (forall step, step ∈ steps -> wellFormed steps step)
       /\ acyclic steps)
  /\ (RelayWorkflowValidate.valid report = true ->
      RelayWorkflowValidate.executionOrder report
      = RelayWorkflowValidate.r_order (RelayWorkflowValidate.topologicalSort steps)
      /\ RelayWorkflowValidate.calculateParallelGroups steps
         = Some (RelayWorkflowValidate.parallelGroups report)).
Proof.
  unfold RelayWorkflowValidate.relayWorkflowValidate.
  destruct (validate_topologicalSort_spec steps) as (_ & Hok & _).
  pose proof (sort_of_acyclic steps) as Hsorted.
  destruct (RelayWorkflowValidate.topologicalSort steps) as [ord cyc cs] eqn:Hsort.
  cbn [RelayWorkflowValidate.hasCycle RelayWorkflowValidate.r_order
       RelayWorkflowValidate.r_cycleStep] in *.
  destruct cyc.
  { intros [= <-]. cbn [RelayWorkflowValidate.valid]. rewrite length_app. cbn [length].
    split; [split|].
    - intros H. apply Nat.eqb_eq in H. lia.
    - intros (Hu & Hwf & Hacyc).
      destruct (Hsorted Hu (wellFormed_resolved _ Hwf) Hacyc) as (sorted & _ & H2 & _).
      discriminate.
    - intros H. apply Nat.eqb_eq in H. lia. }
  destruct (RelayWorkflowValidate.calculateParallelGroups steps) as [groups|];
    [|discriminate].
  intros [= <-].
  cbn [RelayWorkflowValidate.valid RelayWorkflowValidate.executionOrder
       RelayWorkflowValidate.parallelGroups].
  split; [|done].
  rewrite Nat.eqb_eq. split.
  - intros Hvalid. apply nil_length_inv, app_eq_nil in Hvalid as [Hdup Hsteps].
    apply duplicateErrors_nil in Hdup. rewrite flat_map_nil in Hsteps.
    split_and!; [done | |].
    + intros step Hin. by apply checkStep_clean, Hsteps.
    + destruct (Hok eq_refl) as (_ & _ & _ & _ & _ & Hno).
      intros a Ha. apply (Hno a). by apply tc_declares_dependsOn.
  - intros (Hu & Hwf & _).
    apply duplicateErrors_nil in Hu. rewrite Hu. cbn [app].
    replace (flat_map _ steps) with (@nil RelayWorkflowValidate.ValidationError); [done|].
    symmetry. apply flat_map_nil. intros step Hin. by apply checkStep_clean, Hwf.
Qed.

(** Property X23.  A validation report is valid exactly when the step names
    are distinct, every step is well formed and no dependency cycle exists.
    For a valid report every model of a step parses in [relayRun] with a
    provider of the known list, and the sort of the engine succeeds with the
    reported execution order, a permutation of the steps in which
    dependencies come first. *)
Theorem valid_report_means_runnable
    (steps : list WorkflowStep)
    (report : RelayWorkflowValidate.RelayWorkflowValidateResponse) :
  RelayWorkflowValidate.relayWorkflowValidate steps = Some report ->
  (RelayWorkflowValidate.valid report = true
   <-> NoDup (stepNames steps)
       /\ (forall step, step ∈ steps -> wellFormed steps step)
       /\ acyclic steps)
  /\ (RelayWorkflowValidate.valid report = true ->
      (forall step,
          step ∈ steps -> truthy (model step) = true ->
          exists provider modelId,
            RelayRun.parseModel (default "" (model step)) = inr (provider, modelId)
            /\ modelId <> ""
            /\ JS.includes provider ["openai"; "anthropic"; "google"; "xai"; "local"]
               = true)
      /\ exists sorted,
           RelayWorkflowRun.topologicalSort steps = inr sorted
           /\ map name sorted = RelayWorkflowValidate.executionOrder report
           /\ map name sorted ≡ₚ stepNames steps
           /\ (forall a b, declares steps a b -> before b a (map name sorted))).
Proof.
  intros Hrep. destruct (valid_report_inv steps report Hrep) as [Hiff Hmore].
  split; [exact Hiff|]. intros Hvalid.
  destruct (proj1 Hiff Hvalid) as (Hu & Hwf & Hacyc).
  destruct (Hmore Hvalid) as [Hord _]. split.
  - intros step Hin Hm. destruct (Hwf step Hin) as (_ & _ & _ & H4 & _).
    by apply isValidModelFormat_parses, H4.
  - destruct (sort_of_acyclic steps Hu (wellFormed_resolved _ Hwf) Hacyc)
      as (sorted & H1 & H2 & H3 & H4 & _).
    exists sorted. rewrite H2 in Hord. cbn in Hord. by rewrite Hord.
Qed.

Lemma valid_report_witness :
  exists sorted, RelayWorkflowRun.topologicalSort stepsAB = inr sorted
                 /\ map name sorted = ["A"; "B"].
Proof.
  destruct (valid_report_means_runnable stepsAB
              {| RelayWorkflowValidate.valid := true;
                 RelayWorkflowValidate.errors := [];
                 RelayWorkflowValidate.warnings :=
                   [ {| RelayWorkflowValidate.vw_step := "A";
                        RelayWorkflowValidate.vw_message :=
                          RelayWorkflowValidate.PassThroughStep |};
                     {| RelayWorkflowValidate.vw_step := "B";
                        RelayWorkflowValidate.vw_message :=
                          RelayWorkflowValidate.PassThroughStep |} ];
                 RelayWorkflowValidate.totalSteps := 2;
                 RelayWorkflowValidate.executionOrder := ["A"; "B"];
                 RelayWorkflowValidate.parallelGroups := [["A"]; ["B"]] |})
    as (_ & H).
  - vm_compute. reflexivity.
  - destruct (H eq_refl) as (_ & sorted & H1 & H2 & _).
    exists sorted. split; [exact H1 | exact H2].
Defined.

(** Property X24.  The parallel groups of a valid report divide the step
    names into non-empty groups; the dependencies of a step lie in strictly
    earlier groups, the first group holds exactly the steps without
    dependencies, and every step of a later group has a dependency in the
    group right before it: each step is placed as early as its dependencies
    allow. *)
Theorem parallel_groups_respect_dependencies
    (steps : list WorkflowStep)
    (report : RelayWorkflowValidate.RelayWorkflowValidateResponse) :
  RelayWorkflowValidate.relayWorkflowValidate steps = Some report ->
  RelayWorkflowValidate.valid report = true ->
  let groups := RelayWorkflowValidate.parallelGroups report in
  concat groups ≡ₚ stepNames steps
  /\ (forall group, group ∈ groups -> group <> [])
  /\ (forall a b,
        declares steps a b ->
        exists i j, inGroup groups i a /\ inGroup groups j b /\ (j < i)%nat)
  /\ (forall a, a ∈ stepNames steps -> (inGroup groups 0 a <-> depsOf steps a = []))
  /\ (forall i a,
        inGroup groups (S i) a ->
        exists b, declares steps a b /\ inGroup groups i b).
Proof.
  intros Hrep Hvalid groups.
  destruct (valid_report_inv steps report Hrep) as [Hiff Hmore].
  destruct (proj1 Hiff Hvalid) as (Hu & Hwf & Hacyc).
  destruct (Hmore Hvalid) as [_ Hgroups].
  destruct (parallelGroups_spec steps groups Hu (wellFormed_resolved _ Hwf) Hacyc Hgroups)
    as (levels & [Hnd Hok] & Hkeys & Hcat & Hne & Hin).
  assert (Hlevel : forall a, a ∈ stepNames steps -> exists l, (a, l) ∈ levels).
  { intros a Ha. rewrite <- Hkeys in Ha.
    apply list_elem_of_fmap in Ha as ([a' l] & -> & Hl). eauto. }
  split_and!; try done.
  - intros a b Hab. pose proof Hab as (step & Hs & <- & _).
    destruct (Hlevel (name step)) as [l Hl]; [by apply list_elem_of_fmap_2|].
    apply (declares_dependsOn steps Hu) in Hab.
    destruct (Hok _ l Hl) as (H0 & _ & Hs').
    destruct Hs' as [Hall _]; [intros He; unfold dependsOn in Hab; rewrite He in Hab;
                               by apply elem_of_nil in Hab|].
    destruct (Hall b Hab) as (lb & Hlb & Hlt).
    destruct (Hok _ lb Hlb) as (H0b & _).
    exists (Z.to_nat l), (Z.to_nat lb). split_and!; [| |lia].
    + apply Hin. by rewrite Z2Nat.id.
    + apply Hin. by rewrite Z2Nat.id.
  - intros a Ha. rewrite Hin. change (Z.of_nat 0) with 0. split.
    + intros Hl. destruct (Hok a 0 Hl) as (_ & _ & Hs').
      destruct (decide (depsOf steps a = [])) as [|He]; [done|].
      destruct (Hs' He) as [_ (d & _ & Hd)]. destruct (Hok d _ Hd). lia.
    + intros He. destruct (Hlevel a Ha) as [l Hl].
      destruct (Hok a l Hl) as (_ & Hz & _). by rewrite <- (Hz He).
  - intros i a Ha. apply Hin in Ha. destruct (Hok a _ Ha) as (_ & Hz & Hs').
    destruct (decide (depsOf steps a = [])) as [He | He]; [specialize (Hz He); lia|].
    destruct (Hs' He) as [_ (d & Hd & Hl)]. exists d. split.
    + by apply (declares_dependsOn steps Hu).
    + apply Hin. by replace (Z.of_nat i) with (Z.of_nat (S i) - 1) by lia.
Qed.

Lemma parallel_groups_witness :
  concat [["A"]; ["B"]] ≡ₚ stepNames stepsAB.
Proof.
  destruct (parallel_groups_respect_dependencies stepsAB
              {| RelayWorkflowValidate.valid := true;
                 RelayWorkflowValidate.errors := [];
                 RelayWorkflowValidate.warnings :=
                   [ {| RelayWorkflowValidate.vw_step := "A";
                        RelayWorkflowValidate.vw_message :=
                          RelayWorkflowValidate.PassThroughStep |};
                     {| RelayWorkflowValidate.vw_step := "B";
                        RelayWorkflowValidate.vw_message :=
                          RelayWorkflowValidate.PassThroughStep |} ];
                 RelayWorkflowValidate.totalSteps := 2;
                 RelayWorkflowValidate.executionOrder := ["A"; "B"];
                 RelayWorkflowValidate.parallelGroups := [["A"]; ["B"]] |})
    as (H & _).
  - vm_compute. reflexivity.
  - reflexivity.
  - exact H.
Defined.

Lemma report_shape (steps : list WorkflowStep)
    (report : RelayWorkflowValidate.RelayWorkflowValidateResponse) :
  RelayWorkflowValidate.relayWorkflowValidate steps = Some report ->
  RelayWorkflowValidate.totalSteps report = length steps
  /\ RelayWorkflowValidate.valid report
     = (length (RelayWorkflowValidate.errors report) =? 0)%nat.
Proof.
  unfold RelayWorkflowValidate.relayWorkflowValidate.
  destruct (if RelayWorkflowValidate.hasCycle _ then _ else _); [|discriminate].
  by intros [= <-].
Qed.

(** Property X25.  On a list with distinct step names
    [relayWorkflowValidate] always returns a report, cycles and unknown
    dependencies included: the level recursion ends.  The report counts all
    steps, and it is valid exactly when it lists no error, which is when
    every step is well formed and no dependency cycle exists. *)
Theorem validate_returns_when_names_are_unique (steps : list WorkflowStep) :
  NoDup (stepNames steps) ->
  exists report,
    RelayWorkflowValidate.relayWorkflowValidate steps = Some report
    /\ RelayWorkflowValidate.totalSteps report = length steps
    /\ (RelayWorkflowValidate.valid report = true
        <-> RelayWorkflowValidate.errors report = [])
    /\ (RelayWorkflowValidate.valid report = true
        <-> (forall step, step ∈ steps -> wellFormed steps step) /\ acyclic steps).
Proof.
  intros Hu. destruct (validate_returns_on_unique_names steps Hu) as [report Hrep].
  exists report. destruct (report_shape steps report Hrep) as [Htotal Hvalid].
  destruct (valid_report_inv steps report Hrep) as [Hiff _].
  split_and!; [done.. | |].
  - rewrite Hvalid, Nat.eqb_eq. split; [apply nil_length_inv | by intros ->].
  - rewrite Hiff. split; [by intros (_ & ? & ?) | by intros [? ?]].
Qed.

Lemma validate_returns_witness :
  exists report, RelayWorkflowValidate.relayWorkflowValidate stepsACB = Some report.
Proof.
  destruct (validate_returns_when_names_are_unique stepsACB) as (report & H & _).
  - refine (bool_decide_unpack _ _). vm_compute. exact I.
  - exists report. exact H.
Defined.
